(** * Three-phase search for the diverse grouping problem: a shallow embedding

    The C++ program [src/src/anticlustering.c] partitions [N] elements into
    [K] groups of bounded cardinality so as to maximise the sum of the
    pairwise dissimilarities inside the groups.  This file embeds, as Rocq
    functions, the routines that maintain the incremental matrix
    ([Build_Delta_Matrix], [One_Move_Update_Delta_Matrix1]), the local search
    ([RandLS]), the two perturbations ([StrongPerturbation],
    [DirectPerturbation]), the recombination ([Crossover]), the acceptance
    test ([FitRadioAndDis]) and the loader ([inputing]), and proves properties
    of them.

    Conventions of the embedding.
    - A C [int] is a [Z]; the program's integers are indices and counters
      bounded by [N*N], and signed overflow is not modelled.
    - A C [double] is an exact rational [Qc].  Sums, differences and
      comparisons are those of the rationals, so every statement about costs
      is a statement in exact arithmetic; rounding is not modelled.  The
      conversion of a [double] to an [int] truncates toward zero ([trunc]).
    - An array is a [list]; reading or writing outside of it, and a division
      by zero, are undefined behaviour in C and yield [Undef] here.
    - [rand()] is a stream [rnd : nat -> Z] of non-negative draws together
      with the number of draws consumed so far.
    - A loop whose exit depends on the draws or on the data takes a fuel and
      yields [NoFuel] when it is exhausted. *)

From Stdlib Require Import ZArith QArith Qcanon Qround Lia Lqa.
From Stdlib Require Import String.
From stdpp Require Import base tactics option list numbers strings.

Local Open Scope Z_scope.

(** ** Results of running a routine *)

Inductive res (A : Type) : Type :=
  | Ok (a : A)
  | Undef
  | NoFuel.
Arguments Ok {A} a.
Arguments Undef {A}.
Arguments NoFuel {A}.

#[global] Instance res_ret : MRet res := fun A a => Ok a.
#[global] Instance res_bind : MBind res := fun A B f m =>
  match m with
  | Ok a => f a
  | Undef => Undef
  | NoFuel => NoFuel
  end.

(** Two results agree when both fail in the same way or both return related
    values. *)
Definition res_sim {A} (R : A → A → Prop) (r1 r2 : res A) : Prop :=
  match r1, r2 with
  | Ok a, Ok b => R a b
  | Undef, Undef => True
  | NoFuel, NoFuel => True
  | _, _ => False
  end.

(** ** Arrays *)

Definition rd {A} (a : list A) (i : Z) : res A :=
  if decide (0 <= i) then
    match a !! Z.to_nat i with
    | Some x => Ok x
    | None => Undef
    end
  else Undef.

Definition wr {A} (a : list A) (i : Z) (x : A) : res (list A) :=
  if decide (0 <= i < Z.of_nat (length a)) then Ok (<[Z.to_nat i := x]> a)
  else Undef.

Definition rd2 {A} (m : list (list A)) (i j : Z) : res A :=
  row ← rd m i; rd row j.

Definition wr2 {A} (m : list (list A)) (i j : Z) (x : A) : res (list (list A)) :=
  row ← rd m i; row' ← wr row j x; wr m i row'.

(** ** Counted loops: [for (i = lo; i < hi; i++) body] *)

Fixpoint for_from {St} (n : nat) (i : Z) (body : Z → St → res St) (s : St)
  : res St :=
  match n with
  | O => Ok s
  | S n' => s' ← body i s; for_from n' (i + 1) body s'
  end.

Definition for_loop {St} (lo hi : Z) (body : Z → St → res St) (s : St)
  : res St :=
  for_from (Z.to_nat (hi - lo)) lo body s.

(** ** Numbers *)

Definition q (n : Z) (d : positive) : Qc := Q2Qc (n # d).

(** The literal [0.0001] against which every gain is compared. *)
Definition eps : Qc := q 1 10000.

(** Conversion of a [double] to an [int]: the fractional part is dropped. *)
Definition trunc (x : Qc) : Z := Z.quot (Qnum (this x)) (Zpos (Qden (this x))).

(** [a % b] of C on integers; a zero divisor is undefined. *)
Definition c_mod (a b : Z) : res Z :=
  if decide (b = 0) then Undef else Ok (Z.rem a b).

(** [a / b] of C on integers. *)
Definition c_div (a b : Z) : res Z :=
  if decide (b = 0) then Undef else Ok (Z.quot a b).

(** ** The global state of the incremental matrix

    [G.t] gathers the process-wide variables that [Build_Delta_Matrix] and
    the local search work on: the partition [p], the matrix [Delta_Matrix],
    the gain table [Delta], the cost [f] and [f_best]. *)

Module G.
Record t : Type := mk {
  p : list Z;
  Delta_Matrix : list (list Qc);
  Delta : list (list Qc);
  f : Qc;
  f_best : Qc
}.
Definition set_p (s : t) (x : list Z) : t :=
  mk x (Delta_Matrix s) (Delta s) (f s) (f_best s).
Definition set_Delta_Matrix (s : t) (x : list (list Qc)) : t :=
  mk (p s) x (Delta s) (f s) (f_best s).
Definition set_Delta (s : t) (x : list (list Qc)) : t :=
  mk (p s) (Delta_Matrix s) x (f s) (f_best s).
Definition set_f (s : t) (x : Qc) : t :=
  mk (p s) (Delta_Matrix s) (Delta s) x (f_best s).
Definition set_f_best (s : t) (x : Qc) : t :=
  mk (p s) (Delta_Matrix s) (Delta s) (f s) x.
End G.

(** [for (i = 0; i < n; i++) dst[i] = src[i];] *)
Definition copy_into {A} (n : Z) (src dst : list A) : res (list A) :=
for_loop 0 n (fun i dst => x ← rd src i; wr dst i x) dst.

Section DeltaMatrix.
(** The instance: element and group counts, the dissimilarity matrix [D],
    its double [DT], and the group bounds. *)
Context (N K : Z) (D DT : list (list Qc)) (LB UB : list Z).

Definition Clear_Delta_Matrix (s : G.t) : res G.t :=
  let s := G.set_f s 0%Qc in
  m ← for_loop 0 N (fun x m =>
         for_loop 0 K (fun g m => wr2 m x g 0%Qc) m) (G.Delta_Matrix s);
  Ok (G.set_Delta_Matrix s m).

Definition Build_Delta_Matrix (s : G.t) : res G.t :=
  s ← Clear_Delta_Matrix s;
  m ← for_loop 0 N (fun i m =>
         for_loop 0 N (fun j m =>
           pj ← rd (G.p s) j;
           old ← rd2 m i pj;
           dij ← rd2 D i j;
           wr2 m i pj (old + dij)%Qc) m) (G.Delta_Matrix s);
  let s := G.set_Delta_Matrix s m in
  dl ← for_loop 0 N (fun i dl =>
          for_loop 0 K (fun j dl =>
            a ← rd2 m i j;
            pi ← rd (G.p s) i;
            b ← rd2 m i pi;
            wr2 dl i j (a - b)%Qc) dl) (G.Delta s);
  let s := G.set_Delta s dl in
  f ← for_loop 0 N (fun i f =>
         pi ← rd (G.p s) i;
         a ← rd2 m i pi;
         Ok (f + a)%Qc) 0%Qc;
  Ok (G.set_f s (f / 2)%Qc).

Definition One_Move_Update_Delta_Matrix1 (i g0 g1 : Z) (s : G.t) : res G.t :=
  m ← for_loop 0 N (fun j m =>
         if decide (j ≠ i) then
           dij ← rd2 D i j;
           a ← rd2 m j g0;
           m ← wr2 m j g0 (a - dij)%Qc;
           b ← rd2 m j g1;
           wr2 m j g1 (b + dij)%Qc
         else Ok m) (G.Delta_Matrix s);
  Ok (G.set_Delta_Matrix s m).

(** *** Local search

    The state of a sweep is the globals, the caller's [SizeGroup] array
    and the local [Flag]. *)
Definition ls_state : Type := G.t * list Z * Z.

(** Body of the relocation neighbourhood for one pair [(v, g)]. *)
Definition RandLS_move (v g : Z) (st : ls_state) : res ls_state :=
  let '(s, SizeGroup, Flag) := st in
  pv ← rd (G.p s) v;
  if decide (pv ≠ g) then
    sz ← rd SizeGroup pv;
    lb ← rd LB pv;
    if decide (sz > lb) then
      szg ← rd SizeGroup g;
      ubg ← rd UB g;
      if decide (szg < ubg) then
        a ← rd2 (G.Delta_Matrix s) v g;
        b ← rd2 (G.Delta_Matrix s) v pv;
        let delt := (a - b)%Qc in
        if decide (eps < delt)%Qc then
          let old_g := pv in
          s ← One_Move_Update_Delta_Matrix1 v old_g g s;
          x ← rd SizeGroup old_g;
          SizeGroup ← wr SizeGroup old_g (x - 1);
          y ← rd SizeGroup g;
          SizeGroup ← wr SizeGroup g (y + 1);
          p' ← wr (G.p s) v g;
          Ok (G.set_f (G.set_p s p') (G.f s + delt)%Qc, SizeGroup, 1)
        else Ok st
      else Ok st
    else Ok st
  else Ok st.

(** Body of the swap neighbourhood for one pair [(x, y)]. *)
Definition RandLS_swap (x y : Z) (st : ls_state) : res ls_state :=
  let '(s, SizeGroup, Flag) := st in
  px ← rd (G.p s) x;
  py ← rd (G.p s) y;
  if decide (px ≠ py) then
    a ← rd2 (G.Delta_Matrix s) x py;
    b ← rd2 (G.Delta_Matrix s) x px;
    c ← rd2 (G.Delta_Matrix s) y px;
    d ← rd2 (G.Delta_Matrix s) y py;
    dt ← rd2 DT x y;
    let delt := ((a - b) + (c - d) - dt)%Qc in
    if decide (eps < delt)%Qc then
      let old_g := px in
      let old_g1 := py in
      s ← One_Move_Update_Delta_Matrix1 x old_g old_g1 s;
      s ← One_Move_Update_Delta_Matrix1 y old_g1 old_g s;
      let swap := px in
      p' ← wr (G.p s) x py;
      p' ← wr p' y swap;
      Ok (G.set_f (G.set_p s p') (G.f s + delt)%Qc, SizeGroup, 1)
    else Ok st
  else Ok st.

(** One pass of the body of the [do ... while (Flag == 1)] loop, after
    [Flag = 0]: the relocations in index order, then the swaps. *)
Definition RandLS_sweep (st : ls_state) : res ls_state :=
  st ← for_loop 0 N (fun v st =>
          for_loop 0 K (fun g st => RandLS_move v g st) st) st;
  for_loop 0 N (fun x st =>
    for_loop (x + 1) N (fun y st => RandLS_swap x y st) st) st.

Fixpoint RandLS_loop (fuel : nat) (s : G.t) (SizeGroup : list Z)
  : res (G.t * list Z) :=
  match fuel with
  | O => NoFuel
  | S fuel' =>
      '(s', SizeGroup', Flag) ← RandLS_sweep (s, SizeGroup, 0);
      if decide (Flag = 1) then RandLS_loop fuel' s' SizeGroup'
      else Ok (s', SizeGroup')
  end.

(** [RandLS(partition, SizeGroup, &cost)]: the result is the globals and
    the three out-parameters. *)
Definition RandLS (fuel : nat) (s : G.t) (partition SizeGroup : list Z)
  : res (G.t * list Z * list Z * Qc) :=
  p' ← copy_into N partition (G.p s);
  s ← Build_Delta_Matrix (G.set_p s p');
  let s := G.set_f_best s (G.f s) in
  '(s, SizeGroup) ← RandLS_loop fuel s SizeGroup;
  partition' ← copy_into N (G.p s) partition;
  Ok (s, partition', SizeGroup, G.f s).

(** [Proof(S)]: the objective recomputed from scratch, the group sizes
    recounted, and the feasibility flag. *)
Definition Proof_cost (P : list Z) : res Qc :=
  for_loop 0 N (fun i ff =>
    for_loop (i + 1) N (fun j ff =>
      pi ← rd P i;
      pj ← rd P j;
      if decide (pi = pj) then dij ← rd2 D i j; Ok (ff + dij)%Qc
      else Ok ff) ff) 0%Qc.

Definition Proof_sizes (P SizeG : list Z) : res (list Z) :=
  sz ← for_loop 0 K (fun i sz => wr sz i 0) SizeG;
  for_loop 0 N (fun i sz =>
    pi ← rd P i; x ← rd sz pi; wr sz pi (x + 1)) sz.

(** The loop that sets [flag = 0] and leaves at the first group outside of
    its bounds: later groups are not read. *)
Fixpoint Proof_flag (n : nat) (i : Z) (SizeG : list Z) : res Z :=
  match n with
  | O => Ok 1
  | S n' =>
      x ← rd SizeG i;
      lb ← rd LB i;
      if decide (x < lb) then Ok 0
      else
        ub ← rd UB i;
        if decide (x > ub) then Ok 0 else Proof_flag n' (i + 1) SizeG
  end.

Definition Proof_ (P SizeG : list Z) : res (Qc * list Z * Z) :=
  ff ← Proof_cost P;
  sz ← Proof_sizes P SizeG;
  flag ← Proof_flag (Z.to_nat K) 0 sz;
  Ok (ff, sz, flag).

End DeltaMatrix.

(** A small instance: four elements, two groups of one to three elements. *)
Module Ex1.
Definition N : Z := 4.
Definition K : Z := 2.
Definition D : list (list Qc) :=
  let z := 0%Qc in
  [ [z; q 1 1; q 4 1; q 3 1];
    [q 1 1; z; q 2 1; q 5 1];
    [q 4 1; q 2 1; z; q 1 1];
    [q 3 1; q 5 1; q 1 1; z] ].
Definition DT : list (list Qc) := map (map (fun x => (2 * x)%Qc)) D.
Definition LB : list Z := [1; 1].
Definition UB : list Z := [3; 3].
Definition zeros : list (list Qc) := replicate 4 (replicate 2 0%Qc).
Definition s0 : G.t := G.mk [0; 0; 0; 0] zeros zeros 0%Qc 0%Qc.
Definition part : list Z := [0; 0; 1; 1].
Definition sizes : list Z := [2; 2].
End Ex1.

(** ** Reference quantities

    Total readers of arrays, used to state what the routines compute. *)

#[global] Instance Qc_inhabited : Inhabited Qc := populate 0%Qc.

Definition get {A} `{Inhabited A} (a : list A) (i : Z) : A := a !!! Z.to_nat i.

Definition get2 {A} `{Inhabited A} (m : list (list A)) (i j : Z) : A :=
  get (get m i) j.

Definition upd {A} (a : list A) (i : Z) (x : A) : list A := <[Z.to_nat i := x]> a.

Definition upd2 {A} (m : list (list A)) (i j : Z) (x : A) : list (list A) :=
  upd m i (upd (get m i) j x).

(** An array of [n] cells; a matrix of [r] rows of [c] cells. *)
Definition len {A} (a : list A) (n : Z) : Prop := Z.of_nat (length a) = n.

Definition dims {A} (m : list (list A)) (r c : Z) : Prop :=
  len m r ∧ Forall (fun row => len row c) m.

(** Every cell of a partition names a group. *)
Definition in_groups (K : Z) (P : list Z) : Prop :=
  Forall (fun g => 0 <= g < K) P.

(** [zsum n h] is the sum of [h 0], ..., [h (n-1)]. *)
Fixpoint zsum (n : nat) (h : Z → Qc) : Qc :=
  match n with
  | O => 0%Qc
  | S n' => (zsum n' h + h (Z.of_nat n'))%Qc
  end.

Section Reference.
Context (N : Z) (D : list (list Qc)).

(** Sum of the dissimilarities between [i] and the members of group [g]. *)
Definition group_sum (P : list Z) (i g : Z) : Qc :=
  zsum (Z.to_nat N) (fun j => if decide (get P j = g) then get2 D i j else 0%Qc).

(** Sum of [D[i][j]] over the pairs [i < j] of one group. *)
Definition objective (P : list Z) : Qc :=
  zsum (Z.to_nat N) (fun i =>
    zsum (Z.to_nat N) (fun j =>
      if decide (i < j ∧ get P i = get P j) then get2 D i j else 0%Qc)).

(** Number of elements of group [g]. *)
Definition group_size (P : list Z) (g : Z) : Z :=
  Z.of_nat (length (filter (fun x => x = g) P)).

(** The matrix holds the group sums of partition [P]. *)
Definition is_delta_matrix (K : Z) (P : list Z) (m : list (list Qc)) : Prop :=
  dims m N K ∧
  ∀ i g, 0 <= i < N → 0 <= g < K → get2 m i g = group_sum P i g.

(** [D] is symmetric with a zero diagonal. *)
Definition symmetric : Prop :=
  ∀ i j, 0 <= i < N → 0 <= j < N → get2 D i j = get2 D j i.

Definition zero_diagonal : Prop :=
  ∀ i, 0 <= i < N → get2 D i i = 0%Qc.

End Reference.

(** ** Local optimality and budgets, stated on the objective *)

Section Neighbourhoods.
Context (N K : Z) (D : list (list Qc)) (LB UB : list Z).

(** Relocating [v] to group [g] is allowed by the sizes recorded in
    [SizeGroup] and raises the objective by more than [eps]. *)
Definition improving_move (P SizeGroup : list Z) (v g : Z) : Prop :=
  get P v ≠ g ∧
  get SizeGroup (get P v) > get LB (get P v) ∧
  get SizeGroup g < get UB g ∧
  (eps < objective N D (upd P v g) - objective N D P)%Qc.

(** Exchanging the groups of [x] and [y] raises the objective by more than
    [eps]. *)
Definition improving_swap (P : list Z) (x y : Z) : Prop :=
  get P x ≠ get P y ∧
  (eps < objective N D (upd (upd P x (get P y)) y (get P x)) - objective N D P)%Qc.

Definition local_optimum (P SizeGroup : list Z) : Prop :=
  (∀ v g, 0 <= v < N → 0 <= g < K → ¬ improving_move P SizeGroup v g) ∧
  (∀ x y, 0 <= x < N → x < y < N → ¬ improving_swap P x y).

(** Sum of all the dissimilarities [D[i][j]], [i < j]. *)
Definition total_dissimilarity : Qc :=
  zsum (Z.to_nat N) (fun i =>
    zsum (Z.to_nat N) (fun j => if decide (i < j) then get2 D i j else 0%Qc)).

Definition nonnegative : Prop :=
  ∀ i j, 0 <= i < N → 0 <= j < N → (0 <= get2 D i j)%Qc.

(** A number of sweeps after which the local search has stopped: more than
    [total_dissimilarity / eps]. *)
Definition sweep_budget : nat :=
  S (Z.to_nat (Qfloor (this (total_dissimilarity / eps)%Qc))).

(** [DT] holds twice [D], as [inputing] fills it. *)
Definition is_double (DT : list (list Qc)) : Prop :=
  dims DT N N ∧
  ∀ i j, 0 <= i < N → 0 <= j < N → get2 DT i j = (2 * get2 D i j)%Qc.

(** The arrays of a state have the sizes that [AssignMemery] gives them. *)
Definition allocated (s : G.t) : Prop :=
  len (G.p s) N ∧ dims (G.Delta_Matrix s) N K ∧ dims (G.Delta s) N K.

End Neighbourhoods.

(** ** Invariant of the local search and sequences of moves *)

Section LocalSearchInvariant.
Context (N K : Z) (D : list (list Qc)).

(** The matrix and the cost are those of the current partition. *)
Definition ls_inv (st : ls_state) : Prop :=
  len (G.p st.1.1) N ∧ in_groups K (G.p st.1.1) ∧
  is_delta_matrix N D K (G.p st.1.1) (G.Delta_Matrix st.1.1) ∧
  G.f st.1.1 = objective N D (G.p st.1.1) ∧
  len st.1.2 K ∧
  dims (G.Delta st.1.1) N K.

(** The group sum restricted to the first [j] elements. *)
Definition partial_sum (P : list Z) (j i g : Z) : Qc :=
  zsum (Z.to_nat j) (fun j' => if decide (get P j' = g) then get2 D i j' else 0%Qc).

(** An elementary move the way both neighbourhoods of [RandLS] apply it:
    the matrix is updated for element [i] going from its group to [g1], and
    [p[i]] is set to [g1]. *)
Definition apply_move (s : G.t) (mv : Z * Z) : res G.t :=
  let '(i, g1) := mv in
  g0 ← rd (G.p s) i;
  s ← One_Move_Update_Delta_Matrix1 N D i g0 g1 s;
  p' ← wr (G.p s) i g1;
  Ok (G.set_p s p').

Fixpoint apply_moves (s : G.t) (mvs : list (Z * Z)) : res G.t :=
  match mvs with
  | [] => Ok s
  | mv :: mvs' => s' ← apply_move s mv; apply_moves s' mvs'
  end.

Definition valid_move (mv : Z * Z) : Prop := 0 <= mv.1 < N ∧ 0 <= mv.2 < K.

End LocalSearchInvariant.

(** ** The neighbour catalogue and the light perturbation *)

Module Nb.
(** [struct Neighborhood]: a relocation candidate ([type = 1], element [v],
    group [g]) or a swap candidate ([type = 2], elements [x] and [y]). *)
Record t : Type := mk { type : Z; v : Z; g : Z; x : Z; y : Z }.
Definition set_move (n : t) (v' g' : Z) : t := mk 1 v' g' (x n) (y n).
Definition set_swap (n : t) (x' y' : Z) : t := mk 2 (v n) (g n) x' y'.
End Nb.

#[global] Instance Nb_inhabited : Inhabited Nb.t := populate (Nb.mk 0 0 0 0 0).

Section Perturbation.
Context (N K : Z) (D : list (list Qc)) (LB UB : list Z).
(** The stream of values returned by the successive calls of [rand()]. *)
Context (rnd : nat → Z).

(** [N * (N - 1) / 2 + N * K], the number of entries of the catalogue. *)
Definition NumberNeighbors : Z := Z.quot (N * (N - 1)) 2 + N * K.

(** [BuildNeighbors]: the cells of the array that the two loops do not set
    keep what they held. *)
Definition BuildNeighbors (Neighbors : list Nb.t) : res (list Nb.t) :=
  '(nbs, count) ← for_loop 0 N (fun i st =>
      for_loop 0 K (fun g st =>
        let '(nbs, count) := st in
        n ← rd nbs count;
        nbs ← wr nbs count (Nb.set_move n i g);
        Ok (nbs, count + 1)) st) (Neighbors, 0);
  '(nbs, count) ← for_loop 0 N (fun i st =>
      for_loop (i + 1) N (fun j st =>
        let '(nbs, count) := st in
        n ← rd nbs count;
        nbs ← wr nbs count (Nb.set_swap n i j);
        Ok (nbs, count + 1)) st) (nbs, count);
  Ok nbs.

(** State of the loop of [StrongPerturbation]: the globals (of which [p] is
    written and [Delta_Matrix] read), the caller's [SizeGroup], the local
    [count] and the number of draws consumed. *)
Definition sp_state : Type := G.t * list Z * Z * nat.

(** Body of the [do ... while (count < theta)] loop. *)
Definition StrongPerturbation_body (Neighbors : list Nb.t) (st : sp_state)
  : res sp_state :=
  let '(s, SizeGroup, count, k) := st in
  cur_index ← c_mod (rnd k) NumberNeighbors;
  let k := S k in
  nb ← rd Neighbors cur_index;
  if decide (Nb.type nb = 1) then
    let v := Nb.v nb in
    let g := Nb.g nb in
    pv ← rd (G.p s) v;
    if decide (pv ≠ g) then
      sz ← rd SizeGroup pv;
      lb ← rd LB pv;
      if decide (sz > lb) then
        szg ← rd SizeGroup g;
        ubg ← rd UB g;
        if decide (szg < ubg) then
          a ← rd2 (G.Delta_Matrix s) v g;
          b ← rd2 (G.Delta_Matrix s) v pv;
          let delt := (a - b)%Qc in
          let old_g := pv in
          x ← rd SizeGroup old_g;
          SizeGroup ← wr SizeGroup old_g (x - 1);
          y ← rd SizeGroup g;
          SizeGroup ← wr SizeGroup g (y + 1);
          p' ← wr (G.p s) v g;
          Ok (G.set_p s p', SizeGroup, count + 1, k)
        else Ok (s, SizeGroup, count, k)
      else Ok (s, SizeGroup, count, k)
    else Ok (s, SizeGroup, count, k)
  else if decide (Nb.type nb = 2) then
    let x := Nb.x nb in
    let y := Nb.y nb in
    px ← rd (G.p s) x;
    py ← rd (G.p s) y;
    if decide (px ≠ py) then
      a ← rd2 (G.Delta_Matrix s) x py;
      b ← rd2 (G.Delta_Matrix s) x px;
      c ← rd2 (G.Delta_Matrix s) y px;
      d ← rd2 (G.Delta_Matrix s) y py;
      dxy ← rd2 D x y;
      let delt := ((a - b) + (c - d) - 2 * dxy)%Qc in
      let swap := px in
      p' ← wr (G.p s) x py;
      p' ← wr p' y swap;
      Ok (G.set_p s p', SizeGroup, count + 1, k)
    else Ok (s, SizeGroup, count, k)
  else Ok (s, SizeGroup, count, k).

Fixpoint StrongPerturbation_loop (fuel : nat) (Neighbors : list Nb.t)
    (theta : Z) (st : sp_state) : res sp_state :=
  match fuel with
  | O => NoFuel
  | S fuel' =>
      st' ← StrongPerturbation_body Neighbors st;
      if decide (st'.1.2 < theta) then
        StrongPerturbation_loop fuel' Neighbors theta st'
      else Ok st'
  end.

(** [StrongPerturbation(L, partition, SizeGroup)]; the result is the
    globals, the two arrays of the caller and the number of draws consumed. *)
Definition StrongPerturbation (fuel : nat) (Neighbors : list Nb.t) (k : nat)
    (L : Z) (s : G.t) (partition SizeGroup : list Z)
  : res (G.t * list Z * list Z * nat) :=
  let theta := L in
  p' ← copy_into N partition (G.p s);
  '(s, SizeGroup, count, k) ←
    StrongPerturbation_loop fuel Neighbors theta (G.set_p s p', SizeGroup, 0, k);
  partition' ← copy_into N (G.p s) partition;
  Ok (s, partition', SizeGroup, k).

(** What a caller of [StrongPerturbation] observes. *)
Definition sp_output (r : res (G.t * list Z * list Z * nat))
  : res (list Z * list Z * list Z * nat) :=
  '(s, partition, SizeGroup, k) ← r; Ok (G.p s, partition, SizeGroup, k).

(** *** Group sizes *)

(** [SizeGroup] records the sizes of the groups of [P], within the bounds,
    and these sizes add up to [N]. *)
Definition sizes_ok (P SizeGroup : list Z) : Prop :=
  len P N ∧ in_groups K P ∧ len SizeGroup K ∧
  (∀ g, 0 <= g < K →
     get SizeGroup g = group_size P g ∧
     get LB g <= get SizeGroup g <= get UB g) ∧
  foldr Z.add 0 SizeGroup = N.

(** [moves n (P, S) (P', S')]: the partition [P'] with sizes [S'] is reached
    from [(P, S)] by [n] elementary moves, each a relocation that changes the
    group of its element and is allowed by the sizes, or a swap of two
    elements of different groups. *)
Inductive moves : nat → list Z * list Z → list Z * list Z → Prop :=
  | moves_none c : moves O c c
  | moves_relocate n c P S v g :
      moves n c (P, S) →
      0 <= v < N → 0 <= g < K →
      get P v ≠ g → get S (get P v) > get LB (get P v) → get S g < get UB g →
      moves (Datatypes.S n) c
        (upd P v g,
         upd (upd S (get P v) (get S (get P v) - 1)) g
             (get (upd S (get P v) (get S (get P v) - 1)) g + 1))
  | moves_swap n c P S x y :
      moves n c (P, S) →
      0 <= x < N → 0 <= y < N →
      get P x ≠ get P y →
      moves (Datatypes.S n) c (upd (upd P x (get P y)) y (get P x), S).

(** *** Selection step of the heavy perturbation

    The first loop over the groups of a round of [DirectPerturbation]: for
    each group [k] the element to remove is recorded in [Rd[k]], the size of
    the group is decremented and the groups that fall under their lower
    bound are flagged.  [Minsd] and [MinE] are locals declared [int]. *)
Definition dp_state : Type := list Z * list Z * list Z * Z.

Definition DirectPerturbation_select (s : G.t) (st : dp_state) : res dp_state :=
  for_loop 0 K (fun k st =>
    let '(Rd, SizeG, UnderLB, number) := st in
    '(Minsd, MinE) ← for_loop 0 N (fun i mm =>
        let '(Minsd, MinE) := mm in
        pi ← rd (G.p s) i;
        if decide (pi = k) then
          d ← rd2 (G.Delta_Matrix s) i k;
          if decide (d < Qc_of_Z Minsd)%Qc then Ok (trunc d, i)
          else Ok mm
        else Ok mm) (99999999, 0);
    Rd ← wr Rd k MinE;
    sz ← rd SizeG k;
    SizeG ← wr SizeG k (sz - 1);
    sz ← rd SizeG k;
    lb ← rd LB k;
    if decide (sz < lb) then
      UnderLB ← wr UnderLB k 1;
      Ok (Rd, SizeG, UnderLB, number + 1)
    else Ok (Rd, SizeG, UnderLB, number)) st.

(** The prologue of [DirectPerturbation] and of its first round, up to the
    selection: the arrays are copied, the matrix is built, [UnderLB], [Rd]
    and [AvgCon] are reset. *)
Definition DirectPerturbation_first_select (s : G.t) (SizeG Rd UnderLB : list Z)
    (AvgCon : list (list Qc)) (partition SizeGroup : list Z)
  : res (G.t * dp_state * list (list Qc)) :=
  p' ← copy_into N partition (G.p s);
  SizeG ← copy_into K SizeGroup SizeG;
  s ← Build_Delta_Matrix N K D (G.set_p s p');
  let number := 0 in
  '(UnderLB, Rd, AvgCon) ← for_loop 0 K (fun i st =>
      let '(UnderLB, Rd, AvgCon) := st in
      UnderLB ← wr UnderLB i 0;
      Rd ← wr Rd i (-1);
      AvgCon ← for_loop 0 K (fun j AvgCon => wr2 AvgCon i j 0%Qc) AvgCon;
      Ok (UnderLB, Rd, AvgCon)) (UnderLB, Rd, AvgCon);
  st ← DirectPerturbation_select s (Rd, SizeG, UnderLB, number);
  Ok (s, st, AvgCon).

(** The least value of [Delta_Matrix[i][k]] over the members of group [k]
    is attained at [e]. *)
Definition least_cohesive (s : G.t) (k e : Z) : Prop :=
  0 <= e < N ∧ get (G.p s) e = k ∧
  ∀ i, 0 <= i < N → get (G.p s) i = k →
    (get2 (G.Delta_Matrix s) e k <= get2 (G.Delta_Matrix s) i k)%Qc.

(** The invariant of the loop: [n] elementary moves lead from the initial
    configuration [c0] to the current one, and [count = n]. *)
Definition sp_inv (c0 : list Z * list Z) (st : sp_state) : Prop :=
  let '(s, SG, count, k) := st in
  sizes_ok (G.p s) SG ∧ dims (G.Delta_Matrix s) N K ∧
  0 <= count ∧ moves (Z.to_nat count) c0 (G.p s, SG).

(** Two loop states that differ at most in the contents of the matrix, and
    of the other globals that the loop does not touch. *)
Definition sp_sim (st1 st2 : sp_state) : Prop :=
  G.p st1.1.1.1 = G.p st2.1.1.1 ∧ st1.1.1.2 = st2.1.1.2 ∧
  st1.1.2 = st2.1.2 ∧ st1.2 = st2.2 ∧
  dims (G.Delta_Matrix st1.1.1.1) N K ∧ dims (G.Delta_Matrix st2.1.1.1) N K.

End Perturbation.

(** Every entry of the catalogue is a candidate over the elements and the
    groups of the instance. *)
Definition catalogue_ok (N K : Z) (Neighbors : list Nb.t) : Prop :=
  len Neighbors (NumberNeighbors N K) ∧
  Forall (fun nb =>
    (Nb.type nb = 1 → 0 <= Nb.v nb < N ∧ 0 <= Nb.g nb < K) ∧
    (Nb.type nb = 2 → 0 <= Nb.x nb < N ∧ 0 <= Nb.y nb < N)) Neighbors.


(** ** Acceptance of an offspring *)

(** The values of a [double] division: a quotient, or what IEEE 754 gives
    for a zero divisor (the sign of a zero is not modelled). *)
Inductive dbl : Type :=
  | Fin (x : Qc)
  | PInf
  | NInf
  | NaN.

Definition dbl_div (a b : Qc) : dbl :=
  if decide (b = 0%Qc) then
    if decide (0 < a)%Qc then PInf
    else if decide (a < 0)%Qc then NInf else NaN
  else Fin (a / b)%Qc.

Definition dbl_add (d : dbl) (x : Qc) : dbl :=
  match d with
  | Fin a => Fin (a + x)%Qc
  | _ => d
  end.

(** [d > x]. *)
Definition dbl_gt (d : dbl) (x : Qc) : bool :=
  match d with
  | Fin a => bool_decide (x < a)%Qc
  | PInf => true
  | NInf | NaN => false
  end.

Section Acceptance.
Context (N K : Z).

(** The two partitions disagree on the pair [(i, j)]: together in one and
    apart in the other. *)
Definition disagree (a1 b1 a2 b2 : Z) : Prop :=
  (a1 = b1 ∧ a2 ≠ b2) ∨ (a1 ≠ b1 ∧ a2 = b2).

(** The counting loops of [FitRadioAndDis]. *)
Definition FitRadioAndDis_count (partition1 partition2 : list Z) : res Z :=
  for_loop 0 (N - 1) (fun i count =>
    for_loop (i + 1) N (fun j count =>
      a1 ← rd partition1 i;
      b1 ← rd partition1 j;
      a2 ← rd partition2 i;
      b2 ← rd partition2 j;
      if decide (disagree a1 b1 a2 b2) then Ok (count + 1) else Ok count)
      count) 0.

(** [radio = cost1 / cost2 + 0.05 * (count / (N * N) * K)], where [count],
    [N] and [K] are of type [int]: the quotient and the product inside the
    parentheses are those of the integers. *)
Definition FitRadioAndDis (partition1 partition2 : list Z) (cost1 cost2 : Qc)
  : res dbl :=
  count ← FitRadioAndDis_count partition1 partition2;
  d ← c_div count (N * N);
  Ok (dbl_add (dbl_div cost1 cost2) (q 5 100 * Qc_of_Z (d * K))%Qc).

(** The test of [SearchAlgorithm] that decides whether [Offs[i]] is copied
    over [Pop[i]]. *)
Definition offspring_replaces (Offs_p Pop_p : list Z) (Offs_cost Pop_cost : Qc)
  : res bool :=
  if decide (Pop_cost <= Offs_cost)%Qc then Ok true
  else
    radio ← FitRadioAndDis Offs_p Pop_p Offs_cost Pop_cost;
    Ok (dbl_gt radio 1%Qc).

(** The rule in the words of the specification: the number of pairs whose
    co-grouping status differs, and the score
    [child.cost / parent.cost + 0.05 * (count / N²) * K] over the rationals. *)
Definition disagreement_count (P1 P2 : list Z) : Z :=
  Z.of_nat (length (filter (fun ij : Z * Z =>
      ij.1 < ij.2 ∧ disagree (get P1 ij.1) (get P1 ij.2) (get P2 ij.1) (get P2 ij.2))
    (i ← seqZ 0 N; j ← seqZ 0 N; [(i, j)]))).

Definition spec_score (child parent : list Z) (child_cost parent_cost : Qc) : Qc :=
  (child_cost / parent_cost
   + q 5 100 * (Qc_of_Z (disagreement_count child parent) / Qc_of_Z (N * N))
     * Qc_of_Z K)%Qc.

Definition spec_replaces (child parent : list Z) (child_cost parent_cost : Qc)
  : Prop :=
  (parent_cost <= child_cost)%Qc ∨
  (1 < spec_score child parent child_cost parent_cost)%Qc.

End Acceptance.

(** ** Loading an instance *)

Module Inst.
Record t : Type := mk {
  N : Z;
  K : Z;
  LB : list Z;
  UB : list Z;
  D : list (list Qc);
  DT : list (list Qc)
}.
End Inst.

(** What the stream [FIC] delivers, token by token: the element count; then,
    unless it is 3000, the group count, the word that names the kind of
    bounds ([None] when the file ends before it) and the pairs of bounds;
    then the triples [x1 x2 d] up to the end of the file. *)
Record instance_file : Type := mk_file {
  file_N : Z;
  file_K : Z;
  file_kind : option string;
  file_bounds : list (Z * Z);
  file_edges : list (Z * Z * Qc)
}.

(** Either the globals are filled, or the program has called [exit(0)]. *)
Inductive outcome : Type :=
  | Loaded (i : Inst.t)
  | Exited.

Definition zero_matrix (n : Z) : list (list Qc) :=
  replicate (Z.to_nat n) (replicate (Z.to_nat n) 0%Qc).

Definition bad_edge (N : Z) (e : Z * Z * Qc) : Prop :=
  e.1.1 < 0 ∨ e.1.2 < 0 ∨ e.1.1 >= N ∨ e.1.2 >= N.

(** The [while (!FIC.eof())] loop; [None] stands for [exit(0)]. *)
Fixpoint read_edges (N : Z) (edges : list (Z * Z * Qc)) (D DT : list (list Qc))
  : res (option (list (list Qc) * list (list Qc))) :=
  match edges with
  | [] => Ok (Some (D, DT))
  | e :: rest =>
      let '(x1, x2, d) := e in
      if decide (bad_edge N e) then Ok None
      else if decide (x1 ≠ x2) then
        D ← wr2 D x2 x1 d;
        v ← rd2 D x2 x1;
        D ← wr2 D x1 x2 v;
        DT ← wr2 DT x2 x1 (2 * d)%Qc;
        v ← rd2 DT x2 x1;
        DT ← wr2 DT x1 x2 v;
        read_edges N rest D DT
      else read_edges N rest D DT
  end.

(** [inputing]: the bounds are stored as they are read; when the word is
    neither [ds] nor [ss] the arrays [LB] and [UB] are not allocated (empty
    here).  Failures of allocation are not modelled. *)
Definition inputing (f : instance_file) : res outcome :=
  let N := file_N f in
  let header : option (Z * list Z * list Z) :=
    if decide (N = 3000) then Some (50, replicate 50 48, replicate 50 72)
    else
      match file_kind f with
      | None => None
      | Some StrReading =>
          let K := file_K f in
          if decide (StrReading = "ds"%string ∨ StrReading = "ss"%string) then
            Some (K, map (fun i => (file_bounds f !!! i).1) (seq 0 (Z.to_nat K)),
                     map (fun i => (file_bounds f !!! i).2) (seq 0 (Z.to_nat K)))
          else Some (K, [], [])
      end in
  match header with
  | None => Ok Exited
  | Some (K, LB, UB) =>
      r ← read_edges N (file_edges f) (zero_matrix N) (zero_matrix N);
      match r with
      | None => Ok Exited
      | Some (D, DT) => Ok (Loaded (Inst.mk N K LB UB D DT))
      end
  end.

(** The header of the file stops before the word that names the bounds. *)
Definition header_missing (f : instance_file) : Prop :=
  file_N f ≠ 3000 ∧ file_kind f = None.

(** The instance is feasible. *)
Definition feasible (i : Inst.t) : Prop :=
  foldr Z.add 0 (Inst.LB i) <= Inst.N i <= foldr Z.add 0 (Inst.UB i).

(** ** Concrete instances *)

(** An offspring of cost 99 against a parent of cost 100, on four elements
    and two groups; the two partitions disagree on four of the six pairs. *)
Module Ex5.
Definition N : Z := 4.
Definition K : Z := 2.
Definition child : list Z := [0; 1; 0; 1].
Definition parent : list Z := [0; 0; 1; 1].
Definition child_cost : Qc := q 99 1.
Definition parent_cost : Qc := q 100 1.
End Ex5.

(** Three elements in one group, with dissimilarities 1, 3/2 and 5/4: the
    group sums of the elements are 5/2, 9/4 and 11/4. *)
Module Ex9.
Definition N : Z := 3.
Definition K : Z := 1.
Definition D : list (list Qc) :=
  [ [0%Qc; q 1 1; q 3 2];
    [q 1 1; 0%Qc; q 5 4];
    [q 3 2; q 5 4; 0%Qc] ].
Definition LB : list Z := [1].
Definition zeros : list (list Qc) := replicate 3 [0%Qc].
Definition s0 : G.t := G.mk [0; 0; 0] zeros zeros 0%Qc 0%Qc.
Definition partition : list Z := [0; 0; 0].
Definition SizeGroup : list Z := [3].
End Ex9.

(** A file for two elements and one group that must hold three of them. *)
Module Ex4.
Definition file : instance_file :=
  mk_file 2 1 (Some "ss"%string) [(3, 3)] [(0, 1, q 5 1)].
End Ex4.

(** Two elements, two groups of exactly one element, and draws that all
    select the last entry of the catalogue, the swap of the two elements. *)
Module Ex8.
Definition N : Z := 2.
Definition K : Z := 2.
Definition D : list (list Qc) := [ [0%Qc; q 1 1]; [q 1 1; 0%Qc] ].
Definition LB : list Z := [1; 1].
Definition UB : list Z := [1; 1].
Definition rnd : nat → Z := fun _ => 4.
Definition Neighbors : list Nb.t :=
  [ Nb.mk 1 0 0 0 0; Nb.mk 1 0 1 0 0; Nb.mk 1 1 0 0 0; Nb.mk 1 1 1 0 0;
    Nb.mk 2 0 0 0 1 ].
Definition zeros : list (list Qc) := replicate 2 (replicate 2 0%Qc).
Definition ones : list (list Qc) := replicate 2 (replicate 2 1%Qc).
Definition s0 : G.t := G.mk [0; 0] zeros zeros 0%Qc 0%Qc.
Definition partition : list Z := [0; 1].
Definition SizeGroup : list Z := [1; 1].
End Ex8.

(** ** Counting and summing over arrays of integers *)

(** Number of cells of [a] that pass [test]. *)
Fixpoint count (test : Z → bool) (a : list Z) : Z :=
  match a with
  | [] => 0
  | x :: a' => (if test x then 1 else 0) + count test a'
  end.

(** [isum n h] is the sum of [h 0], ..., [h (n-1)]. *)
Fixpoint isum (n : nat) (h : Z → Z) : Z :=
  match n with
  | O => 0
  | S n' => isum n' h + h (Z.of_nat n')
  end.

(** Number of the cells [0 .. n-1] of [a] that pass [test]. *)
Definition tally (test : Z → bool) (n : Z) (a : list Z) : Z :=
  isum (Z.to_nat n) (fun i => if test (get a i) then 1 else 0).

Definition is_free (x : Z) : bool := bool_decide (x = -1).
Definition is_set (x : Z) : bool := bool_decide (x ≠ -1).
Definition is_flag (x : Z) : bool := bool_decide (x ≠ 0).
Definition is_group (g x : Z) : bool := bool_decide (x = g).

(** ** Recombination *)

(** [do { i = (i + 1) % n; } while (!stop (a[i]));] — after [n] steps every
    cell has been visited, so the fuel [n] is exhausted only when the loop of
    the program does not end. *)
Fixpoint cyclic_search (fuel : nat) (a : list Z) (n : Z) (stop : Z → bool)
    (i : Z) : res Z :=
  match fuel with
  | O => NoFuel
  | S fuel' =>
      i' ← c_mod (i + 1) n;
      x ← rd a i';
      if stop x then Ok i' else cyclic_search fuel' a n stop i'
  end.

(** The working arrays and locals of [Crossover] that its main loop
    updates.  [g] and [pickG] are locals declared without initialiser. *)
Module X.
Record t : Type := mk {
  sc : list Z;
  scSizeGroup : list Z;
  vEle : list Z;
  ub : list Z;
  p1 : list Z;
  p2 : list Z;
  gDiv_p1 : list Qc;
  gDiv_p2 : list Qc;
  SelectEle : list Z;
  SelectEleTemp : list Z;
  SelGroup : list Z;
  g : Z;
  pickG : Z;
  k : nat
}.
End X.

(** The flags and counters of the three repair loops. *)
Module R.
Record t : Type := mk {
  sc : list Z;
  scSizeGroup : list Z;
  vEle : list Z;
  LBGroup : list Z;
  UBGroup : list Z;
  BigThanLB : list Z;
  SelectEle : list Z;
  k : nat
}.
End R.

Section Crossover.
Context (N K : Z) (D : list (list Qc)) (LB UB : list Z).
Context (rnd : nat → Z) (RAND_MAX : Z).

Definition Build_GroupDiv_For_Crossover (p : list Z) (gDiv : list Qc)
  : res (list Qc) :=
  gDiv ← for_loop 0 K (fun i gDiv => wr gDiv i 0%Qc) gDiv;
  for_loop 0 N (fun i gDiv =>
    for_loop 0 N (fun j gDiv =>
      pi ← rd p i;
      pj ← rd p j;
      if decide (pi = pj) then
        x ← rd gDiv pi;
        d ← rd2 D i j;
        wr gDiv pi (x + d)%Qc
      else Ok gDiv) gDiv) gDiv.

(** The prologue for one parent; the source repeats it for [partition1]
    (with [p1], [Delta_Matrix_p1], [gDiv_p1]) and for [partition2]. *)
Definition Crossover_load (partition : list Z) (s : G.t) (gDiv : list Qc)
    (px : list Z) (Delta_Matrix_px : list (list Qc)) (gDiv_px : list Qc)
  : res (G.t * list Qc * list Z * list (list Qc) * list Qc) :=
  '(p, px) ← for_loop 0 N (fun i '(p, px) =>
      x ← rd partition i;
      p ← wr p i x;
      px ← wr px i x;
      Ok (p, px)) (G.p s, px);
  s ← Build_Delta_Matrix N K D (G.set_p s p);
  Delta_Matrix_px ← for_loop 0 N (fun i m =>
      for_loop 0 K (fun j m =>
        x ← rd2 (G.Delta_Matrix s) i j;
        wr2 m i j x) m) Delta_Matrix_px;
  gDiv ← Build_GroupDiv_For_Crossover (G.p s) gDiv;
  gDiv_px ← copy_into K gDiv gDiv_px;
  Ok (s, gDiv, px, Delta_Matrix_px, gDiv_px).

(** [gDivMax = -9999; for (j ...) if (gDiv_px[j] > gDivMax)
    { gDivMax = gDiv_px[j]; g = j; }] with [gDivMax] an [int]. *)
Definition most_cohesive (gDiv_px : list Qc) (g : Z) : res Z :=
  '(gDivMax, g) ← for_loop 0 K (fun j '(gDivMax, g) =>
      x ← rd gDiv_px j;
      if decide (Qc_of_Z gDivMax < x)%Qc then Ok (trunc x, j)
      else Ok (gDivMax, g)) (-9999, g);
  Ok g.

(** [lengthSE = 0; for (j ...) if (test (a[j])) SelectEle[lengthSE++] = j;] *)
Definition collect (test : Z → bool) (a SelectEle : list Z) : res (list Z * Z) :=
  for_loop 0 N (fun j '(SelectEle, lengthSE) =>
    x ← rd a j;
    if test x then
      SelectEle ← wr SelectEle lengthSE j;
      Ok (SelectEle, lengthSE + 1)
    else Ok (SelectEle, lengthSE)) (SelectEle, 0).

Definition fitting_groups (ub : list Z) (lengthSE : Z) (SelGroup : list Z)
  : res (list Z * Z) :=
  for_loop 0 K (fun j '(SelGroup, lengthSG) =>
    u ← rd ub j;
    if decide (u ≠ -1 ∧ u >= lengthSE) then
      SelGroup ← wr SelGroup lengthSG j;
      Ok (SelGroup, lengthSG + 1)
    else Ok (SelGroup, lengthSG)) (SelGroup, 0).

Definition least_shortfall (ub : list Z) (lengthSE pickG : Z) : res (Z * Z) :=
  for_loop 0 K (fun j '(num, pickG) =>
    u ← rd ub j;
    if decide (u ≠ -1 ∧ lengthSE - u < num) then Ok (lengthSE - u, j)
    else Ok (num, pickG)) (999999, pickG).

(** The [while (count < lengthSE - num)] loop that keeps a random sample of
    the members. *)
Definition assign_sample (pickG lengthSE num : Z)
    (st : list Z * list Z * list Z * list Z * Z * nat)
  : res (list Z * list Z * list Z * list Z * Z * nat) :=
  for_loop 0 (lengthSE - num)
    (fun _ '(sc, vEle, SelectEle, SelectEleTemp, count, k) =>
      pickV ← c_mod (rnd k) lengthSE;
      pickV ← cyclic_search (Z.to_nat lengthSE) SelectEle lengthSE is_set pickV;
      e ← rd SelectEle pickV;
      sc ← wr sc e pickG;
      SelectEleTemp ← wr SelectEleTemp count e;
      vEle ← wr vEle e (-1);
      SelectEle ← wr SelectEle pickV (-1);
      Ok (sc, vEle, SelectEle, SelectEleTemp, count + 1, S k)) st.

Definition assign_all (pickG lengthSE : Z) (SelectEle : list Z)
    (st : list Z * list Z * list Z) : res (list Z * list Z * list Z) :=
  for_loop 0 lengthSE (fun j '(sc, vEle, SelectEleTemp) =>
    e ← rd SelectEle j;
    sc ← wr sc e pickG;
    vEle ← wr vEle e (-1);
    SelectEleTemp ← wr SelectEleTemp j e;
    Ok (sc, vEle, SelectEleTemp)) st.

(** The loop that takes the assigned elements out of both parents. *)
Definition retire (lengthSE : Z) (SelectEleTemp : list Z)
    (Delta_Matrix_p1 Delta_Matrix_p2 : list (list Qc))
    (st : list Qc * list Qc * list Z * list Z)
  : res (list Qc * list Qc * list Z * list Z) :=
  for_loop 0 lengthSE (fun j '(gDiv_p1, gDiv_p2, p1, p2) =>
    e ← rd SelectEleTemp j;
    g1 ← rd p1 e;
    x ← rd gDiv_p1 g1;
    d ← rd2 Delta_Matrix_p1 e g1;
    gDiv_p1 ← wr gDiv_p1 g1 (x - d)%Qc;
    g2 ← rd p2 e;
    x ← rd gDiv_p2 g2;
    d ← rd2 Delta_Matrix_p2 e g2;
    gDiv_p2 ← wr gDiv_p2 g2 (x - d)%Qc;
    p1 ← wr p1 e (-1);
    p2 ← wr p2 e (-1);
    Ok (gDiv_p1, gDiv_p2, p1, p2)) st.

(** [rand() / (RAND_MAX + 1.0) < 0.5] *)
Definition coin (r : Z) : bool :=
  bool_decide (Qc_of_Z r / (Qc_of_Z RAND_MAX + 1) < q 1 2)%Qc.

(** A branch of the conditional in the main loop.  The source writes it
    twice, once reading [gDiv_p1] and [p1] and once [gDiv_p2] and [p2]; here
    the parent read is the argument [gDiv_px], [px].  The branch yields the
    locals and arrays it has set. *)
Definition Crossover_branch (gDiv_px : list Qc) (px : list Z) (k : nat)
    (st : X.t)
  : res (Z * list Z * list Z * list Z * list Z * list Z * Z * Z * nat) :=
  g ← most_cohesive gDiv_px (X.g st);
  '(SelectEle, lengthSE) ←
    collect (is_group g) px (X.SelectEle st);
  '(SelGroup, lengthSG) ← fitting_groups (X.ub st) lengthSE (X.SelGroup st);
  if decide (lengthSG = 0) then
    '(num, pickG) ← least_shortfall (X.ub st) lengthSE (X.pickG st);
    '(sc, vEle, SelectEle, SelectEleTemp, count, k) ←
      assign_sample pickG lengthSE num
        (X.sc st, X.vEle st, SelectEle, X.SelectEleTemp st, 0, k);
    Ok (g, SelGroup, sc, vEle, SelectEle, SelectEleTemp, count, pickG, k)
  else
    pickG ← c_mod (rnd k) lengthSG;
    let k := S k in
    pickG ← rd SelGroup pickG;
    '(sc, vEle, SelectEleTemp) ←
      assign_all pickG lengthSE SelectEle
        (X.sc st, X.vEle st, X.SelectEleTemp st);
    Ok (g, SelGroup, sc, vEle, SelectEle, SelectEleTemp, lengthSE, pickG, k).

(** One pass of the main loop. *)
Definition Crossover_round (Delta_Matrix_p1 Delta_Matrix_p2 : list (list Qc))
    (st : X.t) : res X.t :=
  let k := X.k st in
  '(g, SelGroup, sc, vEle, SelectEle, SelectEleTemp, lengthSE, pickG, k) ←
    (if coin (rnd k) then
       Crossover_branch (X.gDiv_p1 st) (X.p1 st) (S k) st
     else
       Crossover_branch (X.gDiv_p2 st) (X.p2 st) (S k) st);
  '(gDiv_p1, gDiv_p2, p1, p2) ←
    retire lengthSE SelectEleTemp Delta_Matrix_p1 Delta_Matrix_p2
      (X.gDiv_p1 st, X.gDiv_p2 st, X.p1 st, X.p2 st);
  ub ← wr (X.ub st) pickG (-1);
  scSizeGroup ← wr (X.scSizeGroup st) pickG lengthSE;
  Ok (X.mk sc scSizeGroup vEle ub p1 p2 gDiv_p1 gDiv_p2
        SelectEle SelectEleTemp SelGroup g pickG k).

(** The loop [while (count < sumLB)]: members of groups above their lower
    bound are returned to the pool until the lower bounds can be met. *)
Definition release_step (st : R.t) : res R.t :=
  let k := R.k st in
  pickG ← c_mod (rnd k) K;
  let k := S k in
  pickG ← cyclic_search (Z.to_nat K) (R.BigThanLB st) K is_flag pickG;
  '(SelectEle, lengthSE) ←
    collect (is_group pickG) (R.sc st) (R.SelectEle st);
  pickV ← c_mod (rnd k) lengthSE;
  let k := S k in
  e ← rd SelectEle pickV;
  sc ← wr (R.sc st) e (-1);
  vEle ← wr (R.vEle st) e e;
  sz ← rd (R.scSizeGroup st) pickG;
  scSizeGroup ← wr (R.scSizeGroup st) pickG (sz - 1);
  sz ← rd scSizeGroup pickG;
  lb ← rd LB pickG;
  BigThanLB ← (if decide (sz = lb) then wr (R.BigThanLB st) pickG 0
               else Ok (R.BigThanLB st));
  Ok (R.mk sc scSizeGroup vEle (R.LBGroup st) (R.UBGroup st) BigThanLB
        SelectEle k).

(** The body shared by the loops [while (sumLowerThanLB < sum)] and
    [while (sum < N)]: a random free element goes to a random flagged group,
    whose flag is cleared when it reaches [bound]. *)
Definition fill_step (flags bound : list Z) (st : R.t)
  : res (list Z * R.t) :=
  let k := R.k st in
  pickG ← c_mod (rnd k) K;
  let k := S k in
  pickG ← cyclic_search (Z.to_nat K) flags K is_flag pickG;
  '(SelectEle, lengthSE) ←
    collect is_set (R.vEle st) (R.SelectEle st);
  pickV ← c_mod (rnd k) lengthSE;
  let k := S k in
  e ← rd SelectEle pickV;
  sc ← wr (R.sc st) e pickG;
  vEle ← wr (R.vEle st) e (-1);
  sz ← rd (R.scSizeGroup st) pickG;
  scSizeGroup ← wr (R.scSizeGroup st) pickG (sz + 1);
  sz ← rd scSizeGroup pickG;
  b ← rd bound pickG;
  flags ← (if decide (sz = b) then wr flags pickG 0 else Ok flags);
  Ok (flags, R.mk sc scSizeGroup vEle (R.LBGroup st) (R.UBGroup st)
               (R.BigThanLB st) SelectEle k).

(** The first pass after the main loop: [sumLB], the part [count] of the
    lower bounds that the groups already hold, and the flags of the groups
    below and above their lower bound. *)
Definition repair_scan (st : R.t) : res (Z * Z * Z * list Z * list Z) :=
  for_loop 0 K (fun i '(count, sumLB, sumLowerThanLB, LBGroup, BigThanLB) =>
    lb ← rd LB i;
    let sumLB := sumLB + lb in
    sz ← rd (R.scSizeGroup st) i;
    '(count, sumLowerThanLB, LBGroup) ←
      (if decide (sz < lb) then
         LBGroup ← wr LBGroup i 1;
         Ok (count + sz, sumLowerThanLB + sz, LBGroup)
       else Ok (count + lb, sumLowerThanLB, LBGroup));
    BigThanLB ← (if decide (sz > lb) then wr BigThanLB i 1 else Ok BigThanLB);
    Ok (count, sumLB, sumLowerThanLB, LBGroup, BigThanLB))
    (0, 0, 0, R.LBGroup st, R.BigThanLB st).

(** [for (i ...) if (vEle[i] != -1) count++;] *)
Definition count_free (vEle : list Z) (count : Z) : res Z :=
  for_loop 0 N (fun i count =>
    x ← rd vEle i;
    if decide (x ≠ -1) then Ok (count + 1) else Ok count) count.

(** [sum = 0; for (i ...) if (LBGroup[i] == 1) sum += LB[i];] *)
Definition lower_sum (LBGroup : list Z) : res Z :=
  for_loop 0 K (fun i sum =>
    x ← rd LBGroup i;
    if decide (x = 1) then lb ← rd LB i; Ok (sum + lb) else Ok sum) 0.

(** [sum = 0; for (i ...) { sum += scSizeGroup[i];
    if (scSizeGroup[i] < UB[i]) UBGroup[i] = 1; }] *)
Definition upper_scan (scSizeGroup UBGroup : list Z) : res (Z * list Z) :=
  for_loop 0 K (fun i '(sum, UBGroup) =>
    sz ← rd scSizeGroup i;
    ubi ← rd UB i;
    UBGroup ← (if decide (sz < ubi) then wr UBGroup i 1 else Ok UBGroup);
    Ok (sum + sz, UBGroup)) (0, UBGroup).

(** Everything after the main loop.  Each of the three [while] loops adds
    one to its counter in every pass, so it is a counted loop from the value
    the counter has to its limit. *)
Definition Crossover_repair (st : R.t) : res R.t :=
  '(count, sumLB, sumLowerThanLB, LBGroup, BigThanLB) ← repair_scan st;
  count ← count_free (R.vEle st) count;
  let st := R.mk (R.sc st) (R.scSizeGroup st) (R.vEle st) LBGroup (R.UBGroup st)
              BigThanLB (R.SelectEle st) (R.k st) in
  st ← for_loop count sumLB (fun _ st => release_step st) st;
  sum ← lower_sum (R.LBGroup st);
  '(LBGroup, st) ← for_loop sumLowerThanLB sum (fun _ '(flags, st) =>
      fill_step flags LB st) (R.LBGroup st, st);
  let st := R.mk (R.sc st) (R.scSizeGroup st) (R.vEle st) LBGroup (R.UBGroup st)
              (R.BigThanLB st) (R.SelectEle st) (R.k st) in
  '(sum, UBGroup) ← upper_scan (R.scSizeGroup st) (R.UBGroup st);
  '(UBGroup, st) ← for_loop sum N (fun _ '(flags, st) =>
      fill_step flags UB st) (UBGroup, st);
  Ok (R.mk (R.sc st) (R.scSizeGroup st) (R.vEle st) (R.LBGroup st) UBGroup
        (R.BigThanLB st) (R.SelectEle st) (R.k st)).

(** The arrays that [Crossover] works on besides its four parameters, as
    the caller leaves them, and the values that the uninitialised locals
    [g] and [pickG] happen to hold. *)
Record workspace : Type := mk_workspace {
  w_globals : G.t;
  w_gDiv : list Qc;
  w_gDiv_p1 : list Qc;
  w_gDiv_p2 : list Qc;
  w_Delta_Matrix_p1 : list (list Qc);
  w_Delta_Matrix_p2 : list (list Qc);
  w_p1 : list Z;
  w_p2 : list Z;
  w_vEle : list Z;
  w_gEle : list Z;
  w_LBGroup : list Z;
  w_UBGroup : list Z;
  w_BigThanLB : list Z;
  w_ub : list Z;
  w_SelectEle : list Z;
  w_SelectEleTemp : list Z;
  w_SelGroup : list Z;
  w_g : Z;
  w_pickG : Z
}.

(** [Crossover(partition1, partition2, sc, scSizeGroup)], from draw number
    [k]; the result is the child, its sizes and the number of draws used. *)
Definition Crossover (w : workspace) (k : nat)
    (partition1 partition2 sc scSizeGroup : list Z)
  : res (list Z * list Z * nat) :=
  '(s, gDiv, p1, Delta_Matrix_p1, gDiv_p1) ←
    Crossover_load partition1 (w_globals w) (w_gDiv w) (w_p1 w)
      (w_Delta_Matrix_p1 w) (w_gDiv_p1 w);
  '(s, gDiv, p2, Delta_Matrix_p2, gDiv_p2) ←
    Crossover_load partition2 s gDiv (w_p2 w)
      (w_Delta_Matrix_p2 w) (w_gDiv_p2 w);
  '(vEle, sc) ← for_loop 0 N (fun i '(vEle, sc) =>
      vEle ← wr vEle i i;
      sc ← wr sc i (-1);
      Ok (vEle, sc)) (w_vEle w, sc);
  '(LBGroup, UBGroup, BigThanLB, gEle, ub, scSizeGroup) ←
    for_loop 0 K (fun i '(LBGroup, UBGroup, BigThanLB, gEle, ub, scSizeGroup) =>
      LBGroup ← wr LBGroup i 0;
      UBGroup ← wr UBGroup i 0;
      BigThanLB ← wr BigThanLB i 0;
      gEle ← wr gEle i i;
      u ← rd UB i;
      ub ← wr ub i u;
      scSizeGroup ← wr scSizeGroup i 0;
      Ok (LBGroup, UBGroup, BigThanLB, gEle, ub, scSizeGroup))
      (w_LBGroup w, w_UBGroup w, w_BigThanLB w, w_gEle w, w_ub w, scSizeGroup);
  st ← for_loop 0 K (fun _ st =>
      Crossover_round Delta_Matrix_p1 Delta_Matrix_p2 st)
      (X.mk sc scSizeGroup vEle ub p1 p2 gDiv_p1 gDiv_p2
         (w_SelectEle w) (w_SelectEleTemp w) (w_SelGroup w)
         (w_g w) (w_pickG w) k);
  r ← Crossover_repair
      (R.mk (X.sc st) (X.scSizeGroup st) (X.vEle st) LBGroup UBGroup BigThanLB
         (X.SelectEle st) (X.k st));
  Ok (R.sc r, R.scSizeGroup r, R.k r).

End Crossover.

(** ** Invariants of the recombination *)

Section CrossoverInvariants.
Context (N K : Z) (LB UB : list Z).

(** The bounds of every group are ordered and not negative, and the
    instance is feasible. *)
Definition bounds_ok : Prop :=
  len LB K ∧ len UB K ∧
  (∀ g, 0 <= g < K → 0 <= get LB g <= get UB g) ∧
  isum (Z.to_nat K) (get LB) <= N <= isum (Z.to_nat K) (get UB).

(** [sc] and [vEle] describe the same pool: a free element has [sc = -1]
    and [vEle] equal to its index, an assigned one has [sc] among the groups
    and [vEle = -1]. *)
Definition pool_ok (sc vEle : list Z) : Prop :=
  len sc N ∧ len vEle N ∧
  ∀ j, 0 <= j < N →
    (get sc j = -1 ∧ get vEle j = j) ∨ (0 <= get sc j < K ∧ get vEle j = -1).

(** [scSizeGroup] holds the sizes of the groups of [sc], none above its
    upper bound; with the free elements they add up to [N]. *)
Definition sizes_tracked (sc scSizeGroup : list Z) : Prop :=
  len scSizeGroup K ∧
  (∀ g, 0 <= g < K →
     get scSizeGroup g = tally (is_group g) N sc ∧
     0 <= get scSizeGroup g <= get UB g) ∧
  isum (Z.to_nat K) (get scSizeGroup) + tally is_free N sc = N.

(** A flag is 1 exactly on the groups that satisfy [P], and 0 elsewhere. *)
Definition flags_ok (flags : list Z) (P : Z → Prop) : Prop :=
  len flags K ∧
  ∀ g, 0 <= g < K → (get flags g = 1 ∧ P g) ∨ (get flags g = 0 ∧ ¬ P g).

Definition repair_inv (st : R.t) : Prop :=
  pool_ok (R.sc st) (R.vEle st) ∧
  sizes_tracked (R.sc st) (R.scSizeGroup st) ∧
  len (R.SelectEle st) N.

(** The elements still owned by the parents are the free ones; an assigned
    element is marked [-1] in [p1] and [p2]. *)
Definition parents_ok (partition1 partition2 sc p1 p2 : list Z) : Prop :=
  len p1 N ∧ len p2 N ∧
  ∀ j, 0 <= j < N →
    (get sc j = -1 ∧ get p1 j = get partition1 j ∧ get p2 j = get partition2 j) ∨
    (get sc j ≠ -1 ∧ get p1 j = -1 ∧ get p2 j = -1).

(** A group is open while [ub] holds its upper bound, and closed once it
    holds [-1]; an open group is empty. *)
Definition open_ok (ub scSizeGroup : list Z) : Prop :=
  len ub K ∧
  ∀ g, 0 <= g < K →
    get ub g = -1 ∨ (get ub g = get UB g ∧ get scSizeGroup g = 0).

(** [sc'] and [vEle'] result from [sc] and [vEle] by giving group [pickG]
    to [cnt] free elements, listed without repetition in [T]. *)
Definition assigned (sc vEle sc' vEle' T : list Z) (cnt pickG : Z) : Prop :=
  pool_ok sc' vEle' ∧
  (∀ g, 0 <= g < K →
     tally (is_group g) N sc'
     = tally (is_group g) N sc + (if decide (g = pickG) then cnt else 0)) ∧
  tally is_free N sc' = tally is_free N sc - cnt ∧
  len T N ∧
  (∀ i, 0 <= i < cnt →
     0 <= get T i < N ∧ get sc (get T i) = -1 ∧ get sc' (get T i) = pickG) ∧
  (∀ i i', 0 <= i < i' → i' < cnt → get T i ≠ get T i') ∧
  (∀ x, 0 <= x < N →
     get sc' x = get sc x ∨
     (get sc' x = pickG ∧ ∃ i, 0 <= i < cnt ∧ get T i = x)).

(** The invariant of the main loop after [t] passes. *)
Definition round_inv (partition1 partition2 : list Z) (t : Z) (st : X.t) : Prop :=
  pool_ok (X.sc st) (X.vEle st) ∧
  sizes_tracked (X.sc st) (X.scSizeGroup st) ∧
  parents_ok partition1 partition2 (X.sc st) (X.p1 st) (X.p2 st) ∧
  open_ok (X.ub st) (X.scSizeGroup st) ∧
  tally is_set K (X.ub st) = K - t ∧
  len (X.gDiv_p1 st) K ∧ len (X.gDiv_p2 st) K ∧
  len (X.SelectEle st) N ∧ len (X.SelectEleTemp st) N ∧ len (X.SelGroup st) K ∧
  (X.g st ≠ -1 ∨ ∀ j, 0 <= j < N → get (X.sc st) j = -1).

(** The arrays of the workspace have the sizes that [AssignMemery] gives
    them. *)
Definition workspace_ok (w : workspace) : Prop :=
  allocated N K (w_globals w) ∧
  len (w_gDiv w) K ∧ len (w_gDiv_p1 w) K ∧ len (w_gDiv_p2 w) K ∧
  dims (w_Delta_Matrix_p1 w) N K ∧ dims (w_Delta_Matrix_p2 w) N K ∧
  len (w_p1 w) N ∧ len (w_p2 w) N ∧ len (w_vEle w) N ∧ len (w_gEle w) K ∧
  len (w_LBGroup w) K ∧ len (w_UBGroup w) K ∧ len (w_BigThanLB w) K ∧
  len (w_ub w) K ∧ len (w_SelectEle w) N ∧ len (w_SelectEleTemp w) N ∧
  len (w_SelGroup w) K.

(** A partition of the [N] elements into the [K] groups whose group sizes
    are within the bounds. *)
Definition feasible_partition (P : list Z) : Prop :=
  len P N ∧ in_groups K P ∧
  ∀ g, 0 <= g < K → get LB g <= group_size P g <= get UB g.

(** The child assigns every element to one group, [scSizeGroup] holds the
    sizes of its groups, and every size is within the bounds. *)
Definition child_ok (sc scSizeGroup : list Z) : Prop :=
  len sc N ∧ in_groups K sc ∧ len scSizeGroup K ∧
  ∀ g, 0 <= g < K →
    get scSizeGroup g = group_size sc g ∧
    get LB g <= get scSizeGroup g <= get UB g.

End CrossoverInvariants.

(** Two parents on the instance [Ex1], a workspace of zeroed arrays, and a
    stream of draws. *)
Module ExC.
Definition partition1 : list Z := [0; 0; 1; 1].
Definition partition2 : list Z := [0; 1; 0; 1].
Definition rnd : nat → Z := fun k => Z.of_nat k.
Definition RAND_MAX : Z := 32767.
Definition zN : list Z := [0; 0; 0; 0].
Definition zK : list Z := [0; 0].
Definition qK : list Qc := [0%Qc; 0%Qc].
Definition w : workspace :=
  mk_workspace Ex1.s0 qK qK qK Ex1.zeros Ex1.zeros zN zN zN zK zK zK zK zK
    zN zN zK 0 0.
Definition sc : list Z := zN.
Definition scSizeGroup : list Z := zK.
End ExC.


(** * Further routines of the program *)

(** ** Entries of the catalogue *)

Definition is_relocation (nb : Nb.t) (v g : Z) : Prop :=
  Nb.type nb = 1 ∧ Nb.v nb = v ∧ Nb.g nb = g.

Definition is_swap (nb : Nb.t) (x y : Z) : Prop :=
  Nb.type nb = 2 ∧ Nb.x nb = x ∧ Nb.y nb = y.

(** ** The weight of a pair in the file *)

(** The triple [e] names the elements [i] and [j], in either order. *)
Definition names (e : Z * Z * Qc) (i j : Z) : Prop :=
  (e.1.1 = i ∧ e.1.2 = j) ∨ (e.1.1 = j ∧ e.1.2 = i).

(** The weight that a list of triples gives to [i] and [j]: that of the last
    triple of two different elements that names them, and [w0] when there is
    none. *)
Definition pair_weight (edges : list (Z * Z * Qc)) (w0 : Qc) (i j : Z) : Qc :=
  foldl (fun w e => if decide (e.1.1 ≠ e.1.2 ∧ names e i j) then e.2 else w)
    w0 edges.

(** A file of three elements: the pair of 0 and 1 is given twice, a triple
    names element 2 with itself, and weights are given for 2 and 0. *)
Module ExF.
Definition file : instance_file :=
  mk_file 3 1 (Some "ds"%string) [(1, 3)]
    [(0, 1, q 5 1); (2, 2, q 9 1); (1, 0, q 7 2); (2, 0, q 1 4)].
End ExF.

(** ** The random initial partition *)

(** What a run may end in: a result that satisfies [P], or no result for
    want of fuel; never an undefined step. *)
Definition returns_only {A} (P : A → Prop) (r : res A) : Prop :=
  match r with
  | Ok a => P a
  | NoFuel => True
  | Undef => False
  end.

Section InitialSolution.
Context (N K : Z) (LB UB : list Z).
Context (rnd : nat → Z).

(** The inner loop of the first phase, [while (count < K)], with [n]
    groups left to look at: the first group below its lower bound, if
    any. *)
Fixpoint lower_slot (n : nat) (count : Z) (SizeGroup : list Z)
  : res (option Z) :=
  match n with
  | O => Ok None
  | S n' =>
      sz ← rd SizeGroup count;
      lb ← rd LB count;
      if decide (sz < lb) then Ok (Some count)
      else lower_slot n' (count + 1) SizeGroup
  end.

(** The inner loop of the second phase, [while (1)]: groups are drawn
    until one below its upper bound comes up. *)
Fixpoint upper_slot (fuel : nat) (SizeGroup : list Z) (k : nat)
  : res (Z * nat) :=
  match fuel with
  | O => NoFuel
  | S fuel' =>
      count ← c_mod (rnd k) K;
      let k := S k in
      sz ← rd SizeGroup count;
      ub ← rd UB count;
      if decide (sz < ub) then Ok (count, k)
      else upper_slot fuel' SizeGroup k
  end.

(** The arrays [p], [Flag] and [SizeGroup], the counter [tot_number] and
    the number of draws consumed. *)
Definition ris_state : Type := list Z * list Z * list Z * Z * nat.

(** The four assignments that give element [p1] to group [count]. *)
Definition place (p1 count : Z) (st : ris_state) : res ris_state :=
  let '(p, Flag, SizeGroup, tot_number, k) := st in
  p ← wr p p1 count;
  Flag ← wr Flag p1 1;
  sz ← rd SizeGroup count;
  SizeGroup ← wr SizeGroup count (sz + 1);
  Ok (p, Flag, SizeGroup, tot_number + 1, k).

(** Body of [while (tot_number < sum)]. *)
Definition lower_body (st : ris_state) : res ris_state :=
  let '(p, Flag, SizeGroup, tot_number, k) := st in
  p1 ← c_mod (rnd k) N;
  let k := S k in
  f ← rd Flag p1;
  if decide (f = 0) then
    slot ← lower_slot (Z.to_nat K) 0 SizeGroup;
    match slot with
    | Some count => place p1 count (p, Flag, SizeGroup, tot_number, k)
    | None => Ok (p, Flag, SizeGroup, tot_number, k)
    end
  else Ok (p, Flag, SizeGroup, tot_number, k).

Fixpoint lower_phase (fuel : nat) (sum : Z) (st : ris_state) : res ris_state :=
  if decide (st.1.2 < sum) then
    match fuel with
    | O => NoFuel
    | S fuel' => st' ← lower_body st; lower_phase fuel' sum st'
    end
  else Ok st.

(** Body of [while (tot_number < N - sum)]. *)
Definition upper_body (fuel : nat) (st : ris_state) : res ris_state :=
  let '(p, Flag, SizeGroup, tot_number, k) := st in
  p1 ← c_mod (rnd k) N;
  let k := S k in
  f ← rd Flag p1;
  if decide (f = 0) then
    '(count, k) ← upper_slot fuel SizeGroup k;
    place p1 count (p, Flag, SizeGroup, tot_number, k)
  else Ok (p, Flag, SizeGroup, tot_number, k).

Fixpoint upper_phase (fuel : nat) (rest : Z) (st : ris_state) : res ris_state :=
  if decide (st.1.2 < rest) then
    match fuel with
    | O => NoFuel
    | S fuel' => st' ← upper_body fuel' st; upper_phase fuel' rest st'
    end
  else Ok st.

(** [RandomInitiaSol(p, SizeG)], from draw [k] on; the result is the two
    arrays of the caller and the number of draws consumed.  The cells of a
    new array are set by the loop that follows its allocation. *)
Definition RandomInitiaSol (fuel : nat) (k : nat) (p SizeG : list Z)
  : res (list Z * list Z * nat) :=
  SizeGroup ← for_loop 0 K (fun i a => wr a i 0) (replicate (Z.to_nat K) 0);
  Flag ← for_loop 0 N (fun i a => wr a i 0) (replicate (Z.to_nat N) 0);
  sum ← for_loop 0 K (fun i sum => lb ← rd LB i; Ok (sum + lb)) 0;
  '(p, Flag, SizeGroup, _, k) ← lower_phase fuel sum (p, Flag, SizeGroup, 0, k);
  '(p, Flag, SizeGroup, _, k) ←
    upper_phase fuel (N - sum) (p, Flag, SizeGroup, 0, k);
  SizeG ← copy_into K SizeGroup SizeG;
  Ok (p, SizeG, k).

End InitialSolution.

(** The state of the first two phases describes a partial assignment: an
    element with [Flag = 0] is free, one with [Flag = 1] has a group in
    [p]; [SizeGroup] counts the elements placed in each group, between
    [lo] and [hi], and [tot_number] those placed since [base]. *)
Definition placed (p Flag : list Z) (i : Z) : Z :=
  if decide (get Flag i = 0) then -1 else get p i.

Definition ris_inv (N K : Z) (lo hi : Z → Z) (base : Z) (st : ris_state)
  : Prop :=
  let '(p, Flag, SizeGroup, tot_number, k) := st in
  len p N ∧ len Flag N ∧ len SizeGroup K ∧
  (∀ i, 0 <= i < N →
     get Flag i = 0 ∨ (get Flag i = 1 ∧ 0 <= get p i < K)) ∧
  (∀ g, 0 <= g < K →
     get SizeGroup g
       = isum (Z.to_nat N)
           (fun i => if is_group g (placed p Flag i) then 1 else 0) ∧
     lo g <= get SizeGroup g <= hi g) ∧
  isum (Z.to_nat K) (get SizeGroup) = base + tot_number ∧
  base + tot_number
    + isum (Z.to_nat N) (fun i => if decide (get Flag i = 0) then 1 else 0) = N.

(** ** Solutions and the population *)

(** A [Solution]: the partition [p], the sizes [SizeG] and the [cost]. *)
Module Sol.
Record t : Type := mk { p : list Z; SizeG : list Z; cost : Qc }.
End Sol.

#[global] Instance Sol_inhabited : Inhabited Sol.t :=
  populate (Sol.mk [] [] 0%Qc).

Section Search.
Context (N K : Z) (D DT : list (list Qc)) (LB UB : list Z).
Context (rnd : nat → Z).

(** [InitialSol(S)]: the result is the globals, [S] and the number of draws
    consumed. *)
Definition InitialSol (fuel : nat) (k : nat) (s : G.t) (S : Sol.t)
  : res (G.t * Sol.t * nat) :=
  '(p, SizeG, k) ← RandomInitiaSol N K LB UB rnd fuel k (Sol.p S) (Sol.SizeG S);
  '(s, p, SizeG, cost) ← RandLS N K D DT LB UB fuel s p SizeG;
  Ok (s, Sol.mk p SizeG cost, k).

(** The two loops and the assignment that copy solution [src] over
    [dst]. *)
Definition copy_solution (src dst : Sol.t) : res Sol.t :=
  p ← copy_into N (Sol.p src) (Sol.p dst);
  SizeG ← copy_into K (Sol.SizeG src) (Sol.SizeG dst);
  Ok (Sol.mk p SizeG (Sol.cost src)).

(** [if (S.cost > GS.cost) { ... }]: the best solution found so far. *)
Definition record_best (S GS : Sol.t) : res Sol.t :=
  if decide (Sol.cost GS < Sol.cost S)%Qc then copy_solution S GS else Ok GS.

(** The globals, [Pop], [CS], [GS] and the number of draws consumed. *)
Definition search_state : Type := G.t * list Sol.t * Sol.t * Sol.t * nat.

(** The first loop of [SearchAlgorithm], which fills the population. *)
Definition initial_population (fuel : nat) (popSize : Z) (st : search_state)
  : res search_state :=
  let '(s, Pop, CS, GS, k) := st in
  let GS := Sol.mk (Sol.p GS) (Sol.SizeG GS) (q (-9999999) 1) in
  for_loop 0 popSize (fun i '(s, Pop, CS, GS, k) =>
    '(s, CS, k) ← InitialSol fuel k s CS;
    Pi ← rd Pop i;
    Pi ← copy_solution CS Pi;
    Pop ← wr Pop i Pi;
    GS ← record_best Pi GS;
    Ok (s, Pop, CS, GS, k)) (s, Pop, CS, GS, k).

(** The first loop of a generation: every member of the population is
    perturbed by [L] moves and improved. *)
Definition perturb_population (fuel : nat) (Neighbors : list Nb.t) (L : Z)
    (popSize : Z) (st : G.t * list Sol.t * Sol.t * nat)
  : res (G.t * list Sol.t * Sol.t * nat) :=
  for_loop 0 popSize (fun i '(s, Pop, GS, k) =>
    Pi ← rd Pop i;
    '(s, p, SizeG, k) ←
      StrongPerturbation N K D LB UB rnd fuel Neighbors k L s
        (Sol.p Pi) (Sol.SizeG Pi);
    '(s, p, SizeG, cost) ← RandLS N K D DT LB UB fuel s p SizeG;
    let Pi := Sol.mk p SizeG cost in
    Pop ← wr Pop i Pi;
    GS ← record_best Pi GS;
    Ok (s, Pop, GS, k)) st.

(** [pickS = rand() % popSize; do { pickS = (pickS + 1) % popSize; }
    while (pickS == i);] *)
Fixpoint next_other (fuel : nat) (popSize i pickS : Z) : res Z :=
  match fuel with
  | O => NoFuel
  | S fuel' =>
      pickS ← c_mod (pickS + 1) popSize;
      if decide (pickS = i) then next_other fuel' popSize i pickS
      else Ok pickS
  end.

Definition pick_mate (fuel : nat) (popSize i : Z) (k : nat) : res (Z * nat) :=
  pickS ← c_mod (rnd k) popSize;
  pickS ← next_other fuel popSize i pickS;
  Ok (pickS, S k).

(** A solution as the local search leaves it: feasible, with its sizes and
    its cost recorded, and without an improving move. *)
Definition settled (S : Sol.t) : Prop :=
  sizes_ok N K LB UB (Sol.p S) (Sol.SizeG S) ∧
  Sol.cost S = objective N D (Sol.p S) ∧
  local_optimum N K D LB UB (Sol.p S) (Sol.SizeG S).

(** The arrays of a solution have their allocated sizes. *)
Definition sol_allocated (S : Sol.t) : Prop :=
  len (Sol.p S) N ∧ len (Sol.SizeG S) K.

(** The invariant of the loops over the population, with [i] members
    done: these are settled and [GS] is at least as good as each of
    them. *)
Definition population_inv (popSize i : Z) (Pop : list Sol.t) (GS : Sol.t)
  : Prop :=
  len Pop popSize ∧ sol_allocated GS ∧
  ∀ j, 0 <= j < i →
    settled (get Pop j) ∧ (Sol.cost (get Pop j) <= Sol.cost GS)%Qc.

End Search.

(** A population of two on the instance [Ex1]: arrays of zeros as
    [AssignMemery] may leave them, a feasible member, and the catalogue of
    the 14 moves. *)
Module ExP.
Definition blank : Sol.t := Sol.mk [0; 0; 0; 0] [0; 0] 0%Qc.
Definition member : Sol.t := Sol.mk Ex1.part Ex1.sizes 0%Qc.
Definition Neighbors : list Nb.t :=
  match BuildNeighbors 4 2 (replicate 14 (Nb.mk 0 0 0 0 0)) with
  | Ok nbs => nbs
  | _ => []
  end.
End ExP.

(** ** Values without a fractional part *)

(** A [double] that an [int] holds without loss. *)
Definition integral (x : Qc) : Prop := Qc_of_Z (trunc x) = x.

(** ** The scan of the selection step *)

(** The state of the scan of group [k] after the elements below [i]. *)
Definition scan_inv (N : Z) (s : G.t) (k i : Z) (mm : Z * Z) : Prop :=
  ((∀ i', 0 <= i' < i → get (G.p s) i' ≠ k) ∧ mm = (99999999, 0)) ∨
  (0 <= mm.2 < i ∧ get (G.p s) mm.2 = k ∧
   Qc_of_Z mm.1 = get2 (G.Delta_Matrix s) mm.2 k ∧
   ∀ i', 0 <= i' < i → get (G.p s) i' = k →
     (get2 (G.Delta_Matrix s) mm.2 k <= get2 (G.Delta_Matrix s) i' k)%Qc).

(** The globals on the instance [Ex1] once the matrix of the partition
    [Ex1.part] is built. *)
Module ExS.
Definition s : G.t :=
  match Build_Delta_Matrix Ex1.N Ex1.K Ex1.D (G.set_p Ex1.s0 Ex1.part) with
  | Ok s => s
  | _ => Ex1.s0
  end.
End ExS.

(** * The exchange method

    The first program of the file, [c_anticlustering] and its routines.
    A [double] is an exact rational or one of the three values that a
    division by zero brings in; rounding and overflow are not modelled. *)

#[global] Instance dbl_inhabited : Inhabited dbl := populate (Fin 0%Qc).

Definition fneg (a : dbl) : dbl :=
  match a with
  | Fin x => Fin (- x)%Qc
  | PInf => NInf
  | NInf => PInf
  | NaN => NaN
  end.

Definition fadd (a b : dbl) : dbl :=
  match a, b with
  | Fin x, Fin y => Fin (x + y)%Qc
  | NaN, _ | _, NaN => NaN
  | PInf, NInf | NInf, PInf => NaN
  | PInf, _ | _, PInf => PInf
  | NInf, _ | _, NInf => NInf
  end.

Definition fsub (a b : dbl) : dbl := fadd a (fneg b).

(** [pow(a, 2)]. *)
Definition fsq (a : dbl) : dbl :=
  match a with
  | Fin x => Fin (x * x)%Qc
  | PInf | NInf => PInf
  | NaN => NaN
  end.

(** [a / b] for a [double] [a] and an [int] [b]. *)
Definition fdiv (a : dbl) (b : Z) : dbl :=
  match a with
  | Fin x => dbl_div x (Qc_of_Z b)
  | PInf => if decide (0 <= b) then PInf else NInf
  | NInf => if decide (0 <= b) then NInf else PInf
  | NaN => NaN
  end.

(** [a > b]. *)
Definition fgt (a b : dbl) : bool :=
  match a, b with
  | NaN, _ | _, NaN => false
  | Fin x, Fin y => bool_decide (y < x)%Qc
  | PInf, PInf => false
  | PInf, _ => true
  | _, PInf => false
  | NInf, _ => false
  | Fin _, NInf => true
  end.

(** ** The store

    A [struct element] holds the cluster, the category, the [ID] and the
    values of a data point; the array [POINTS] holds the elements, and a
    pointer to an element is its index.  A [struct node] holds a pointer to
    an element and a pointer to the next node; the nodes live in [NODES],
    and a pointer to a node is its index there.  [NULL] is no index. *)
Module El.
Record t : Type := mk { cluster : Z; category : Z; ID : Z; values : list dbl }.
Definition set_cluster (e : t) (c : Z) : t := mk c (category e) (ID e) (values e).
Definition set_category (e : t) (c : Z) : t := mk (cluster e) c (ID e) (values e).
Definition set_ID (e : t) (i : Z) : t := mk (cluster e) (category e) i (values e).
Definition set_values (e : t) (v : list dbl) : t :=
  mk (cluster e) (category e) (ID e) v.
End El.

Module Nd.
Record t : Type := mk { data : Z; next : Z }.
Definition set_data (n : t) (d : Z) : t := mk d (next n).
End Nd.

#[global] Instance El_inhabited : Inhabited El.t := populate (El.mk 0 0 0 []).
#[global] Instance Nd_inhabited : Inhabited Nd.t := populate (Nd.mk (-1) (-1)).

Definition NULL : Z := -1.

Record store : Type := mk_store { POINTS : list El.t; NODES : list Nd.t }.

Definition set_POINTS (M : store) (P : list El.t) : store := mk_store P (NODES M).
Definition set_NODES (M : store) (Ns : list Nd.t) : store := mk_store (POINTS M) Ns.

(** [node->data] and [*(node->data)]. *)
Definition data_of (M : store) (node : Z) : res Z :=
  nd ← rd (NODES M) node; Ok (Nd.data nd).

Definition element_of (M : store) (node : Z) : res El.t :=
  d ← data_of M node; rd (POINTS M) d.

(** ** Arrays of doubles *)

Definition euclidean_squared (x y : list dbl) (m : Z) : res dbl :=
  for_loop 0 m (fun i sum =>
    a ← rd x i;
    b ← rd y i;
    Ok (fadd sum (fsq (fsub a b)))) (Fin 0%Qc).

Definition copy_array (n : Z) (origin target : list dbl) : res (list dbl) :=
  for_loop 0 n (fun i target => x ← rd origin i; wr target i x) target.

Definition copy_matrix (n m : Z) (origin target : list (list dbl))
  : res (list (list dbl)) :=
  for_loop 0 n (fun i target =>
    for_loop 0 m (fun j target =>
      x ← rd2 origin i j; wr2 target i j x) target) target.

Definition array_sum (k : Z) (ARRAY : list dbl) : res dbl :=
  for_loop 0 k (fun i sum => x ← rd ARRAY i; Ok (fadd sum x)) (Fin 0%Qc).

(** ** Filling the data points

    [fails i] tells whether the allocation of the values of point [i] fails;
    the cells of a new array are written before they are read.  The result
    is the return value and the array [POINTS]. *)
Fixpoint fill_points_from (fails : Z → bool) (data : list dbl) (m : Z)
    (clusters : list Z) (USE_CATS : Z) (categories : list Z)
    (cnt : nat) (i : Z) (m_ptr : list Z) (POINTS : list El.t)
  : res (Z * list El.t) :=
  match cnt with
  | O => Ok (0, POINTS)
  | S cnt' =>
      c ← rd clusters i;
      e ← rd POINTS i;
      POINTS ← wr POINTS i (El.set_cluster e c);
      POINTS ←
        (if decide (USE_CATS ≠ 0) then
           c ← rd categories i;
           e ← rd POINTS i;
           wr POINTS i (El.set_category e c)
         else
           e ← rd POINTS i;
           wr POINTS i (El.set_category e 0));
      e ← rd POINTS i;
      POINTS ← wr POINTS i (El.set_ID e i);
      if fails i then Ok (1, POINTS)
      else
        e ← rd POINTS i;
        POINTS ← wr POINTS i (El.set_values e (replicate (Z.to_nat m) (Fin 0%Qc)));
        '(m_ptr, POINTS) ← for_loop 0 m (fun j '(m_ptr, POINTS) =>
            o ← rd m_ptr j;
            m_ptr ← wr m_ptr j (o + 1);
            x ← rd data o;
            e ← rd POINTS i;
            v ← wr (El.values e) j x;
            POINTS ← wr POINTS i (El.set_values e v);
            Ok (m_ptr, POINTS)) (m_ptr, POINTS);
        fill_points_from fails data m clusters USE_CATS categories
          cnt' (i + 1) m_ptr POINTS
  end.

Definition fill_data_points (fails : Z → bool) (data : list dbl) (n m : Z)
    (POINTS : list El.t) (clusters : list Z) (USE_CATS : Z)
    (categories : list Z) : res (Z * list El.t) :=
  m_ptr ← for_loop 0 m (fun i m_ptr => wr m_ptr i (i * n))
             (replicate (Z.to_nat m) 0);
  fill_points_from fails data m clusters USE_CATS categories
    (Z.to_nat n) 0 m_ptr POINTS.

(** ** Cluster lists *)

(** The loop [while (tmp != NULL)] of [cluster_var]. *)
Fixpoint cluster_var_from (fuel : nat) (M : store) (m : Z) (center : list dbl)
    (tmp : Z) (sum : dbl) : res dbl :=
  if decide (tmp ≠ NULL) then
    match fuel with
    | O => NoFuel
    | S fuel' =>
        e ← element_of M tmp;
        d ← euclidean_squared center (El.values e) m;
        nd ← rd (NODES M) tmp;
        cluster_var_from fuel' M m center (Nd.next nd) (fadd sum d)
    end
  else Ok sum.

Definition cluster_var (fuel : nat) (M : store) (m : Z) (HEAD : Z)
    (center : list dbl) : res dbl :=
  hd ← rd (NODES M) HEAD;
  cluster_var_from fuel M m center (Nd.next hd) (Fin 0%Qc).

(** The loop [while (tmp != NULL)] of [compute_center]. *)
Fixpoint compute_center_from (fuel : nat) (M : store) (m : Z)
    (tmp : Z) (center : list dbl) : res (list dbl) :=
  if decide (tmp ≠ NULL) then
    match fuel with
    | O => NoFuel
    | S fuel' =>
        center ← for_loop 0 m (fun i center =>
            c ← rd center i;
            e ← element_of M tmp;
            v ← rd (El.values e) i;
            wr center i (fadd c v)) center;
        nd ← rd (NODES M) tmp;
        compute_center_from fuel' M m (Nd.next nd) center
    end
  else Ok center.

Definition compute_center (fuel : nat) (M : store) (m : Z) (center : list dbl)
    (HEAD : Z) (freq : Z) : res (list dbl) :=
  center ← for_loop 0 m (fun i center => wr center i (Fin 0%Qc)) center;
  hd ← rd (NODES M) HEAD;
  center ← compute_center_from fuel M m (Nd.next hd) center;
  for_loop 0 m (fun i center =>
    c ← rd center i; wr center i (fdiv c freq)) center.

Definition objective_by_cluster (fuel : nat) (M : store) (m k : Z)
    (OBJ_BY_CLUSTER : list dbl) (CENTERS : list (list dbl)) (HEADS : list Z)
  : res (list dbl) :=
  for_loop 0 k (fun i OBJ =>
    h ← rd HEADS i;
    c ← rd CENTERS i;
    v ← cluster_var fuel M m h c;
    wr OBJ i v) OBJ_BY_CLUSTER.

(** ** Exchanging two elements *)

Definition update_centers (M : store) (m : Z) (CENTERS : list (list dbl))
    (one two : Z) (frequencies : list Z) : res (list (list dbl)) :=
  e1 ← element_of M one;
  let cl1 := El.cluster e1 in
  e2 ← element_of M two;
  let cl2 := El.cluster e2 in
  for_loop 0 m (fun i CENTERS =>
    e1 ← element_of M one;
    v1 ← rd (El.values e1) i;
    f1 ← rd frequencies cl1;
    let change_cl1 := fdiv v1 f1 in
    e2 ← element_of M two;
    v2 ← rd (El.values e2) i;
    f2 ← rd frequencies cl2;
    let change_cl2 := fdiv v2 f2 in
    c ← rd2 CENTERS cl1 i;
    CENTERS ← wr2 CENTERS cl1 i (fadd c change_cl2);
    c ← rd2 CENTERS cl1 i;
    CENTERS ← wr2 CENTERS cl1 i (fsub c change_cl1);
    c ← rd2 CENTERS cl2 i;
    CENTERS ← wr2 CENTERS cl2 i (fsub c change_cl2);
    c ← rd2 CENTERS cl2 i;
    wr2 CENTERS cl2 i (fadd c change_cl1)) CENTERS.

(** Assignment to a field of [*(node->data)]. *)
Definition update_element (M : store) (node : Z) (f : El.t → El.t) : res store :=
  d ← data_of M node;
  e ← rd (POINTS M) d;
  P ← wr (POINTS M) d (f e);
  Ok (set_POINTS M P).

(** Assignment to [node->data]. *)
Definition update_data (M : store) (node : Z) (d : Z) : res store :=
  nd ← rd (NODES M) node;
  Ns ← wr (NODES M) node (Nd.set_data nd d);
  Ok (set_NODES M Ns).

Definition swap (i j : Z) (st : store * list Z) : res (store * list Z) :=
  let '(M, PTR_NODES) := st in
  one ← rd PTR_NODES i;
  two ← rd PTR_NODES j;
  e1 ← element_of M one;
  let cl1 := El.cluster e1 in
  e2 ← element_of M two;
  let cl2 := El.cluster e2 in
  e1 ← element_of M one;
  let ID1 := El.ID e1 in
  e2 ← element_of M two;
  let ID2 := El.ID e2 in
  PTR_NODES ← wr PTR_NODES ID1 two;
  PTR_NODES ← wr PTR_NODES ID2 one;
  M ← update_element M one (fun e => El.set_ID e ID2);
  M ← update_element M one (fun e => El.set_ID e ID1);
  M ← update_element M one (fun e => El.set_cluster e cl2);
  M ← update_element M two (fun e => El.set_cluster e cl1);
  tmp ← data_of M one;
  d2 ← data_of M two;
  M ← update_data M one d2;
  M ← update_data M two tmp;
  Ok (M, PTR_NODES).

(** ** The exchange loop

    The variables of [c_anticlustering] that its main loop works on.  The
    arrays [tmp_centers], [best_centers], [tmp_objs] and [best_objs] and the
    locals [best_partner], [tmp_obj] and [best_obj] are declared without
    initialiser. *)
Module XS.
Record t : Type := mk {
  M : store;
  PTR_NODES : list Z;
  CENTERS : list (list dbl);
  OBJ_BY_CLUSTER : list dbl;
  SUM_VAR_OBJECTIVE : dbl;
  best_partner : Z;
  tmp_centers : list (list dbl);
  best_centers : list (list dbl);
  tmp_objs : list dbl;
  best_objs : list dbl;
  tmp_obj : dbl;
  best_obj : dbl
}.
End XS.

Section Exchange.
Context (fuel : nat) (n m k : Z) (HEADS : list Z) (frequencies : list Z).

(** The body of the loop over the exchange partners [j] of element [i],
    whose cluster on entry of that loop is [cl1]. *)
Definition exchange_try (i cl1 j : Z) (st : XS.t) : res XS.t :=
  two ← rd (XS.PTR_NODES st) j;
  e2 ← element_of (XS.M st) two;
  let cl2 := El.cluster e2 in
  if decide (cl1 = cl2) then Ok st
  else
    tmp_centers ← copy_matrix k m (XS.CENTERS st) (XS.tmp_centers st);
    tmp_objs ← copy_array k (XS.OBJ_BY_CLUSTER st) (XS.tmp_objs st);
    one ← rd (XS.PTR_NODES st) i;
    two ← rd (XS.PTR_NODES st) j;
    tmp_centers ← update_centers (XS.M st) m tmp_centers one two frequencies;
    '(M, PTR_NODES) ← swap i j (XS.M st, XS.PTR_NODES st);
    h ← rd HEADS cl1;
    c ← rd tmp_centers cl1;
    v ← cluster_var fuel M m h c;
    tmp_objs ← wr tmp_objs cl1 v;
    h ← rd HEADS cl2;
    c ← rd tmp_centers cl2;
    v ← cluster_var fuel M m h c;
    tmp_objs ← wr tmp_objs cl2 v;
    tmp_obj ← array_sum k tmp_objs;
    '(best_obj, best_centers, best_objs, best_partner) ←
      (if fgt tmp_obj (XS.best_obj st) then
         best_centers ← copy_matrix k m tmp_centers (XS.best_centers st);
         best_objs ← copy_array k tmp_objs (XS.best_objs st);
         Ok (tmp_obj, best_centers, best_objs, j)
       else
         Ok (XS.best_obj st, XS.best_centers st, XS.best_objs st,
             XS.best_partner st));
    '(M, PTR_NODES) ← swap i j (M, PTR_NODES);
    Ok (XS.mk M PTR_NODES (XS.CENTERS st) (XS.OBJ_BY_CLUSTER st)
          (XS.SUM_VAR_OBJECTIVE st) best_partner tmp_centers best_centers
          tmp_objs best_objs tmp_obj best_obj).

(** The body of the loop over the elements [i]. *)
Definition exchange_step (i : Z) (st : XS.t) : res XS.t :=
  one ← rd (XS.PTR_NODES st) i;
  e1 ← element_of (XS.M st) one;
  let cl1 := El.cluster e1 in
  let best_obj := Fin 0%Qc in
  best_centers ← copy_matrix k m (XS.CENTERS st) (XS.best_centers st);
  best_objs ← copy_array k (XS.OBJ_BY_CLUSTER st) (XS.best_objs st);
  st ← for_loop 0 n (exchange_try i cl1)
         (XS.mk (XS.M st) (XS.PTR_NODES st) (XS.CENTERS st)
            (XS.OBJ_BY_CLUSTER st) (XS.SUM_VAR_OBJECTIVE st)
            (XS.best_partner st) (XS.tmp_centers st) best_centers
            (XS.tmp_objs st) best_objs (XS.tmp_obj st) best_obj);
  if fgt (XS.best_obj st) (XS.SUM_VAR_OBJECTIVE st) then
    '(M, PTR_NODES) ← swap i (XS.best_partner st) (XS.M st, XS.PTR_NODES st);
    CENTERS ← copy_matrix k m (XS.best_centers st) (XS.CENTERS st);
    OBJ_BY_CLUSTER ← copy_array k (XS.best_objs st) (XS.OBJ_BY_CLUSTER st);
    Ok (XS.mk M PTR_NODES CENTERS OBJ_BY_CLUSTER (XS.best_obj st)
          (XS.best_partner st) (XS.tmp_centers st) (XS.best_centers st)
          (XS.tmp_objs st) (XS.best_objs st) (XS.tmp_obj st) (XS.best_obj st))
  else Ok st.

(** The main loop of [c_anticlustering] and the loop that writes the
    output; the result is the final state and the array [clusters]. *)
Definition exchange (st : XS.t) (clusters : list Z) : res (XS.t * list Z) :=
  st ← for_loop 0 n exchange_step st;
  clusters ← for_loop 0 n (fun i clusters =>
      node ← rd (XS.PTR_NODES st) i;
      e ← element_of (XS.M st) node;
      wr clusters i (El.cluster e)) clusters;
  Ok (st, clusters).

End Exchange.

(** ** The shape of the store *)

(** The cluster and the values of the element that [PTR_NODES[i]] leads
    to. *)
Definition element_at (M : store) (PTR_NODES : list Z) (i : Z) : El.t :=
  get (POINTS M) (Nd.data (get (NODES M) (get PTR_NODES i))).

Definition label (M : store) (PTR_NODES : list Z) (i : Z) : Z :=
  El.cluster (element_at M PTR_NODES i).

(** [PTR_NODES[i]] is a node whose element has [ID] [i], for each of the
    [n] data points. *)
Definition linked (n : Z) (M : store) (PTR_NODES : list Z) : Prop :=
  len PTR_NODES n ∧
  ∀ i, 0 <= i < n →
    0 <= get PTR_NODES i < Z.of_nat (length (NODES M)) ∧
    0 <= Nd.data (get (NODES M) (get PTR_NODES i))
      < Z.of_nat (length (POINTS M)) ∧
    El.ID (element_at M PTR_NODES i) = i.

(** The state after [swap(n, i, j, PTR_NODES)]. *)
Definition swapped (M : store) (PTR_NODES : list Z) (i j : Z)
  : store * list Z :=
  let one := get PTR_NODES i in
  let two := get PTR_NODES j in
  let d1 := Nd.data (get (NODES M) one) in
  let d2 := Nd.data (get (NODES M) two) in
  let cl1 := label M PTR_NODES i in
  let cl2 := label M PTR_NODES j in
  let P := upd (POINTS M) d1 (El.set_cluster (get (POINTS M) d1) cl2) in
  let P := upd P d2 (El.set_cluster (get P d2) cl1) in
  let Ns := upd (NODES M) one (Nd.set_data (get (NODES M) one) d2) in
  let Ns := upd Ns two (Nd.set_data (get Ns two) d1) in
  (mk_store P Ns, upd (upd PTR_NODES i two) j one).

(** Number of the [n] data points in cluster [c]. *)
Definition cluster_size (n : Z) (M : store) (PTR_NODES : list Z) (c : Z) : Z :=
  isum (Z.to_nat n) (fun i => if is_group c (label M PTR_NODES i) then 1 else 0).

(** The exchange of [i] and [j] on indices. *)
Definition transpose (i j k : Z) : Z :=
  if decide (k = i) then j else if decide (k = j) then i else k.

(** Node [x] starts a list of at most [fuel] nodes, each of them one of the
    nodes of [PTR_NODES], that ends in [NULL]. *)
Fixpoint chain (n : Z) (M : store) (PTR_NODES : list Z) (fuel : nat) (x : Z)
  : Prop :=
  x = NULL ∨
  match fuel with
  | O => False
  | S fuel' =>
      (∃ i, 0 <= i < n ∧ x = get PTR_NODES i) ∧
      chain n M PTR_NODES fuel' (Nd.next (get (NODES M) x))
  end.

(** The store as the set-up of [c_anticlustering] leaves it, and as the
    exchanges keep it: the clusters are among the [k] clusters, every data
    point has [m] values, and every head starts a list of nodes. *)
Definition shape (fuel : nat) (n m k : Z) (HEADS : list Z)
    (M : store) (PTR_NODES : list Z) : Prop :=
  linked n M PTR_NODES ∧
  (∀ i, 0 <= i < n →
     0 <= label M PTR_NODES i < k ∧
     len (El.values (element_at M PTR_NODES i)) m) ∧
  (∀ c, 0 <= c < k →
     0 <= get HEADS c < Z.of_nat (length (NODES M)) ∧
     chain n M PTR_NODES fuel (Nd.next (get (NODES M) (get HEADS c)))).

(** The state on entry of the main loop: the store has its shape, the
    arrays have their declared sizes, and the objective is not negative. *)
Definition ready (fuel : nat) (n m k : Z) (HEADS frequencies : list Z)
    (st : XS.t) : Prop :=
  0 <= n ∧ 0 <= m ∧ 0 <= k ∧
  shape fuel n m k HEADS (XS.M st) (XS.PTR_NODES st) ∧
  len HEADS k ∧ len frequencies k ∧
  dims (XS.CENTERS st) k m ∧ dims (XS.tmp_centers st) k m ∧
  dims (XS.best_centers st) k m ∧
  len (XS.OBJ_BY_CLUSTER st) k ∧ len (XS.tmp_objs st) k ∧
  len (XS.best_objs st) k ∧
  fgt (Fin 0%Qc) (XS.SUM_VAR_OBJECTIVE st) = false.

(** The invariant of the loop over the exchange partners: the store and
    the objective are those of [st0], and [best_partner] has been set once
    [best_obj] has. *)
Definition try_inv (n m k : Z) (st0 st : XS.t) : Prop :=
  XS.M st = XS.M st0 ∧ XS.PTR_NODES st = XS.PTR_NODES st0 ∧
  XS.CENTERS st = XS.CENTERS st0 ∧
  XS.OBJ_BY_CLUSTER st = XS.OBJ_BY_CLUSTER st0 ∧
  XS.SUM_VAR_OBJECTIVE st = XS.SUM_VAR_OBJECTIVE st0 ∧
  dims (XS.tmp_centers st) k m ∧ dims (XS.best_centers st) k m ∧
  len (XS.tmp_objs st) k ∧ len (XS.best_objs st) k ∧
  (XS.best_obj st = Fin 0%Qc ∨ 0 <= XS.best_partner st < n).

(** The cells of [CENTERS] after [update_centers] for two elements of
    clusters [cl1] and [cl2] with values [v1] and [v2]. *)
Definition updated_center (C : list (list dbl)) (frequencies : list Z)
    (cl1 cl2 : Z) (v1 v2 : list dbl) (c i : Z) : dbl :=
  let change_cl1 := fdiv (get v1 i) (get frequencies cl1) in
  let change_cl2 := fdiv (get v2 i) (get frequencies cl2) in
  let x := get2 C c i in
  let x := if decide (c = cl1) then fsub (fadd x change_cl2) change_cl1 else x in
  if decide (c = cl2) then fadd (fsub x change_cl2) change_cl1 else x.

(** Four data points with one value each, in two clusters, as the set-up of
    [c_anticlustering] lays them out: nodes 0 and 1 are the heads, node
    [2 + i] holds point [i], and each list starts with the point that was
    appended last. *)
Module ExX.
Definition POINTS : list El.t :=
  [ El.mk 0 0 0 [Fin (q 1 1)]; El.mk 0 0 1 [Fin (q 2 1)];
    El.mk 1 0 2 [Fin (q 3 1)]; El.mk 1 0 3 [Fin (q 5 1)] ].
Definition NODES : list Nd.t :=
  [ Nd.mk NULL 3; Nd.mk NULL 5;
    Nd.mk 0 NULL; Nd.mk 1 2; Nd.mk 2 NULL; Nd.mk 3 4 ].
Definition M : store := mk_store POINTS NODES.
Definition PTR_NODES : list Z := [2; 3; 4; 5].
Definition HEADS : list Z := [0; 1].
Definition frequencies : list Z := [2; 2].
Definition zeros : list (list dbl) := [[Fin 0%Qc]; [Fin 0%Qc]].
Definition CENTERS : list (list dbl) := [[Fin (q 3 2)]; [Fin (q 4 1)]].
Definition OBJ_BY_CLUSTER : list dbl := [Fin (q 1 2); Fin (q 2 1)].
Definition st : XS.t :=
  XS.mk M PTR_NODES CENTERS OBJ_BY_CLUSTER (Fin (q 5 2)) 0
    zeros zeros [Fin 0%Qc; Fin 0%Qc] [Fin 0%Qc; Fin 0%Qc] (Fin 0%Qc) (Fin 0%Qc).
End ExX.

(** ** Finite values *)

Definition fin_part (a : dbl) : Qc :=
  match a with
  | Fin x => x
  | _ => 0%Qc
  end.

(** The first [m] cells of [x] hold numbers. *)
Definition finite (m : Z) (x : list dbl) : Prop :=
  ∀ i, 0 <= i < m → get x i = Fin (fin_part (get x i)).

(** Value [u] of data point [x]. *)
Definition value_at (M : store) (PTR_NODES : list Z) (x u : Z) : Qc :=
  fin_part (get (El.values (element_at M PTR_NODES x)) u).

(** The sum of the values [u] of the data points of cluster [c], divided
    by [f]. *)
Definition cluster_mean (n : Z) (M : store) (PTR_NODES : list Z)
    (f : Z) (c u : Z) : Qc :=
  (zsum (Z.to_nat n) (fun x =>
     if decide (label M PTR_NODES x = c) then value_at M PTR_NODES x u
     else 0%Qc) / Qc_of_Z f)%Qc.

(** ** The layout of the data *)

(** Data point [i] as [fill_data_points] stores it in [e]: [data] holds
    [m] columns of [n] values, one column after the other. *)
Definition filled (data : list dbl) (n m : Z) (clusters : list Z)
    (USE_CATS : Z) (categories : list Z) (i : Z) (e : El.t) : Prop :=
  El.cluster e = get clusters i ∧
  El.category e = (if decide (USE_CATS ≠ 0) then get categories i else 0) ∧
  El.ID e = i ∧
  len (El.values e) m ∧
  ∀ j, 0 <= j < m → get (El.values e) j = get data (j * n + i).

(** ** Cluster lists as lists *)

(** The data points of the list of nodes that starts at node [x], in the
    order of the list. *)
Fixpoint members (fuel : nat) (M : store) (x : Z) : list El.t :=
  if decide (x = NULL) then []
  else
    match fuel with
    | O => []
    | S fuel' =>
        get (POINTS M) (Nd.data (get (NODES M) x))
        :: members fuel' M (Nd.next (get (NODES M) x))
    end.

Definition qsum (l : list Qc) : Qc := foldr Qcplus 0%Qc l.

(** Value [u] of a data point. *)
Definition value (u : Z) (e : El.t) : Qc := fin_part (get (El.values e) u).

(** The squared distance between [center] and the [m] values of [e]. *)
Definition sq_dist (m : Z) (center : list dbl) (e : El.t) : Qc :=
  zsum (Z.to_nat m) (fun i =>
    (fin_part (get center i) - fin_part (get (El.values e) i))
    * (fin_part (get center i) - fin_part (get (El.values e) i)))%Qc.


(** * Arrays and loops *)

Lemma bind_Ok {A B} (a : A) (k : A → res B) : (Ok a ≫= k) = k a.
Proof. reflexivity. Qed.

Lemma bind_inv {A B} (m : res A) (k : A → res B) b :
  m ≫= k = Ok b → ∃ a, m = Ok a ∧ k a = Ok b.
Proof. destruct m; simpl; intros E; try discriminate. eauto. Qed.

Section Arrays.
Context {A : Type} `{Inhabited A}.
Implicit Types (a : list A) (m : list (list A)).

Lemma rd_ok a n i : len a n → 0 <= i < n → rd a i = Ok (get a i).
Proof.
  unfold len, rd, get. intros Hl Hi.
  destruct (decide (0 <= i)) as [_|]; [|lia].
  destruct (lookup_lt_is_Some_2 a (Z.to_nat i)) as [x Hx]; [lia|].
  rewrite Hx. f_equal. symmetry. by apply list_lookup_total_correct.
Qed.

Lemma rd_inv a i x : rd a i = Ok x → 0 <= i < Z.of_nat (length a) ∧ x = get a i.
Proof.
  unfold rd, get. destruct (decide (0 <= i)); [|discriminate].
  destruct (a !! Z.to_nat i) as [y|] eqn:E; [|discriminate].
  intros [= <-]. split.
  - apply lookup_lt_Some in E. lia.
  - symmetry. by apply list_lookup_total_correct.
Qed.

Lemma wr_ok a n i x : len a n → 0 <= i < n → wr a i x = Ok (upd a i x).
Proof.
  unfold len, wr, upd. intros Hl Hi.
  destruct (decide (0 <= i < Z.of_nat (length a))); [done|lia].
Qed.

Lemma wr_inv a i x a' : wr a i x = Ok a' → 0 <= i < Z.of_nat (length a) ∧ a' = upd a i x.
Proof.
  unfold wr, upd. destruct (decide _); [|discriminate]. by intros [= <-].
Qed.

Lemma len_upd a n i x : len a n → len (upd a i x) n.
Proof. unfold len, upd. by rewrite length_insert. Qed.

Lemma get_upd_eq a n i x : len a n → 0 <= i < n → get (upd a i x) i = x.
Proof.
  unfold len, get, upd. intros. apply list_lookup_total_insert_eq. lia.
Qed.

Lemma get_upd_ne a i j x : 0 <= i → 0 <= j → i ≠ j → get (upd a i x) j = get a j.
Proof.
  unfold get, upd. intros. apply list_lookup_total_insert_ne. lia.
Qed.

Lemma get_upd a n i j x :
  len a n → 0 <= i < n → 0 <= j →
  get (upd a i x) j = if decide (i = j) then x else get a j.
Proof.
  intros. destruct (decide (i = j)) as [->|].
  - by eapply get_upd_eq.
  - apply get_upd_ne; lia.
Qed.

End Arrays.

Section Matrices.
Context {A : Type} `{Inhabited A}.
Implicit Types (m : list (list A)).

Lemma dims_row m r c i : dims m r c → 0 <= i < r → len (get m i) c.
Proof.
  intros [Hl Hf] Hi. unfold get.
  rewrite Forall_lookup in Hf. apply (Hf (Z.to_nat i)).
  apply list_lookup_lookup_total_lt. unfold len in Hl. lia.
Qed.

Lemma dims_upd2 m r c i j x : dims m r c → 0 <= i < r → dims (upd2 m i j x) r c.
Proof.
  intros Hd Hi. pose proof (dims_row _ _ _ _ Hd Hi) as Hr.
  destruct Hd as [Hl Hf]. split.
  - unfold upd2. by apply len_upd.
  - unfold upd2, upd at 1. apply Forall_insert; [done|]. by apply len_upd.
Qed.

Lemma rd2_ok m r c i j :
  dims m r c → 0 <= i < r → 0 <= j < c → rd2 m i j = Ok (get2 m i j).
Proof.
  intros Hd Hi Hj. unfold rd2, get2.
  rewrite (rd_ok _ r) by (done || apply Hd). simpl.
  apply (rd_ok _ c); [|done]. by eapply dims_row.
Qed.

Lemma wr2_ok m r c i j x :
  dims m r c → 0 <= i < r → 0 <= j < c → wr2 m i j x = Ok (upd2 m i j x).
Proof.
  intros Hd Hi Hj. unfold wr2, upd2.
  rewrite (rd_ok _ r) by (done || apply Hd). simpl.
  rewrite (wr_ok _ c) by (done || by eapply dims_row). simpl.
  apply (wr_ok _ r); [apply Hd|done].
Qed.

Lemma get2_upd2 m r c i j x i' j' :
  dims m r c → 0 <= i < r → 0 <= j < c → 0 <= i' → 0 <= j' →
  get2 (upd2 m i j x) i' j' =
    if decide (i = i' ∧ j = j') then x else get2 m i' j'.
Proof.
  intros Hd Hi Hj Hi' Hj'. unfold get2, upd2.
  rewrite (get_upd _ r) by (done || apply Hd || lia).
  destruct (decide (i = i')) as [->|Hne].
  - rewrite (get_upd _ c) by (done || by eapply dims_row).
    destruct (decide (j = j')), (decide (i' = i' ∧ j = j')); try done; tauto.
  - destruct (decide (i = i' ∧ j = j')); [tauto|done].
Qed.

End Matrices.

(** The rule of the counted loop: an invariant that every iteration keeps
    holds at the exit. *)
Lemma for_loop_inv {St} (I : Z → St → Prop) lo hi body (s : St) :
  lo <= hi → I lo s →
  (∀ i s, lo <= i < hi → I i s → ∃ s', body i s = Ok s' ∧ I (i + 1) s') →
  ∃ s', for_loop lo hi body s = Ok s' ∧ I hi s'.
Proof.
  unfold for_loop. intros Hle H0 Hstep.
  remember (Z.to_nat (hi - lo)) as n eqn:En.
  revert lo s Hle H0 Hstep En. induction n as [|n IH]; intros lo s Hle H0 Hstep En.
  - simpl. exists s. split; [done|]. by replace hi with lo by lia.
  - simpl. destruct (Hstep lo s) as (s1 & E1 & I1); [lia|done|].
    rewrite E1. simpl. apply IH; [lia|done| |lia].
    intros i s2 Hi. apply Hstep. lia.
Qed.

Lemma for_loop_empty {St} lo hi body (s : St) : hi <= lo → for_loop lo hi body s = Ok s.
Proof. unfold for_loop. intros. by replace (Z.to_nat (hi - lo)) with O by lia. Qed.

(** A loop that returns went through every iteration. *)
Lemma for_loop_inv_partial {St} (I : Z → St → Prop) lo hi body (s s' : St) :
  lo <= hi → I lo s →
  (∀ i s s', lo <= i < hi → I i s → body i s = Ok s' → I (i + 1) s') →
  for_loop lo hi body s = Ok s' → I hi s'.
Proof.
  unfold for_loop. intros Hle H0 Hstep.
  remember (Z.to_nat (hi - lo)) as n eqn:En.
  revert lo s Hle H0 Hstep En. induction n as [|n IH]; intros lo s Hle H0 Hstep En.
  - simpl. intros [= <-]. by replace hi with lo by lia.
  - simpl. intros E. apply bind_inv in E as (s1 & E1 & E2).
    eapply (IH (lo + 1) s1); [lia| | |lia|done].
    + eapply Hstep; [|done|done]. lia.
    + intros i s2 s3 Hi. apply Hstep. lia.
Qed.

Lemma copy_into_ok {A} `{Inhabited A} n (src dst : list A) :
  0 <= n → len src n → len dst n → copy_into n src dst = Ok src.
Proof.
  intros Hn Hs Hd. unfold copy_into.
  destruct (for_loop_inv
    (fun i d => len d n ∧ ∀ j, 0 <= j < i → get d j = get src j)
    0 n (fun i dst => x ← rd src i; wr dst i x) dst) as (d & E & Hl & Hd');
    [done|split; [done|lia]| |].
  - intros i d Hi [Hl Hg]. rewrite (rd_ok _ n) by done. simpl.
    rewrite (wr_ok _ n) by done. eexists; split; [done|]. split.
    + by apply len_upd.
    + intros j Hj. rewrite (get_upd _ n) by (done || lia).
      destruct (decide (i = j)) as [->|]; [done|]. apply Hg. lia.
  - rewrite E. f_equal. apply list_eq_same_length with (Z.to_nat n).
    + unfold len in *. lia.
    + unfold len in *. lia.
    + intros i x y Hi Hx Hy.
      specialize (Hd' (Z.of_nat i) ltac:(lia)). unfold get in Hd'.
      rewrite Nat2Z.id in Hd'.
      apply list_lookup_total_correct in Hx, Hy. congruence.
Qed.


Ltac side := first [done | lia | eassumption].
Ltac rds n :=
  match goal with
  | |- context [rd ?a ?i] => rewrite (rd_ok a n i) by side; rewrite ?bind_Ok
  end.
Ltac rd2s r c :=
  match goal with
  | |- context [rd2 ?m ?i ?j] => rewrite (rd2_ok m r c i j) by side; rewrite ?bind_Ok
  end.
Ltac wrs n :=
  match goal with
  | |- context [wr ?a ?i ?x] => rewrite (wr_ok a n i x) by side; rewrite ?bind_Ok
  end.
Ltac wr2s r c :=
  match goal with
  | |- context [wr2 ?m ?i ?j ?x] => rewrite (wr2_ok m r c i j x) by side; rewrite ?bind_Ok
  end.

(** * Sums *)

Lemma zsum_ext n h h' :
  (∀ k, 0 <= k < Z.of_nat n → h k = h' k) → zsum n h = zsum n h'.
Proof.
  induction n as [|n IH]; intros E; simpl; [done|].
  rewrite IH by (intros; apply E; lia). rewrite E by lia. done.
Qed.

Lemma zsum_zero n : zsum n (fun _ => 0%Qc) = 0%Qc.
Proof. induction n as [|n IH]; simpl; [done|]. rewrite IH. ring. Qed.

Lemma zsum_plus n h h' :
  zsum n (fun k => (h k + h' k)%Qc) = (zsum n h + zsum n h')%Qc.
Proof. induction n as [|n IH]; simpl; [ring|]. rewrite IH. ring. Qed.

Lemma zsum_exchange n m (h : Z → Z → Qc) :
  zsum n (fun i => zsum m (fun j => h i j)) =
  zsum m (fun j => zsum n (fun i => h i j)).
Proof.
  induction n as [|n IH]; simpl.
  - by rewrite zsum_zero.
  - rewrite IH, <- zsum_plus. done.
Qed.

(** Changing one term of a sum. *)
Lemma zsum_change n h h' v :
  0 <= v < Z.of_nat n → (∀ k, 0 <= k < Z.of_nat n → k ≠ v → h' k = h k) →
  zsum n h' = (zsum n h + (h' v - h v))%Qc.
Proof.
  induction n as [|n IH]; intros Hv E; [lia|]. simpl.
  destruct (decide (v = Z.of_nat n)) as [->|Hne].
  - rewrite (zsum_ext n h' h) by (intros; apply E; lia). ring.
  - rewrite IH by (lia || intros; apply E; lia).
    rewrite (E (Z.of_nat n)) by lia. ring.
Qed.

Lemma zsum_nonneg n h :
  (∀ k, 0 <= k < Z.of_nat n → (0 <= h k)%Qc) → (0 <= zsum n h)%Qc.
Proof.
  induction n as [|n IH]; intros E; simpl; [apply Qcle_refl|].
  specialize (IH ltac:(intros; apply E; lia)).
  specialize (E (Z.of_nat n) ltac:(lia)).
  replace 0%Qc with (0 + 0)%Qc by ring. by apply Qcplus_le_compat.
Qed.

Lemma zsum_le n h h' :
  (∀ k, 0 <= k < Z.of_nat n → (h k <= h' k)%Qc) → (zsum n h <= zsum n h')%Qc.
Proof.
  induction n as [|n IH]; intros E; simpl; [apply Qcle_refl|].
  apply Qcplus_le_compat; [apply IH; intros; apply E; lia|apply E; lia].
Qed.

Lemma for_loop2_inv {St} (I : Z → Z → St → Prop) r (lo : Z → Z) c body (s : St) :
  0 <= r → (∀ i, 0 <= i < r → lo i <= c) → I 0 (lo 0) s →
  (∀ i j s, 0 <= i < r → lo i <= j < c → I i j s →
     ∃ s', body i j s = Ok s' ∧ I i (j + 1) s') →
  (∀ i s, 0 <= i < r → I i c s → I (i + 1) (lo (i + 1)) s) →
  ∃ s', for_loop 0 r (fun i s => for_loop (lo i) c (body i) s) s = Ok s'
        ∧ I r (lo r) s'.
Proof.
  intros Hr Hlo H0 Hstep Hrow.
  apply (for_loop_inv (fun i s => I i (lo i) s)); [done|done|].
  intros i s1 Hi H1.
  destruct (for_loop_inv (I i) (lo i) c (body i) s1) as (s2 & E & H2);
    [by apply Hlo|done| |].
  - intros j s2 Hj. by apply Hstep.
  - exists s2. split; [done|]. by apply Hrow.
Qed.

Lemma in_groups_get N K P i : len P N → in_groups K P → 0 <= i < N → 0 <= get P i < K.
Proof.
  unfold in_groups, len, get. intros Hl Hf Hi.
  rewrite Forall_lookup in Hf. apply (Hf (Z.to_nat i)).
  apply list_lookup_lookup_total_lt. lia.
Qed.

Lemma Qc_double_inj (a b : Qc) : (2 * a = 2 * b)%Qc → a = b.
Proof.
  intros E. replace a with (2 * a / 2)%Qc by (field; discriminate).
  rewrite E. field. discriminate.
Qed.

Ltac qc_lra :=
  unfold Qclt, Qcle, Qcplus, Qcminus, Qcopp, Qcmult, Q2Qc in *; simpl this in *;
  repeat (rewrite Qred_correct in * ); lra.

Lemma in_groups_upd K P v g : in_groups K P → 0 <= g < K → in_groups K (upd P v g).
Proof.
  unfold in_groups, upd. intros Hf Hg.
  destruct (decide (Z.to_nat v < length P)%nat).
  - by apply Forall_insert.
  - rewrite list_insert_ge by lia. done.
Qed.

Lemma matrix_ext (m m' : list (list Qc)) r c :
  dims m r c → dims m' r c →
  (∀ i j, 0 <= i < r → 0 <= j < c → get2 m i j = get2 m' i j) → m = m'.
Proof.
  intros [Hl Hf] [Hl' Hf'] E. unfold len in *.
  apply list_eq_same_length with (length m); [lia|lia|].
  intros i row row' Hi Hr Hr'.
  pose proof (Forall_lookup_1 _ _ _ _ Hf Hr) as Hlr.
  pose proof (Forall_lookup_1 _ _ _ _ Hf' Hr') as Hlr'. unfold len in *.
  apply list_eq_same_length with (length row); [lia|lia|].
  intros j x x' Hj Hx Hx'.
  specialize (E (Z.of_nat i) (Z.of_nat j) ltac:(lia) ltac:(lia)).
  unfold get2, get in E. rewrite !Nat2Z.id in E.
  rewrite (list_lookup_total_correct _ _ _ Hr) in E.
  rewrite (list_lookup_total_correct _ _ _ Hr') in E.
  rewrite (list_lookup_total_correct _ _ _ Hx) in E.
  rewrite (list_lookup_total_correct _ _ _ Hx') in E. done.
Qed.

Section Theory.
Context (N K : Z) (D DT : list (list Qc)) (LB UB : list Z).
Hypothesis HN : 0 <= N.
Hypothesis HK : 0 <= K.
Hypothesis HD : dims D N N.

Lemma Clear_Delta_Matrix_ok s :
  dims (G.Delta_Matrix s) N K →
  ∃ m, Clear_Delta_Matrix N K s = Ok (G.set_Delta_Matrix (G.set_f s 0%Qc) m)
       ∧ dims m N K
       ∧ ∀ i g, 0 <= i < N → 0 <= g < K → get2 m i g = 0%Qc.
Proof.
  intros Hd. unfold Clear_Delta_Matrix.
  destruct (for_loop2_inv
    (fun i j m => dims m N K ∧
       ∀ i' j', 0 <= i' < N → 0 <= j' < K → i' < i ∨ (i' = i ∧ j' < j) →
                get2 m i' j' = 0%Qc)
    N (fun _ => 0) K (fun x g m => wr2 m x g 0%Qc) (G.Delta_Matrix s))
    as (m & E & Hd' & Hz); [done|done|split; [done|lia]| | |].
  - intros i j m Hi Hj [Hdm Hz]. rewrite (wr2_ok _ N K) by done.
    eexists; split; [done|]. split; [by apply dims_upd2|].
    intros i' j' Hi' Hj' Hlt. rewrite (get2_upd2 _ N K) by (done || lia).
    destruct (decide _); [done|]. apply Hz; lia.
  - intros i m Hi [Hdm Hz]. split; [done|]. intros. apply Hz; lia.
  - simpl G.Delta_Matrix. rewrite E. exists m. split; [done|]. split; [done|].
    intros. apply Hz; lia.
Qed.

Lemma partial_sum_step P j i g :
  0 <= j →
  partial_sum D P (j + 1) i g =
    (partial_sum D P j i g + if decide (get P j = g) then get2 D i j else 0)%Qc.
Proof.
  intros Hj. unfold partial_sum.
  replace (Z.to_nat (j + 1)) with (S (Z.to_nat j)) by lia. simpl.
  by rewrite Z2Nat.id.
Qed.

Theorem Build_Delta_Matrix_ok s :
  len (G.p s) N → in_groups K (G.p s) →
  dims (G.Delta_Matrix s) N K → dims (G.Delta s) N K →
  ∃ m dl,
    Build_Delta_Matrix N K D s =
      Ok (G.mk (G.p s) m dl
            (zsum (Z.to_nat N) (fun i => group_sum N D (G.p s) i (get (G.p s) i)) / 2)%Qc
            (G.f_best s))
    ∧ is_delta_matrix N D K (G.p s) m ∧ dims dl N K.
Proof.
  intros Hp Hg Hdm Hdl. unfold Build_Delta_Matrix.
  destruct (Clear_Delta_Matrix_ok s Hdm) as (m0 & -> & Hd0 & Hz0).
  rewrite bind_Ok. simpl G.p. simpl G.Delta_Matrix. simpl G.Delta.
  set (P := G.p s) in *.
  destruct (for_loop2_inv
    (fun i j m => dims m N K ∧
       ∀ i' g, 0 <= i' < N → 0 <= g < K →
         get2 m i' g =
           if decide (i' < i) then group_sum N D P i' g
           else if decide (i' = i) then partial_sum D P j i g else 0%Qc)
    N (fun _ => 0) N
    (fun i j m => pj ← rd P j; old ← rd2 m i pj; dij ← rd2 D i j;
                  wr2 m i pj (old + dij)%Qc) m0)
    as (m & -> & Hd1 & Hm); [done|done| | | |].
  - split; [done|]. intros i' g Hi' Hg'. rewrite Hz0 by done.
    destruct (decide (i' < 0)); [lia|]. by destruct (decide (i' = 0)).
  - intros i j m Hi Hj [Hd1 Hm].
    pose proof (in_groups_get N K P j Hp Hg Hj) as Hpj.
    rds N. rd2s N K. rd2s N N. wr2s N K.
    eexists; split; [done|]. split; [by apply dims_upd2|].
    intros i' g Hi' Hg'. rewrite (get2_upd2 _ N K) by (done || lia).
    rewrite (Hm i (get P j)) by done. rewrite (Hm i' g) by done.
    destruct (decide (i' < i)) as [Hlt|Hge].
    + destruct (decide (i = i' ∧ get P j = g)); [lia|done].
    + destruct (decide (i < i)); [lia|]. destruct (decide (i = i)); [|done].
      destruct (decide (i' = i)) as [->|].
      * rewrite partial_sum_step by lia.
        destruct (decide (i = i ∧ get P j = g)) as [[_ <-]|Hn].
        -- destruct (decide (get P j = get P j)); [done|done].
        -- destruct (decide (get P j = g)); [tauto|ring].
      * destruct (decide (i = i' ∧ get P j = g)); [lia|done].
  - intros i m Hi [Hd1 Hm]. split; [done|]. intros i' g Hi' Hg'.
    rewrite Hm by done.
    destruct (decide (i' < i)), (decide (i' < i + 1)); try lia; try done.
    + destruct (decide (i' = i)) as [->|]; [done|lia].
    + destruct (decide (i' = i)); [lia|].
      destruct (decide (i' = i + 1)); [|done]. reflexivity.
  - rewrite bind_Ok.
    assert (Hdm1 : is_delta_matrix N D K P m).
    { split; [done|]. intros i g Hi Hg'. rewrite Hm by done.
      destruct (decide (i < N)); [done|lia]. }
    destruct (for_loop2_inv
      (fun i j (dl : list (list Qc)) => dims dl N K)
      N (fun _ => 0) K
      (fun i j dl => a ← rd2 m i j; pi ← rd P i; b ← rd2 m i pi;
                     wr2 dl i j (a - b)%Qc) (G.Delta s))
      as (dl & -> & Hd2); [done|done|done| |done|].
    { intros i j dl Hi Hj Hd2.
      pose proof (in_groups_get N K P i Hp Hg Hi) as Hpi.
      rd2s N K. rds N. rd2s N K. wr2s N K.
      eexists; split; [done|]. by apply dims_upd2. }
    rewrite bind_Ok.
    destruct (for_loop_inv
      (fun i (f : Qc) =>
         f = zsum (Z.to_nat i) (fun i => group_sum N D P i (get P i)))
      0 N (fun i f => pi ← rd P i; a ← rd2 m i pi; Ok (f + a)%Qc) 0%Qc)
      as (f & -> & Hf); [done|done| |].
    { intros i f Hi ->.
      pose proof (in_groups_get N K P i Hp Hg Hi) as Hpi.
      rds N. rd2s N K.
      eexists; split; [done|].
      replace (Z.to_nat (i + 1)) with (S (Z.to_nat i)) by lia. simpl.
      rewrite Z2Nat.id by lia. f_equal. by apply Hdm1. }
    rewrite bind_Ok. exists m, dl. split; [|done].
    unfold G.set_f, G.set_Delta, G.set_Delta_Matrix. simpl. by rewrite Hf.
Qed.

Lemma Proof_cost_ok P :
  len P N → Proof_cost N D P = Ok (objective N D P).
Proof.
  intros Hp. unfold Proof_cost.
  set (row := fun i => zsum (Z.to_nat N) (fun j =>
      if decide (i < j ∧ get P i = get P j) then get2 D i j else 0%Qc)).
  set (part := fun i j => zsum (Z.to_nat j) (fun j' =>
      if decide (i < j' ∧ get P i = get P j') then get2 D i j' else 0%Qc)).
  destruct (for_loop2_inv
    (fun i j (ff : Qc) => ff = (zsum (Z.to_nat i) row + part i j)%Qc)
    N (fun i => i + 1) N
    (fun i j ff => pi ← rd P i; pj ← rd P j;
       if decide (pi = pj) then dij ← rd2 D i j; Ok (ff + dij)%Qc else Ok ff)
    0%Qc) as (ff & -> & Hff); [done|lia| | | |].
  - simpl. unfold part. simpl. ring.
  - intros i j ff Hi Hj ->. rds N. rds N.
    assert (Hpart : part i (j + 1) =
      (part i j + if decide (get P i = get P j) then get2 D i j else 0)%Qc).
    { unfold part. replace (Z.to_nat (j + 1)) with (S (Z.to_nat j)) by lia.
      simpl. rewrite Z2Nat.id by lia.
      destruct (decide (i < j ∧ get P i = get P j)) as [[_ E]|Hn];
        destruct (decide (get P i = get P j)); try done. lia. }
    rewrite Hpart. destruct (decide (get P i = get P j)).
    + rd2s N N. eexists; split; [done|]. ring.
    + eexists; split; [done|]. ring.
  - intros i ff Hi ->.
    replace (Z.to_nat (i + 1)) with (S (Z.to_nat i)) by lia. simpl.
    rewrite Z2Nat.id by lia.
    replace (part (i + 1) (i + 1 + 1)) with 0%Qc.
    + unfold row, part. ring.
    + unfold part. symmetry. erewrite zsum_ext; [apply zsum_zero|].
      intros k Hk. simpl. destruct (decide _) as [[? _]|]; [lia|done].
  - f_equal. rewrite Hff. unfold objective. fold row.
    replace (part N (N + 1)) with 0%Qc; [ring|].
    unfold part. symmetry. erewrite zsum_ext; [apply zsum_zero|].
    intros k Hk. simpl. destruct (decide _) as [[? _]|]; [|done].
    (* k ranges below N+1 and must exceed N *) lia.
Qed.

Hypothesis Hsym : symmetric N D.
Hypothesis Hdiag : zero_diagonal N D.

(** Every pair of a group is met from both of its ends. *)
Lemma group_sums_twice_objective P :
  zsum (Z.to_nat N) (fun i => group_sum N D P i (get P i)) =
  (2 * objective N D P)%Qc.
Proof.
  unfold group_sum, objective.
  set (n := Z.to_nat N).
  set (h := fun i j : Z =>
     if decide (i < j ∧ get P i = get P j) then get2 D i j else 0%Qc).
  transitivity (zsum n (fun i => zsum n (fun j => (h i j + h j i)%Qc))).
  - apply zsum_ext. intros i Hi. apply zsum_ext. intros j Hj. unfold h.
    destruct (decide (get P j = get P i)) as [E|E].
    + destruct (decide (i < j ∧ get P i = get P j)) as [[? _]|Hn1];
      destruct (decide (j < i ∧ get P j = get P i)) as [[? _]|Hn2]; try lia.
      * ring.
      * rewrite (Hsym i j) by lia. ring.
      * assert (i = j) as ->.
        { destruct (Z.lt_trichotomy i j) as [?|[?|?]]; [|done|].
          - exfalso. apply Hn1. by split.
          - exfalso. apply Hn2. by split. }
        rewrite Hdiag by lia. ring.
    + destruct (decide (i < j ∧ get P i = get P j)) as [[_ ?]|_]; [congruence|].
      destruct (decide (j < i ∧ get P j = get P i)) as [[_ ?]|_]; [congruence|].
      ring.
  - transitivity (zsum n (fun i => zsum n (fun j => h i j))
                  + zsum n (fun i => zsum n (fun j => h j i)))%Qc.
    + rewrite <- zsum_plus. apply zsum_ext. intros i _. by rewrite zsum_plus.
    + rewrite (zsum_exchange n n (fun i j => h j i)). unfold h, n. ring.
Qed.

Theorem Build_cost_is_objective s s' :
  len (G.p s) N → in_groups K (G.p s) →
  dims (G.Delta_Matrix s) N K → dims (G.Delta s) N K →
  Build_Delta_Matrix N K D s = Ok s' →
  G.f s' = objective N D (G.p s).
Proof.
  intros Hp Hg Hdm Hdl E.
  destruct (Build_Delta_Matrix_ok s Hp Hg Hdm Hdl)
    as (m & dl & E' & _).
  rewrite E' in E. injection E as <-. simpl.
  rewrite group_sums_twice_objective. field. discriminate.
Qed.

(** Group sums after element [v] is relabelled [g]. *)
Lemma group_sum_upd P v g j g' :
  len P N → 0 <= v < N →
  group_sum N D (upd P v g) j g' =
    (group_sum N D P j g'
     + (if decide (g = g') then get2 D j v else 0)
     - (if decide (get P v = g') then get2 D j v else 0))%Qc.
Proof.
  intros Hp Hv. unfold group_sum.
  rewrite (zsum_change _
    (fun k => if decide (get P k = g') then get2 D j k else 0%Qc) _ v) by
    (try lia; intros k Hk Hne; rewrite get_upd_ne by lia; done).
  simpl. rewrite (get_upd_eq _ N) by done. ring.
Qed.

Lemma group_sum_upd_self P v g g' :
  len P N → 0 <= v < N →
  group_sum N D (upd P v g) v g' = group_sum N D P v g'.
Proof.
  intros Hp Hv. rewrite group_sum_upd by done. rewrite Hdiag by done.
  destruct (decide (g = g')), (decide (get P v = g')); ring.
Qed.

Lemma One_Move_Update_Delta_Matrix1_ok s P i g0 g1 :
  is_delta_matrix N D K P (G.Delta_Matrix s) → len P N →
  0 <= i < N → g0 = get P i → 0 <= g0 < K → 0 <= g1 < K →
  ∃ m', One_Move_Update_Delta_Matrix1 N D i g0 g1 s = Ok (G.set_Delta_Matrix s m')
        ∧ is_delta_matrix N D K (upd P i g1) m'.
Proof.
  intros [Hdm Hm] Hp Hi Hg0 Hg0r Hg1r. unfold One_Move_Update_Delta_Matrix1.
  destruct (for_loop_inv
    (fun j m => dims m N K ∧
       ∀ j' g, 0 <= j' < N → 0 <= g < K →
         get2 m j' g =
           if decide (j' < j) then group_sum N D (upd P i g1) j' g
           else group_sum N D P j' g)
    0 N
    (fun j m =>
       if decide (j ≠ i) then
         dij ← rd2 D i j; a ← rd2 m j g0; m ← wr2 m j g0 (a - dij)%Qc;
         b ← rd2 m j g1; wr2 m j g1 (b + dij)%Qc
       else Ok m) (G.Delta_Matrix s)) as (m' & -> & Hd' & Hm'); [done| | |].
  - split; [done|]. intros j' g Hj' Hg. rewrite Hm by done.
    destruct (decide (j' < 0)); [lia|done].
  - intros j m Hj [Hd1 Hm1]. destruct (decide (j ≠ i)) as [Hne|Heq].
    + rd2s N N. rd2s N K. wr2s N K.
      assert (Hd2 : dims (upd2 m j g0 (get2 m j g0 - get2 D i j)%Qc) N K)
        by (by apply dims_upd2).
      rd2s N K. wr2s N K. eexists; split; [done|]. split; [by apply dims_upd2|].
      intros j' g Hj' Hg.
      rewrite (get2_upd2 _ N K) by (done || lia).
      rewrite !(get2_upd2 _ N K) by (done || lia).
      destruct (decide (j' < j + 1)) as [Hlt|Hge].
      * destruct (decide (j' = j)) as [->|Hnj].
        -- rewrite group_sum_upd by done. rewrite <- Hg0.
           rewrite !Hm1 by done. destruct (decide (j < j)); [lia|].
           rewrite (Hsym j i) by done.
           clear Hm1 Hm Hg0. repeat case_decide; try (exfalso; intuition congruence);
             subst; ring.
        -- destruct (decide (j = j' ∧ g1 = g)); [lia|].
           destruct (decide (j = j' ∧ g0 = g)); [lia|].
           rewrite Hm1 by done. destruct (decide (j' < j)); [done|lia].
      * destruct (decide (j = j' ∧ g1 = g)); [lia|].
        destruct (decide (j = j' ∧ g0 = g)); [lia|].
        rewrite Hm1 by done. destruct (decide (j' < j)); [lia|done].
    + assert (j = i) as -> by (destruct (decide (j = i)); tauto).
      eexists; split; [done|]. split; [done|].
      intros j' g Hj' Hg. rewrite Hm1 by done.
      destruct (decide (j' < i)), (decide (j' < i + 1)); try done; try lia.
      assert (j' = i) as -> by lia. by rewrite group_sum_upd_self.
  - rewrite bind_Ok. exists m'. split; [done|]. split; [done|].
    intros j' g Hj' Hg. rewrite Hm' by done. destruct (decide (j' < N)); [done|lia].
Qed.

(** The gain that the relocation neighbourhood computes is the change of
    the objective. *)
Lemma objective_relocate P v g :
  len P N → 0 <= v < N →
  objective N D (upd P v g) =
    (objective N D P + (group_sum N D P v g - group_sum N D P v (get P v)))%Qc.
Proof.
  intros Hp Hv.
  assert (Hp' : len (upd P v g) N) by (by apply len_upd).
  pose proof (group_sums_twice_objective (upd P v g)) as E'.
  pose proof (group_sums_twice_objective P) as E.
  set (h := fun i => group_sum N D P i (get P i)) in *.
  set (c := fun i =>
    ((if decide (get P i = g) then get2 D v i else 0)
     - (if decide (get P i = get P v) then get2 D v i else 0))%Qc).
  assert (Hc : zsum (Z.to_nat N) c =
               (group_sum N D P v g - group_sum N D P v (get P v))%Qc).
  { unfold c, group_sum.
    rewrite <- (zsum_ext _ (fun i =>
      ((if decide (get P i = g) then get2 D v i else 0)
       + (- (if decide (get P i = get P v) then get2 D v i else 0)))%Qc))
      by (intros; ring).
    rewrite zsum_plus.
    assert (Hopp : ∀ n h0, zsum n (fun k => (- h0 k)%Qc) = (- zsum n h0)%Qc).
    { intros n h0. induction n as [|n IH]; simpl; [ring|]. rewrite IH. ring. }
    rewrite Hopp. ring. }
  assert (Hsum : zsum (Z.to_nat N)
            (fun i => group_sum N D (upd P v g) i (get (upd P v g) i)) =
          (zsum (Z.to_nat N) (fun i => (h i + c i)%Qc)
           + (group_sum N D P v g - (h v + c v)))%Qc).
  { rewrite (zsum_change _ (fun i => (h i + c i)%Qc) _ v).
    - simpl. rewrite (get_upd_eq _ N) by done.
      rewrite group_sum_upd_self by done. ring.
    - lia.
    - intros k Hk Hne. rewrite get_upd_ne by lia.
      rewrite group_sum_upd by done. unfold h, c.
      rewrite (Hsym k v) by lia.
      destruct (decide (g = get P k)), (decide (get P k = g));
      destruct (decide (get P v = get P k)), (decide (get P k = get P v));
        try congruence; ring. }
  rewrite Hsum in E'. rewrite zsum_plus, Hc in E'.
  assert (Hcv : c v = 0%Qc).
  { unfold c. rewrite Hdiag by done.
    destruct (decide (get P v = g)), (decide (get P v = get P v)); ring. }
  rewrite Hcv in E'. fold h in E. unfold h at 2 in E'. rewrite E in E'.
  assert (H2 : (2 * objective N D (upd P v g)
    = 2 * (objective N D P + (group_sum N D P v g - group_sum N D P v (get P v))))%Qc).
  { rewrite <- E'. ring. }
  apply (Qc_double_inj _ _ H2).
Qed.

Hypothesis HDT : is_double N D DT.
Hypothesis HLB : len LB K.
Hypothesis HUB : len UB K.

Lemma RandLS_move_spec v g st :
  0 <= v < N → 0 <= g < K → ls_inv N K D st →
  ∃ st', RandLS_move N D LB UB v g st = Ok st' ∧ ls_inv N K D st' ∧
    ((¬ improving_move N D LB UB (G.p st.1.1) st.1.2 v g ∧ st' = st) ∨
     (improving_move N D LB UB (G.p st.1.1) st.1.2 v g ∧ st'.2 = 1 ∧
      (G.f st.1.1 + eps < G.f st'.1.1)%Qc)).
Proof.
  intros Hv Hg. destruct st as [[s SG] Flag]. simpl.
  intros (Hp & Hgr & Hdm & Hf & Hsg & Hdl). simpl in *.
  pose proof (in_groups_get N K _ v Hp Hgr Hv) as Hpv.
  pose proof Hdm as [Hdims Hm].
  assert (Hchar : improving_move N D LB UB (G.p s) SG v g ↔
    get (G.p s) v ≠ g ∧ get SG (get (G.p s) v) > get LB (get (G.p s) v) ∧
    get SG g < get UB g ∧
    (eps < group_sum N D (G.p s) v g - group_sum N D (G.p s) v (get (G.p s) v))%Qc).
  { unfold improving_move.
    rewrite objective_relocate by done.
    match goal with |- context [(?a + ?b - ?a)%Qc] =>
      let E := fresh in assert (E : (a + b - a)%Qc = b) by ring; rewrite E end.
    tauto. }
  unfold RandLS_move. rds N. repeat rds K. repeat rd2s N K.
  destruct (decide (get (G.p s) v ≠ g)) as [Hne|Heq].
  2:{ eexists; split; [done|]. split; [done|]. left. split; [rewrite Hchar; tauto|done]. }
  destruct (decide (get SG (get (G.p s) v) > get LB (get (G.p s) v))) as [Hsz|Hsz].
  2:{ eexists; split; [done|]. split; [done|]. left. split; [rewrite Hchar; tauto|done]. }
  destruct (decide (get SG g < get UB g)) as [Hsz'|Hsz'].
  2:{ eexists; split; [done|]. split; [done|]. left. split; [rewrite Hchar; tauto|done]. }
  rewrite !Hm by done.
  destruct (decide (eps < group_sum N D (G.p s) v g
                          - group_sum N D (G.p s) v (get (G.p s) v))%Qc) as [Hgt|Hle].
  2:{ eexists; split; [done|]. split; [done|]. left. split; [rewrite Hchar; tauto|done]. }
  destruct (One_Move_Update_Delta_Matrix1_ok
              s (G.p s) v (get (G.p s) v) g Hdm Hp Hv eq_refl Hpv Hg)
    as (m' & -> & Hdm').
  rewrite !bind_Ok. wrs K.
  assert (Hsg1 : len (upd SG (get (G.p s) v) (get SG (get (G.p s) v) - 1)) K)
    by (by apply len_upd).
  rds K. wrs K. simpl G.p. wrs N.
  eexists; split; [done|]. unfold ls_inv. simpl. split.
  - split; [by apply len_upd|]. split; [by apply in_groups_upd|].
    split; [done|]. split; [|split; [by apply len_upd|done]].
    rewrite objective_relocate by done. by rewrite Hf.
  - right. split; [by rewrite Hchar|]. split; [done|]. clear -Hgt. qc_lra.
Qed.

(** Gain of a swap, in terms of the group sums before it. *)
Lemma objective_swap P x y :
  len P N → 0 <= x < N → 0 <= y < N → get P x ≠ get P y →
  objective N D (upd (upd P x (get P y)) y (get P x)) =
    (objective N D P
     + ((group_sum N D P x (get P y) - group_sum N D P x (get P x))
        + (group_sum N D P y (get P x) - group_sum N D P y (get P y))
        - 2 * get2 D x y))%Qc.
Proof.
  intros Hp Hx Hy Hne.
  assert (Hxy : x ≠ y) by congruence.
  rewrite objective_relocate by (done || by apply len_upd).
  rewrite objective_relocate by done.
  rewrite get_upd_ne by lia.
  rewrite !group_sum_upd by done.
  rewrite (Hsym y x) by done.
  destruct (decide (get P y = get P x)); [congruence|].
  destruct (decide (get P x = get P x)); [|done].
  destruct (decide (get P y = get P y)); [|done].
  destruct (decide (get P x = get P y)); [congruence|]. ring.
Qed.

Lemma RandLS_swap_spec x y st :
  0 <= x < N → 0 <= y < N → ls_inv N K D st →
  ∃ st', RandLS_swap N D DT x y st = Ok st' ∧ ls_inv N K D st' ∧
    ((¬ improving_swap N D (G.p st.1.1) x y ∧ st' = st) ∨
     (improving_swap N D (G.p st.1.1) x y ∧ st'.2 = 1 ∧
      (G.f st.1.1 + eps < G.f st'.1.1)%Qc)).
Proof.
  intros Hx Hy. destruct st as [[s SG] Flag]. simpl.
  intros (Hp & Hgr & Hdm & Hf & Hsg & Hdl). simpl in *.
  pose proof (in_groups_get N K _ x Hp Hgr Hx) as Hpx.
  pose proof (in_groups_get N K _ y Hp Hgr Hy) as Hpy.
  pose proof Hdm as [Hdims Hm]. destruct HDT as [HDTd HDTv].
  unfold RandLS_swap. rds N. rds N.
  destruct (decide (get (G.p s) x ≠ get (G.p s) y)) as [Hne|Heq].
  2:{ eexists; split; [done|]. split; [done|]. left.
      split; [unfold improving_swap; tauto|done]. }
  assert (Hchar : improving_swap N D (G.p s) x y ↔
    (eps < (group_sum N D (G.p s) x (get (G.p s) y) - group_sum N D (G.p s) x (get (G.p s) x))
        + (group_sum N D (G.p s) y (get (G.p s) x) - group_sum N D (G.p s) y (get (G.p s) y))
        - 2 * get2 D x y)%Qc).
  { unfold improving_swap. rewrite objective_swap by done.
    match goal with |- context [(?a + ?b - ?a)%Qc] =>
      let E := fresh in assert (E : (a + b - a)%Qc = b) by ring; rewrite E end.
    tauto. }
  rd2s N K. rd2s N K. rd2s N K. rd2s N K. rd2s N N.
  rewrite !Hm by done. rewrite HDTv by done.
  match goal with |- context [decide (eps < ?d)%Qc] => set (delt := d) end.
  destruct (decide (eps < delt)%Qc) as [Hgt|Hle].
  2:{ eexists; split; [done|]. split; [done|]. left. split; [rewrite Hchar; tauto|done]. }
  assert (Hxy : x ≠ y) by congruence.
  destruct (One_Move_Update_Delta_Matrix1_ok
              s (G.p s) x (get (G.p s) x) (get (G.p s) y) Hdm Hp Hx eq_refl Hpx Hpy)
    as (m1 & -> & Hdm1).
  rewrite bind_Ok.
  destruct (One_Move_Update_Delta_Matrix1_ok
              (G.set_Delta_Matrix s m1) (upd (G.p s) x (get (G.p s) y))
              y (get (G.p s) y) (get (G.p s) x))
    as (m2 & -> & Hdm2); try done.
  { by apply len_upd. }
  { rewrite get_upd_ne by lia. done. }
  rewrite bind_Ok. simpl G.p. wrs N.
  assert (Hp1 : len (upd (G.p s) x (get (G.p s) y)) N) by (by apply len_upd).
  wrs N. eexists; split; [done|]. unfold ls_inv. simpl. split.
  - split; [by apply len_upd|].
    split; [by apply in_groups_upd; [apply in_groups_upd|]|].
    split; [done|]. split; [|done].
    rewrite objective_swap by done. by rewrite Hf.
  - right. split; [by rewrite Hchar|]. split; [done|]. clear -Hgt. qc_lra.
Qed.


(** One sweep from a state with [Flag = 0]: it either changes nothing, the
    state being a local optimum, or raises [Flag] and the cost. *)
Lemma RandLS_sweep_spec s SG :
  ls_inv N K D (s, SG, 0) →
  ∃ st', RandLS_sweep N K D DT LB UB (s, SG, 0) = Ok st' ∧ ls_inv N K D st' ∧
    ((st' = (s, SG, 0) ∧ local_optimum N K D LB UB (G.p s) SG) ∨
     (st'.2 = 1 ∧ (G.f s + eps < G.f st'.1.1)%Qc)) ∧
    (local_optimum N K D LB UB (G.p s) SG → st' = (s, SG, 0)).
Proof.
  intros Hinv. unfold RandLS_sweep.
  set (st0 := (s, SG, 0)).
  assert (Heps : (0 < eps)%Qc) by done.
  destruct (for_loop2_inv
    (fun v g st => ls_inv N K D st ∧
       ((st = st0 ∧ ∀ v' g', 0 <= v' < N → 0 <= g' < K →
            v' < v ∨ (v' = v ∧ g' < g) → ¬ improving_move N D LB UB (G.p s) SG v' g') ∨
        (st.2 = 1 ∧ (G.f s + eps < G.f st.1.1)%Qc)) ∧
       (local_optimum N K D LB UB (G.p s) SG → st = st0))
    N (fun _ => 0) K (fun v g st => RandLS_move N D LB UB v g st) st0)
    as (st1 & -> & Hinv1 & Hcase1 & Hfix1); [done|done| | | |].
  - split; [done|]. split; [|done]. left. split; [done|]. intros; lia.
  - intros v g st Hv Hg (Hi & Hc & Hfx).
    destruct (RandLS_move_spec v g st Hv Hg Hi) as (st' & E & Hi' & Hc').
    exists st'. split; [done|]. split; [done|]. split.
    + destruct Hc as [[-> Hprev]|[Hfl Hinc]].
      * destruct Hc' as [[Hno ->]|(Hyes & Hfl & Hinc)].
        -- left. split; [done|]. intros v' g' Hv' Hg' Hlt.
           destruct (decide (v' = v ∧ g' = g)) as [[-> ->]|Hne]; [done|].
           apply Hprev; [done|done|lia].
        -- right. done.
      * right. destruct Hc' as [[_ ->]|(_ & Hfl' & Hinc')]; [done|].
        split; [done|]. clear -Hinc Hinc' Heps. qc_lra.
    + intros Hopt. specialize (Hfx Hopt). subst st.
      destruct Hc' as [[_ ->]|(Hyes & _)]; [done|].
      exfalso. by apply (proj1 Hopt v g).
  - intros v st Hv (Hi & Hc & Hfx). split; [done|]. split; [|done].
    destruct Hc as [[-> Hprev]|?]; [|by right].
    left. split; [done|]. intros v' g' Hv' Hg' Hlt. apply Hprev; [done|done|lia].
  - rewrite bind_Ok.
    destruct (for_loop2_inv
      (fun x y st => ls_inv N K D st ∧
         ((st = st0 ∧
           (∀ v g, 0 <= v < N → 0 <= g < K → ¬ improving_move N D LB UB (G.p s) SG v g) ∧
           ∀ x' y', 0 <= x' < N → x' < y' < N →
              x' < x ∨ (x' = x ∧ y' < y) → ¬ improving_swap N D (G.p s) x' y') ∨
          (st.2 = 1 ∧ (G.f s + eps < G.f st.1.1)%Qc)) ∧
         (local_optimum N K D LB UB (G.p s) SG → st = st0))
      N (fun x => x + 1) N (fun x y st => RandLS_swap N D DT x y st) st1)
      as (st2 & -> & Hinv2 & Hcase2 & Hfix2); [done|lia| | | |].
    + split; [done|]. split; [|done].
      destruct Hcase1 as [[-> Hprev]|?]; [|by right].
      left. split; [done|]. split.
      * intros v g Hv Hg. apply Hprev; [done|done|lia].
      * intros; lia.
    + intros x y st Hx Hy (Hi & Hc & Hfx).
      destruct (RandLS_swap_spec x y st Hx ltac:(lia) Hi) as (st' & E & Hi' & Hc').
      exists st'. split; [done|]. split; [done|]. split.
      * destruct Hc as [(-> & Hmv & Hprev)|[Hfl Hinc]].
        -- destruct Hc' as [[Hno ->]|(Hyes & Hfl & Hinc)].
           ++ left. split; [done|]. split; [done|]. intros x' y' Hx' Hy' Hlt.
              destruct (decide (x' = x ∧ y' = y)) as [[-> ->]|Hne]; [done|].
              apply Hprev; [done|done|lia].
           ++ right. done.
        -- right. destruct Hc' as [[_ ->]|(_ & Hfl' & Hinc')]; [done|].
           split; [done|]. clear -Hinc Hinc' Heps. qc_lra.
      * intros Hopt. specialize (Hfx Hopt). subst st.
        destruct Hc' as [[_ ->]|(Hyes & _)]; [done|].
        exfalso. apply (proj2 Hopt x y); [done|lia|done].
    + intros x st Hx (Hi & Hc & Hfx). split; [done|]. split; [|done].
      destruct Hc as [(-> & Hmv & Hprev)|?]; [|by right].
      left. split; [done|]. split; [done|].
      intros x' y' Hx' Hy' Hlt. apply Hprev; [done|done|lia].
    + exists st2. split; [done|]. split; [done|]. split; [|done].
      destruct Hcase2 as [(-> & Hmv & Hprev)|?]; [|by right].
      left. split; [done|]. split; [done|].
      intros x y Hx Hy. apply Hprev; [done|done|lia].
Qed.

(** Whatever the loop returns is a local optimum whose recorded cost is its
    objective. *)
Lemma RandLS_loop_sound fuel : ∀ s SG s' SG',
  ls_inv N K D (s, SG, 0) → RandLS_loop N K D DT LB UB fuel s SG = Ok (s', SG') →
  ls_inv N K D (s', SG', 0) ∧ local_optimum N K D LB UB (G.p s') SG' ∧
  (G.f s <= G.f s')%Qc.
Proof.
  induction fuel as [|fuel IH]; intros s SG s' SG' Hinv; simpl; [done|].
  destruct (RandLS_sweep_spec s SG Hinv) as (st' & -> & Hinv' & Hcase & _).
  rewrite bind_Ok. destruct st' as [[s1 SG1] Flag]. simpl in *.
  destruct Hcase as [[[= -> -> ->] Hopt]|[-> Hinc]].
  - destruct (decide (0 = 1)); [done|]. intros [= <- <-].
    split; [done|]. split; [done|]. apply Qcle_refl.
  - destruct (decide (1 = 1)); [|done]. intros E.
    destruct (IH s1 SG1 s' SG' Hinv' E) as (? & ? & Hle).
    split; [done|]. split; [done|].
    assert (Heps : (0 < eps)%Qc) by done. clear -Hinc Hle Heps. qc_lra.
Qed.

(** At a local optimum the loop stops after one sweep and changes nothing. *)
Lemma RandLS_loop_fixpoint fuel s SG :
  ls_inv N K D (s, SG, 0) → local_optimum N K D LB UB (G.p s) SG →
  RandLS_loop N K D DT LB UB (S fuel) s SG = Ok (s, SG).
Proof.
  intros Hinv Hopt. simpl.
  destruct (RandLS_sweep_spec s SG Hinv) as (st' & -> & _ & _ & Hfix).
  rewrite (Hfix Hopt). rewrite bind_Ok. by destruct (decide (0 = 1)).
Qed.

Lemma objective_le_total P :
  nonnegative N D → (objective N D P <= total_dissimilarity N D)%Qc.
Proof.
  intros Hnn. unfold objective, total_dissimilarity.
  apply zsum_le. intros i Hi. apply zsum_le. intros j Hj.
  destruct (decide (i < j ∧ get P i = get P j)) as [[? _]|Hn].
  - destruct (decide (i < j)); [apply Qcle_refl|lia].
  - destruct (decide (i < j)); [apply Hnn; lia|apply Qcle_refl].
Qed.

Lemma objective_nonneg P : nonnegative N D → (0 <= objective N D P)%Qc.
Proof.
  intros Hnn. unfold objective.
  apply zsum_nonneg. intros i Hi. apply zsum_nonneg. intros j Hj.
  destruct (decide _); [apply Hnn; lia|apply Qcle_refl].
Qed.

Lemma Qc_of_nat_succ n :
  Qc_of_Z (Z.of_nat (S n)) = (Qc_of_Z (Z.of_nat n) + 1)%Qc.
Proof.
  apply Qc_is_canon. unfold Qc_of_Z, Qcplus, Q2Qc. simpl this.
  rewrite Qred_correct, Nat2Z.inj_succ. unfold Z.succ.
  rewrite inject_Z_plus. reflexivity.
Qed.

(** With non-negative dissimilarities the loop returns as soon as the fuel
    times [eps] exceeds what the cost can still gain. *)
Lemma RandLS_loop_terminates fuel : ∀ s SG,
  nonnegative N D → ls_inv N K D (s, SG, 0) →
  (total_dissimilarity N D - G.f s < Qc_of_Z (Z.of_nat fuel) * eps)%Qc →
  ∃ s' SG', RandLS_loop N K D DT LB UB fuel s SG = Ok (s', SG').
Proof.
  induction fuel as [|fuel IH]; intros s SG Hnn Hinv Hlt.
  - exfalso. pose proof (objective_le_total (G.p s) Hnn) as Hle.
    destruct Hinv as (_ & _ & _ & Hf & _). simpl in Hf. rewrite <- Hf in Hle.
    assert (E0 : (Qc_of_Z (Z.of_nat 0) * eps = 0)%Qc)
      by (apply Qc_is_canon; reflexivity).
    rewrite E0 in Hlt. clear -Hle Hlt. qc_lra.
  - simpl.
    destruct (RandLS_sweep_spec s SG Hinv) as (st' & -> & Hinv' & Hcase & _).
    rewrite bind_Ok. destruct st' as [[s1 SG1] Flag]. simpl in *.
    destruct Hcase as [[[= -> -> ->] Hopt]|[-> Hinc]].
    + destruct (decide (0 = 1)); [done|]. eauto.
    + destruct (decide (1 = 1)); [|done]. apply IH; [done|done|].
      rewrite Qc_of_nat_succ in Hlt. clear -Hlt Hinc.
      set (B := total_dissimilarity N D) in *.
      set (n := Qc_of_Z (Z.of_nat fuel)) in *.
      assert (E : ((n + 1) * eps = n * eps + eps)%Qc) by ring.
      rewrite E in Hlt. clear E.
      generalize dependent (n * eps)%Qc. intros. qc_lra.
Qed.

Lemma sweep_budget_enough fuel (c : Qc) :
  (sweep_budget N D <= fuel)%nat → (0 <= c)%Qc →
  (total_dissimilarity N D - c < Qc_of_Z (Z.of_nat fuel) * eps)%Qc.
Proof.
  unfold sweep_budget. intros Hfuel Hc.
  set (B := total_dissimilarity N D) in *.
  pose proof (Qlt_floor (this (B / eps)%Qc)) as Hfl.
  set (k := Qfloor (this (B / eps)%Qc)) in *.
  assert (Hk : (B / eps < Qc_of_Z (k + 1))%Qc).
  { unfold Qclt, Qc_of_Z. simpl this. done. }
  assert (Hmono : (Qc_of_Z (k + 1) <= Qc_of_Z (Z.of_nat fuel))%Qc).
  { unfold Qcle, Qc_of_Z. simpl this. rewrite <- Zle_Qle. lia. }
  assert (Heps : (0 < eps)%Qc) by done.
  assert (HB : (B = (B / eps) * eps)%Qc) by (field; discriminate).
  assert (H1 : (B / eps * eps < Qc_of_Z (Z.of_nat fuel) * eps)%Qc).
  { apply Qcmult_lt_compat_r; [done|].
    eapply Qclt_le_trans; [exact Hk|exact Hmono]. }
  rewrite <- HB in H1. clear -H1 Hc.
  generalize dependent (Qc_of_Z (Z.of_nat fuel) * eps)%Qc. intros. qc_lra.
Qed.


(** *** The whole of [RandLS] *)

Lemma RandLS_unfold fuel s partition SG :
  allocated N K s → len partition N → in_groups K partition → len SG K →
  ∃ s1, ls_inv N K D (s1, SG, 0) ∧ G.p s1 = partition ∧
    RandLS N K D DT LB UB fuel s partition SG =
      ('(s2, SG2) ← RandLS_loop N K D DT LB UB fuel s1 SG;
       partition' ← copy_into N (G.p s2) partition;
       Ok (s2, partition', SG2, G.f s2)).
Proof.
  intros (Hp & Hdm & Hdl) Hpart Hgr Hsg. unfold RandLS.
  rewrite (copy_into_ok N partition (G.p s)) by done. rewrite bind_Ok.
  destruct (Build_Delta_Matrix_ok (G.set_p s partition)) as (m & dl & E & Hm & Hd);
    try done.
  rewrite E, bind_Ok. simpl G.p.
  eexists. split; [|split; [|reflexivity]]; [|done].
  unfold ls_inv. simpl. split; [done|]. split; [done|]. split; [done|].
  split; [|done]. rewrite group_sums_twice_objective. field. discriminate.
Qed.

Lemma RandLS_sound fuel s partition SG s' partition' SG' cost :
  allocated N K s → len partition N → in_groups K partition → len SG K →
  RandLS N K D DT LB UB fuel s partition SG = Ok (s', partition', SG', cost) →
  ls_inv N K D (s', SG', 0) ∧ partition' = G.p s' ∧ cost = G.f s' ∧
  local_optimum N K D LB UB partition' SG' ∧
  (objective N D partition <= cost)%Qc.
Proof.
  intros Hal Hpart Hgr Hsg E.
  destruct (RandLS_unfold fuel s partition SG Hal Hpart Hgr Hsg)
    as (s1 & Hinv1 & Hp1 & E1).
  rewrite E1 in E. clear E1.
  apply bind_inv in E as ([s2 SG2] & Eloop & E).
  destruct (RandLS_loop_sound fuel s1 SG s2 SG2 Hinv1 Eloop) as (Hinv2 & Hopt & Hle).
  pose proof Hinv2 as (Hp2 & _). simpl in Hp2.
  rewrite (copy_into_ok N (G.p s2) partition) in E by done.
  rewrite bind_Ok in E. injection E as <- <- <- <-.
  split; [done|]. split; [done|]. split; [done|]. split; [done|].
  destruct Hinv1 as (_ & _ & _ & Hf1 & _). simpl in Hf1.
  rewrite <- Hp1, <- Hf1. done.
Qed.


Lemma is_delta_matrix_unique P m m' :
  is_delta_matrix N D K P m → is_delta_matrix N D K P m' → m = m'.
Proof.
  intros [Hd Hm] [Hd' Hm']. apply (matrix_ext _ _ N K); [done|done|].
  intros i j Hi Hj. by rewrite Hm, Hm'.
Qed.





Lemma apply_move_ok s mv :
  len (G.p s) N → in_groups K (G.p s) →
  is_delta_matrix N D K (G.p s) (G.Delta_Matrix s) → valid_move N K mv →
  ∃ s', apply_move N D s mv = Ok s' ∧
    len (G.p s') N ∧ in_groups K (G.p s') ∧
    is_delta_matrix N D K (G.p s') (G.Delta_Matrix s') ∧
    G.Delta s' = G.Delta s.
Proof.
  intros Hp Hgr Hdm [Hi Hg]. destruct mv as [i g1]. simpl in *.
  pose proof (in_groups_get N K _ i Hp Hgr Hi) as Hpi.
  unfold apply_move. rds N.
  destruct (One_Move_Update_Delta_Matrix1_ok s (G.p s) i (get (G.p s) i) g1)
    as (m' & -> & Hdm'); try done.
  rewrite bind_Ok. simpl G.p. wrs N. eexists; split; [done|]. simpl.
  split; [by apply len_upd|]. split; [by apply in_groups_upd|]. done.
Qed.


End Theory.


(** * The catalogue of neighbours *)

Lemma pairs_even N : 0 <= N → 2 * Z.quot (N * (N - 1)) 2 = N * (N - 1).
Proof.
  intros HN. rewrite Z.quot_div_nonneg by nia.
  destruct (Z.even N) eqn:E.
  - apply Z.even_spec in E as [m ->].
    replace (2 * m * (2 * m - 1)) with ((m * (2 * m - 1)) * 2) by ring.
    rewrite Z.div_mul by lia. ring.
  - apply (f_equal negb) in E. rewrite Z.negb_even in E. simpl in E.
    apply Z.odd_spec in E as [m ->].
    replace ((2 * m + 1) * (2 * m + 1 - 1)) with (((2 * m + 1) * m) * 2) by ring.
    rewrite Z.div_mul by lia. ring.
Qed.

(** [BuildNeighbors] fills the whole catalogue, with relocations and swaps
    over the elements and groups of the instance. *)
Lemma BuildNeighbors_ok N K Neighbors :
  0 <= N → 0 <= K → len Neighbors (NumberNeighbors N K) →
  ∃ nbs, BuildNeighbors N K Neighbors = Ok nbs ∧ catalogue_ok N K nbs.
Proof.
  intros HN HK Hl. pose proof (pairs_even N HN) as Hev.
  set (NN := NumberNeighbors N K) in *.
  assert (HNN : 2 * NN = 2 * N * K + N * (N - 1)).
  { unfold NN, NumberNeighbors. lia. }
  set (ok := fun nb : Nb.t =>
    (Nb.type nb = 1 → 0 <= Nb.v nb < N ∧ 0 <= Nb.g nb < K) ∧
    (Nb.type nb = 2 → 0 <= Nb.x nb < N ∧ 0 <= Nb.y nb < N)).
  unfold BuildNeighbors.
  destruct (for_loop2_inv
    (fun i g '(nbs, count) =>
       count = i * K + g ∧ len (nbs : list Nb.t) NN ∧
       ∀ c, 0 <= c < count → ok (get nbs c))
    N (fun _ => 0) K
    (fun i g st =>
       let '(nbs, count) := st in
       n ← rd nbs count;
       nbs ← wr nbs count (Nb.set_move n i g);
       Ok (nbs, count + 1)) (Neighbors, 0))
    as ([nbs1 c1] & -> & Hc1 & Hl1 & Hok1); [done|done| | | |].
  { split; [lia|]. split; [done|]. intros; lia. }
  { intros i g [nbs c] Hi Hg (-> & Hln & Hok).
    assert (Hin : 0 <= i * K + g < NN) by nia.
    rewrite (rd_ok nbs NN) by done. rewrite bind_Ok.
    rewrite (wr_ok nbs NN) by done. rewrite bind_Ok.
    eexists; split; [done|]. split; [lia|]. split; [by apply len_upd|].
    intros c Hc. rewrite (get_upd _ NN) by (done || lia).
    destruct (decide (i * K + g = c)); [|apply Hok; lia].
    split; simpl; [intros _; lia|done]. }
  { intros i [nbs c] Hi (-> & Hln & Hok). split; [lia|]. done. }
  rewrite bind_Ok.
  destruct (for_loop2_inv
    (fun i j '(nbs, count) =>
       2 * count = 2 * N * K + i * (2 * N - i - 1) + 2 * (j - i - 1) ∧
       len (nbs : list Nb.t) NN ∧
       ∀ c, 0 <= c < count → ok (get nbs c))
    N (fun i => i + 1) N
    (fun i j st =>
       let '(nbs, count) := st in
       n ← rd nbs count;
       nbs ← wr nbs count (Nb.set_swap n i j);
       Ok (nbs, count + 1)) (nbs1, c1))
    as ([nbs2 c2] & -> & Hc2 & Hl2 & Hok2); [done|intros; lia| | | |].
  { split; [lia|]. done. }
  { intros i j [nbs c] Hi Hj (Hc & Hln & Hok).
    assert (Hin : 0 <= c < NN) by nia.
    rewrite (rd_ok nbs NN) by done. rewrite bind_Ok.
    rewrite (wr_ok nbs NN) by done. rewrite bind_Ok.
    eexists; split; [done|]. split; [lia|]. split; [by apply len_upd|].
    intros c' Hc'. rewrite (get_upd _ NN) by (done || lia).
    destruct (decide (c = c')); [|apply Hok; lia].
    split; simpl; [done|intros _; lia]. }
  { intros i [nbs c] Hi (Hc & Hln & Hok). split; [nia|]. done. }
  rewrite bind_Ok. exists nbs2. split; [done|]. split; [done|].
  assert (c2 = NN) as -> by nia.
  apply Forall_lookup. intros i nb Hnb.
  assert (Hi : 0 <= Z.of_nat i < NN).
  { apply lookup_lt_Some in Hnb. unfold len in Hl2. lia. }
  specialize (Hok2 _ Hi). unfold get in Hok2. rewrite Nat2Z.id in Hok2.
  apply list_lookup_total_correct in Hnb. by rewrite Hnb in Hok2.
Qed.

(** * Group sizes under updates *)

Lemma filter_length_insert (g : Z) (P : list Z) (i : nat) (x : Z) :
  (i < length P)%nat →
  (length (filter (fun y => y = g) (<[i:=x]> P))
   + (if decide (P !!! i = g) then 1 else 0)
   = length (filter (fun y => y = g) P) + (if decide (x = g) then 1 else 0))%nat.
Proof.
  revert i. induction P as [|a P IH]; intros i Hi; simpl in Hi; [lia|].
  destruct i as [|i]; simpl.
  - rewrite !filter_cons. change ((a :: P) !!! 0%nat) with a.
    destruct (decide (x = g)), (decide (a = g)); simpl; lia.
  - rewrite !filter_cons. change ((a :: P) !!! S i) with (P !!! i).
    specialize (IH i ltac:(lia)).
    destruct (decide (a = g)); simpl; lia.
Qed.

Lemma group_size_upd (P : list Z) n v x g :
  len P n → 0 <= v < n →
  group_size (upd P v x) g =
    group_size P g + (if decide (x = g) then 1 else 0)
    - (if decide (get P v = g) then 1 else 0).
Proof.
  unfold len, group_size, upd, get. intros Hl Hv.
  pose proof (filter_length_insert g P (Z.to_nat v) x ltac:(lia)) as E.
  destruct (decide (x = g)), (decide (P !!! Z.to_nat v = g)); lia.
Qed.

Lemma sum_upd (S : list Z) n i x :
  len S n → 0 <= i < n →
  foldr Z.add 0 (upd S i x) = foldr Z.add 0 S + x - get S i.
Proof.
  unfold len, upd, get. intros Hl Hi.
  assert (Hlt : (Z.to_nat i < length S)%nat) by lia. clear Hl Hi.
  generalize dependent (Z.to_nat i). clear i. intros i.
  revert i. induction S as [|a S IH]; intros i Hi; simpl in Hi; [lia|].
  destruct i as [|i]; simpl.
  - change ((a :: S) !!! 0%nat) with a. lia.
  - change ((a :: S) !!! Datatypes.S i) with (S !!! i).
    rewrite IH by lia. lia.
Qed.

Section SizesTheory.
Context (N K : Z) (LB UB : list Z).
Hypothesis HN : 0 <= N.
Hypothesis HK : 0 <= K.
Hypothesis HLB : len LB K.
Hypothesis HUB : len UB K.

(** A feasible relocation keeps the sizes exact and within the bounds. *)
Lemma sizes_ok_relocate P S v g :
  sizes_ok N K LB UB P S → 0 <= v < N → 0 <= g < K →
  get P v ≠ g → get S (get P v) > get LB (get P v) → get S g < get UB g →
  sizes_ok N K LB UB (upd P v g)
    (upd (upd S (get P v) (get S (get P v) - 1)) g
         (get (upd S (get P v) (get S (get P v) - 1)) g + 1)).
Proof.
  intros (Hp & Hgr & Hs & Hall & Hsum) Hv Hg Hne Hlb Hub.
  pose proof (in_groups_get N K P v Hp Hgr Hv) as Hpv.
  set (o := get P v) in *.
  assert (Hs1 : len (upd S o (get S o - 1)) K) by (by apply len_upd).
  split; [by apply len_upd|]. split; [by apply in_groups_upd|].
  split; [by apply len_upd|]. split.
  - intros g' Hg'. destruct (Hall g' Hg') as [Hsz Hb].
    rewrite (group_size_upd P N) by done. fold o.
    rewrite !(get_upd _ K) by (done || lia).
    repeat case_decide; subst; try congruence; split; lia.
  - rewrite (sum_upd _ K) by done. rewrite (sum_upd _ K) by done.
    rewrite (get_upd _ K) by (done || lia).
    destruct (decide (o = g)); [congruence|]. lia.
Qed.

(** A swap of two elements of different groups changes no size. *)
Lemma sizes_ok_swap P S x y :
  sizes_ok N K LB UB P S → 0 <= x < N → 0 <= y < N →
  sizes_ok N K LB UB (upd (upd P x (get P y)) y (get P x)) S.
Proof.
  intros (Hp & Hgr & Hs & Hall & Hsum) Hx Hy.
  pose proof (in_groups_get N K P x Hp Hgr Hx) as Hpx.
  pose proof (in_groups_get N K P y Hp Hgr Hy) as Hpy.
  assert (Hp1 : len (upd P x (get P y)) N) by (by apply len_upd).
  split; [by apply len_upd|].
  split; [by apply in_groups_upd; [apply in_groups_upd|]|].
  split; [done|]. split; [|done].
  intros g' Hg'. destruct (Hall g' Hg') as [Hsz Hb]. split; [|done].
  rewrite (group_size_upd _ N) by done.
  rewrite (group_size_upd P N) by done.
  rewrite (get_upd _ N) by (done || lia).
  destruct (decide (x = y)) as [->|Hxy].
  - destruct (decide (get P y = g')); lia.
  - destruct (decide (get P x = g')), (decide (get P y = g')); lia.
Qed.

End SizesTheory.

Lemma rd_cases {A} `{Inhabited A} (a : list A) n i :
  len a n → rd a i = if decide (0 <= i < n) then Ok (get a i) else Undef.
Proof.
  intros Hl. destruct (decide (0 <= i < n)) as [Hi|Hn].
  - by apply (rd_ok _ n).
  - unfold rd. destruct (decide (0 <= i)); [|done].
    rewrite lookup_ge_None_2; [done|]. unfold len in Hl. lia.
Qed.

Lemma rd2_dims_cases {A} `{Inhabited A} (m : list (list A)) r c i j :
  dims m r c →
  rd2 m i j = if decide (0 <= i < r ∧ 0 <= j < c) then Ok (get2 m i j) else Undef.
Proof.
  intros Hd. unfold rd2. rewrite (rd_cases m r) by apply Hd.
  destruct (decide (0 <= i < r)) as [Hi|Hn]; simpl.
  - rewrite (rd_cases _ c) by (by eapply dims_row).
    destruct (decide (0 <= j < c)), (decide (0 <= i < r ∧ 0 <= j < c)); try done; tauto.
  - destruct (decide (0 <= i < r ∧ 0 <= j < c)); [tauto|done].
Qed.

(** * The light perturbation keeps the sizes *)

Section LightPerturbation.
Context (N K : Z) (D : list (list Qc)) (LB UB : list Z) (rnd : nat → Z).
Hypothesis HN : 1 <= N.
Hypothesis HK : 1 <= K.
Hypothesis HD : dims D N N.
Hypothesis HLB : len LB K.
Hypothesis HUB : len UB K.
Hypothesis Hrnd : ∀ k, 0 <= rnd k.

Lemma NumberNeighbors_pos : 0 < NumberNeighbors N K.
Proof.
  unfold NumberNeighbors.
  assert (0 <= Z.quot (N * (N - 1)) 2) by (apply Z.quot_pos; nia). nia.
Qed.

Lemma StrongPerturbation_body_spec Neighbors c0 st :
  catalogue_ok N K Neighbors → sp_inv N K LB UB c0 st →
  ∃ st', StrongPerturbation_body N K D LB UB rnd Neighbors st = Ok st' ∧
    sp_inv N K LB UB c0 st' ∧ st.1.2 <= st'.1.2 <= st.1.2 + 1.
Proof.
  intros [Hnl Hnf] Hinv. destruct st as [[[s SG] count] k]. simpl.
  destruct Hinv as (Hsz & Hdm & Hc & Hmv).
  pose proof Hsz as (Hp & Hgr & Hs & Hall & Hsum).
  unfold StrongPerturbation_body, c_mod.
  pose proof NumberNeighbors_pos as Hpos.
  destruct (decide (NumberNeighbors N K = 0)); [lia|]. rewrite bind_Ok.
  pose proof (Z.rem_bound_pos (rnd k) (NumberNeighbors N K) (Hrnd k) Hpos) as Hrem.
  set (cur := Z.rem (rnd k) (NumberNeighbors N K)) in *.
  rds (NumberNeighbors N K).
  assert (Hnb : (Nb.type (get Neighbors cur) = 1 →
                 0 <= Nb.v (get Neighbors cur) < N ∧ 0 <= Nb.g (get Neighbors cur) < K) ∧
                (Nb.type (get Neighbors cur) = 2 →
                 0 <= Nb.x (get Neighbors cur) < N ∧ 0 <= Nb.y (get Neighbors cur) < N)).
  { rewrite Forall_lookup in Hnf. apply (Hnf (Z.to_nat cur)).
    unfold get. apply list_lookup_lookup_total_lt. unfold len in Hnl. lia. }
  set (nb := get Neighbors cur) in *. destruct Hnb as [Hnb1 Hnb2].
  assert (Hstay : ∃ st', Ok (s, SG, count, S k) = Ok st' ∧
            sp_inv N K LB UB c0 st' ∧ count <= st'.1.2 <= count + 1).
  { eexists; split; [done|]. split; [done|]. simpl. lia. }
  destruct (decide (Nb.type nb = 1)) as [Ht1|Hnt1].
  - destruct (Hnb1 Ht1) as [Hv Hg].
    pose proof (in_groups_get N K _ _ Hp Hgr Hv) as Hpv.
    rds N. repeat rds K. repeat rd2s N K.
    destruct (decide (get (G.p s) (Nb.v nb) ≠ Nb.g nb)) as [Hne|]; [|done].
    destruct (decide (_ > _)) as [Hlb|]; [|done].
    destruct (decide (_ < _)) as [Hub|]; [|done].
    wrs K.
    assert (Hs1 : len (upd SG (get (G.p s) (Nb.v nb))
                        (get SG (get (G.p s) (Nb.v nb)) - 1)) K) by (by apply len_upd).
    rds K. wrs K. wrs N. eexists; split; [done|]. simpl. split; [|lia].
    split; [apply sizes_ok_relocate; (done || lia)|]. split; [done|]. split; [lia|].
    replace (Z.to_nat (count + 1)) with (S (Z.to_nat count)) by lia.
    by apply moves_relocate.
  - destruct (decide (Nb.type nb = 2)) as [Ht2|]; [|done].
    destruct (Hnb2 Ht2) as [Hx Hy].
    pose proof (in_groups_get N K _ _ Hp Hgr Hx) as Hpx.
    pose proof (in_groups_get N K _ _ Hp Hgr Hy) as Hpy.
    rds N. rds N. repeat rd2s N K. rd2s N N.
    destruct (decide (get (G.p s) (Nb.x nb) ≠ get (G.p s) (Nb.y nb))) as [Hne|]; [|done].
    wrs N.
    assert (Hp1 : len (upd (G.p s) (Nb.x nb) (get (G.p s) (Nb.y nb))) N)
      by (by apply len_upd).
    wrs N. eexists; split; [done|]. simpl. split; [|lia].
    split; [apply sizes_ok_swap; (done || lia)|]. split; [done|]. split; [lia|].
    replace (Z.to_nat (count + 1)) with (S (Z.to_nat count)) by lia.
    by apply moves_swap.
Qed.

Lemma StrongPerturbation_loop_spec Neighbors c0 theta fuel : ∀ st st',
  catalogue_ok N K Neighbors → sp_inv N K LB UB c0 st →
  StrongPerturbation_loop N K D LB UB rnd fuel Neighbors theta st = Ok st' →
  sp_inv N K LB UB c0 st' ∧ (st.1.2 < theta → st'.1.2 = theta) ∧
  (theta <= st.1.2 → st'.1.2 <= st.1.2 + 1).
Proof.
  induction fuel as [|fuel IH]; intros st st' Hcat Hinv; simpl; [done|].
  destruct (StrongPerturbation_body_spec Neighbors c0 st Hcat Hinv)
    as (st1 & -> & Hinv1 & Hcnt).
  rewrite bind_Ok. destruct (decide (st1.1.2 < theta)) as [Hlt|Hge].
  - intros E. destruct (IH st1 st' Hcat Hinv1 E) as (Hinv' & Heq & _).
    split; [done|]. split; [intros _; by apply Heq|lia].
  - intros [= <-]. split; [done|]. split; lia.
Qed.



End LightPerturbation.

(** * The light perturbation does not depend on the matrix *)

Lemma bind_Undef {A B} (k : A → res B) : (Undef ≫= k) = Undef.
Proof. reflexivity. Qed.

Lemma bind_NoFuel {A B} (k : A → res B) : (NoFuel ≫= k) = NoFuel.
Proof. reflexivity. Qed.

Section Independence.
Context (N K : Z) (D : list (list Qc)) (LB UB : list Z) (rnd : nat → Z).

Ltac sim_step :=
  rewrite ?bind_Ok, ?bind_Undef, ?bind_NoFuel;
  match goal with
  | |- res_sim _ (Ok _) (Ok _) =>
      unfold res_sim, sp_sim; simpl; do 5 (split; [done|]); done
  | |- res_sim _ Undef Undef => exact I
  | |- res_sim _ NoFuel NoFuel => exact I
  | |- res_sim _ (mbind _ (rd2 ?m1 ?i ?j)) (mbind _ (rd2 ?m2 ?i ?j)) =>
      rewrite (rd2_dims_cases m1 N K i j), (rd2_dims_cases m2 N K i j) by done;
      destruct (decide (0 <= i < N ∧ 0 <= j < K))
  | |- res_sim _ (mbind _ ?m) (mbind _ ?m) => destruct m
  | |- res_sim _ (if decide ?P then _ else _) (if decide ?P then _ else _) =>
      destruct (decide P)
  end.

Lemma StrongPerturbation_body_sim Neighbors st1 st2 :
  sp_sim N K st1 st2 →
  res_sim (sp_sim N K) (StrongPerturbation_body N K D LB UB rnd Neighbors st1)
                 (StrongPerturbation_body N K D LB UB rnd Neighbors st2).
Proof.
  destruct st1 as [[[s1 SG1] c1] k1], st2 as [[[s2 SG2] c2] k2].
  intros (Hp & HS & Hc & Hk & Hd1 & Hd2). simpl in *. subst SG2 c2 k2.
  unfold StrongPerturbation_body. rewrite Hp. cbv zeta.
  repeat sim_step.
Qed.

Lemma StrongPerturbation_loop_sim Neighbors theta fuel : ∀ st1 st2,
  sp_sim N K st1 st2 →
  res_sim (sp_sim N K)
    (StrongPerturbation_loop N K D LB UB rnd fuel Neighbors theta st1)
    (StrongPerturbation_loop N K D LB UB rnd fuel Neighbors theta st2).
Proof.
  induction fuel as [|fuel IH]; intros st1 st2 Hsim; simpl; [done|].
  pose proof (StrongPerturbation_body_sim Neighbors st1 st2 Hsim) as Hb.
  destruct (StrongPerturbation_body N K D LB UB rnd Neighbors st1) as [st1'| |],
    (StrongPerturbation_body N K D LB UB rnd Neighbors st2) as [st2'| |];
    simpl in Hb; try done.
  rewrite !bind_Ok. pose proof Hb as (_ & _ & Hc & _). rewrite Hc.
  destruct (decide (st2'.1.2 < theta)); [by apply IH|done].
Qed.

(** C10.  What [StrongPerturbation] hands back to its caller (the
    partition, the sizes, the number of draws) or the way it fails is the
    same for any two contents of [Delta_Matrix], the partition, the sizes
    and the draws being the same. *)
Theorem StrongPerturbation_ignores_Delta_Matrix
    fuel Neighbors k L s m1 m2 partition SizeGroup :
  dims m1 N K → dims m2 N K →
  sp_output (StrongPerturbation N K D LB UB rnd fuel Neighbors k L
               (G.set_Delta_Matrix s m1) partition SizeGroup) =
  sp_output (StrongPerturbation N K D LB UB rnd fuel Neighbors k L
               (G.set_Delta_Matrix s m2) partition SizeGroup).
Proof.
  intros Hd1 Hd2. unfold StrongPerturbation. simpl G.p.
  destruct (copy_into N partition (G.p s)) as [p'| |]; [|done|done].
  rewrite !bind_Ok.
  pose proof (StrongPerturbation_loop_sim Neighbors L fuel
    (G.set_p (G.set_Delta_Matrix s m1) p', SizeGroup, 0, k)
    (G.set_p (G.set_Delta_Matrix s m2) p', SizeGroup, 0, k)
    ltac:(unfold sp_sim; simpl; do 5 (split; [done|]); done)) as Hsim.
  destruct (StrongPerturbation_loop _ _ _ _ _ _ _ _ _ (G.set_p (G.set_Delta_Matrix s m1) p', _, _, _))
    as [[[[s1 SG1] c1] k1]| |],
    (StrongPerturbation_loop _ _ _ _ _ _ _ _ _ (G.set_p (G.set_Delta_Matrix s m2) p', _, _, _))
    as [[[[s2 SG2] c2] k2]| |]; simpl in Hsim; try done.
  unfold sp_sim in Hsim. simpl in Hsim.
  destruct Hsim as (Hp & -> & -> & -> & _). rewrite !bind_Ok, Hp.
  destruct (copy_into N (G.p s2) partition); simpl; [|done|done].
  by rewrite Hp.
Qed.

End Independence.


(** * The acceptance test *)

Section AcceptanceTheory.
Context (N K : Z).
Hypothesis HN : 1 <= N.

Lemma FitRadioAndDis_count_bound partition1 partition2 :
  len partition1 N → len partition2 N →
  ∃ count, FitRadioAndDis_count N partition1 partition2 = Ok count ∧
           0 <= count < N * N.
Proof.
  intros H1 H2. unfold FitRadioAndDis_count.
  destruct (for_loop2_inv
    (fun i j count => 0 <= count <= i * N + (j - i - 1))
    (N - 1) (fun i => i + 1) N
    (fun i j count =>
       a1 ← rd partition1 i; b1 ← rd partition1 j;
       a2 ← rd partition2 i; b2 ← rd partition2 j;
       if decide (disagree a1 b1 a2 b2) then Ok (count + 1) else Ok count) 0)
    as (count & -> & Hc); [lia|lia|lia| | |].
  - intros i j count Hi Hj Hc. repeat rds N.
    destruct (decide _); eexists; (split; [done|]); lia.
  - intros i count Hi Hc. nia.
  - exists count. split; [done|]. nia.
Qed.

(** The term that is meant to reward diversity is always zero: [count] is
    less than [N * N], and the division is that of the integers. *)
Lemma FitRadioAndDis_is_ratio partition1 partition2 cost1 cost2 :
  len partition1 N → len partition2 N →
  FitRadioAndDis N K partition1 partition2 cost1 cost2
    = Ok (dbl_add (dbl_div cost1 cost2) 0%Qc).
Proof.
  intros H1 H2. unfold FitRadioAndDis.
  destruct (FitRadioAndDis_count_bound partition1 partition2 H1 H2)
    as (count & -> & Hc).
  rewrite bind_Ok. unfold c_div. destruct (decide (N * N = 0)); [nia|].
  rewrite bind_Ok. rewrite Z.quot_small by done. reflexivity.
Qed.

(** With positive costs the test is the comparison of the costs alone. *)
Lemma offspring_replaces_positive Offs_p Pop_p Offs_cost Pop_cost :
  len Offs_p N → len Pop_p N → (0 < Pop_cost)%Qc →
  offspring_replaces N K Offs_p Pop_p Offs_cost Pop_cost
    = Ok (bool_decide (Pop_cost <= Offs_cost)%Qc).
Proof.
  intros H1 H2 Hpos. unfold offspring_replaces.
  destruct (decide (Pop_cost <= Offs_cost)%Qc) as [Hle|Hgt].
  - by rewrite bool_decide_eq_true_2.
  - rewrite FitRadioAndDis_is_ratio by done. rewrite bind_Ok.
    rewrite bool_decide_eq_false_2 by done. f_equal.
    unfold dbl_div. destruct (decide (Pop_cost = 0%Qc)) as [->|Hne].
    { by apply Qclt_not_eq in Hpos. }
    simpl. apply bool_decide_eq_false_2. intros Hlt. apply Hgt.
    apply Qcnot_lt_le. intros Hlt'.
    assert (H : (this Offs_cost / this Pop_cost < 1)%Q).
    { apply Qlt_shift_div_r; [exact Hpos|]. rewrite Qmult_1_l. exact Hlt'. }
    unfold Qclt, Qcplus, Qcdiv, Qcmult, Qcinv, Q2Qc in Hlt. simpl this in Hlt.
    rewrite !Qred_correct in Hlt. unfold Qdiv in H.
    set (r := (this Offs_cost * / this Pop_cost)%Q) in *. clearbody r. lra.
Qed.

End AcceptanceTheory.

(** C5.  At [Ex5] the child costs less than its parent and four pairs of
    elements disagree, so that the score of the stated rule,
    [99/100 + 0.05 * (4 / 16) * 2], exceeds one; [offspring_replaces],
    which divides the integer count by [N * N] before it multiplies, keeps
    the parent. *)
Theorem offspring_replaces_misses_diversity :
  offspring_replaces Ex5.N Ex5.K Ex5.child Ex5.parent Ex5.child_cost Ex5.parent_cost
    = Ok false ∧
  disagreement_count Ex5.N Ex5.child Ex5.parent = 4 ∧
  spec_replaces Ex5.N Ex5.K Ex5.child Ex5.parent Ex5.child_cost Ex5.parent_cost.
Proof.
  split; [by vm_compute|]. split; [by vm_compute|].
  right. by vm_compute.
Qed.

(** * The selection of the heavy perturbation *)

(** C9.  At [Ex9] the first selection of [DirectPerturbation] marks
    element 0 of group 0 for removal although element 1 of that group has a
    smaller value of [Delta_Matrix]: the running minimum is held in an [int]
    and loses its fractional part. *)
Theorem DirectPerturbation_select_truncates :
  ∃ s Rd SizeG UnderLB number AvgCon,
    DirectPerturbation_first_select Ex9.N Ex9.K Ex9.D Ex9.LB Ex9.s0
      [0] [0] [0] [[0%Qc]] Ex9.partition Ex9.SizeGroup
      = Ok (s, (Rd, SizeG, UnderLB, number), AvgCon) ∧
    get Rd 0 = 0 ∧
    get (G.p s) 1 = 0 ∧
    (get2 (G.Delta_Matrix s) 1 0 < get2 (G.Delta_Matrix s) 0 0)%Qc ∧
    ¬ least_cohesive Ex9.N s 0 (get Rd 0).
Proof.
  do 6 eexists. split; [by vm_compute|].
  split; [done|]. split; [done|]. split; [by vm_compute|].
  intros (_ & _ & Hmin). specialize (Hmin 1 ltac:(by vm_compute) eq_refl).
  revert Hmin. by vm_compute.
Qed.

(** * The loader *)

Lemma zero_matrix_dims n : 0 <= n → dims (zero_matrix n) n n.
Proof.
  intros Hn. unfold zero_matrix, dims, len. split.
  - rewrite length_replicate. lia.
  - apply Forall_replicate. rewrite length_replicate. lia.
Qed.

Lemma read_edges_spec N edges : ∀ D DT,
  (0 <= N → dims D N N ∧ dims DT N N) →
  ∃ r, read_edges N edges D DT = Ok r ∧
       (r = None ↔ Exists (bad_edge N) edges).
Proof.
  induction edges as [|[[x1 x2] d] rest IH]; intros D DT Hd; simpl.
  - eexists; split; [done|]. split; [done|]. by intros ?%Exists_nil.
  - destruct (decide (bad_edge N (x1, x2, d))) as [Hbad|Hok].
    + eexists; split; [done|]. split; [|done]. intros _. by left.
    + assert (Hr : 0 <= x1 < N ∧ 0 <= x2 < N).
      { unfold bad_edge in Hok. simpl in Hok. lia. }
      destruct Hr as [H1 H2]. destruct (Hd ltac:(lia)) as [HD HDT].
      assert (Hrest : ∀ D' DT', dims D' N N → dims DT' N N →
        ∃ r, read_edges N rest D' DT' = Ok r ∧
             (r = None ↔ Exists (bad_edge N) ((x1, x2, d) :: rest))).
      { intros D' DT' HD' HDT'. destruct (IH D' DT' ltac:(done)) as (r & -> & Hr).
        exists r. split; [done|]. rewrite Hr. split; [by right|].
        intros [?|?]%Exists_cons; done. }
      destruct (decide (x1 ≠ x2)); [|by apply Hrest].
      rewrite (wr2_ok D N N x2 x1 d); [|done|done|done]. rewrite bind_Ok.
      assert (HD1 : dims (upd2 D x2 x1 d) N N) by (by apply dims_upd2).
      rd2s N N. wr2s N N. wr2s N N.
      assert (HDT1 : dims (upd2 DT x2 x1 (2 * d)%Qc) N N) by (by apply dims_upd2).
      rd2s N N. wr2s N N.
      apply Hrest; by apply dims_upd2.
Qed.

(** C4, as amended.  [inputing] always returns, and it ends the program
    exactly when the header of the file is incomplete or an edge names an
    element outside [0, N); the sums of the bounds play no part. *)
Theorem inputing_checks_edges_only f :
  (∃ o, inputing f = Ok o) ∧
  (inputing f = Ok Exited ↔
   header_missing f ∨ Exists (bad_edge (file_N f)) (file_edges f)).
Proof.
  unfold inputing, header_missing.
  destruct (read_edges_spec (file_N f) (file_edges f)
              (zero_matrix (file_N f)) (zero_matrix (file_N f)))
    as (r & Er & Hr).
  { intros Hn. split; by apply zero_matrix_dims. }
  assert (Hbody : ∀ K LB UB,
    (∃ o, (r ← read_edges (file_N f) (file_edges f)
                 (zero_matrix (file_N f)) (zero_matrix (file_N f));
           match r with
           | None => Ok Exited
           | Some (D, DT) => Ok (Loaded (Inst.mk (file_N f) K LB UB D DT))
           end) = Ok o) ∧
    ((r ← read_edges (file_N f) (file_edges f)
            (zero_matrix (file_N f)) (zero_matrix (file_N f));
      match r with
      | None => Ok Exited
      | Some (D, DT) => Ok (Loaded (Inst.mk (file_N f) K LB UB D DT))
      end) = Ok Exited ↔ Exists (bad_edge (file_N f)) (file_edges f))).
  { intros K LB UB. rewrite Er, bind_Ok. destruct r as [[D DT]|].
    - split; [eauto|]. rewrite <- Hr. split; done.
    - split; [eauto|]. rewrite <- Hr. split; done. }
  destruct (decide (file_N f = 3000)) as [E|Hne].
  - destruct (Hbody 50 (replicate 50 48) (replicate 50 72)) as [Hex Hiff].
    split; [done|]. rewrite Hiff. split; [by right|]. intros [[? _]|?]; done.
  - destruct (file_kind f) as [kind|].
    + destruct (decide (kind = "ds"%string ∨ kind = "ss"%string)).
      * match goal with |- context [Inst.mk _ ?K ?LB ?UB] =>
          destruct (Hbody K LB UB) as [Hex Hiff] end.
        split; [done|]. rewrite Hiff. split; [by right|]. intros [[_ ?]|?]; done.
      * destruct (Hbody (file_K f) [] []) as [Hex Hiff].
        split; [done|]. rewrite Hiff. split; [by right|]. intros [[_ ?]|?]; done.
    + split; [eauto|]. split; [by left|done].
Qed.

(** C4 fails at [Ex4.file]: an instance whose lower bounds add up to more
    than [N] is loaded. *)
Lemma inputing_loads_infeasible :
  ∃ i, inputing Ex4.file = Ok (Loaded i) ∧
       foldr Z.add 0 (Inst.LB i) > Inst.N i ∧ ¬ feasible i.
Proof.
  eexists. split; [by vm_compute|]. split; [by vm_compute|].
  unfold feasible. simpl. lia.
Qed.

(** The matrices that the loader fills are symmetric with a zero diagonal,
    and [DT] holds twice [D]. *)
Lemma read_edges_matrices N edges : ∀ D DT D' DT',
  dims D N N → symmetric N D → zero_diagonal N D → is_double N D DT →
  read_edges N edges D DT = Ok (Some (D', DT')) →
  dims D' N N ∧ symmetric N D' ∧ zero_diagonal N D' ∧ is_double N D' DT'.
Proof.
  induction edges as [|[[x1 x2] d] rest IH]; intros D DT D' DT' HD Hs Hz [HDT Hd];
    simpl.
  - intros [= <- <-]. done.
  - destruct (decide (bad_edge N (x1, x2, d))) as [Hbad|Hok]; [done|].
    assert (Hr : 0 <= x1 < N ∧ 0 <= x2 < N).
    { unfold bad_edge in Hok. simpl in Hok. lia. }
    destruct Hr as [H1 H2].
    destruct (decide (x1 ≠ x2)) as [Hne|]; [|by apply IH].
    rewrite (wr2_ok D N N x2 x1 d); [|done|done|done]. rewrite bind_Ok.
    assert (HD1 : dims (upd2 D x2 x1 d) N N) by (by apply dims_upd2).
    rd2s N N. wr2s N N. wr2s N N.
    assert (HDT1 : dims (upd2 DT x2 x1 (2 * d)%Qc) N N) by (by apply dims_upd2).
    rd2s N N. wr2s N N.
    rewrite !(get2_upd2 _ N N) by (done || lia).
    destruct (decide (x2 = x2 ∧ x1 = x1)) as [_|]; [|tauto].
    apply IH.
    + by apply dims_upd2.
    + intros i j Hi Hj. rewrite !(get2_upd2 _ N N) by (done || lia).
      repeat case_decide; try (exfalso; intuition lia); try done.
      by apply Hs.
    + intros i Hi. rewrite !(get2_upd2 _ N N) by (done || lia).
      repeat case_decide; try (exfalso; intuition lia). by apply Hz.
    + split; [by apply dims_upd2|].
      intros i j Hi Hj. rewrite !(get2_upd2 _ N N) by (done || lia).
      repeat case_decide; try (exfalso; intuition lia); try done.
      by apply Hd.
Qed.

Lemma zero_matrix_get n i j : 0 <= i < n → 0 <= j < n → get2 (zero_matrix n) i j = 0%Qc.
Proof.
  intros Hi Hj. unfold get2, get, zero_matrix.
  rewrite lookup_total_replicate_2 by lia.
  rewrite lookup_total_replicate_2 by lia. done.
Qed.

(** Every instance that [inputing] loads meets the assumptions made on [D]
    and [DT] by the theorems on the matrix and on the local search. *)
Lemma inputing_matrices f i :
  0 <= file_N f → inputing f = Ok (Loaded i) →
  Inst.N i = file_N f ∧
  dims (Inst.D i) (Inst.N i) (Inst.N i) ∧
  symmetric (Inst.N i) (Inst.D i) ∧ zero_diagonal (Inst.N i) (Inst.D i) ∧
  is_double (Inst.N i) (Inst.D i) (Inst.DT i).
Proof.
  intros HN. unfold inputing.
  assert (Hbody : ∀ K LB UB,
    (r ← read_edges (file_N f) (file_edges f)
            (zero_matrix (file_N f)) (zero_matrix (file_N f));
     match r with
     | None => Ok Exited
     | Some (D, DT) => Ok (Loaded (Inst.mk (file_N f) K LB UB D DT))
     end) = Ok (Loaded i) →
    Inst.N i = file_N f ∧
    dims (Inst.D i) (Inst.N i) (Inst.N i) ∧
    symmetric (Inst.N i) (Inst.D i) ∧ zero_diagonal (Inst.N i) (Inst.D i) ∧
    is_double (Inst.N i) (Inst.D i) (Inst.DT i)).
  { intros K LB UB E. apply bind_inv in E as (r & Er & E).
    destruct r as [[D DT]|]; [|done]. injection E as <-. simpl.
    split; [done|].
    apply (read_edges_matrices _ _ _ _ _ _ (zero_matrix_dims _ HN)) in Er; [done| | |].
    - intros a b Ha Hb. by rewrite !zero_matrix_get.
    - intros a Ha. by rewrite zero_matrix_get.
    - split; [by apply zero_matrix_dims|]. intros a b Ha Hb.
      rewrite !zero_matrix_get by done. ring. }
  destruct (decide (file_N f = 3000)); [apply Hbody|].
  destruct (file_kind f) as [kind|]; [|done].
  destruct (decide _); apply Hbody.
Qed.



(** * Sums and tallies of integers *)

Lemma isum_ext n h h' :
  (∀ k, 0 <= k < Z.of_nat n → h k = h' k) → isum n h = isum n h'.
Proof.
  induction n as [|n IH]; intros E; simpl; [done|].
  rewrite IH by (intros; apply E; lia). rewrite E by lia. done.
Qed.

Lemma isum_change n h h' v :
  0 <= v < Z.of_nat n → (∀ k, 0 <= k < Z.of_nat n → k ≠ v → h' k = h k) →
  isum n h' = isum n h + (h' v - h v).
Proof.
  induction n as [|n IH]; intros Hv E; [lia|]. simpl.
  destruct (decide (v = Z.of_nat n)) as [->|Hne].
  - rewrite (isum_ext n h' h) by (intros; apply E; lia). lia.
  - rewrite IH by (lia || intros; apply E; lia).
    rewrite (E (Z.of_nat n)) by lia. lia.
Qed.

Lemma isum_le n h h' :
  (∀ k, 0 <= k < Z.of_nat n → h k <= h' k) → isum n h <= isum n h'.
Proof.
  induction n as [|n IH]; intros E; simpl; [lia|].
  specialize (IH ltac:(intros; apply E; lia)).
  specialize (E (Z.of_nat n) ltac:(lia)). lia.
Qed.

Lemma isum_nonneg n h :
  (∀ k, 0 <= k < Z.of_nat n → 0 <= h k) → 0 <= isum n h.
Proof.
  induction n as [|n IH]; intros E; simpl; [lia|].
  specialize (IH ltac:(intros; apply E; lia)).
  specialize (E (Z.of_nat n) ltac:(lia)). lia.
Qed.

(** A sum of non-negative terms that is not positive has only zero terms. *)
Lemma isum_zero_terms n h :
  (∀ k, 0 <= k < Z.of_nat n → 0 <= h k) → isum n h <= 0 →
  ∀ k, 0 <= k < Z.of_nat n → h k = 0.
Proof.
  induction n as [|n IH]; intros E Hs k Hk; [lia|]. simpl in Hs.
  pose proof (isum_nonneg n h ltac:(intros; apply E; lia)) as H0.
  pose proof (E (Z.of_nat n) ltac:(lia)) as Hn.
  destruct (decide (k = Z.of_nat n)) as [->|Hne]; [lia|].
  apply IH; [intros; apply E; lia|lia|lia].
Qed.

Lemma isum_plus n h h' :
  isum n (fun k => h k + h' k) = isum n h + isum n h'.
Proof. induction n as [|n IH]; simpl; [done|]. rewrite IH. lia. Qed.

Lemma isum_shift n h : isum (S n) h = h 0 + isum n (fun k => h (k + 1)).
Proof.
  induction n as [|n IH]; [simpl; by rewrite Z.add_0_r|].
  change (isum (S (S n)) h) with (isum (S n) h + h (Z.of_nat (S n))).
  rewrite IH.
  change (isum (S n) (fun k => h (k + 1)))
    with (isum n (fun k => h (k + 1)) + h (Z.of_nat n + 1)).
  replace (Z.of_nat n + 1) with (Z.of_nat (S n)) by lia. lia.
Qed.

Lemma foldr_isum (a : list Z) :
  foldr Z.add 0 a = isum (length a) (get a).
Proof.
  induction a as [|x a IH]; [done|].
  change (length (x :: a)) with (S (length a)). rewrite isum_shift.
  simpl. rewrite IH. f_equal. apply isum_ext. intros k Hk.
  unfold get. replace (Z.to_nat (k + 1)) with (S (Z.to_nat k)) by lia. done.
Qed.

Lemma isum_get_upd (a : list Z) n i x :
  len a n → 0 <= i < n →
  isum (Z.to_nat n) (get (upd a i x)) = isum (Z.to_nat n) (get a) + x - get a i.
Proof.
  intros Hl Hi. rewrite (isum_change _ (get a) _ i) by
    (try lia; intros k Hk Hne; rewrite get_upd_ne by lia; done).
  rewrite (get_upd_eq _ n) by done. lia.
Qed.

Lemma isum_const n c : isum n (fun _ => c) = Z.of_nat n * c.
Proof. induction n as [|n IH]; simpl isum; [lia|]. rewrite IH. lia. Qed.

Section Tally.
Context (test : Z → bool).

Lemma tally_step j a :
  0 <= j → tally test (j + 1) a = tally test j a + if test (get a j) then 1 else 0.
Proof.
  intros Hj. unfold tally.
  replace (Z.to_nat (j + 1)) with (S (Z.to_nat j)) by lia. simpl.
  by rewrite Z2Nat.id.
Qed.

Lemma tally_bounds n a : 0 <= n → 0 <= tally test n a <= n.
Proof.
  intros Hn. unfold tally. split.
  - apply isum_nonneg. intros. destruct (test _); lia.
  - transitivity (isum (Z.to_nat n) (fun _ => 1)).
    + apply isum_le. intros. destruct (test _); lia.
    + rewrite isum_const. lia.
Qed.

Lemma tally_upd n a i x :
  len a n → 0 <= i < n →
  tally test n (upd a i x) =
    tally test n a + (if test x then 1 else 0) - (if test (get a i) then 1 else 0).
Proof.
  intros Hl Hi. unfold tally.
  rewrite (isum_change _ (fun k => if test (get a k) then 1 else 0) _ i) by
    (try lia; intros k Hk Hne; rewrite get_upd_ne by lia; done).
  simpl. rewrite (get_upd_eq _ n) by done. lia.
Qed.

(** Cells beyond the length of the prefix do not matter. *)
Lemma tally_upd_beyond n a i x :
  0 <= n <= i → tally test n (upd a i x) = tally test n a.
Proof.
  intros Hi. unfold tally. apply isum_ext. intros k Hk.
  rewrite get_upd_ne by lia. done.
Qed.

Lemma tally_pos_exists n a :
  0 < tally test n a → ∃ i, 0 <= i < n ∧ test (get a i) = true.
Proof.
  unfold tally. intros Hpos.
  assert (H : ∃ i, 0 <= i < Z.of_nat (Z.to_nat n) ∧ test (get a i) = true).
  { revert Hpos. induction (Z.to_nat n) as [|m IH]; simpl isum; [lia|].
    intros Hpos. destruct (test (get a (Z.of_nat m))) eqn:E.
    - exists (Z.of_nat m). split; [lia|done].
    - destruct IH as (i & Hi & Ht); [lia|]. exists i. split; [lia|done]. }
  destruct H as (i & Hi & Ht). exists i. split; [lia|done].
Qed.

Lemma tally_none n a :
  (∀ i, 0 <= i < n → test (get a i) = false) → tally test n a = 0.
Proof.
  intros E. unfold tally. rewrite (isum_ext _ _ (fun _ => 0)).
  - rewrite isum_const. lia.
  - intros k Hk. rewrite E by lia. done.
Qed.

Lemma tally_all n a :
  0 <= n → (∀ i, 0 <= i < n → test (get a i) = true) → tally test n a = n.
Proof.
  intros Hn E. unfold tally. rewrite (isum_ext _ _ (fun _ => 1)).
  - rewrite isum_const. lia.
  - intros k Hk. rewrite E by lia. done.
Qed.

Lemma tally_zero_none n a :
  tally test n a <= 0 → ∀ i, 0 <= i < n → test (get a i) = false.
Proof.
  intros Hz i Hi. destruct (test (get a i)) eqn:E; [|done].
  assert (Hnn : ∀ k, 0 <= k < Z.of_nat (Z.to_nat n) →
            0 <= (fun k => if test (get a k) then 1 else 0) k).
  { intros k _. simpl. destruct (test (get a k)); lia. }
  pose proof (isum_zero_terms (Z.to_nat n) _ Hnn Hz i ltac:(lia)) as H0.
  simpl in H0. rewrite E in H0. discriminate.
Qed.

End Tally.

Lemma tally_group_size g n a : len a n → tally (is_group g) n a = group_size a g.
Proof.
  unfold len, tally, group_size. intros <-. rewrite Nat2Z.id. clear.
  induction a as [|x a IH]; [done|].
  change (length (x :: a)) with (S (length a)). rewrite isum_shift.
  rewrite filter_cons. unfold get at 1. simpl.
  assert (E : isum (length a) (fun k => if is_group g (get (x :: a) (k + 1)) then 1 else 0)
              = isum (length a) (fun k => if is_group g (get a k) then 1 else 0)).
  { apply isum_ext. intros k Hk. unfold get.
    replace (Z.to_nat (k + 1)) with (S (Z.to_nat k)) by lia. done. }
  rewrite E, IH. unfold is_group.
  destruct (decide (x = g)) as [->|Hne].
  - rewrite bool_decide_eq_true_2 by done. simpl. lia.
  - rewrite bool_decide_eq_false_2 by done. lia.
Qed.

(** * The cyclic search *)

Lemma cyclic_search_steps a m n stop fuel : ∀ i d,
  len a m → 0 < n <= m → 0 <= i →
  1 <= d <= Z.of_nat fuel → stop (get a ((i + d) mod n)) = true →
  ∃ i', cyclic_search fuel a n stop i = Ok i' ∧ 0 <= i' < n ∧
        stop (get a i') = true.
Proof.
  induction fuel as [|fuel IH]; intros i d Hl Hn Hi Hd Hstop; [lia|].
  simpl. unfold c_mod. destruct (decide (n = 0)); [lia|]. rewrite bind_Ok.
  rewrite Z.rem_mod_nonneg by lia.
  pose proof (Z.mod_pos_bound (i + 1) n ltac:(lia)) as Hb.
  rewrite (rd_ok _ m) by (done || lia). rewrite bind_Ok.
  destruct (stop (get a ((i + 1) mod n))) eqn:E.
  - eexists. split; [done|]. split; [lia|done].
  - assert (d ≠ 1) by (intros ->; congruence).
    apply (IH _ (d - 1)); [done|done|lia|lia|].
    rewrite Zplus_mod_idemp_l. replace (i + 1 + (d - 1)) with (i + d) by lia. done.
Qed.

Lemma cyclic_search_spec a m n stop i :
  len a m → 0 < n <= m → 0 <= i →
  (∃ j, 0 <= j < n ∧ stop (get a j) = true) →
  ∃ i', cyclic_search (Z.to_nat n) a n stop i = Ok i' ∧ 0 <= i' < n ∧
        stop (get a i') = true.
Proof.
  intros Hl Hn Hi (j & Hj & Hstop).
  pose proof (Z.mod_pos_bound (j - i - 1) n ltac:(lia)) as Hb.
  apply (cyclic_search_steps a m n stop _ i ((j - i - 1) mod n + 1));
    [done|done|done|lia|].
  replace (i + ((j - i - 1) mod n + 1)) with (i + 1 + (j - i - 1) mod n) by lia.
  rewrite Zplus_mod_idemp_r. replace (i + 1 + (j - i - 1)) with j by lia.
  rewrite Z.mod_small by lia. done.
Qed.

(** * Collecting the indices of the cells that pass a test *)

Lemma collect_spec N test a SE :
  0 <= N → len a N → len SE N →
  ∃ SE' L, collect N test a SE = Ok (SE', L) ∧ len SE' N ∧
    L = tally test N a ∧ 0 <= L <= N ∧
    (∀ i, 0 <= i < L → 0 <= get SE' i < N ∧ test (get a (get SE' i)) = true) ∧
    (∀ i i', 0 <= i < i' → i' < L → get SE' i < get SE' i').
Proof.
  intros HN Ha HSE. unfold collect.
  destruct (for_loop_inv
    (fun j '(SE', L) => len SE' N ∧ L = tally test j a ∧ 0 <= L <= j ∧
       (∀ i, 0 <= i < L → 0 <= get SE' i < j ∧ test (get a (get SE' i)) = true) ∧
       (∀ i i', 0 <= i < i' → i' < L → get SE' i < get SE' i'))
    0 N
    (fun j '(SelectEle, lengthSE) =>
       x ← rd a j;
       if test x then
         SelectEle ← wr SelectEle lengthSE j; Ok (SelectEle, lengthSE + 1)
       else Ok (SelectEle, lengthSE)) (SE, 0))
    as ([SE' L] & -> & Hl & HL & Hb & Hin & Hinc); [done| | |].
  - split; [done|]. split; [done|]. split; [lia|]. split; intros; lia.
  - intros j [SE1 L1] Hj (Hl & HL & Hb & Hin & Hinc).
    rewrite (rd_ok _ N) by done. rewrite bind_Ok.
    rewrite tally_step by lia.
    destruct (test (get a j)) eqn:E.
    + rewrite (wr_ok _ N) by (done || lia). rewrite bind_Ok.
      eexists; split; [done|]. split; [by apply len_upd|]. split; [lia|].
      split; [lia|]. split.
      * intros i Hi. rewrite (get_upd _ N) by (done || lia).
        destruct (decide (L1 = i)) as [->|Hne].
        -- split; [lia|done].
        -- destruct (Hin i ltac:(lia)) as [? ?]. split; [lia|done].
      * intros i i' Hi Hi'. rewrite !(get_upd _ N) by (done || lia).
        destruct (decide (L1 = i)); [lia|].
        destruct (decide (L1 = i')) as [->|Hne].
        -- destruct (Hin i ltac:(lia)) as [? ?]. lia.
        -- apply Hinc; lia.
    + eexists; split; [done|]. split; [done|]. split; [lia|]. split; [lia|].
      split; [|done]. intros i Hi. destruct (Hin i Hi) as [? ?]. split; [lia|done].
  - exists SE', L. split; [done|]. split; [done|]. split; [done|]. split; [done|].
    split; [|done]. intros i Hi. by apply Hin.
Qed.


(** * The repair loops of the recombination *)

Section Repair.
Context (N K : Z) (LB UB : list Z) (rnd : nat → Z).
Hypothesis HN : 0 <= N.
Hypothesis HB : bounds_ok N K LB UB.
Hypothesis Hrnd : ∀ k, 0 <= rnd k.

Lemma is_group_true g x : is_group g x = true ↔ x = g.
Proof. unfold is_group. apply bool_decide_eq_true. Qed.

Lemma is_group_eq g : is_group g g = true.
Proof. by apply is_group_true. Qed.

Lemma is_group_ne g x : x ≠ g → is_group g x = false.
Proof. intros. unfold is_group. by apply bool_decide_eq_false_2. Qed.

Lemma is_set_true x : is_set x = true ↔ x ≠ -1.
Proof. unfold is_set. apply bool_decide_eq_true. Qed.

Lemma is_flag_true x : is_flag x = true ↔ x ≠ 0.
Proof. unfold is_flag. apply bool_decide_eq_true. Qed.

(** The free elements are counted alike in [sc] and in [vEle]. *)
Lemma pool_free_count sc vEle :
  pool_ok N K sc vEle → tally is_set N vEle = tally is_free N sc.
Proof.
  intros (Hs & Hv & Hj). unfold tally. apply isum_ext. intros j Hjr.
  unfold is_set, is_free.
  destruct (Hj j ltac:(lia)) as [[E1 E2]|[E1 E2]]; rewrite E2.
  - rewrite E1. rewrite !bool_decide_eq_true_2; [done|done|lia].
  - rewrite !bool_decide_eq_false_2; [done|lia|lia].
Qed.

Lemma pick_flagged flags (P : Z → Prop) k :
  flags_ok K flags P → (∃ g, 0 <= g < K ∧ P g) →
  ∃ pickG0 pickG,
    c_mod (rnd k) K = Ok pickG0 ∧
    cyclic_search (Z.to_nat K) flags K is_flag pickG0 = Ok pickG ∧
    0 <= pickG < K ∧ get flags pickG = 1 ∧ P pickG.
Proof.
  intros [Hl Hf] (g & Hg & HP). unfold c_mod.
  destruct (decide (K = 0)); [lia|].
  pose proof (Z.rem_bound_pos (rnd k) K (Hrnd k) ltac:(lia)) as Hr.
  destruct (cyclic_search_spec flags K K is_flag (Z.rem (rnd k) K))
    as (i' & E & Hi' & Hstop); [done|lia|lia| |].
  - exists g. split; [done|]. apply is_flag_true.
    destruct (Hf g Hg) as [[-> _]|[_ ?]]; [done|tauto].
  - exists (Z.rem (rnd k) K), i'. split; [done|]. split; [done|]. split; [done|].
    apply is_flag_true in Hstop.
    destruct (Hf i' Hi') as [[? ?]|[? _]]; [done|congruence].
Qed.

(** Effect on the tallies of giving the group [x] to element [e]. *)
Lemma tally_group_upd sc e x g :
  len sc N → 0 <= e < N →
  tally (is_group g) N (upd sc e x) =
    tally (is_group g) N sc
    + (if decide (x = g) then 1 else 0) - (if decide (get sc e = g) then 1 else 0).
Proof.
  intros Hl He. rewrite (tally_upd _ N) by done. unfold is_group.
  repeat case_decide; repeat case_bool_decide; try congruence; lia.
Qed.

Lemma release_step_spec st :
  repair_inv N K UB st →
  flags_ok K (R.BigThanLB st)
    (fun g => get (R.scSizeGroup st) g > get LB g) →
  (∃ g, 0 <= g < K ∧ get (R.scSizeGroup st) g > get LB g) →
  ∃ st' pickG,
    release_step N K LB rnd st = Ok st' ∧
    repair_inv N K UB st' ∧
    flags_ok K (R.BigThanLB st')
      (fun g => get (R.scSizeGroup st') g > get LB g) ∧
    0 <= pickG < K ∧ get (R.scSizeGroup st) pickG > get LB pickG ∧
    R.scSizeGroup st' =
      upd (R.scSizeGroup st) pickG (get (R.scSizeGroup st) pickG - 1) ∧
    R.LBGroup st' = R.LBGroup st ∧ R.UBGroup st' = R.UBGroup st.
Proof.
  intros ((Hsc & Hve & Hpool) & (Hsz & Htr & Htot) & Hse) Hfl Hex.
  destruct HB as (HLB & HUB & Hbd & Hfeas).
  destruct (pick_flagged _ _ (R.k st) Hfl Hex) as (pickG0 & pickG & E0 & E1 & Hg & Hflag & Hbig).
  simpl in Hbig.
  unfold release_step. rewrite E0, bind_Ok, E1, bind_Ok.
  destruct (collect_spec N (is_group pickG) (R.sc st) (R.SelectEle st) HN Hsc Hse)
    as (SE' & L & -> & Hse' & HL & HLb & Hin & _).
  rewrite bind_Ok.
  destruct (Htr pickG Hg) as [Hsize Hrange]. rewrite <- Hsize in HL.
  pose proof (Hbd pickG Hg) as Hlb.
  unfold c_mod. destruct (decide (L = 0)) as [Ez|]; [exfalso; clear -HL Hbig Hlb Ez; lia|]. rewrite bind_Ok.
  pose proof (Z.rem_bound_pos (rnd (S (R.k st))) L (Hrnd _) ltac:(lia)) as Hr.
  set (pickV := Z.rem (rnd (S (R.k st))) L) in *. clearbody pickV.
  destruct (Hin pickV Hr) as [He Hsce]. apply is_group_true in Hsce.
  set (e := get SE' pickV) in *.
  rewrite (rd_ok SE' N pickV) by (done || lia). rewrite bind_Ok. fold e.
  rewrite (wr_ok (R.sc st) N) by done. rewrite bind_Ok.
  rewrite (wr_ok (R.vEle st) N) by done. rewrite bind_Ok.
  rewrite (rd_ok (R.scSizeGroup st) K) by done. rewrite bind_Ok.
  rewrite (wr_ok (R.scSizeGroup st) K) by done. rewrite bind_Ok.
  rewrite (rd_ok (upd (R.scSizeGroup st) pickG _) K) by (done || by apply len_upd).
  rewrite bind_Ok. rewrite (get_upd_eq _ K) by done.
  rewrite (rd_ok LB K) by done. rewrite bind_Ok.
  set (sz := get (R.scSizeGroup st) pickG) in *.
  assert (Hflags' : ∃ fl,
    (if decide (sz - 1 = get LB pickG) then wr (R.BigThanLB st) pickG 0
     else Ok (R.BigThanLB st)) = Ok fl ∧
    flags_ok K fl (fun g => get (upd (R.scSizeGroup st) pickG (sz - 1)) g > get LB g)).
  { destruct Hfl as [Hfl1 Hfl2]. destruct (decide (sz - 1 = get LB pickG)) as [Eq|Hne].
    - rewrite (wr_ok _ K) by done. eexists; split; [done|].
      split; [by apply len_upd|]. intros g Hgr.
      rewrite !(get_upd _ K) by (done || lia).
      destruct (decide (pickG = g)) as [<-|Hn]; [right; split; [done|lia]|].
      apply Hfl2; done.
    - eexists; split; [done|]. split; [done|]. intros g Hgr.
      rewrite (get_upd _ K) by (done || lia).
      destruct (decide (pickG = g)) as [<-|Hn]; [left; split; [done|lia]|].
      apply Hfl2; done. }
  destruct Hflags' as (fl & -> & Hfl'). rewrite bind_Ok.
  eexists _, pickG. split; [done|]. unfold repair_inv, pool_ok, sizes_tracked. simpl.
  split; [|split; [done|split; [done|split; [fold sz; lia|done]]]].
  split; [|split; [|done]].
  - split; [by apply len_upd|]. split; [by apply len_upd|].
    intros j Hj. rewrite !(get_upd _ N) by (done || lia).
    destruct (decide (e = j)) as [<-|Hn]; [left; done|]. by apply Hpool.
  - split; [by apply len_upd|]. split.
    + intros g Hgr. rewrite tally_group_upd by done.
      rewrite (get_upd _ K) by (done || lia). rewrite Hsce.
      destruct (Htr g Hgr) as [Hs Hr']. fold sz.
      destruct (decide (-1 = g)); [lia|].
      destruct (decide (pickG = g)) as [<-|Hn]; [fold sz in Hs; lia|lia].
    + rewrite (isum_get_upd _ K) by done. fold sz.
      change is_free with (is_group (-1)). rewrite tally_group_upd by done.
      rewrite Hsce. destruct (decide (-1 = -1)); [|done].
      destruct (decide (pickG = -1)); [lia|].
      change (is_group (-1)) with is_free. lia.
Qed.

Lemma fill_step_spec flags bound st :
  repair_inv N K UB st → len bound K →
  (∀ g, 0 <= g < K → get bound g <= get UB g) →
  flags_ok K flags (fun g => get (R.scSizeGroup st) g < get bound g) →
  (∃ g, 0 <= g < K ∧ get (R.scSizeGroup st) g < get bound g) →
  0 < tally is_free N (R.sc st) →
  ∃ flags' st' pickG,
    fill_step N K rnd flags bound st = Ok (flags', st') ∧
    repair_inv N K UB st' ∧
    flags_ok K flags' (fun g => get (R.scSizeGroup st') g < get bound g) ∧
    0 <= pickG < K ∧ get (R.scSizeGroup st) pickG < get bound pickG ∧
    R.scSizeGroup st' =
      upd (R.scSizeGroup st) pickG (get (R.scSizeGroup st) pickG + 1) ∧
    R.LBGroup st' = R.LBGroup st ∧ R.UBGroup st' = R.UBGroup st ∧
    R.BigThanLB st' = R.BigThanLB st.
Proof.
  intros ((Hsc & Hve & Hpool) & (Hsz & Htr & Htot) & Hse) Hbl Hbu Hfl Hex Hfree.
  destruct (pick_flagged _ _ (R.k st) Hfl Hex) as (pickG0 & pickG & E0 & E1 & Hg & Hflag & Hlow).
  simpl in Hlow.
  unfold fill_step. rewrite E0, bind_Ok, E1, bind_Ok.
  destruct (collect_spec N is_set (R.vEle st) (R.SelectEle st) HN Hve Hse)
    as (SE' & L & -> & Hse' & HL & HLb & Hin & _).
  rewrite bind_Ok.
  rewrite (pool_free_count (R.sc st)) in HL by done.
  unfold c_mod. destruct (decide (L = 0)); [lia|]. rewrite bind_Ok.
  pose proof (Z.rem_bound_pos (rnd (S (R.k st))) L (Hrnd _) ltac:(lia)) as Hr.
  set (pickV := Z.rem (rnd (S (R.k st))) L) in *. clearbody pickV.
  destruct (Hin pickV Hr) as [He Hve']. apply is_set_true in Hve'.
  set (e := get SE' pickV) in *.
  assert (Hsce : get (R.sc st) e = -1).
  { destruct (Hpool e He) as [[? _]|[_ ?]]; [done|congruence]. }
  rewrite (rd_ok SE' N pickV) by (done || lia). rewrite bind_Ok. fold e.
  rewrite (wr_ok (R.sc st) N) by done. rewrite bind_Ok.
  rewrite (wr_ok (R.vEle st) N) by done. rewrite bind_Ok.
  rewrite (rd_ok (R.scSizeGroup st) K) by done. rewrite bind_Ok.
  rewrite (wr_ok (R.scSizeGroup st) K) by done. rewrite bind_Ok.
  rewrite (rd_ok (upd (R.scSizeGroup st) pickG _) K) by (done || by apply len_upd).
  rewrite bind_Ok. rewrite (get_upd_eq _ K) by done.
  rewrite (rd_ok bound K) by done. rewrite bind_Ok.
  set (sz := get (R.scSizeGroup st) pickG) in *.
  assert (Hflags' : ∃ fl,
    (if decide (sz + 1 = get bound pickG) then wr flags pickG 0 else Ok flags) = Ok fl ∧
    flags_ok K fl (fun g => get (upd (R.scSizeGroup st) pickG (sz + 1)) g < get bound g)).
  { destruct Hfl as [Hfl1 Hfl2]. destruct (decide (sz + 1 = get bound pickG)) as [Eq|Hne].
    - rewrite (wr_ok _ K) by done. eexists; split; [done|].
      split; [by apply len_upd|]. intros g Hgr.
      rewrite !(get_upd _ K) by (done || lia).
      destruct (decide (pickG = g)) as [<-|Hn]; [right; split; [done|lia]|].
      apply Hfl2; done.
    - eexists; split; [done|]. split; [done|]. intros g Hgr.
      rewrite (get_upd _ K) by (done || lia).
      destruct (decide (pickG = g)) as [<-|Hn]; [left; split; [done|lia]|].
      apply Hfl2; done. }
  destruct Hflags' as (fl & -> & Hfl'). rewrite bind_Ok.
  eexists _, _, pickG. split; [done|]. unfold repair_inv, pool_ok, sizes_tracked. simpl.
  split; [|split; [done|split; [done|split; [fold sz; lia|done]]]].
  split; [|split; [|done]].
  - split; [by apply len_upd|]. split; [by apply len_upd|].
    intros j Hj. rewrite !(get_upd _ N) by (done || lia).
    destruct (decide (e = j)) as [<-|Hn]; [right; done|]. by apply Hpool.
  - split; [by apply len_upd|]. split.
    + intros g Hgr. rewrite tally_group_upd by done.
      rewrite (get_upd _ K) by (done || lia). rewrite Hsce.
      destruct (Htr g Hgr) as [Hs Hr']. fold sz.
      pose proof (Hbu pickG Hg) as Hbp.
      destruct (decide (-1 = g)); [lia|].
      destruct (decide (pickG = g)) as [<-|Hn]; [fold sz in Hs, Hr'; lia|lia].
    + rewrite (isum_get_upd _ K) by done. fold sz.
      change is_free with (is_group (-1)). rewrite tally_group_upd by done.
      rewrite Hsce. destruct (decide (-1 = -1)); [|done].
      destruct (decide (pickG = -1)); [lia|].
      change (is_group (-1)) with is_free. lia.
Qed.

End Repair.


Lemma isum_step n h :
  0 <= n → isum (Z.to_nat (n + 1)) h = isum (Z.to_nat n) h + h n.
Proof.
  intros. replace (Z.to_nat (n + 1)) with (S (Z.to_nat n)) by lia. simpl.
  by rewrite Z2Nat.id.
Qed.

Lemma isum_lt_exists n h h' :
  isum n h < isum n h' → ∃ k, 0 <= k < Z.of_nat n ∧ h k < h' k.
Proof.
  induction n as [|n IH]; simpl; [lia|]. intros Hlt.
  destruct (decide (h (Z.of_nat n) < h' (Z.of_nat n))) as [Hn|Hn].
  - exists (Z.of_nat n). split; [lia|done].
  - destruct IH as (k & Hk & Hlt'); [lia|]. exists k. split; [lia|done].
Qed.

(** * The passes of the repair *)

Section RepairPasses.
Context (N K : Z) (LB UB : list Z) (rnd : nat → Z).
Hypothesis HN : 0 <= N.
Hypothesis HB : bounds_ok N K LB UB.
Hypothesis Hrnd : ∀ k, 0 <= rnd k.

Lemma bounds_ok_K : 0 <= K.
Proof. destruct HB as (HLB & _). unfold len in HLB. lia. Qed.

(** The first pass adds up the lower bounds and what the groups hold of
    them, and flags the groups below and above their lower bound. *)
Lemma repair_scan_spec st :
  len (R.scSizeGroup st) K →
  flags_ok K (R.LBGroup st) (fun _ => False) →
  flags_ok K (R.BigThanLB st) (fun _ => False) →
  ∃ LBGroup BigThanLB,
    repair_scan K LB st
    = Ok (isum (Z.to_nat K)
            (fun g => Z.min (get (R.scSizeGroup st) g) (get LB g)),
          isum (Z.to_nat K) (get LB),
          isum (Z.to_nat K)
            (fun g => if decide (get (R.scSizeGroup st) g < get LB g)
                      then get (R.scSizeGroup st) g else 0),
          LBGroup, BigThanLB) ∧
    flags_ok K LBGroup (fun g => get (R.scSizeGroup st) g < get LB g) ∧
    flags_ok K BigThanLB (fun g => get (R.scSizeGroup st) g > get LB g).
Proof.
  intros Hsz [HlL HfL] [HlB HfB]. pose proof bounds_ok_K as HK.
  destruct HB as (HLB & HUB & Hbd & Hfeas).
  set (sz := get (R.scSizeGroup st)). unfold repair_scan.
  match goal with |- context [for_loop 0 K ?body ?init] =>
    destruct (for_loop_inv
      (fun i '(count, sumLB, sumLow, LBG, BTL) =>
         count = isum (Z.to_nat i) (fun g => Z.min (sz g) (get LB g)) ∧
         sumLB = isum (Z.to_nat i) (get LB) ∧
         sumLow = isum (Z.to_nat i)
                    (fun g => if decide (sz g < get LB g) then sz g else 0) ∧
         len LBG K ∧ len BTL K ∧
         (∀ g, 0 <= g < K →
            if decide (g < i)
            then (get LBG g = 1 ∧ sz g < get LB g) ∨ (get LBG g = 0 ∧ ¬ sz g < get LB g)
            else get LBG g = 0) ∧
         (∀ g, 0 <= g < K →
            if decide (g < i)
            then (get BTL g = 1 ∧ sz g > get LB g) ∨ (get BTL g = 0 ∧ ¬ sz g > get LB g)
            else get BTL g = 0))
      0 K body init) as (s' & E & HI)
  end.
  - done.
  - simpl. do 5 (split; [done|]). split; intros g Hg.
    + destruct (decide (g < 0)); [lia|]. destruct (HfL g Hg) as [[_ []]|[? _]]; done.
    + destruct (decide (g < 0)); [lia|]. destruct (HfB g Hg) as [[_ []]|[? _]]; done.
  - intros i [[[[c sl] slw] LBG] BTL] Hi (Hc & Hsl & Hslw & HlL' & HlB' & HL & HBT).
    rewrite (rd_ok LB K i) by done. rewrite bind_Ok.
    rewrite (rd_ok (R.scSizeGroup st) K i) by done. rewrite bind_Ok.
    fold (sz i).
    assert (E1 : ∃ LBG',
      (if decide (sz i < get LB i) then LBGroup ← wr LBG i 1;
           Ok (c + sz i, slw + sz i, LBGroup)
       else Ok (c + get LB i, slw, LBG)) =
      Ok (c + Z.min (sz i) (get LB i),
          slw + (if decide (sz i < get LB i) then sz i else 0), LBG') ∧
      len LBG' K ∧
      ∀ g, 0 <= g < K →
        if decide (g < i + 1)
        then (get LBG' g = 1 ∧ sz g < get LB g) ∨ (get LBG' g = 0 ∧ ¬ sz g < get LB g)
        else get LBG' g = 0).
    { destruct (decide (sz i < get LB i)) as [Hlt|Hge].
      - rewrite (wr_ok LBG K) by done. rewrite bind_Ok. eexists. split.
        { do 2 f_equal. f_equal; lia. }
        split; [by apply len_upd|]. intros g Hg. specialize (HL g Hg).
        rewrite (get_upd _ K) by (done || lia).
        destruct (decide (i = g)) as [<-|Hne].
        + destruct (decide (i < i + 1)); [|lia]. left. done.
        + destruct (decide (g < i)), (decide (g < i + 1)); try lia; done.
      - eexists. split.
        { do 2 f_equal. f_equal; lia. }
        split; [done|]. intros g Hg. specialize (HL g Hg).
        destruct (decide (g < i)), (decide (g < i + 1)); try lia; try done.
        assert (g = i) as -> by lia. right. done. }
    destruct E1 as (LBG' & -> & HlL'' & HL'). rewrite bind_Ok.
    assert (E2 : ∃ BTL',
      (if decide (sz i > get LB i) then wr BTL i 1 else Ok BTL) = Ok BTL' ∧
      len BTL' K ∧
      ∀ g, 0 <= g < K →
        if decide (g < i + 1)
        then (get BTL' g = 1 ∧ sz g > get LB g) ∨ (get BTL' g = 0 ∧ ¬ sz g > get LB g)
        else get BTL' g = 0).
    { destruct (decide (sz i > get LB i)) as [Hlt|Hge].
      - rewrite (wr_ok BTL K) by done. eexists. split; [done|].
        split; [by apply len_upd|]. intros g Hg. specialize (HBT g Hg).
        rewrite (get_upd _ K) by (done || lia).
        destruct (decide (i = g)) as [<-|Hne].
        + destruct (decide (i < i + 1)); [|lia]. left. done.
        + destruct (decide (g < i)), (decide (g < i + 1)); try lia; done.
      - eexists. split; [done|].
        split; [done|]. intros g Hg. specialize (HBT g Hg).
        destruct (decide (g < i)), (decide (g < i + 1)); try lia; try done.
        assert (g = i) as -> by lia. right. done. }
    destruct E2 as (BTL' & -> & HlB'' & HBT'). rewrite bind_Ok.
    eexists. split; [done|]. simpl.
    rewrite !isum_step by lia. subst c sl slw.
    do 3 (split; [done|]). done.
  - destruct s' as [[[[c sl] slw] LBG] BTL].
    destruct HI as (Hc & Hsl & Hslw & HlL' & HlB' & HL & HBT).
    exists LBG, BTL. split; [by rewrite E, Hc, Hsl, Hslw|].
    split; (split; [done|]); intros g Hg.
    + specialize (HL g Hg). destruct (decide (g < K)); [done|lia].
    + specialize (HBT g Hg). destruct (decide (g < K)); [done|lia].
Qed.

Lemma count_free_spec vEle c :
  len vEle N →
  count_free N vEle c = Ok (c + tally is_set N vEle).
Proof.
  intros Hv. unfold count_free.
  match goal with |- for_loop 0 N ?body ?init = _ =>
    destruct (for_loop_inv (fun i count => count = c + tally is_set i vEle)
      0 N body init) as (s' & E & HI)
  end.
  - done.
  - unfold tally. simpl. lia.
  - intros i s Hi ->. rewrite (rd_ok vEle N i) by done. rewrite bind_Ok.
    rewrite tally_step by lia. unfold is_set.
    destruct (decide (get vEle i ≠ -1)) as [Hne|He].
    + rewrite bool_decide_eq_true_2 by done. eexists; split; [done|lia].
    + rewrite bool_decide_eq_false_2 by done. eexists; split; [done|lia].
  - by rewrite E, HI.
Qed.

(** Members of groups above their lower bound go back to the pool until
    the pool can meet every lower bound. *)
Lemma release_loop_spec st count :
  repair_inv N K UB st →
  flags_ok K (R.BigThanLB st)
    (fun g => get (R.scSizeGroup st) g > get LB g) →
  count = isum (Z.to_nat K)
            (fun g => Z.min (get (R.scSizeGroup st) g) (get LB g))
          + tally is_free N (R.sc st) →
  ∃ st',
    for_loop count (isum (Z.to_nat K) (get LB))
      (fun _ st => release_step N K LB rnd st) st = Ok st' ∧
    repair_inv N K UB st' ∧
    R.LBGroup st' = R.LBGroup st ∧ R.UBGroup st' = R.UBGroup st ∧
    (∀ g, 0 <= g < K →
       Z.min (get (R.scSizeGroup st') g) (get LB g)
       = Z.min (get (R.scSizeGroup st) g) (get LB g)) ∧
    isum (Z.to_nat K) (get LB)
      <= isum (Z.to_nat K)
           (fun g => Z.min (get (R.scSizeGroup st') g) (get LB g))
         + tally is_free N (R.sc st').
Proof.
  intros Hinv Hfl Hc. pose proof bounds_ok_K as HK.
  destruct (decide (count <= isum (Z.to_nat K) (get LB))) as [Hle|Hgt].
  2:{ exists st. rewrite for_loop_empty by lia.
      split; [done|]. do 3 (split; [done|]). split; [done|lia]. }
  destruct (for_loop_inv
    (fun c st' =>
       repair_inv N K UB st' ∧
       flags_ok K (R.BigThanLB st')
         (fun g => get (R.scSizeGroup st') g > get LB g) ∧
       R.LBGroup st' = R.LBGroup st ∧ R.UBGroup st' = R.UBGroup st ∧
       (∀ g, 0 <= g < K →
          Z.min (get (R.scSizeGroup st') g) (get LB g)
          = Z.min (get (R.scSizeGroup st) g) (get LB g)) ∧
       c = isum (Z.to_nat K)
             (fun g => Z.min (get (R.scSizeGroup st') g) (get LB g))
           + tally is_free N (R.sc st'))
    count (isum (Z.to_nat K) (get LB))
    (fun _ st => release_step N K LB rnd st) st) as (st' & E & HI).
  - done.
  - done.
  - intros c s Hcr (Hinv' & Hfl' & HL & HU & Hmin & Hceq).
    assert (Hex : ∃ g, 0 <= g < K ∧ get (R.scSizeGroup s) g > get LB g).
    { destruct Hinv' as (_ & (_ & _ & Htot) & _).
      destruct HB as (_ & _ & _ & Hfeas).
      destruct (isum_lt_exists (Z.to_nat K)
        (fun g => Z.min (get (R.scSizeGroup s) g) (get LB g))
        (get (R.scSizeGroup s))) as (g & Hg & Hlt); [lia|].
      exists g. split; [lia|]. simpl in Hlt. lia. }
    destruct (release_step_spec N K LB UB rnd HN HB Hrnd s Hinv' Hfl' Hex)
      as (s' & pickG & Es & Hinv'' & Hfl'' & Hg & Hbig & Hsz & HL' & HU').
    exists s'. split; [done|]. split; [done|]. split; [done|].
    split; [congruence|]. split; [congruence|].
    destruct Hinv' as (_ & (Hlsz & _ & Htot) & _).
    destruct Hinv'' as (_ & (_ & _ & Htot') & _).
    assert (Hmin' : ∀ g, 0 <= g < K →
      Z.min (get (R.scSizeGroup s') g) (get LB g)
      = Z.min (get (R.scSizeGroup s) g) (get LB g)).
    { intros g Hgr. rewrite Hsz. rewrite (get_upd _ K) by (done || lia).
      destruct (decide (pickG = g)) as [<-|]; [lia|done]. }
    split.
    + intros g Hgr. rewrite Hmin' by done. by apply Hmin.
    + rewrite (isum_ext _ _
        (fun g => Z.min (get (R.scSizeGroup s) g) (get LB g)))
        by (intros; apply Hmin'; lia).
      rewrite Hsz in Htot'. rewrite (isum_get_upd _ K) in Htot' by done. lia.
  - destruct HI as (Hinv' & _ & HL & HU & Hmin & Hceq).
    exists st'. split; [done|]. do 4 (split; [done|]). lia.
Qed.

Lemma lower_sum_spec LBGroup sz :
  flags_ok K LBGroup (fun g => get sz g < get LB g) →
  lower_sum K LB LBGroup
  = Ok (isum (Z.to_nat K)
          (fun g => if decide (get sz g < get LB g) then get LB g else 0)).
Proof.
  intros [Hl Hf]. pose proof bounds_ok_K as HK.
  destruct HB as (HLB & _). unfold lower_sum.
  match goal with |- for_loop 0 K ?body ?init = _ =>
    destruct (for_loop_inv
      (fun i sum => sum = isum (Z.to_nat i)
         (fun g => if decide (get sz g < get LB g) then get LB g else 0))
      0 K body init) as (s' & E & HI)
  end.
  - done.
  - done.
  - intros i s Hi ->. rewrite (rd_ok LBGroup K i) by done. rewrite bind_Ok.
    rewrite isum_step by lia.
    destruct (Hf i Hi) as [[-> Hlt]|[-> Hge]].
    + destruct (decide (1 = 1)); [|done]. rewrite (rd_ok LB K i) by done.
      rewrite bind_Ok. eexists; split; [done|].
      destruct (decide (get sz i < get LB i)); [done|lia].
    + destruct (decide (0 = 1)); [done|]. eexists; split; [done|].
      destruct (decide (get sz i < get LB i)); [lia|]. lia.
  - by rewrite E, HI.
Qed.

(** Free elements go to the groups below their lower bound until none is
    left below it. *)
Lemma lower_fill_spec st :
  repair_inv N K UB st →
  flags_ok K (R.LBGroup st) (fun g => get (R.scSizeGroup st) g < get LB g) →
  isum (Z.to_nat K) (get LB)
    <= isum (Z.to_nat K)
         (fun g => Z.min (get (R.scSizeGroup st) g) (get LB g))
       + tally is_free N (R.sc st) →
  ∃ flags st',
    for_loop
      (isum (Z.to_nat K)
         (fun g => if decide (get (R.scSizeGroup st) g < get LB g)
                   then get (R.scSizeGroup st) g else 0))
      (isum (Z.to_nat K)
         (fun g => if decide (get (R.scSizeGroup st) g < get LB g)
                   then get LB g else 0))
      (fun _ '(flags, st) => fill_step N K rnd flags LB st)
      (R.LBGroup st, st) = Ok (flags, st') ∧
    repair_inv N K UB st' ∧
    R.UBGroup st' = R.UBGroup st ∧ R.BigThanLB st' = R.BigThanLB st ∧
    R.LBGroup st' = R.LBGroup st ∧
    (∀ g, 0 <= g < K → get LB g <= get (R.scSizeGroup st') g).
Proof.
  intros Hinv Hfl Hfree. pose proof bounds_ok_K as HK.
  pose proof HB as (HLB & HUB & Hbd & Hfeas).
  set (lo := isum (Z.to_nat K)
         (fun g => if decide (get (R.scSizeGroup st) g < get LB g)
                   then get (R.scSizeGroup st) g else 0)).
  set (hi := isum (Z.to_nat K)
         (fun g => if decide (get (R.scSizeGroup st) g < get LB g)
                   then get LB g else 0)).
  assert (Hdef : hi - lo = isum (Z.to_nat K)
            (fun g => Z.max 0 (get LB g - get (R.scSizeGroup st) g))).
  { assert (hi = lo + isum (Z.to_nat K)
            (fun g => Z.max 0 (get LB g - get (R.scSizeGroup st) g))); [|lia].
    unfold hi, lo. rewrite <- isum_plus. apply isum_ext. intros g _. simpl.
    destruct (decide (get (R.scSizeGroup st) g < get LB g)); lia. }
  assert (Hneed : hi - lo <= tally is_free N (R.sc st)).
  { rewrite Hdef.
    assert (isum (Z.to_nat K) (get LB) =
      isum (Z.to_nat K) (fun g => Z.min (get (R.scSizeGroup st) g) (get LB g))
      + isum (Z.to_nat K) (fun g => Z.max 0 (get LB g - get (R.scSizeGroup st) g)));
      [|lia].
    rewrite <- isum_plus. apply isum_ext. intros g _. simpl. lia. }
  assert (Hlohi : lo <= hi).
  { pose proof (isum_nonneg (Z.to_nat K)
      (fun g => Z.max 0 (get LB g - get (R.scSizeGroup st) g))
      ltac:(intros; simpl; lia)). lia. }
  destruct (for_loop_inv
    (fun c '(flags, st') =>
       repair_inv N K UB st' ∧
       flags_ok K flags (fun g => get (R.scSizeGroup st') g < get LB g) ∧
       R.UBGroup st' = R.UBGroup st ∧ R.BigThanLB st' = R.BigThanLB st ∧
       R.LBGroup st' = R.LBGroup st ∧
       hi - c = isum (Z.to_nat K)
                  (fun g => Z.max 0 (get LB g - get (R.scSizeGroup st') g)) ∧
       hi - c <= tally is_free N (R.sc st'))
    lo hi (fun _ '(flags, st) => fill_step N K rnd flags LB st)
    (R.LBGroup st, st)) as ([flags st'] & E & HI).
  - done.
  - done.
  - intros c [fl s] Hcr (Hinv' & Hfl' & HU & HBg & HL & Hd & Hfr).
    assert (Hex : ∃ g, 0 <= g < K ∧ get (R.scSizeGroup s) g < get LB g).
    { destruct (isum_lt_exists (Z.to_nat K) (fun _ => 0)
        (fun g => Z.max 0 (get LB g - get (R.scSizeGroup s) g)))
        as (g & Hg & Hlt); [rewrite isum_const; lia|].
      exists g. split; [lia|]. simpl in Hlt. lia. }
    destruct (fill_step_spec N K UB rnd HN Hrnd fl LB s Hinv' HLB
      ltac:(intros g Hg; apply Hbd; done) Hfl' Hex ltac:(lia))
      as (fl' & s' & pickG & Es & Hinv'' & Hfl'' & Hg & Hlow & Hsz & HL' & HU' & HB').
    exists (fl', s'). split; [done|]. split; [done|]. split; [done|].
    split; [congruence|]. split; [congruence|]. split; [congruence|].
    destruct Hinv' as (_ & (Hlsz & _ & Htot) & _).
    destruct Hinv'' as (_ & (_ & _ & Htot') & _).
    rewrite Hsz in Htot'. rewrite (isum_get_upd _ K) in Htot' by done.
    assert (Hd' : isum (Z.to_nat K)
        (fun g => Z.max 0 (get LB g - get (R.scSizeGroup s') g))
      = isum (Z.to_nat K)
        (fun g => Z.max 0 (get LB g - get (R.scSizeGroup s) g)) - 1).
    { rewrite (isum_change (Z.to_nat K)
        (fun g => Z.max 0 (get LB g - get (R.scSizeGroup s) g))
        (fun g => Z.max 0 (get LB g - get (R.scSizeGroup s') g)) pickG).
      - simpl. rewrite Hsz. rewrite (get_upd_eq _ K) by done. lia.
      - lia.
      - intros g Hgr Hne. simpl. rewrite Hsz.
        rewrite get_upd_ne by lia. done. }
    split; lia.
  - destruct HI as (Hinv' & Hfl' & HU & HBg & HL & Hd & Hfr).
    exists flags, st'. split; [done|]. do 4 (split; [done|]).
    intros g Hg.
    assert (Hd0 : isum (Z.to_nat K)
      (fun g => Z.max 0 (get LB g - get (R.scSizeGroup st') g)) <= 0) by lia.
    assert (Hnn : ∀ k, 0 <= k < Z.of_nat (Z.to_nat K) →
      0 <= (fun g => Z.max 0 (get LB g - get (R.scSizeGroup st') g)) k).
    { intros k _. simpl. lia. }
    pose proof (isum_zero_terms (Z.to_nat K) _ Hnn Hd0 g ltac:(lia)) as Hz.
    simpl in Hz. lia.
Qed.

Lemma upper_scan_spec sz UBGroup :
  len sz K → flags_ok K UBGroup (fun _ => False) →
  ∃ UBGroup',
    upper_scan K UB sz UBGroup
    = Ok (isum (Z.to_nat K) (get sz), UBGroup') ∧
    flags_ok K UBGroup' (fun g => get sz g < get UB g).
Proof.
  intros Hsz [Hl Hf]. pose proof bounds_ok_K as HK.
  destruct HB as (HLB & HUB & Hbd & Hfeas). unfold upper_scan.
  match goal with |- context [for_loop 0 K ?body ?init] =>
    destruct (for_loop_inv
      (fun i '(sum, UBG) =>
         sum = isum (Z.to_nat i) (get sz) ∧ len UBG K ∧
         (∀ g, 0 <= g < K →
            if decide (g < i)
            then (get UBG g = 1 ∧ get sz g < get UB g)
                 ∨ (get UBG g = 0 ∧ ¬ get sz g < get UB g)
            else get UBG g = 0))
      0 K body init) as ([sum UBG] & E & HI)
  end.
  - done.
  - simpl. do 2 (split; [done|]). intros g Hg.
    destruct (decide (g < 0)); [lia|]. destruct (Hf g Hg) as [[_ []]|[? _]]; done.
  - intros i [sum UBG] Hi (Hs & Hl' & HU).
    rewrite (rd_ok sz K i) by done. rewrite bind_Ok.
    rewrite (rd_ok UB K i) by done. rewrite bind_Ok.
    assert (E2 : ∃ UBG',
      (if decide (get sz i < get UB i) then wr UBG i 1 else Ok UBG) = Ok UBG' ∧
      len UBG' K ∧
      ∀ g, 0 <= g < K →
        if decide (g < i + 1)
        then (get UBG' g = 1 ∧ get sz g < get UB g)
             ∨ (get UBG' g = 0 ∧ ¬ get sz g < get UB g)
        else get UBG' g = 0).
    { destruct (decide (get sz i < get UB i)) as [Hlt|Hge].
      - rewrite (wr_ok UBG K) by done. eexists. split; [done|].
        split; [by apply len_upd|]. intros g Hg. specialize (HU g Hg).
        rewrite (get_upd _ K) by (done || lia).
        destruct (decide (i = g)) as [<-|Hne].
        + destruct (decide (i < i + 1)); [|lia]. left. done.
        + destruct (decide (g < i)), (decide (g < i + 1)); try lia; done.
      - eexists. split; [done|].
        split; [done|]. intros g Hg. specialize (HU g Hg).
        destruct (decide (g < i)), (decide (g < i + 1)); try lia; try done.
        assert (g = i) as -> by lia. right. done. }
    destruct E2 as (UBG' & -> & Hl'' & HU'). rewrite bind_Ok.
    eexists. split; [done|]. simpl. rewrite isum_step by lia. subst sum.
    done.
  - destruct HI as (Hs & Hl' & HU). exists UBG. split; [by rewrite E, Hs|].
    split; [done|]. intros g Hg. specialize (HU g Hg).
    destruct (decide (g < K)); [done|lia].
Qed.

(** The remaining free elements go to groups below their upper bound;
    the child that results is complete and within the bounds. *)
Lemma upper_fill_spec flags st :
  repair_inv N K UB st →
  flags_ok K flags (fun g => get (R.scSizeGroup st) g < get UB g) →
  (∀ g, 0 <= g < K → get LB g <= get (R.scSizeGroup st) g) →
  ∃ flags' st',
    for_loop (isum (Z.to_nat K) (get (R.scSizeGroup st))) N
      (fun _ '(flags, st) => fill_step N K rnd flags UB st) (flags, st)
    = Ok (flags', st') ∧
    child_ok N K LB UB (R.sc st') (R.scSizeGroup st').
Proof.
  intros Hinv Hfl Hlow. pose proof bounds_ok_K as HK.
  pose proof HB as (HLB & HUB & Hbd & Hfeas).
  assert (Hle : isum (Z.to_nat K) (get (R.scSizeGroup st)) <= N).
  { destruct Hinv as (_ & (_ & _ & Htot) & _).
    pose proof (tally_bounds is_free N (R.sc st) HN). lia. }
  destruct (for_loop_inv
    (fun c '(flags, st') =>
       repair_inv N K UB st' ∧
       flags_ok K flags (fun g => get (R.scSizeGroup st') g < get UB g) ∧
       (∀ g, 0 <= g < K → get LB g <= get (R.scSizeGroup st') g) ∧
       c = isum (Z.to_nat K) (get (R.scSizeGroup st')))
    (isum (Z.to_nat K) (get (R.scSizeGroup st))) N
    (fun _ '(flags, st) => fill_step N K rnd flags UB st)
    (flags, st)) as ([flags' st'] & E & HI).
  - done.
  - done.
  - intros c [fl s] Hcr (Hinv' & Hfl' & Hlow' & Hc).
    assert (Hex : ∃ g, 0 <= g < K ∧ get (R.scSizeGroup s) g < get UB g).
    { destruct (isum_lt_exists (Z.to_nat K) (get (R.scSizeGroup s)) (get UB))
        as (g & Hg & Hlt); [lia|]. exists g. split; [lia|done]. }
    assert (Hfree : 0 < tally is_free N (R.sc s)).
    { destruct Hinv' as (_ & (_ & _ & Htot) & _). lia. }
    destruct (fill_step_spec N K UB rnd HN Hrnd fl UB s Hinv' HUB
      ltac:(intros; lia) Hfl' Hex Hfree)
      as (fl' & s' & pickG & Es & Hinv'' & Hfl'' & Hg & Hlt & Hsz & _).
    exists (fl', s'). split; [done|]. split; [done|]. split; [done|].
    destruct Hinv' as (_ & (Hlsz & _ & _) & _). split.
    + intros g Hgr. rewrite Hsz. rewrite (get_upd _ K) by (done || lia).
      specialize (Hlow' g Hgr).
      destruct (decide (pickG = g)) as [<-|]; [lia|done].
    + rewrite Hsz. rewrite (isum_get_upd _ K) by done. lia.
  - destruct HI as (((Hsc & Hve & Hpool) & (Hlsz & Htr & Htot) & _) & _ & Hlow' & Hc).
    exists flags', st'. split; [done|].
    assert (Hnone : ∀ j, 0 <= j < N → is_free (get (R.sc st') j) = false).
    { apply tally_zero_none. lia. }
    split; [done|]. split.
    { unfold in_groups. apply Forall_lookup. intros i x Hx.
      assert (Hi : 0 <= Z.of_nat i < N).
      { apply lookup_lt_Some in Hx. unfold len in Hsc. lia. }
      assert (x = get (R.sc st') (Z.of_nat i)) as ->.
      { unfold get. rewrite Nat2Z.id. symmetry.
        by apply list_lookup_total_correct. }
      specialize (Hnone _ Hi). unfold is_free in Hnone.
      apply bool_decide_eq_false in Hnone.
      destruct (Hpool _ Hi) as [[? _]|[? _]]; [done|done]. }
    split; [done|]. intros g Hg. destruct (Htr g Hg) as [Hs Hr]. split.
    + rewrite Hs. by apply tally_group_size.
    + specialize (Hlow' g Hg). lia.
Qed.

(** Whatever the main loop leaves, the repair completes the child. *)
Lemma Crossover_repair_spec st :
  repair_inv N K UB st →
  flags_ok K (R.LBGroup st) (fun _ => False) →
  flags_ok K (R.UBGroup st) (fun _ => False) →
  flags_ok K (R.BigThanLB st) (fun _ => False) →
  ∃ st', Crossover_repair N K LB UB rnd st = Ok st' ∧
    child_ok N K LB UB (R.sc st') (R.scSizeGroup st').
Proof.
  intros Hinv HfL HfU HfB. pose proof bounds_ok_K as HK.
  pose proof Hinv as ((Hsc & Hve & Hpool) & (Hlsz & Htr & Htot) & Hse).
  unfold Crossover_repair.
  destruct (repair_scan_spec st Hlsz HfL HfB) as (LBG & BTL & -> & HL & HBT).
  rewrite bind_Ok.
  rewrite (count_free_spec (R.vEle st)) by done. rewrite bind_Ok.
  rewrite (pool_free_count N K (R.sc st)) by done.
  cbv zeta.
  destruct (release_loop_spec
    (R.mk (R.sc st) (R.scSizeGroup st) (R.vEle st) LBG (R.UBGroup st)
       BTL (R.SelectEle st) (R.k st))
    (isum (Z.to_nat K) (fun g => Z.min (get (R.scSizeGroup st) g) (get LB g))
     + tally is_free N (R.sc st)) Hinv HBT eq_refl)
    as (st1 & -> & Hinv1 & HL1 & HU1 & Hmin & Hfree).
  rewrite bind_Ok. simpl in HL1, HU1, Hmin.
  assert (Hsame : ∀ g, 0 <= g < K →
    (get (R.scSizeGroup st) g < get LB g ↔ get (R.scSizeGroup st1) g < get LB g) ∧
    (get (R.scSizeGroup st) g < get LB g →
     get (R.scSizeGroup st1) g = get (R.scSizeGroup st) g)).
  { intros g Hg. specialize (Hmin g Hg). lia. }
  assert (HLf : flags_ok K (R.LBGroup st1)
    (fun g => get (R.scSizeGroup st1) g < get LB g)).
  { rewrite HL1. destruct HL as [Hl Hf]. split; [done|]. intros g Hg.
    destruct (Hsame g Hg) as [Hiff _].
    destruct (Hf g Hg) as [[? ?]|[? ?]]; [left|right]; (split; [done|tauto]). }
  rewrite (lower_sum_spec (R.LBGroup st1) (R.scSizeGroup st1)) by done.
  rewrite bind_Ok.
  rewrite (isum_ext (Z.to_nat K)
    (fun g => if decide (get (R.scSizeGroup st) g < get LB g)
              then get (R.scSizeGroup st) g else 0)
    (fun g => if decide (get (R.scSizeGroup st1) g < get LB g)
              then get (R.scSizeGroup st1) g else 0)).
  2:{ intros g Hg. destruct (Hsame g ltac:(lia)) as [Hiff Heq].
      repeat case_decide; try tauto. by rewrite Heq. }
  destruct (lower_fill_spec st1 Hinv1 HLf Hfree)
    as (fl2 & st2 & -> & Hinv2 & HU2 & _ & _ & Hlow).
  rewrite bind_Ok.
  cbn [R.scSizeGroup R.UBGroup].
  pose proof Hinv2 as (_ & (Hlsz2 & _ & _) & _).
  destruct (upper_scan_spec (R.scSizeGroup st2) (R.UBGroup st2) Hlsz2)
    as (UBG & -> & HUf).
  { rewrite HU2, HU1. done. }
  rewrite bind_Ok.
  destruct (upper_fill_spec UBG
    (R.mk (R.sc st2) (R.scSizeGroup st2) (R.vEle st2) fl2
       (R.UBGroup st2) (R.BigThanLB st2) (R.SelectEle st2) (R.k st2)))
    as (fl3 & st3 & E3 & Hchild); try done.
  cbn [R.scSizeGroup] in E3. rewrite E3.
  rewrite bind_Ok. eexists. split; [done|]. done.
Qed.

End RepairPasses.


(** * The passes of one round of the recombination *)

Lemma tally_upd_within test n m a i x :
  len a m → 0 <= i < n → n <= m →
  tally test n (upd a i x) =
    tally test n a + (if test x then 1 else 0) - (if test (get a i) then 1 else 0).
Proof.
  intros Hl Hi Hn. unfold tally.
  rewrite (isum_change _ (fun k => if test (get a k) then 1 else 0) _ i) by
    (try lia; intros k Hk Hne; rewrite get_upd_ne by lia; done).
  simpl. rewrite (get_upd_eq _ m) by (done || lia). lia.
Qed.

Section RoundPasses.
Context (N K : Z).
Hypothesis HN : 0 <= N.
Hypothesis HK : 0 <= K.

(** The group chosen is a group of the instance, unless no sum exceeds
    the initial [gDivMax] and [g] keeps the value it had. *)
Lemma most_cohesive_spec gDiv g :
  len gDiv K →
  ∃ g', most_cohesive K gDiv g = Ok g' ∧ (g' = g ∨ 0 <= g' < K).
Proof.
  intros Hl. unfold most_cohesive.
  match goal with |- context [for_loop 0 K ?body ?init] =>
    destruct (for_loop_inv
      (fun (j : Z) '(gDivMax, g') => (g' = g ∨ 0 <= g' < K) ∧ (gDivMax : Z) = gDivMax)
      0 K body init) as ([gm g'] & -> & Hg & _)
  end.
  - done.
  - split; [by left|done].
  - intros j [gm g'] Hj [Hg _]. rewrite (rd_ok gDiv K j) by done. rewrite bind_Ok.
    destruct (decide _).
    + eexists; split; [done|]. split; [right; lia|done].
    + eexists; split; [done|]. done.
  - rewrite bind_Ok. by exists g'.
Qed.

Lemma fitting_groups_spec ub L SelGroup :
  len ub K → len SelGroup K →
  ∃ SelGroup' lengthSG,
    fitting_groups K ub L SelGroup = Ok (SelGroup', lengthSG) ∧
    len SelGroup' K ∧ 0 <= lengthSG <= K ∧
    (∀ i, 0 <= i < lengthSG →
       0 <= get SelGroup' i < K ∧
       get ub (get SelGroup' i) ≠ -1 ∧ get ub (get SelGroup' i) >= L) ∧
    (lengthSG = 0 → ∀ j, 0 <= j < K → ¬ (get ub j ≠ -1 ∧ get ub j >= L)).
Proof.
  intros Hu Hs. unfold fitting_groups.
  match goal with |- context [for_loop 0 K ?body ?init] =>
    destruct (for_loop_inv
      (fun j '(SG, LG) =>
         len SG K ∧ 0 <= LG <= j ∧
         (∀ i, 0 <= i < LG →
            0 <= get SG i < K ∧ get ub (get SG i) ≠ -1 ∧ get ub (get SG i) >= L) ∧
         (LG = 0 → ∀ j', 0 <= j' < j → ¬ (get ub j' ≠ -1 ∧ get ub j' >= L)))
      0 K body init) as ([SG LG] & -> & Hl & Hb & Hin & Hnone)
  end.
  - done.
  - split; [done|]. split; [lia|]. split; intros; lia.
  - intros j [SG LG] Hj (Hl & Hb & Hin & Hnone).
    rewrite (rd_ok ub K j) by done. rewrite bind_Ok.
    destruct (decide (get ub j ≠ -1 ∧ get ub j >= L)) as [Hy|Hn].
    + rewrite (wr_ok SG K) by (done || lia). rewrite bind_Ok.
      eexists; split; [done|]. split; [by apply len_upd|]. split; [lia|].
      split; [|intros; lia].
      intros i Hi. rewrite (get_upd _ K) by (done || lia).
      destruct (decide (LG = i)) as [->|Hne].
      * split; [lia|done].
      * apply Hin. lia.
    + eexists; split; [done|]. split; [done|]. split; [lia|].
      split; [done|]. intros HL j' Hj'.
      destruct (decide (j' = j)) as [->|]; [done|]. apply Hnone; [done|lia].
  - exists SG, LG. done.
Qed.

(** With an open group left, and lengths below the initial value of [num],
    the pass chooses an open group. *)
Lemma least_shortfall_spec ub L pickG :
  len ub K →
  (∃ j, 0 <= j < K ∧ get ub j ≠ -1) →
  (∀ j, 0 <= j < K → get ub j ≠ -1 → L - get ub j < 999999) →
  ∃ num pickG',
    least_shortfall K ub L pickG = Ok (num, pickG') ∧
    0 <= pickG' < K ∧ get ub pickG' ≠ -1 ∧ num = L - get ub pickG'.
Proof.
  intros Hu (j0 & Hj0 & Hopen) Hsmall. unfold least_shortfall.
  match goal with |- context [for_loop 0 K ?body ?init] =>
    destruct (for_loop_inv
      (fun j '(num, pickG') =>
         (num = 999999 ∧ ∀ j', 0 <= j' < j → get ub j' = -1) ∨
         (0 <= pickG' < K ∧ get ub pickG' ≠ -1 ∧ num = L - get ub pickG'))
      0 K body init) as ([num pickG'] & -> & HI)
  end.
  - done.
  - left. split; [done|]. intros; lia.
  - intros j [num pg] Hj HI.
    rewrite (rd_ok ub K j) by done. rewrite bind_Ok.
    destruct (decide (get ub j ≠ -1 ∧ L - get ub j < num)) as [[Hy1 Hy2]|Hn].
    + eexists; split; [done|]. right. split; [lia|]. done.
    + eexists; split; [done|]. destruct HI as [[-> Hall]|HI]; [|by right].
      left. split; [done|]. intros j' Hj'.
      destruct (decide (j' = j)) as [->|]; [|apply Hall; lia].
      destruct (decide (get ub j = -1)) as [|Hne]; [done|].
      specialize (Hsmall j Hj Hne). exfalso. apply Hn. split; [done|lia].
  - destruct HI as [[_ Hall]|HI].
    + specialize (Hall j0 Hj0). done.
    + exists num, pickG'. done.
Qed.

Lemma assigned_refl sc vEle T pickG :
  pool_ok N K sc vEle → len T N → assigned N K sc vEle sc vEle T 0 pickG.
Proof.
  intros Hp Ht. split; [done|]. split.
  { intros g _. destruct (decide (g = pickG)); lia. }
  split; [lia|]. split; [done|]. split; [intros; lia|]. split; [intros; lia|].
  intros x _. by left.
Qed.

(** One more free element [e], not listed yet, receives the group. *)
Lemma assigned_step sc vEle sc' vEle' T c pickG e :
  assigned N K sc vEle sc' vEle' T c pickG →
  0 <= c < N → 0 <= pickG < K → 0 <= e < N → get sc e = -1 →
  (∀ i, 0 <= i < c → get T i ≠ e) →
  assigned N K sc vEle (upd sc' e pickG) (upd vEle' e (-1)) (upd T c e)
    (c + 1) pickG.
Proof.
  intros ((Hsc & Hve & Hpool) & Htal & Hfree & HT & Hin & Hdis & Hch)
    Hc Hg He Hfe Hnew.
  assert (Hcur : get sc' e = -1).
  { destruct (Hch e He) as [->|[_ (i & Hi & Hie)]]; [done|].
    by destruct (Hnew i Hi). }
  split; [|split; [|split; [|split; [|split; [|split]]]]].
  - split; [by apply len_upd|]. split; [by apply len_upd|].
    intros j Hj. rewrite !(get_upd _ N) by (done || lia).
    destruct (decide (e = j)) as [<-|Hne]; [right; done|]. by apply Hpool.
  - intros g Hgr. rewrite tally_group_upd by done. rewrite Hcur.
    rewrite Htal by done.
    destruct (decide (-1 = g)); [lia|].
    destruct (decide (pickG = g)) as [<-|Hne].
    + destruct (decide (pickG = pickG)); [lia|done].
    + destruct (decide (g = pickG)); [congruence|lia].
  - change is_free with (is_group (-1)). rewrite tally_group_upd by done.
    rewrite Hcur. change (is_group (-1)) with is_free. rewrite Hfree.
    destruct (decide (-1 = -1)); [|done].
    destruct (decide (pickG = -1)); lia.
  - by apply len_upd.
  - intros i Hi. rewrite (get_upd T N) by (done || lia).
    destruct (decide (c = i)) as [<-|Hne].
    + split; [done|]. split; [done|]. by rewrite (get_upd_eq _ N).
    + destruct (Hin i ltac:(lia)) as (Hr & Hf & Hs). split; [done|].
      split; [done|]. rewrite (get_upd _ N) by (done || lia).
      destruct (decide (e = get T i)); done.
  - intros i i' Hi Hi'. rewrite !(get_upd T N) by (done || lia).
    destruct (decide (c = i)); [lia|].
    destruct (decide (c = i')) as [<-|Hne].
    + apply Hnew. lia.
    + apply Hdis; lia.
  - intros x Hx. rewrite (get_upd sc' N) by (done || lia).
    destruct (decide (e = x)) as [<-|Hne].
    + right. split; [done|]. exists c. split; [lia|]. by rewrite (get_upd_eq _ N).
    + destruct (Hch x Hx) as [Hl|[Hr (i & Hi & Hie)]]; [by left|].
      right. split; [done|]. exists i. split; [lia|].
      rewrite get_upd_ne by lia. done.
Qed.

(** Every collected element receives the group. *)
Lemma assign_all_spec pickG L SE sc vEle SET :
  pool_ok N K sc vEle → len SE N → len SET N → 0 <= L <= N →
  0 <= pickG < K →
  (∀ i, 0 <= i < L → 0 <= get SE i < N ∧ get sc (get SE i) = -1) →
  (∀ i i', 0 <= i < L → 0 <= i' < L → i ≠ i' → get SE i ≠ get SE i') →
  ∃ sc' vEle' SET',
    assign_all pickG L SE (sc, vEle, SET) = Ok (sc', vEle', SET') ∧
    assigned N K sc vEle sc' vEle' SET' L pickG.
Proof.
  intros Hp HSE HSET HL Hg Hin Hdis. unfold assign_all.
  match goal with |- context [for_loop 0 L ?body ?init] =>
    destruct (for_loop_inv
      (fun j '(sc', vEle', SET') =>
         assigned N K sc vEle sc' vEle' SET' j pickG ∧
         ∀ i, 0 <= i < j → get SET' i = get SE i)
      0 L body init) as ([[sc' vEle'] SET'] & -> & HA & _)
  end.
  - lia.
  - split; [by apply assigned_refl|]. intros; lia.
  - intros j [[sc1 vEle1] SET1] Hj [HA Heq].
    pose proof HA as ((Hsc & Hve & _) & _ & _ & HT & _).
    destruct (Hin j Hj) as [He Hfe].
    rewrite (rd_ok SE N j) by (done || lia). rewrite bind_Ok.
    rewrite (wr_ok sc1 N) by done. rewrite bind_Ok.
    rewrite (wr_ok vEle1 N) by done. rewrite bind_Ok.
    rewrite (wr_ok SET1 N) by (done || lia). rewrite bind_Ok.
    eexists; split; [done|]. split.
    + apply assigned_step; try done; [lia|].
      intros i Hi. rewrite Heq by done. apply Hdis; lia.
    + intros i Hi. rewrite (get_upd _ N) by (done || lia).
      destruct (decide (j = i)) as [->|]; [done|]. apply Heq. lia.
  - by exists sc', vEle', SET'.
Qed.

(** A sample of [m] of the collected elements receives the group. *)
Lemma assign_sample_spec rnd pickG L num SE sc vEle SET k :
  (∀ k, 0 <= rnd k) →
  pool_ok N K sc vEle → len SE N → len SET N → 0 <= L <= N →
  0 <= L - num <= L → 0 <= pickG < K →
  (∀ i, 0 <= i < L → 0 <= get SE i < N ∧ get sc (get SE i) = -1) →
  (∀ i i', 0 <= i < L → 0 <= i' < L → i ≠ i' → get SE i ≠ get SE i') →
  ∃ sc' vEle' SE' SET' k',
    assign_sample rnd pickG L num (sc, vEle, SE, SET, 0, k)
      = Ok (sc', vEle', SE', SET', L - num, k') ∧
    assigned N K sc vEle sc' vEle' SET' (L - num) pickG ∧ len SE' N.
Proof.
  intros Hrnd Hp HSE HSET HL Hm Hg Hin Hdis. unfold assign_sample.
  match goal with |- context [for_loop 0 _ ?body ?init] =>
    destruct (for_loop_inv
      (fun c '(sc', vEle', SE', SET', count, k') =>
         count = c ∧ (k' : nat) = k' ∧
         assigned N K sc vEle sc' vEle' SET' c pickG ∧ len SE' N ∧
         (∀ i, 0 <= i < L → get SE' i = -1 ∨ get SE' i = get SE i) ∧
         tally is_set L SE' = L - c ∧
         (∀ i, 0 <= i < c →
            ∃ i', 0 <= i' < L ∧ get SET' i = get SE i' ∧ get SE' i' = -1))
      0 (L - num) body init)
      as ([[[[[sc' vEle'] SE'] SET'] count] k'] & -> & -> & _ & HA & HSE' & _)
  end.
  - lia.
  - split; [done|]. split; [done|]. split; [by apply assigned_refl|].
    split; [done|]. split; [intros; by right|]. split.
    + rewrite tally_all; [lia|lia|]. intros i Hi. apply is_set_true.
      destruct (Hin i Hi). lia.
    + intros; lia.
  - intros c [[[[[sc1 vEle1] SE1] SET1] count] k1] Hc
      (-> & _ & HA & HSE1 & Hent & Htal & Hsrc).
    pose proof HA as ((Hsc & Hve & _) & _ & _ & HT & _).
    unfold c_mod. destruct (decide (L = 0)); [lia|]. rewrite bind_Ok.
    pose proof (Z.rem_bound_pos (rnd k1) L (Hrnd _) ltac:(lia)) as Hr.
    destruct (cyclic_search_spec SE1 N L is_set (Z.rem (rnd k1) L))
      as (pickV & -> & HpV & Hstop); [done|lia|lia| |].
    { apply tally_pos_exists. lia. }
    rewrite bind_Ok. apply is_set_true in Hstop.
    assert (HeV : get SE1 pickV = get SE pickV).
    { destruct (Hent pickV HpV); [done|done]. }
    destruct (Hin pickV HpV) as [He Hfe]. rewrite <- HeV in He, Hfe.
    rewrite (rd_ok SE1 N pickV) by (done || lia). rewrite bind_Ok.
    set (e := get SE1 pickV) in *.
    rewrite (wr_ok sc1 N) by done. rewrite bind_Ok.
    rewrite (wr_ok SET1 N) by (done || lia). rewrite bind_Ok.
    rewrite (wr_ok vEle1 N) by done. rewrite bind_Ok.
    rewrite (wr_ok SE1 N) by (done || lia). rewrite bind_Ok.
    eexists; split; [done|]. split; [done|]. split; [done|]. split.
    { apply assigned_step; try done; [lia|].
      intros i Hi. destruct (Hsrc i Hi) as (i' & Hi' & -> & Hgone).
      rewrite HeV. apply Hdis; [done|done|]. intros ->. done. }
    split; [by apply len_upd|]. split.
    { intros i Hi. rewrite (get_upd _ N) by (done || lia).
      destruct (decide (pickV = i)); [by left|]. by apply Hent. }
    split.
    { rewrite (tally_upd_within _ L N) by (done || lia). fold e.
      unfold is_set at 2 3.
      rewrite bool_decide_eq_false_2 by (intros Hx; by apply Hx).
      rewrite bool_decide_eq_true_2 by done. lia. }
    intros i Hi. rewrite (get_upd SET1 N) by (done || lia).
    destruct (decide (c = i)) as [<-|Hne].
    + exists pickV. split; [done|]. split; [done|].
      by rewrite (get_upd_eq _ N) by (done || lia).
    + destruct (Hsrc i ltac:(lia)) as (i' & Hi' & Hs & Hgone).
      exists i'. split; [done|]. split; [done|].
      rewrite (get_upd _ N) by (done || lia).
      destruct (decide (pickV = i')); done.
  - exists sc', vEle', SE', SET', k'. done.
Qed.

(** The listed elements leave both parents. *)
Lemma retire_spec cnt T DM1 DM2 gDiv1 gDiv2 p1 p2 :
  dims DM1 N K → dims DM2 N K → len gDiv1 K → len gDiv2 K →
  len p1 N → len p2 N → len T N → 0 <= cnt <= N →
  (∀ i, 0 <= i < cnt →
     0 <= get T i < N ∧ 0 <= get p1 (get T i) < K ∧ 0 <= get p2 (get T i) < K) →
  (∀ i i', 0 <= i < i' → i' < cnt → get T i ≠ get T i') →
  ∃ gDiv1' gDiv2' p1' p2',
    retire cnt T DM1 DM2 (gDiv1, gDiv2, p1, p2)
      = Ok (gDiv1', gDiv2', p1', p2') ∧
    len gDiv1' K ∧ len gDiv2' K ∧ len p1' N ∧ len p2' N ∧
    (∀ x, 0 <= x < N →
       (get p1' x = get p1 x ∧ get p2' x = get p2 x) ∨
       (get p1' x = -1 ∧ get p2' x = -1 ∧ ∃ i, 0 <= i < cnt ∧ get T i = x)) ∧
    (∀ i, 0 <= i < cnt → get p1' (get T i) = -1 ∧ get p2' (get T i) = -1).
Proof.
  intros HD1 HD2 Hg1 Hg2 Hp1 Hp2 HT Hcnt Hin Hdis. unfold retire.
  match goal with |- context [for_loop 0 cnt ?body ?init] =>
    destruct (for_loop_inv
      (fun j '(gd1, gd2, q1, q2) =>
         len gd1 K ∧ len gd2 K ∧ len q1 N ∧ len q2 N ∧
         (∀ x, 0 <= x < N →
            (get q1 x = get p1 x ∧ get q2 x = get p2 x) ∨
            (get q1 x = -1 ∧ get q2 x = -1 ∧ ∃ i, 0 <= i < j ∧ get T i = x)) ∧
         (∀ i, 0 <= i < j → get q1 (get T i) = -1 ∧ get q2 (get T i) = -1) ∧
         (∀ i, j <= i < cnt →
            get q1 (get T i) = get p1 (get T i) ∧
            get q2 (get T i) = get p2 (get T i)))
      0 cnt body init)
      as ([[[gd1 gd2] q1] q2] & -> & Hl1 & Hl2 & Hq1 & Hq2 & Hch & Hret & _)
  end.
  - lia.
  - do 4 (split; [done|]). split; [intros; by left|]. split; [intros; lia|done].
  - intros j [[[gd1 gd2] q1] q2] Hj (Hl1 & Hl2 & Hq1 & Hq2 & Hch & Hret & Hkeep).
    destruct (Hin j Hj) as (He & Hg1e & Hg2e).
    destruct (Hkeep j ltac:(lia)) as [Hk1 Hk2].
    rewrite (rd_ok T N j) by (done || lia). rewrite bind_Ok.
    set (e := get T j) in *.
    rewrite (rd_ok q1 N e) by done. rewrite bind_Ok. rewrite Hk1.
    rewrite (rd_ok gd1 K) by done. rewrite bind_Ok.
    rewrite (rd2_ok DM1 N K) by done. rewrite bind_Ok.
    rewrite (wr_ok gd1 K) by done. rewrite bind_Ok.
    rewrite (rd_ok q2 N e) by done. rewrite bind_Ok. rewrite Hk2.
    rewrite (rd_ok gd2 K) by done. rewrite bind_Ok.
    rewrite (rd2_ok DM2 N K) by done. rewrite bind_Ok.
    rewrite (wr_ok gd2 K) by done. rewrite bind_Ok.
    rewrite (wr_ok q1 N) by done. rewrite bind_Ok.
    rewrite (wr_ok q2 N) by done. rewrite bind_Ok.
    eexists; split; [done|].
    do 4 (split; [by apply len_upd|]). split; [|split].
    + intros x Hx. rewrite !(get_upd _ N) by (done || lia).
      destruct (decide (e = x)) as [<-|Hne].
      * right. split; [done|]. split; [done|]. exists j. split; [lia|done].
      * destruct (Hch x Hx) as [Hl|(Ha & Hb & i & Hi & Hie)]; [by left|].
        right. split; [done|]. split; [done|]. exists i. split; [lia|done].
    + intros i Hi. destruct (Hin i ltac:(lia)) as (Hei & _).
      rewrite !(get_upd _ N) by (done || lia).
      destruct (decide (e = get T i)); [done|].
      apply Hret. destruct (decide (i = j)) as [->|]; [done|lia].
    + intros i Hi. destruct (Hin i ltac:(lia)) as (Hei & _).
      rewrite !(get_upd _ N) by (done || lia).
      destruct (decide (e = get T i)) as [Heq|Hne].
      * exfalso. apply (Hdis j i); [lia|lia|done].
      * apply Hkeep. lia.
  - exists gd1, gd2, q1, q2. done.
Qed.

End RoundPasses.


(** * One round of the recombination *)

Section Round.
Context (N K : Z) (LB UB : list Z) (rnd : nat → Z) (RAND_MAX : Z).
Hypothesis HN : 0 <= N < 999999.
Hypothesis HB : bounds_ok N K LB UB.
Hypothesis Hrnd : ∀ k, 0 <= rnd k.

(** A branch gives an open group to some free elements, no more than the
    group may hold. *)
Lemma Crossover_branch_spec gDiv_px px k st :
  pool_ok N K (X.sc st) (X.vEle st) →
  open_ok K UB (X.ub st) (X.scSizeGroup st) →
  0 < tally is_set K (X.ub st) →
  len gDiv_px K → len px N →
  len (X.SelectEle st) N → len (X.SelectEleTemp st) N → len (X.SelGroup st) K →
  (∀ j, 0 <= j < N →
     (get (X.sc st) j = -1 ∧ 0 <= get px j < K) ∨
     (get (X.sc st) j ≠ -1 ∧ get px j = -1)) →
  (X.g st ≠ -1 ∨ ∀ j, 0 <= j < N → get (X.sc st) j = -1) →
  ∃ g SelGroup sc vEle SelectEle SelectEleTemp cnt pickG k',
    Crossover_branch N K rnd gDiv_px px k st
      = Ok (g, SelGroup, sc, vEle, SelectEle, SelectEleTemp, cnt, pickG, k') ∧
    (g ≠ -1 ∨ (cnt = 0 ∧ ∀ j, 0 <= j < N → get (X.sc st) j = -1)) ∧
    len SelGroup K ∧ len SelectEle N ∧
    assigned N K (X.sc st) (X.vEle st) sc vEle SelectEleTemp cnt pickG ∧
    0 <= pickG < K ∧ get (X.ub st) pickG ≠ -1 ∧
    0 <= cnt <= get (X.ub st) pickG ∧ cnt <= N.
Proof.
  intros Hpool [Hub Hopen] Hleft Hgd Hpx HSE HSET HSG Hown Hg.
  assert (HK : 0 <= K) by (unfold len in Hub; lia).
  assert (HN0 : 0 <= N) by lia.
  pose proof HB as (HLB & HUB & Hbd & Hfeas).
  unfold Crossover_branch.
  destruct (most_cohesive_spec K HK gDiv_px (X.g st) Hgd) as (g & -> & Hg').
  rewrite bind_Ok.
  destruct (collect_spec N (is_group g) px (X.SelectEle st) HN0 Hpx HSE)
    as (SE & L & -> & HSE' & _ & HL & Hin & Hinc).
  rewrite bind_Ok.
  assert (Hfree : ∀ i, 0 <= i < L →
    0 <= get SE i < N ∧ get (X.sc st) (get SE i) = -1).
  { intros i Hi. destruct (Hin i Hi) as [He Hpe]. split; [done|].
    apply is_group_true in Hpe.
    destruct (Hown _ He) as [[? _]|[Hne Hm]]; [done|].
    exfalso. destruct Hg as [Hg|Hall]; [|by apply Hne, Hall].
    destruct Hg' as [->|Hr]; [congruence|lia]. }
  assert (Hdis : ∀ i i', 0 <= i < L → 0 <= i' < L → i ≠ i' →
    get SE i ≠ get SE i').
  { intros i i' Hi Hi' Hne.
    destruct (decide (i < i')).
    - pose proof (Hinc i i' ltac:(lia) ltac:(lia)). lia.
    - pose proof (Hinc i' i ltac:(lia) ltac:(lia)). lia. }
  assert (Hgcase : g ≠ -1 ∨ (L = 0 ∧ ∀ j, 0 <= j < N → get (X.sc st) j = -1)).
  { destruct (decide (g = -1)) as [->|]; [|by left]. right.
    assert (Hall : ∀ j, 0 <= j < N → get (X.sc st) j = -1).
    { destruct Hg as [Hg|Hall]; [|done].
      destruct Hg' as [E|Hr]; [congruence|lia]. }
    split; [|done]. destruct (decide (L = 0)) as [|Hne]; [done|exfalso].
    destruct (Hin 0 ltac:(lia)) as [He Hpe]. apply is_group_true in Hpe.
    destruct (Hown _ He) as [[_ ?]|[Hne' _]]; [lia|]. by apply Hne', Hall. }
  destruct (fitting_groups_spec K HK (X.ub st) L (X.SelGroup st) Hub HSG)
    as (SG & LG & -> & HSG' & HLG & HSGin & Hnone).
  rewrite bind_Ok.
  assert (Hubnn : ∀ j, 0 <= j < K → get (X.ub st) j ≠ -1 →
    get (X.ub st) j = get UB j ∧ 0 <= get (X.ub st) j).
  { intros j Hj Hne. destruct (Hopen j Hj) as [|[E _]]; [done|].
    specialize (Hbd j Hj). lia. }
  destruct (decide (LG = 0)) as [HLG0|HLGn].
  - destruct (least_shortfall_spec K HK (X.ub st) L (X.pickG st) Hub)
      as (num & pickG & -> & HpG & HopenG & Hnum).
    { destruct (tally_pos_exists is_set K (X.ub st) Hleft) as (j & Hj & Hs).
      exists j. split; [done|]. by apply is_set_true. }
    { intros j Hj Hne. destruct (Hubnn j Hj Hne). lia. }
    rewrite bind_Ok.
    destruct (Hubnn pickG HpG HopenG) as [_ Hnn].
    assert (Hlt : get (X.ub st) pickG < L).
    { specialize (Hnone HLG0 pickG HpG).
      destruct (decide (get (X.ub st) pickG < L)); [done|].
      exfalso. apply Hnone. split; [done|lia]. }
    destruct (assign_sample_spec N K rnd pickG L num SE (X.sc st)
      (X.vEle st) (X.SelectEleTemp st) k Hrnd Hpool HSE' HSET HL)
      as (sc' & vEle' & SE' & SET' & k' & -> & HA & HSE''); [lia|done|done|done|].
    rewrite bind_Ok.
    exists g, SG, sc', vEle', SE', SET', (L - num), pickG, k'.
    split; [done|]. split; [destruct Hgcase as [?|[? ?]]; [by left|lia]|].
    split; [done|]. split; [done|]. split; [done|]. split; [done|].
    split; [done|]. lia.
  - unfold c_mod. destruct (decide (LG = 0)); [done|]. rewrite bind_Ok.
    pose proof (Z.rem_bound_pos (rnd k) LG (Hrnd _) ltac:(lia)) as Hr.
    destruct (HSGin _ Hr) as (HpG & HopenG & Hfit).
    rewrite (rd_ok SG K) by (done || lia). rewrite bind_Ok.
    set (pickG := get SG (Z.rem (rnd k) LG)) in *.
    destruct (assign_all_spec N K pickG L SE (X.sc st) (X.vEle st)
      (X.SelectEleTemp st) Hpool HSE' HSET HL HpG Hfree Hdis)
      as (sc' & vEle' & SET' & -> & HA).
    rewrite bind_Ok.
    exists g, SG, sc', vEle', SE, SET', L, pickG, (S k).
    split; [done|]. split; [done|].
    split; [done|]. split; [done|]. split; [done|]. split; [done|].
    split; [done|]. lia.
Qed.

(** A round keeps the invariant of the main loop. *)
Lemma Crossover_round_spec DM1 DM2 partition1 partition2 t st :
  dims DM1 N K → dims DM2 N K →
  len partition1 N → in_groups K partition1 →
  len partition2 N → in_groups K partition2 →
  0 <= t < K → round_inv N K UB partition1 partition2 t st →
  ∃ st', Crossover_round N K rnd RAND_MAX DM1 DM2 st = Ok st' ∧
         round_inv N K UB partition1 partition2 (t + 1) st'.
Proof.
  intros HD1 HD2 Hl1 Hi1 Hl2 Hi2 Ht
    (Hpool & Hsizes & Hpar & Hopen & Hleft & Hg1 & Hg2 & HSE & HSET & HSG & Hg).
  pose proof HB as (HLB & HUB & Hbd & Hfeas).
  pose proof Hpar as (Hp1 & Hp2 & Hown).
  pose proof Hsizes as (Hlsz & Htr & Htot).
  pose proof Hopen as (Hlub & Hop).
  assert (Hbr : ∃ g SelGroup sc vEle SelectEle SelectEleTemp cnt pickG k',
    (if coin RAND_MAX (rnd (X.k st)) then
       Crossover_branch N K rnd (X.gDiv_p1 st) (X.p1 st) (S (X.k st)) st
     else
       Crossover_branch N K rnd (X.gDiv_p2 st) (X.p2 st) (S (X.k st)) st)
      = Ok (g, SelGroup, sc, vEle, SelectEle, SelectEleTemp, cnt, pickG, k') ∧
    (g ≠ -1 ∨ (cnt = 0 ∧ ∀ j, 0 <= j < N → get (X.sc st) j = -1)) ∧
    len SelGroup K ∧ len SelectEle N ∧
    assigned N K (X.sc st) (X.vEle st) sc vEle SelectEleTemp cnt pickG ∧
    0 <= pickG < K ∧ get (X.ub st) pickG ≠ -1 ∧
    0 <= cnt <= get (X.ub st) pickG ∧ cnt <= N).
  { destruct (coin RAND_MAX (rnd (X.k st)));
      apply Crossover_branch_spec; try done; try lia.
    - intros j Hj. destruct (Hown j Hj) as [(? & E & _)|(? & ? & _)];
        [left|right; done].
      split; [done|]. rewrite E. by apply (in_groups_get N).
    - intros j Hj. destruct (Hown j Hj) as [(? & _ & E)|(? & _ & ?)];
        [left|right; done].
      split; [done|]. rewrite E. by apply (in_groups_get N). }
  destruct Hbr as (g & SG & sc & vEle & SE & SET & cnt & pickG & k' & Ebr &
    Hgc & HSG' & HSE' & HA & HpG & HopenG & Hcnt & HcntN).
  unfold Crossover_round. cbv zeta. rewrite Ebr, bind_Ok.
  pose proof HA as (Hpool' & Htal & Hfree & HSET' & Hin & Hdis & Hch).
  destruct (retire_spec N K cnt SET DM1 DM2 (X.gDiv_p1 st) (X.gDiv_p2 st)
    (X.p1 st) (X.p2 st) HD1 HD2 Hg1 Hg2 Hp1 Hp2 HSET')
    as (gd1 & gd2 & q1 & q2 & -> & Hgd1 & Hgd2 & Hq1 & Hq2 & Hret & Hgone);
    [lia| |done|].
  { intros i Hi. destruct (Hin i Hi) as (He & Hfe & _). split; [done|].
    destruct (Hown _ He) as [(_ & E1 & E2)|(? & _)]; [|done].
    rewrite E1, E2. split; by apply (in_groups_get N). }
  rewrite bind_Ok.
  rewrite (wr_ok (X.ub st) K) by done. rewrite bind_Ok.
  rewrite (wr_ok (X.scSizeGroup st) K) by done. rewrite bind_Ok.
  eexists. split; [done|].
  destruct (Hop pickG HpG) as [|[EUB Ezero]]; [done|].
  unfold round_inv. cbn [X.sc X.scSizeGroup X.vEle X.ub X.p1 X.p2 X.gDiv_p1
    X.gDiv_p2 X.SelectEle X.SelectEleTemp X.SelGroup X.g X.pickG X.k].
  split; [done|]. split; [|split; [|split; [|split]]].
  - split; [by apply len_upd|]. split.
    + intros g' Hg'. rewrite (get_upd _ K) by (done || lia).
      rewrite Htal by done. destruct (Htr g' Hg') as [Es Er].
      destruct (decide (pickG = g')) as [<-|Hne].
      * destruct (decide (pickG = pickG)); [|done]. lia.
      * destruct (decide (g' = pickG)); [congruence|]. lia.
    + rewrite (isum_get_upd _ K) by done. lia.
  - split; [done|]. split; [done|]. intros x Hx.
    destruct (Hch x Hx) as [Esc|[Esc (i & Hi & Hix)]].
    + rewrite Esc. destruct (Hown x Hx) as [(E0 & E1 & E2)|(E0 & E1 & E2)].
      * left. split; [done|].
        destruct (Hret x Hx) as [[-> ->]|(_ & _ & i & Hi & Hix)]; [done|].
        exfalso. destruct (Hin i Hi) as (_ & _ & Hnew). rewrite Hix in Hnew.
        lia.
      * right. split; [done|].
        destruct (Hret x Hx) as [[-> ->]|(? & ? & _)]; done.
    + right. split; [lia|]. subst x. by apply Hgone.
  - split; [by apply len_upd|]. intros g' Hg'.
    rewrite !(get_upd _ K) by (done || lia).
    destruct (decide (pickG = g')); [by left|]. by apply Hop.
  - rewrite (tally_upd _ K) by done. unfold is_set at 2 3.
    rewrite bool_decide_eq_false_2 by (intros Hx; by apply Hx).
    rewrite bool_decide_eq_true_2 by done. lia.
  - do 5 (split; [done|]).
    destruct Hgc as [?|[-> Hall]]; [by left|]. right. intros j Hj.
    destruct (Hch j Hj) as [->|[_ (i & Hi & _)]]; [by apply Hall|lia].
Qed.

End Round.


(** * The recombination as a whole *)

Lemma list_get_ext {A} `{Inhabited A} (a b : list A) n :
  len a n → len b n → (∀ j, 0 <= j < n → get a j = get b j) → a = b.
Proof.
  intros Ha Hb Hg. apply list_eq_same_length with (Z.to_nat n).
  - unfold len in *. lia.
  - unfold len in *. lia.
  - intros i x y Hi Hx Hy.
    specialize (Hg (Z.of_nat i) ltac:(lia)). unfold get in Hg.
    rewrite Nat2Z.id in Hg.
    apply list_lookup_total_correct in Hx, Hy. congruence.
Qed.

Section Prologue.
Context (N K : Z) (D : list (list Qc)).
Hypothesis HN : 0 <= N.
Hypothesis HK : 0 <= K.
Hypothesis HD : dims D N N.

Lemma Build_GroupDiv_For_Crossover_spec P gDiv :
  len P N → in_groups K P → len gDiv K →
  ∃ gDiv', Build_GroupDiv_For_Crossover N K D P gDiv = Ok gDiv' ∧ len gDiv' K.
Proof.
  intros HP Hin Hg. unfold Build_GroupDiv_For_Crossover.
  destruct (for_loop_inv (fun (_ : Z) gd => len (gd : list Qc) K) 0 K
    (fun i gDiv => wr gDiv i 0%Qc) gDiv) as (gd0 & -> & Hg0); [done|done| |].
  { intros i gd Hi Hl. rewrite (wr_ok gd K) by done.
    eexists; split; [done|]. by apply len_upd. }
  rewrite bind_Ok.
  apply (for_loop2_inv (fun _ _ gd => len (gd : list Qc) K) N (fun _ => 0) N
    (fun i j gDiv =>
       pi ← rd P i;
       pj ← rd P j;
       if decide (pi = pj) then
         x ← rd gDiv pi;
         d ← rd2 D i j;
         wr gDiv pi (x + d)%Qc
       else Ok gDiv)); [done|done|done| |done].
  intros i j gd Hi Hj Hl.
  rewrite (rd_ok P N i) by done. rewrite bind_Ok.
  rewrite (rd_ok P N j) by done. rewrite bind_Ok.
  pose proof (in_groups_get N K P i HP Hin Hi) as Hpi.
  destruct (decide (get P i = get P j)).
  - rewrite (rd_ok gd K) by done. rewrite bind_Ok.
    rewrite (rd2_ok D N N) by done. rewrite bind_Ok.
    rewrite (wr_ok gd K) by done. eexists; split; [done|]. by apply len_upd.
  - eexists; split; [done|]. done.
Qed.

(** The prologue copies the parent and leaves every array with its size. *)
Lemma Crossover_load_spec partition s gDiv px DMx gDivx :
  allocated N K s → len partition N → in_groups K partition →
  len gDiv K → len px N → dims DMx N K → len gDivx K →
  ∃ s' gDiv' DMx',
    Crossover_load N K D partition s gDiv px DMx gDivx
      = Ok (s', gDiv', partition, DMx', gDiv') ∧
    allocated N K s' ∧ len gDiv' K ∧ dims DMx' N K.
Proof.
  intros (Hp & Hdm & Hdl) Hl Hin Hg Hpx HDMx Hgx. unfold Crossover_load.
  match goal with |- context [for_loop 0 N ?body (G.p s, px)] =>
    destruct (for_loop_inv
      (fun i '(p', px') =>
         len (p' : list Z) N ∧ len (px' : list Z) N ∧
         ∀ j, 0 <= j < i →
           get p' j = get partition j ∧ get px' j = get partition j)
      0 N body (G.p s, px)) as ([p' px'] & -> & Hp' & Hpx' & Hcopy)
  end.
  - done.
  - split; [done|]. split; [done|]. intros; lia.
  - intros i [p1 px1] Hi (Hp1 & Hpx1 & Hc).
    rewrite (rd_ok partition N i) by done. rewrite bind_Ok.
    rewrite (wr_ok p1 N) by done. rewrite bind_Ok.
    rewrite (wr_ok px1 N) by done. rewrite bind_Ok.
    eexists; split; [done|]. split; [by apply len_upd|].
    split; [by apply len_upd|]. intros j Hj.
    rewrite !(get_upd _ N) by (done || lia).
    destruct (decide (i = j)) as [->|]; [done|]. apply Hc. lia.
  - rewrite bind_Ok.
    assert (p' = partition) as ->.
    { apply (list_get_ext _ _ N); [done|done|]. intros j Hj. by apply Hcopy. }
    assert (px' = partition) as ->.
    { apply (list_get_ext _ _ N); [done|done|]. intros j Hj. by apply Hcopy. }
    destruct (Build_Delta_Matrix_ok N K D HN HK HD (G.set_p s partition))
      as (m & dl & -> & [Hm _] & Hdl'); [done|done|done|done|].
    rewrite bind_Ok. cbn [G.Delta_Matrix G.p G.set_p].
    destruct (for_loop2_inv (fun _ _ mx => dims (mx : list (list Qc)) N K)
      N (fun _ => 0) K
      (fun i j mx => x ← rd2 m i j; wr2 mx i j x) DMx)
      as (DMx' & -> & HDMx'); [done|done|done| |done|].
    { intros i j mx Hi Hj Hmx. rewrite (rd2_ok m N K) by done.
      rewrite bind_Ok. rewrite (wr2_ok mx N K) by done.
      eexists; split; [done|]. by apply dims_upd2. }
    rewrite bind_Ok.
    destruct (Build_GroupDiv_For_Crossover_spec partition gDiv Hl Hin Hg)
      as (gDiv' & -> & Hg').
    rewrite bind_Ok. rewrite (copy_into_ok K gDiv' gDivx) by done.
    rewrite bind_Ok. eexists _, gDiv', DMx'. split; [done|].
    split; [|done]. split; [done|]. split; done.
Qed.

End Prologue.

Section Whole.
Context (N K : Z) (D : list (list Qc)) (LB UB : list Z).
Context (rnd : nat → Z) (RAND_MAX : Z).
Hypothesis HN : 0 <= N < 999999.
Hypothesis HB : bounds_ok N K LB UB.
Hypothesis HD : dims D N N.
Hypothesis Hrnd : ∀ k, 0 <= rnd k.

(** On a feasible instance the recombination of two partitions returns a
    complete child within the bounds. *)
Lemma Crossover_spec w k partition1 partition2 sc scSizeGroup :
  workspace_ok N K w →
  len partition1 N → in_groups K partition1 →
  len partition2 N → in_groups K partition2 →
  len sc N → len scSizeGroup K →
  ∃ sc' scSizeGroup' k',
    Crossover N K D LB UB rnd RAND_MAX w k partition1 partition2 sc scSizeGroup
      = Ok (sc', scSizeGroup', k') ∧
    child_ok N K LB UB sc' scSizeGroup'.
Proof.
  intros (Hal & HgD & Hg1 & Hg2 & HD1 & HD2 & Hp1 & Hp2 & HvE & HgE & HLG & HUG
    & HBT & Hub & HSE & HSET & HSG) Hl1 Hi1 Hl2 Hi2 Hsc Hsz.
  assert (HN0 : 0 <= N) by lia.
  pose proof (bounds_ok_K N K LB UB HB) as HK.
  pose proof HB as (HLB & HUB & Hbd & Hfeas).
  unfold Crossover.
  destruct (Crossover_load_spec N K D HN0 HK HD partition1 (w_globals w)
    (w_gDiv w) (w_p1 w) (w_Delta_Matrix_p1 w) (w_gDiv_p1 w))
    as (s1 & gDiv1 & DM1 & -> & Hal1 & HgD1 & HDM1); try done.
  rewrite bind_Ok.
  destruct (Crossover_load_spec N K D HN0 HK HD partition2 s1
    gDiv1 (w_p2 w) (w_Delta_Matrix_p2 w) (w_gDiv_p2 w))
    as (s2 & gDiv2 & DM2 & -> & Hal2 & HgD2 & HDM2); try done.
  rewrite bind_Ok.
  match goal with |- context [for_loop 0 N ?body (w_vEle w, sc)] =>
    destruct (for_loop_inv
      (fun i '(vEle', sc') =>
         len (vEle' : list Z) N ∧ len (sc' : list Z) N ∧
         ∀ j, 0 <= j < i → get vEle' j = j ∧ get sc' j = -1)
      0 N body (w_vEle w, sc)) as ([vEle0 sc0] & -> & HvE0 & Hsc0 & Hinit)
  end.
  { done. }
  { split; [done|]. split; [done|]. intros; lia. }
  { intros i [v1 c1] Hi (Hv1 & Hc1 & Hc).
    rewrite (wr_ok v1 N) by done. rewrite bind_Ok.
    rewrite (wr_ok c1 N) by done. rewrite bind_Ok.
    eexists; split; [done|]. split; [by apply len_upd|].
    split; [by apply len_upd|]. intros j Hj.
    rewrite !(get_upd _ N) by (done || lia).
    destruct (decide (i = j)) as [->|]; [done|]. apply Hc. lia. }
  rewrite bind_Ok.
  match goal with |- context [for_loop 0 K ?body
      (w_LBGroup w, w_UBGroup w, w_BigThanLB w, w_gEle w, w_ub w, scSizeGroup)] =>
    destruct (for_loop_inv
      (fun i '(LBG, UBG, BTL, gEle, ub, sz) =>
         len (LBG : list Z) K ∧ len (UBG : list Z) K ∧ len (BTL : list Z) K ∧
         len (gEle : list Z) K ∧ len (ub : list Z) K ∧ len (sz : list Z) K ∧
         ∀ g, 0 <= g < i →
           get LBG g = 0 ∧ get UBG g = 0 ∧ get BTL g = 0 ∧
           get ub g = get UB g ∧ get sz g = 0)
      0 K body
      (w_LBGroup w, w_UBGroup w, w_BigThanLB w, w_gEle w, w_ub w, scSizeGroup))
      as ([[[[[LBG UBG] BTL] gEle] ub0] sz0] & -> & HLG0 & HUG0 & HBT0 & _ &
          Hub0 & Hsz0 & Hflags)
  end.
  { done. }
  { do 6 (split; [done|]). intros; lia. }
  { intros i [[[[[a1 a2] a3] a4] a5] a6] Hi (H1 & H2 & H3 & H4 & H5 & H6 & Hc).
    rewrite (wr_ok a1 K) by done. rewrite bind_Ok.
    rewrite (wr_ok a2 K) by done. rewrite bind_Ok.
    rewrite (wr_ok a3 K) by done. rewrite bind_Ok.
    rewrite (wr_ok a4 K) by done. rewrite bind_Ok.
    rewrite (rd_ok UB K) by done. rewrite bind_Ok.
    rewrite (wr_ok a5 K) by done. rewrite bind_Ok.
    rewrite (wr_ok a6 K) by done. rewrite bind_Ok.
    eexists; split; [done|]. do 6 (split; [by apply len_upd|]).
    intros g Hg. rewrite !(get_upd _ K) by (done || lia).
    destruct (decide (i = g)) as [->|]; [done|]. apply Hc. lia. }
  rewrite bind_Ok.
  destruct (for_loop_inv
    (fun t st => round_inv N K UB partition1 partition2 t st) 0 K
    (fun _ st => Crossover_round N K rnd RAND_MAX DM1 DM2 st)
    (X.mk sc0 sz0 vEle0 ub0 partition1 partition2 gDiv1 gDiv2
       (w_SelectEle w) (w_SelectEleTemp w) (w_SelGroup w)
       (w_g w) (w_pickG w) k)) as (st & -> & Hround).
  { done. }
  { unfold round_inv. cbn [X.sc X.scSizeGroup X.vEle X.ub X.p1 X.p2 X.gDiv_p1
      X.gDiv_p2 X.SelectEle X.SelectEleTemp X.SelGroup X.g X.pickG X.k].
    split; [|split; [|split; [|split; [|split]]]].
    - split; [done|]. split; [done|]. intros j Hj. left.
      destruct (Hinit j Hj). done.
    - split; [done|]. split.
      + intros g Hg. destruct (Hflags g Hg) as (_ & _ & _ & _ & ->).
        split; [|specialize (Hbd g Hg); lia].
        symmetry. apply tally_none. intros j Hj.
        apply is_group_ne. destruct (Hinit j Hj) as [_ ->]. lia.
      + rewrite (isum_ext _ _ (fun _ => 0)).
        2:{ intros g Hg. by apply Hflags; lia. }
        rewrite isum_const. rewrite tally_all; [lia|lia|].
        intros j Hj. unfold is_free. apply bool_decide_eq_true_2.
        by apply Hinit.
    - split; [done|]. split; [done|]. intros j Hj. left.
      split; [by apply Hinit|done].
    - split; [done|]. intros g Hg. right.
      destruct (Hflags g Hg) as (_ & _ & _ & -> & ->). done.
    - rewrite tally_all; [lia|lia|]. intros g Hg. apply is_set_true.
      destruct (Hflags g Hg) as (_ & _ & _ & -> & _).
      specialize (Hbd g Hg). lia.
    - do 5 (split; [done|]). right. intros j Hj. by apply Hinit. }
  { intros t st Ht Hinv.
    by apply (Crossover_round_spec N K LB UB rnd RAND_MAX HN HB Hrnd DM1 DM2
      partition1 partition2 t st). }
  rewrite bind_Ok.
  destruct Hround as (Hpool & Hsizes & _ & _ & _ & _ & _ & HSE' & _).
  destruct (Crossover_repair_spec N K LB UB rnd HN0 HB Hrnd
    (R.mk (X.sc st) (X.scSizeGroup st) (X.vEle st) LBG UBG BTL
       (X.SelectEle st) (X.k st))) as (r & -> & Hchild).
  - split; [done|]. split; done.
  - split; [done|]. intros g Hg. right. split; [by apply Hflags|tauto].
  - split; [done|]. intros g Hg. right. split; [by apply Hflags|tauto].
  - split; [done|]. intros g Hg. right. split; [by apply Hflags|tauto].
  - rewrite bind_Ok. by eexists _, _, _.
Qed.

End Whole.


(** * Feasible parents *)

Lemma isum_indicator n x :
  0 <= x < Z.of_nat n →
  isum n (fun g => if decide (x = g) then 1 else 0) = 1.
Proof.
  intros Hx.
  rewrite (isum_change n (fun _ => 0) _ x); [|done|].
  - rewrite isum_const. destruct (decide (x = x)); [lia|done].
  - intros k _ Hne. destruct (decide (x = k)); [congruence|done].
Qed.

(** The sizes of the groups of a partition add up to its length. *)
Lemma group_sizes_total K P :
  0 <= K → in_groups K P →
  isum (Z.to_nat K) (group_size P) = Z.of_nat (length P).
Proof.
  intros HK. induction P as [|x P IH]; intros Hin.
  - rewrite (isum_ext _ _ (fun _ => 0)) by done. rewrite isum_const. simpl. lia.
  - apply Forall_cons in Hin as [Hx Hin].
    rewrite (isum_ext _ _
      (fun g => (if decide (x = g) then 1 else 0) + group_size P g)).
    + rewrite isum_plus, IH by done. rewrite isum_indicator by lia.
      simpl length. lia.
    + intros g _. unfold group_size. rewrite filter_cons.
      destruct (decide (x = g)); simpl length; lia.
Qed.

(** An instance with a feasible partition is feasible. *)
Lemma feasible_partition_bounds N K LB UB P :
  len LB K → len UB K → (∀ g, 0 <= g < K → 0 <= get LB g) →
  feasible_partition N K LB UB P → bounds_ok N K LB UB.
Proof.
  intros HLB HUB Hnn (Hl & Hin & Hsz).
  assert (HK : 0 <= K) by (unfold len in HLB; lia).
  pose proof (group_sizes_total K P HK Hin) as Htot.
  split; [done|]. split; [done|]. split.
  - intros g Hg. specialize (Hnn g Hg). specialize (Hsz g Hg). lia.
  - unfold len in Hl. split.
    + transitivity (isum (Z.to_nat K) (group_size P)); [|lia].
      apply isum_le. intros g Hg. apply Hsz. lia.
    + transitivity (isum (Z.to_nat K) (group_size P)); [lia|].
      apply isum_le. intros g Hg. apply Hsz. lia.
Qed.

(** C1.  For two parent partitions that each satisfy the group bounds,
    [Crossover] returns, and the child it writes into [sc] and
    [scSizeGroup] assigns every element to one of the [K] groups, with
    [scSizeGroup] holding the sizes of the groups of [sc] and every size
    within [LB[g], UB[g]].  The lower bounds are not negative, draws of
    [rand()] are not negative, the arrays have their allocated sizes, and
    [N] is below the value [999999] with which the routine initialises its
    search for the least shortfall. *)
Theorem Crossover_child_feasible N K D LB UB rnd RAND_MAX w k
    partition1 partition2 sc scSizeGroup :
  0 <= N < 999999 → len LB K → len UB K →
  (∀ g, 0 <= g < K → 0 <= get LB g) →
  dims D N N → (∀ k, 0 <= rnd k) → workspace_ok N K w →
  feasible_partition N K LB UB partition1 →
  feasible_partition N K LB UB partition2 →
  len sc N → len scSizeGroup K →
  ∃ sc' scSizeGroup' k',
    Crossover N K D LB UB rnd RAND_MAX w k partition1 partition2 sc scSizeGroup
      = Ok (sc', scSizeGroup', k') ∧
    child_ok N K LB UB sc' scSizeGroup'.
Proof.
  intros HN HLB HUB Hnn HD Hrnd Hw Hf1 Hf2 Hsc Hsz.
  pose proof (feasible_partition_bounds N K LB UB partition1 HLB HUB Hnn Hf1)
    as HB.
  destruct Hf1 as (Hl1 & Hi1 & _). destruct Hf2 as (Hl2 & Hi2 & _).
  by apply Crossover_spec.
Qed.

Lemma ExC_workspace_ok : workspace_ok Ex1.N Ex1.K ExC.w.
Proof.
  unfold workspace_ok, allocated, dims, len. simpl.
  repeat split; try reflexivity; repeat constructor.
Qed.

Lemma ExC_feasible_1 : feasible_partition Ex1.N Ex1.K Ex1.LB Ex1.UB ExC.partition1.
Proof.
  split; [reflexivity|]. split; [repeat constructor; by vm_compute|].
  intros g Hg. unfold Ex1.K in Hg.
  assert (g = 0 ∨ g = 1) as [->| ->] by lia; by vm_compute.
Qed.

Lemma ExC_feasible_2 : feasible_partition Ex1.N Ex1.K Ex1.LB Ex1.UB ExC.partition2.
Proof.
  split; [reflexivity|]. split; [repeat constructor; by vm_compute|].
  intros g Hg. unfold Ex1.K in Hg.
  assert (g = 0 ∨ g = 1) as [->| ->] by lia; by vm_compute.
Qed.

(** C1 at the parents [ExC] of the instance [Ex1]. *)
Lemma Crossover_child_feasible_witness :
  ∃ sc' scSizeGroup' k',
    Crossover Ex1.N Ex1.K Ex1.D Ex1.LB Ex1.UB ExC.rnd ExC.RAND_MAX ExC.w 0
      ExC.partition1 ExC.partition2 ExC.sc ExC.scSizeGroup
      = Ok (sc', scSizeGroup', k') ∧
    child_ok Ex1.N Ex1.K Ex1.LB Ex1.UB sc' scSizeGroup'.
Proof.
  apply (Crossover_child_feasible Ex1.N Ex1.K Ex1.D Ex1.LB Ex1.UB ExC.rnd
    ExC.RAND_MAX ExC.w 0%nat ExC.partition1 ExC.partition2 ExC.sc
    ExC.scSizeGroup).
  - unfold Ex1.N. lia.
  - reflexivity.
  - reflexivity.
  - intros g Hg. unfold Ex1.K in Hg.
    assert (g = 0 ∨ g = 1) as [->| ->] by lia; by vm_compute.
  - split; [reflexivity|]. repeat constructor.
  - intros k'. unfold ExC.rnd. lia.
  - exact ExC_workspace_ok.
  - exact ExC_feasible_1.
  - exact ExC_feasible_2.
  - reflexivity.
  - reflexivity.
Defined.


(** * The theorems at concrete instances *)

Ltac index_cases i H :=
  let E := fresh in
  unfold Ex1.N in H;
  assert (E : i = 0 ∨ i = 1 ∨ i = 2 ∨ i = 3) by lia;
  clear H; destruct E as [->|[->|[->| ->]]].

Lemma Ex1_dims_D : dims Ex1.D Ex1.N Ex1.N.
Proof. split; [reflexivity|]. repeat constructor. Qed.

Lemma Ex1_symmetric : symmetric Ex1.N Ex1.D.
Proof. intros i j Hi Hj. index_cases i Hi; index_cases j Hj; reflexivity. Qed.

Lemma Ex1_zero_diagonal : zero_diagonal Ex1.N Ex1.D.
Proof. intros i Hi. index_cases i Hi; reflexivity. Qed.

Lemma Ex1_is_double : is_double Ex1.N Ex1.D Ex1.DT.
Proof.
  split; [split; [reflexivity|repeat constructor]|].
  intros i j Hi Hj. index_cases i Hi; index_cases j Hj; reflexivity.
Qed.

Lemma Ex1_nonnegative : nonnegative Ex1.N Ex1.D.
Proof. intros i j Hi Hj. index_cases i Hi; index_cases j Hj; by vm_compute. Qed.

Lemma Ex1_allocated : allocated Ex1.N Ex1.K Ex1.s0.
Proof.
  split; [reflexivity|]. split; (split; [reflexivity|repeat constructor]).
Qed.

Lemma Ex1_in_groups_s0 : in_groups Ex1.K (G.p Ex1.s0).
Proof. repeat constructor; by vm_compute. Qed.

Lemma Ex1_in_groups_part : in_groups Ex1.K Ex1.part.
Proof. repeat constructor; by vm_compute. Qed.





Lemma Ex8_catalogue : catalogue_ok Ex8.N Ex8.K Ex8.Neighbors.
Proof.
  split; [reflexivity|].
  repeat constructor; simpl; intros ?; (lia || discriminate).
Qed.

Lemma Ex8_built :
  BuildNeighbors Ex8.N Ex8.K (replicate 5 (Nb.mk 0 0 0 0 0)) = Ok Ex8.Neighbors.
Proof. reflexivity. Qed.

Lemma Ex8_allocated : allocated Ex8.N Ex8.K Ex8.s0.
Proof.
  split; [reflexivity|]. split; (split; [reflexivity|repeat constructor]).
Qed.

Lemma Ex8_sizes_ok : sizes_ok Ex8.N Ex8.K Ex8.LB Ex8.UB Ex8.partition Ex8.SizeGroup.
Proof.
  split; [reflexivity|]. split; [repeat constructor; by vm_compute|].
  split; [reflexivity|]. split; [|reflexivity]. intros g Hg.
  assert (E : g = 0 ∨ g = 1) by (unfold Ex8.K in Hg; lia).
  destruct E as [->| ->]; vm_compute; repeat split; discriminate.
Qed.


(** C10 at [Ex8], with a matrix of zeros and a matrix of ones. *)
Lemma StrongPerturbation_ignores_Delta_Matrix_witness :
  sp_output (StrongPerturbation Ex8.N Ex8.K Ex8.D Ex8.LB Ex8.UB Ex8.rnd 5
               Ex8.Neighbors 0 1 (G.set_Delta_Matrix Ex8.s0 Ex8.zeros)
               Ex8.partition Ex8.SizeGroup) =
  sp_output (StrongPerturbation Ex8.N Ex8.K Ex8.D Ex8.LB Ex8.UB Ex8.rnd 5
               Ex8.Neighbors 0 1 (G.set_Delta_Matrix Ex8.s0 Ex8.ones)
               Ex8.partition Ex8.SizeGroup).
Proof.
  apply (StrongPerturbation_ignores_Delta_Matrix Ex8.N Ex8.K);
    (split; [reflexivity|repeat constructor]).
Defined.


(** * The catalogue that [BuildNeighbors] builds *)

Lemma swap_index_exists N K x y :
  0 <= x → ∃ c, 2 * c = 2 * N * K + x * (2 * N - x - 1) + 2 * (y - x - 1).
Proof.
  intros Hx. pose proof (pairs_even (x + 1) ltac:(lia)) as Hev.
  exists (N * K + x * N - Z.quot ((x + 1) * (x + 1 - 1)) 2 + (y - x - 1)). lia.
Qed.

(** X1.  [BuildNeighbors] returns without leaving the array of
    [N * (N - 1) / 2 + N * K] entries.  Entry [i * K + g] is the relocation
    of element [i] to group [g]; the entries from [N * K] on are swaps of
    two elements [x < y], and every such pair has its entry. *)
Theorem BuildNeighbors_fills_catalogue N K Neighbors :
  0 <= N → 0 <= K → len Neighbors (NumberNeighbors N K) →
  ∃ nbs, BuildNeighbors N K Neighbors = Ok nbs ∧
    len nbs (NumberNeighbors N K) ∧
    (∀ i g, 0 <= i < N → 0 <= g < K → is_relocation (get nbs (i * K + g)) i g) ∧
    (∀ c, N * K <= c < NumberNeighbors N K →
       ∃ x y, 0 <= x < y ∧ y < N ∧ is_swap (get nbs c) x y) ∧
    (∀ x y, 0 <= x < y → y < N →
       ∃ c, N * K <= c < NumberNeighbors N K ∧ is_swap (get nbs c) x y).
Proof.
  intros HN HK Hl. pose proof (pairs_even N HN) as Hev.
  set (NN := NumberNeighbors N K) in *.
  assert (HNN : 2 * NN = 2 * N * K + N * (N - 1)).
  { unfold NN, NumberNeighbors. lia. }
  unfold BuildNeighbors.
  destruct (for_loop2_inv
    (fun i g '(nbs, count) =>
       count = i * K + g ∧ len (nbs : list Nb.t) NN ∧
       ∀ i' g', 0 <= i' < N → 0 <= g' < K → i' < i ∨ (i' = i ∧ g' < g) →
         is_relocation (get nbs (i' * K + g')) i' g')
    N (fun _ => 0) K
    (fun i g st =>
       let '(nbs, count) := st in
       n ← rd nbs count;
       nbs ← wr nbs count (Nb.set_move n i g);
       Ok (nbs, count + 1)) (Neighbors, 0))
    as ([nbs1 c1] & -> & Hc1 & Hl1 & Hmv1); [done|done| | | |].
  { split; [lia|]. split; [done|]. intros; lia. }
  { intros i g [nbs c] Hi Hg (-> & Hln & Hmv).
    assert (Hin : 0 <= i * K + g < NN) by nia.
    rewrite (rd_ok nbs NN) by done. rewrite bind_Ok.
    rewrite (wr_ok nbs NN) by done. rewrite bind_Ok.
    eexists; split; [done|]. split; [lia|]. split; [by apply len_upd|].
    intros i' g' Hi' Hg' Hlt. rewrite (get_upd _ NN) by (done || nia).
    destruct (decide (i * K + g = i' * K + g')) as [E|Hne].
    - assert (i' = i ∧ g' = g) as [-> ->] by nia. done.
    - apply Hmv; [done|done|]. destruct (decide (i' = i)); [|lia].
      subst i'. right. split; [done|]. destruct (decide (g' = g)); [|lia].
      subst g'. done. }
  { intros i [nbs c] Hi (-> & Hln & Hmv). split; [lia|]. split; [done|].
    intros i' g' Hi' Hg' Hlt. apply Hmv; [done|done|]. lia. }
  rewrite bind_Ok.
  destruct (for_loop2_inv
    (fun i j '(nbs, count) =>
       2 * count = 2 * N * K + i * (2 * N - i - 1) + 2 * (j - i - 1) ∧
       len (nbs : list Nb.t) NN ∧
       (∀ c, 0 <= c < N * K → get nbs c = get nbs1 c) ∧
       (∀ c, N * K <= c < count →
          ∃ x y, 0 <= x < y ∧ y < N ∧ is_swap (get nbs c) x y) ∧
       (∀ x y c, 0 <= x < y → y < N → x < i ∨ (x = i ∧ y < j) →
          2 * c = 2 * N * K + x * (2 * N - x - 1) + 2 * (y - x - 1) →
          N * K <= c < count ∧ is_swap (get nbs c) x y))
    N (fun i => i + 1) N
    (fun i j st =>
       let '(nbs, count) := st in
       n ← rd nbs count;
       nbs ← wr nbs count (Nb.set_swap n i j);
       Ok (nbs, count + 1)) (nbs1, c1))
    as ([nbs2 c2] & -> & Hc2 & Hl2 & Hkeep & Hsw & Hall); [done|intros; lia| | | |].
  { split; [lia|]. split; [done|]. split; [done|]. split; intros; lia. }
  { intros i j [nbs c] Hi Hj (Hc & Hln & Hk & Hs & Ha).
    assert (Hin : N * K <= c < NN) by nia.
    assert (Hc0 : 0 <= c) by nia.
    rewrite (rd_ok nbs NN) by (done || lia). rewrite bind_Ok.
    rewrite (wr_ok nbs NN) by (done || lia). rewrite bind_Ok.
    eexists; split; [done|]. split; [lia|]. split; [by apply len_upd|].
    split; [|split].
    - intros c' Hc'. rewrite get_upd_ne by lia. by apply Hk.
    - intros c' Hc'. rewrite (get_upd _ NN) by (done || lia).
      destruct (decide (c = c')) as [<-|Hne]; [|apply Hs; lia].
      exists i, j. split; [lia|]. split; [lia|]. done.
    - intros x y c' Hx Hy Hlt Hidx. rewrite (get_upd _ NN) by (done || nia).
      destruct (decide (x = i ∧ y = j)) as [[-> ->]|Hne].
      + assert (c' = c) as -> by lia.
        destruct (decide (c = c)); [|done]. split; [lia|done].
      + destruct (Ha x y c' Hx Hy ltac:(lia) Hidx) as [Hr Hsw'].
        destruct (decide (c = c')); [lia|]. split; [lia|done]. }
  { intros i [nbs c] Hi (Hc & Hln & Hk & Hs & Ha). split; [nia|].
    split; [done|]. split; [done|]. split; [done|].
    intros x y c' Hx Hy Hlt. apply Ha; [done|done|]. lia. }
  rewrite bind_Ok. exists nbs2. split; [done|]. split; [done|].
  assert (c2 = NN) as -> by nia.
  split; [|split].
  - intros i g Hi Hg. rewrite Hkeep by nia. apply Hmv1; [done|done|lia].
  - done.
  - intros x y Hx Hy. destruct (swap_index_exists N K x y ltac:(lia)) as [c Hc].
    exists c. apply (Hall x y c); [done|done|lia|done].
Qed.

(** X1 at two elements and two groups. *)
Lemma BuildNeighbors_fills_catalogue_witness :
  ∃ nbs, BuildNeighbors 2 2 (replicate 5 (Nb.mk 0 0 0 0 0)) = Ok nbs ∧
    len nbs (NumberNeighbors 2 2) ∧
    (∀ i g, 0 <= i < 2 → 0 <= g < 2 → is_relocation (get nbs (i * 2 + g)) i g) ∧
    (∀ c, 2 * 2 <= c < NumberNeighbors 2 2 →
       ∃ x y, 0 <= x < y ∧ y < 2 ∧ is_swap (get nbs c) x y) ∧
    (∀ x y, 0 <= x < y → y < 2 →
       ∃ c, 2 * 2 <= c < NumberNeighbors 2 2 ∧ is_swap (get nbs c) x y).
Proof.
  apply (BuildNeighbors_fills_catalogue 2 2); [lia|lia|reflexivity].
Defined.


(** * What the loader stores *)

Lemma read_edges_weights N edges : ∀ D DT D' DT',
  dims D N N → dims DT N N →
  read_edges N edges D DT = Ok (Some (D', DT')) →
  dims D' N N ∧ dims DT' N N ∧
  ∀ i j, 0 <= i < N → 0 <= j < N →
    get2 D' i j = pair_weight edges (get2 D i j) i j ∧
    get2 DT' i j =
      foldl (fun w e => if decide (e.1.1 ≠ e.1.2 ∧ names e i j)
                        then (2 * e.2)%Qc else w) (get2 DT i j) edges.
Proof.
  induction edges as [|[[x1 x2] d] rest IH]; intros D DT D' DT' HD HDT; simpl.
  - intros [= <- <-]. done.
  - destruct (decide (bad_edge N (x1, x2, d))) as [Hbad|Hok]; [done|].
    assert (Hr : 0 <= x1 < N ∧ 0 <= x2 < N).
    { unfold bad_edge in Hok. simpl in Hok. lia. }
    destruct Hr as [H1 H2]. unfold pair_weight. simpl.
    destruct (decide (x1 ≠ x2)) as [Hne|Heq].
    + rewrite (wr2_ok D N N x2 x1 d); [|done|done|done]. rewrite bind_Ok.
      assert (HD1 : dims (upd2 D x2 x1 d) N N) by (by apply dims_upd2).
      rd2s N N. wr2s N N. wr2s N N.
      assert (HDT1 : dims (upd2 DT x2 x1 (2 * d)%Qc) N N) by (by apply dims_upd2).
      rd2s N N. wr2s N N.
      rewrite !(get2_upd2 _ N N) by (done || lia).
      destruct (decide (x2 = x2 ∧ x1 = x1)) as [_|]; [|tauto].
      intros E. apply IH in E; [|by apply dims_upd2|by apply dims_upd2].
      destruct E as (HD' & HDT' & Hw). split; [done|]. split; [done|].
      intros i j Hi Hj. destruct (Hw i j Hi Hj) as [-> ->].
      rewrite !(get2_upd2 _ N N) by (done || lia). unfold pair_weight, names.
      simpl. split; f_equal; repeat case_decide; try done;
        exfalso; intuition lia.
    + intros E. apply IH in E; [|done|done].
      destruct E as (HD' & HDT' & Hw). split; [done|]. split; [done|].
      intros i j Hi Hj. destruct (Hw i j Hi Hj) as [-> ->].
      unfold pair_weight. split; f_equal; destruct (decide _) as [[? _]|]; done.
Qed.

Lemma pair_weight_sym edges : ∀ w i j,
  pair_weight edges w i j = pair_weight edges w j i.
Proof.
  unfold pair_weight. induction edges as [|e rest IH]; intros w i j; [done|].
  cbn [foldl].
  destruct (decide (e.1.1 ≠ e.1.2 ∧ names e i j)) as [Ha|Ha],
    (decide (e.1.1 ≠ e.1.2 ∧ names e j i)) as [Hb|Hb]; try apply IH;
    exfalso; unfold names in Ha, Hb; tauto.
Qed.

Lemma pair_weight_diag edges : ∀ w i, pair_weight edges w i i = w.
Proof.
  unfold pair_weight. induction edges as [|e rest IH]; intros w i; [done|].
  cbn [foldl].
  destruct (decide (e.1.1 ≠ e.1.2 ∧ names e i i)) as [[Hne Hn]|Ha]; [|apply IH].
  exfalso. unfold names in Hn. intuition congruence.
Qed.

Lemma foldl_double (edges : list (Z * Z * Qc)) (P : Z * Z * Qc → Prop)
    `{∀ e, Decision (P e)} : ∀ w,
  foldl (fun w e => if decide (P e) then (2 * e.2)%Qc else w) (2 * w)%Qc edges
  = (2 * foldl (fun w e => if decide (P e) then e.2 else w) w edges)%Qc.
Proof.
  induction edges as [|e rest IH]; intros w; simpl; [done|].
  destruct (decide (P e)); apply IH.
Qed.




(** * The checker [Proof] *)

Section Checker.
Context (N K : Z) (D : list (list Qc)) (LB UB : list Z).
Hypothesis HN : 0 <= N.
Hypothesis HK : 0 <= K.
Hypothesis HD : dims D N N.
Hypothesis HLB : len LB K.
Hypothesis HUB : len UB K.

Lemma Proof_sizes_ok P SizeG :
  len P N → in_groups K P → len SizeG K →
  ∃ sz, Proof_sizes N K P SizeG = Ok sz ∧ len sz K ∧
    ∀ g, 0 <= g < K → get sz g = group_size P g.
Proof.
  intros HP Hin HS. unfold Proof_sizes.
  destruct (for_loop_inv
    (fun i sz => len (sz : list Z) K ∧ ∀ g, 0 <= g < i → get sz g = 0)
    0 K (fun i sz => wr sz i 0) SizeG) as (sz0 & -> & Hl0 & Hz); [done| | |].
  { split; [done|]. intros; lia. }
  { intros i sz Hi [Hl Hzz]. rewrite (wr_ok sz K) by done.
    eexists; split; [done|]. split; [by apply len_upd|]. intros g Hg.
    rewrite (get_upd _ K) by (done || lia).
    destruct (decide (i = g)); [done|]. apply Hzz. lia. }
  rewrite bind_Ok.
  destruct (for_loop_inv
    (fun i sz => len (sz : list Z) K ∧
       ∀ g, 0 <= g < K → get sz g = tally (is_group g) i P)
    0 N (fun i sz => pi ← rd P i; x ← rd sz pi; wr sz pi (x + 1)) sz0)
    as (sz & -> & Hl & Hc); [done| | |].
  { split; [done|]. intros g Hg. rewrite Hz by done. done. }
  { intros i sz Hi [Hl Hc]. pose proof (in_groups_get N K P i HP Hin Hi) as Hpi.
    rewrite (rd_ok P N) by done. rewrite bind_Ok.
    rewrite (rd_ok sz K) by done. rewrite bind_Ok.
    rewrite (wr_ok sz K) by done. eexists; split; [done|].
    split; [by apply len_upd|]. intros g Hg.
    rewrite (get_upd _ K) by (done || lia). rewrite tally_step by lia.
    rewrite !Hc by done.
    destruct (decide (get P i = g)) as [E|Hne].
    - rewrite E. by rewrite is_group_eq.
    - rewrite is_group_ne by done. lia. }
  exists sz. split; [done|]. split; [done|]. intros g Hg.
  rewrite Hc by done. by apply tally_group_size.
Qed.

Lemma Proof_flag_spec sz : len sz K → ∀ n i,
  0 <= i → i + Z.of_nat n = K →
  ∃ flag, Proof_flag LB UB n i sz = Ok flag ∧ (flag = 0 ∨ flag = 1) ∧
    (flag = 1 ↔ ∀ g, i <= g < K → get LB g <= get sz g <= get UB g).
Proof.
  intros Hl. induction n as [|n IH]; intros i Hi Hn; simpl.
  - exists 1. split; [done|]. split; [by right|]. split; [intros; lia|done].
  - rewrite (rd_ok sz K) by (done || lia). rewrite bind_Ok.
    rewrite (rd_ok LB K) by (done || lia). rewrite bind_Ok.
    destruct (decide (get sz i < get LB i)) as [Hlt|Hge].
    { exists 0. split; [done|]. split; [by left|]. split; [done|].
      intros Hall. specialize (Hall i ltac:(lia)). lia. }
    rewrite (rd_ok UB K) by (done || lia). rewrite bind_Ok.
    destruct (decide (get sz i > get UB i)) as [Hgt|Hle].
    { exists 0. split; [done|]. split; [by left|]. split; [done|].
      intros Hall. specialize (Hall i ltac:(lia)). lia. }
    destruct (IH (i + 1) ltac:(lia) ltac:(lia)) as (flag & -> & Hb & Hiff).
    exists flag. split; [done|]. split; [done|]. rewrite Hiff. split.
    + intros Hall g Hg. destruct (decide (g = i)) as [->|]; [lia|].
      apply Hall. lia.
    + intros Hall g Hg. apply Hall. lia.
Qed.


End Checker.



(** * The local search keeps the group sizes *)

Section LocalSearchSizes.
Context (N K : Z) (D DT : list (list Qc)) (LB UB : list Z).
Hypothesis HN : 0 <= N.
Hypothesis HK : 0 <= K.
Hypothesis HD : dims D N N.
Hypothesis Hsym : symmetric N D.
Hypothesis Hdiag : zero_diagonal N D.
Hypothesis HDT : is_double N D DT.
Hypothesis HLB : len LB K.
Hypothesis HUB : len UB K.

Lemma RandLS_move_sizes v g st :
  0 <= v < N → 0 <= g < K → ls_inv N K D st →
  sizes_ok N K LB UB (G.p st.1.1) st.1.2 →
  ∃ st', RandLS_move N D LB UB v g st = Ok st' ∧
    sizes_ok N K LB UB (G.p st'.1.1) st'.1.2.
Proof.
  intros Hv Hg. destruct st as [[s SG] Flag]. simpl.
  intros (Hp & Hgr & Hdm & Hf & Hsg & Hdl) Hsz. simpl in *.
  pose proof (in_groups_get N K _ v Hp Hgr Hv) as Hpv.
  pose proof Hdm as [Hdims Hm].
  unfold RandLS_move. rds N. repeat rds K. repeat rd2s N K.
  destruct (decide (get (G.p s) v ≠ g)) as [Hne|Heq];
    [|by eexists; split; [done|]].
  destruct (decide (get SG (get (G.p s) v) > get LB (get (G.p s) v)))
    as [Hs1|Hs1]; [|by eexists; split; [done|]].
  destruct (decide (get SG g < get UB g)) as [Hs2|Hs2];
    [|by eexists; split; [done|]].
  destruct (decide _) as [Hgt|Hle]; [|by eexists; split; [done|]].
  destruct (One_Move_Update_Delta_Matrix1_ok N K D HN HD Hsym Hdiag
              s (G.p s) v (get (G.p s) v) g Hdm Hp Hv eq_refl Hpv Hg)
    as (m' & -> & Hdm').
  rewrite !bind_Ok. wrs K.
  assert (Hsg1 : len (upd SG (get (G.p s) v) (get SG (get (G.p s) v) - 1)) K)
    by (by apply len_upd).
  rds K. wrs K. simpl G.p. wrs N.
  eexists; split; [done|]. simpl.
  apply (sizes_ok_relocate N K LB UB); done.
Qed.

Lemma RandLS_swap_sizes x y st :
  0 <= x < N → 0 <= y < N → ls_inv N K D st →
  sizes_ok N K LB UB (G.p st.1.1) st.1.2 →
  ∃ st', RandLS_swap N D DT x y st = Ok st' ∧
    sizes_ok N K LB UB (G.p st'.1.1) st'.1.2.
Proof.
  intros Hx Hy. destruct st as [[s SG] Flag]. simpl.
  intros (Hp & Hgr & Hdm & Hf & Hsg & Hdl) Hsz. simpl in *.
  pose proof (in_groups_get N K _ x Hp Hgr Hx) as Hpx.
  pose proof (in_groups_get N K _ y Hp Hgr Hy) as Hpy.
  pose proof Hdm as [Hdims Hm]. destruct HDT as [HDTd HDTv].
  unfold RandLS_swap. rds N. rds N.
  destruct (decide (get (G.p s) x ≠ get (G.p s) y)) as [Hne|Heq];
    [|by eexists; split; [done|]].
  rd2s N K. rd2s N K. rd2s N K. rd2s N K. rd2s N N.
  destruct (decide _) as [Hgt|Hle]; [|by eexists; split; [done|]].
  assert (Hxy : x ≠ y) by congruence.
  destruct (One_Move_Update_Delta_Matrix1_ok N K D HN HD Hsym Hdiag
              s (G.p s) x (get (G.p s) x) (get (G.p s) y) Hdm Hp Hx eq_refl Hpx Hpy)
    as (m1 & -> & Hdm1).
  rewrite bind_Ok.
  destruct (One_Move_Update_Delta_Matrix1_ok N K D HN HD Hsym Hdiag
              (G.set_Delta_Matrix s m1) (upd (G.p s) x (get (G.p s) y))
              y (get (G.p s) y) (get (G.p s) x))
    as (m2 & -> & Hdm2); try done.
  { by apply len_upd. }
  { rewrite get_upd_ne by lia. done. }
  rewrite bind_Ok. simpl G.p. wrs N.
  assert (Hp1 : len (upd (G.p s) x (get (G.p s) y)) N) by (by apply len_upd).
  wrs N. eexists; split; [done|]. simpl.
  apply (sizes_ok_swap N K LB UB); done.
Qed.

Lemma RandLS_sweep_sizes st :
  ls_inv N K D st → sizes_ok N K LB UB (G.p st.1.1) st.1.2 →
  ∃ st', RandLS_sweep N K D DT LB UB st = Ok st' ∧
    ls_inv N K D st' ∧ sizes_ok N K LB UB (G.p st'.1.1) st'.1.2.
Proof.
  intros Hinv Hsz. unfold RandLS_sweep.
  destruct (for_loop2_inv
    (fun _ _ st => ls_inv N K D st ∧ sizes_ok N K LB UB (G.p st.1.1) st.1.2)
    N (fun _ => 0) K (fun v g st => RandLS_move N D LB UB v g st) st)
    as (st1 & -> & Hinv1 & Hsz1); [done|done|done| |done|].
  { intros v g st1 Hv Hg [Hi1 Hs1].
    destruct (RandLS_move_spec N K D LB UB HN HD Hsym Hdiag HLB HUB
      v g st1 Hv Hg Hi1) as (st2 & E & Hi2 & _).
    destruct (RandLS_move_sizes v g st1 Hv Hg Hi1 Hs1) as (st2' & E' & Hs2).
    rewrite E in E'. injection E' as <-. by exists st2. }
  rewrite bind_Ok.
  apply (for_loop2_inv
    (fun _ _ st => ls_inv N K D st ∧ sizes_ok N K LB UB (G.p st.1.1) st.1.2)
    N (fun x => x + 1) N (fun x y st => RandLS_swap N D DT x y st) st1);
    [done|intros; lia|done| |done].
  intros x y st2 Hx Hy [Hi2 Hs2].
  destruct (RandLS_swap_spec N K D DT HN HD Hsym Hdiag HDT
    x y st2 Hx ltac:(lia) Hi2) as (st3 & E & Hi3 & _).
  destruct (RandLS_swap_sizes x y st2 Hx ltac:(lia) Hi2 Hs2) as (st3' & E' & Hs3).
  rewrite E in E'. injection E' as <-. by exists st3.
Qed.

Lemma RandLS_loop_sizes fuel : ∀ s SG s' SG',
  ls_inv N K D (s, SG, 0) → sizes_ok N K LB UB (G.p s) SG →
  RandLS_loop N K D DT LB UB fuel s SG = Ok (s', SG') →
  sizes_ok N K LB UB (G.p s') SG'.
Proof.
  induction fuel as [|fuel IH]; intros s SG s' SG' Hinv Hsz; simpl; [done|].
  destruct (RandLS_sweep_sizes (s, SG, 0) Hinv Hsz)
    as ([[s1 SG1] Flag] & -> & Hinv1 & Hsz1).
  rewrite bind_Ok. simpl in Hsz1.
  destruct (decide (Flag = 1)).
  - apply IH; [|done]. exact Hinv1.
  - by intros [= <- <-].
Qed.

Lemma RandLS_sizes fuel s partition SizeGroup
    s' partition' SizeGroup' cost :
  allocated N K s → sizes_ok N K LB UB partition SizeGroup →
  RandLS N K D DT LB UB fuel s partition SizeGroup
    = Ok (s', partition', SizeGroup', cost) →
  sizes_ok N K LB UB partition' SizeGroup'.
Proof.
  intros Hal Hsz E. pose proof Hsz as (Hpart & Hgr & Hsg & _).
  destruct (RandLS_unfold N K D DT LB UB HN HK HD Hsym Hdiag
    fuel s partition SizeGroup Hal Hpart Hgr Hsg) as (s1 & Hinv1 & Hp1 & E1).
  rewrite E1 in E. clear E1.
  apply bind_inv in E as ([s2 SG2] & Eloop & E).
  assert (Hsz2 : sizes_ok N K LB UB (G.p s2) SG2).
  { apply (RandLS_loop_sizes fuel s1 SizeGroup s2 SG2); [done| |done].
    by rewrite Hp1. }
  pose proof Hsz2 as (Hp2 & _).
  rewrite (copy_into_ok N (G.p s2) partition) in E by done.
  rewrite bind_Ok in E. by injection E as <- <- <- <-.
Qed.

(** X4.  A run of [RandLS] that returns keeps the bookkeeping of the
    sizes: if [SizeGroup] held the group sizes of the partition on entry,
    all within [LB[g], UB[g]], it holds the group sizes of the partition
    returned, again all within the bounds. *)
Theorem RandLS_keeps_sizes fuel s partition SizeGroup
    s' partition' SizeGroup' cost :
  allocated N K s → sizes_ok N K LB UB partition SizeGroup →
  RandLS N K D DT LB UB fuel s partition SizeGroup
    = Ok (s', partition', SizeGroup', cost) →
  sizes_ok N K LB UB partition' SizeGroup'.
Proof. apply RandLS_sizes. Qed.

End LocalSearchSizes.

Lemma Ex1_sizes_ok : sizes_ok Ex1.N Ex1.K Ex1.LB Ex1.UB Ex1.part Ex1.sizes.
Proof.
  split; [reflexivity|]. split; [exact Ex1_in_groups_part|].
  split; [reflexivity|]. split; [|reflexivity]. intros g Hg.
  unfold Ex1.K in Hg. assert (g = 0 ∨ g = 1) as [->| ->] by lia; by vm_compute.
Qed.

(** X4 at the instance [Ex1]. *)
Lemma RandLS_keeps_sizes_witness :
  ∃ out, RandLS Ex1.N Ex1.K Ex1.D Ex1.DT Ex1.LB Ex1.UB 10 Ex1.s0 Ex1.part Ex1.sizes
           = Ok out ∧
         sizes_ok Ex1.N Ex1.K Ex1.LB Ex1.UB out.1.1.2 out.1.2.
Proof.
  eexists. split; [vm_compute; reflexivity|]. simpl.
  eapply (RandLS_keeps_sizes Ex1.N Ex1.K Ex1.D Ex1.DT Ex1.LB Ex1.UB
    ltac:(done) ltac:(done) Ex1_dims_D Ex1_symmetric Ex1_zero_diagonal
    Ex1_is_double eq_refl eq_refl 10%nat Ex1.s0 Ex1.part Ex1.sizes);
    [exact Ex1_allocated|exact Ex1_sizes_ok|].
  vm_compute. reflexivity.
Defined.


(** * The random initial partition *)

Lemma returns_only_bind {A B} (P : A → Prop) (Q : B → Prop)
    (m : res A) (k : A → res B) :
  returns_only P m → (∀ a, P a → returns_only Q (k a)) →
  returns_only Q (m ≫= k).
Proof. destruct m; simpl; auto. Qed.

Lemma returns_only_mono {A} (P Q : A → Prop) (r : res A) :
  returns_only P r → (∀ a, P a → Q a) → returns_only Q r.
Proof. destruct r; simpl; auto. Qed.

Lemma returns_only_Ok {A} (P : A → Prop) (r : res A) a :
  returns_only P r → r = Ok a → P a.
Proof. by intros H ->. Qed.

Lemma zero_fill n :
  0 <= n →
  for_loop 0 n (fun i a => wr a i 0) (replicate (Z.to_nat n) 0)
  = Ok (replicate (Z.to_nat n) 0).
Proof.
  intros Hn.
  destruct (for_loop_inv (fun _ a => a = replicate (Z.to_nat n) 0) 0 n
    (fun i a => wr a i 0) (replicate (Z.to_nat n) 0)) as (a & -> & ->);
    [lia|done| |done].
  intros i a Hi ->. exists (replicate (Z.to_nat n) 0). split; [|done].
  rewrite (wr_ok _ n) by (unfold len; try rewrite length_replicate; lia).
  f_equal. unfold upd. apply list_insert_id. apply lookup_replicate_2. lia.
Qed.

Lemma get_zeros n i : 0 <= i < n → get (replicate (Z.to_nat n) 0) i = 0.
Proof. intros Hi. unfold get. apply lookup_total_replicate_2. lia. Qed.

Lemma in_groups_intro N K P :
  len P N → (∀ i, 0 <= i < N → 0 <= get P i < K) → in_groups K P.
Proof.
  intros Hl Hp. unfold in_groups. apply Forall_lookup. intros i x Hix.
  specialize (Hp (Z.of_nat i)). unfold get in Hp. rewrite Nat2Z.id in Hp.
  rewrite (list_lookup_total_correct _ _ _ Hix) in Hp. apply Hp.
  apply lookup_lt_Some in Hix. unfold len in Hl. lia.
Qed.

Lemma isum_le_eq n h h' :
  (∀ k, 0 <= k < Z.of_nat n → h k <= h' k) → isum n h' <= isum n h →
  ∀ k, 0 <= k < Z.of_nat n → h k = h' k.
Proof.
  induction n as [|n IH]; intros Hle Hs k Hk; [lia|]. simpl in Hs.
  assert (H1 : isum n h <= isum n h') by (apply isum_le; intros; apply Hle; lia).
  pose proof (Hle (Z.of_nat n) ltac:(lia)) as H2.
  destruct (decide (k = Z.of_nat n)) as [->|Hne]; [lia|].
  apply IH; [intros; apply Hle; lia|lia|lia].
Qed.

Section InitialSolutionTheory.
Context (N K : Z) (LB UB : list Z) (rnd : nat → Z).
Hypothesis HN : 0 < N.
Hypothesis HK : 0 < K.
Hypothesis HLB : len LB K.
Hypothesis HUB : len UB K.
Hypothesis HB : ∀ g, 0 <= g < K → 0 <= get LB g <= get UB g.
Hypothesis Hrnd : ∀ k, 0 <= rnd k.

Lemma draw_in_range k n : 0 < n → ∃ x, c_mod (rnd k) n = Ok x ∧ 0 <= x < n.
Proof.
  intros Hn. unfold c_mod. destruct (decide (n = 0)); [lia|].
  eexists; split; [done|]. apply Z.rem_bound_pos; [apply Hrnd|lia].
Qed.

Lemma lower_bounds_sum :
  for_loop 0 K (fun i sum => lb ← rd LB i; Ok (sum + lb)) 0
  = Ok (isum (Z.to_nat K) (get LB)).
Proof.
  destruct (for_loop_inv (fun i s => s = isum (Z.to_nat i) (get LB)) 0 K
    (fun i sum => lb ← rd LB i; Ok (sum + lb)) 0) as (s & -> & ->);
    [lia|done| |done].
  intros i s Hi ->. rds K. eexists; split; [done|].
  by rewrite isum_step by lia.
Qed.

Lemma lower_slot_spec SG :
  len SG K → ∀ n count, 0 <= count → count + Z.of_nat n = K →
  lower_slot LB n count SG = Ok None ∨
  ∃ c, lower_slot LB n count SG = Ok (Some c) ∧ 0 <= c < K ∧ get SG c < get LB c.
Proof.
  intros HSG. induction n as [|n IH]; intros count Hc Hn; simpl; [by left|].
  rds K. rds K. destruct (decide _) as [Hlt|_].
  - right. exists count. split; [done|]. split; [lia|done].
  - apply IH; lia.
Qed.

Lemma place_spec lo hi base p Flag SG tot k p1 count :
  ris_inv N K lo hi base (p, Flag, SG, tot, k) →
  0 <= p1 < N → get Flag p1 = 0 → 0 <= count < K → get SG count < hi count →
  ∃ p' Flag' SG',
    place p1 count (p, Flag, SG, tot, k) = Ok (p', Flag', SG', tot + 1, k) ∧
    ris_inv N K lo hi base (p', Flag', SG', tot + 1, k).
Proof.
  intros (Hp & HF & HSG & Hcells & Hsz & Hsum & Hfree) Hp1 Hfl Hc Hroom.
  unfold place. wrs N. wrs N. rds K. wrs K.
  eexists _, _, _. split; [done|].
  assert (Hpl : ∀ i, 0 <= i < N →
    placed (upd p p1 count) (upd Flag p1 1) i
    = if decide (i = p1) then count else placed p Flag i).
  { intros i Hi. unfold placed. destruct (decide (i = p1)) as [->|Hne].
    - rewrite (get_upd_eq Flag N), (get_upd_eq p N) by done. done.
    - rewrite !get_upd_ne by lia. done. }
  split; [by apply len_upd|]. split; [by apply len_upd|].
  split; [by apply len_upd|]. split; [|split; [|split]].
  - intros i Hi. destruct (decide (i = p1)) as [->|Hne].
    + right. rewrite (get_upd_eq Flag N), (get_upd_eq p N) by done. lia.
    + rewrite !get_upd_ne by lia. by apply Hcells.
  - intros g Hg. destruct (Hsz g Hg) as (Hg1 & Hg2).
    rewrite (isum_change _
      (fun i => if is_group g (placed p Flag i) then 1 else 0) _ p1); [|lia|].
    2:{ intros i Hi Hne. rewrite Hpl by lia.
        destruct (decide (i = p1)); [done|done]. }
    simpl. rewrite Hpl by done. destruct (decide (p1 = p1)); [|done].
    unfold placed at 2. rewrite Hfl. destruct (decide (0 = 0)); [|done].
    rewrite (is_group_ne g (-1)) by lia.
    rewrite (get_upd SG K) by (done || lia).
    destruct (decide (count = g)) as [->|Hne].
    + rewrite is_group_eq. lia.
    + rewrite is_group_ne by done. lia.
  - rewrite (isum_get_upd SG K) by done. lia.
  - rewrite (isum_change _
      (fun i => if decide (get Flag i = 0) then 1 else 0) _ p1); [|lia|].
    2:{ intros i Hi Hne. simpl. rewrite get_upd_ne by lia. done. }
    simpl. rewrite (get_upd_eq Flag N) by done. rewrite Hfl.
    destruct (decide (1 = 0)); [done|]. destruct (decide (0 = 0)); [|done]. lia.
Qed.

Lemma lower_body_spec st :
  ris_inv N K (fun _ => 0) (get LB) 0 st →
  ∃ st', lower_body N K LB rnd st = Ok st' ∧
         ris_inv N K (fun _ => 0) (get LB) 0 st'.
Proof.
  destruct st as [[[[p Flag] SG] tot] k]. intros Hinv.
  pose proof Hinv as (Hp & HF & HSG & Hcells & Hsz & Hsum & Hfree).
  unfold lower_body. destruct (draw_in_range k N HN) as (p1 & -> & Hp1).
  rewrite bind_Ok. rds N.
  destruct (decide (get Flag p1 = 0)) as [Hfl|_]; [|by eexists].
  destruct (lower_slot_spec SG HSG (Z.to_nat K) 0) as [->|(c & -> & Hc & Hlt)];
    [lia|lia| |]; rewrite bind_Ok.
  - by eexists.
  - destruct (place_spec _ _ _ p Flag SG tot (S k) p1 c Hinv Hp1 Hfl Hc Hlt)
      as (p' & F' & SG' & -> & Hinv').
    by eexists.
Qed.

Lemma lower_phase_spec sum fuel : ∀ st,
  ris_inv N K (fun _ => 0) (get LB) 0 st →
  returns_only
    (fun st' => ris_inv N K (fun _ => 0) (get LB) 0 st' ∧ sum <= st'.1.2)
    (lower_phase N K LB rnd fuel sum st).
Proof.
  induction fuel as [|fuel IH]; intros st Hinv; simpl;
    (destruct (decide (st.1.2 < sum)); [|simpl; split; [done|lia]]);
    [done|].
  destruct (lower_body_spec st Hinv) as (st' & -> & Hinv').
  rewrite bind_Ok. by apply IH.
Qed.

Lemma upper_slot_spec SG fuel : ∀ k,
  len SG K →
  returns_only (fun ck => 0 <= ck.1 < K ∧ get SG ck.1 < get UB ck.1)
    (upper_slot K UB rnd fuel SG k).
Proof.
  induction fuel as [|fuel IH]; intros k HSG; simpl; [done|].
  destruct (draw_in_range k K HK) as (c & -> & Hc). rewrite bind_Ok.
  rds K. rds K. destruct (decide _) as [Hlt|_]; [done|]. by apply IH.
Qed.

Lemma upper_body_spec base fuel st :
  ris_inv N K (get LB) (get UB) base st →
  returns_only (ris_inv N K (get LB) (get UB) base)
    (upper_body N K UB rnd fuel st).
Proof.
  destruct st as [[[[p Flag] SG] tot] k]. intros Hinv.
  pose proof Hinv as (Hp & HF & HSG & Hcells & Hsz & Hsum & Hfree).
  unfold upper_body. destruct (draw_in_range k N HN) as (p1 & -> & Hp1).
  rewrite bind_Ok. rds N.
  destruct (decide (get Flag p1 = 0)) as [Hfl|_]; [|done].
  eapply returns_only_bind; [apply (upper_slot_spec SG fuel (S k) HSG)|].
  intros [c k'] [Hc Hlt]. simpl in Hc, Hlt.
  destruct (place_spec _ _ _ p Flag SG tot k' p1 c Hinv Hp1 Hfl Hc Hlt)
    as (p' & F' & SG' & -> & Hinv').
  done.
Qed.

Lemma upper_phase_spec base rest fuel : ∀ st,
  ris_inv N K (get LB) (get UB) base st →
  returns_only
    (fun st' => ris_inv N K (get LB) (get UB) base st' ∧ rest <= st'.1.2)
    (upper_phase N K UB rnd fuel rest st).
Proof.
  induction fuel as [|fuel IH]; intros st Hinv; simpl;
    (destruct (decide (st.1.2 < rest)); [|simpl; split; [done|lia]]);
    [done|].
  eapply returns_only_bind; [apply (upper_body_spec base fuel st Hinv)|].
  intros st' Hinv'. by apply IH.
Qed.

(** Between the phases every group holds exactly its lower bound. *)
Lemma phases_meet p Flag SG tot k :
  ris_inv N K (fun _ => 0) (get LB) 0 (p, Flag, SG, tot, k) →
  isum (Z.to_nat K) (get LB) <= tot →
  ris_inv N K (get LB) (get UB) (isum (Z.to_nat K) (get LB)) (p, Flag, SG, 0, k).
Proof.
  intros (Hp & HF & HSG & Hcells & Hsz & Hsum & Hfree) Htot.
  assert (Heq : ∀ g, 0 <= g < K → get SG g = get LB g).
  { intros g Hg. apply (isum_le_eq (Z.to_nat K)); [|lia|lia].
    intros g' Hg'. apply Hsz. lia. }
  assert (Hs : isum (Z.to_nat K) (get SG) = isum (Z.to_nat K) (get LB)).
  { apply isum_ext. intros g Hg. apply Heq. lia. }
  split; [done|]. split; [done|]. split; [done|]. split; [done|].
  split; [|split; lia].
  intros g Hg. split; [by apply Hsz|]. rewrite Heq by done.
  specialize (HB g Hg). lia.
Qed.

(** Once the second phase is over no element is free. *)
Lemma phases_end p Flag SG tot k :
  ris_inv N K (get LB) (get UB) (isum (Z.to_nat K) (get LB)) (p, Flag, SG, tot, k) →
  N - isum (Z.to_nat K) (get LB) <= tot →
  sizes_ok N K LB UB p SG.
Proof.
  intros (Hp & HF & HSG & Hcells & Hsz & Hsum & Hfree) Htot.
  assert (Hnn : ∀ i, 0 <= i < Z.of_nat (Z.to_nat N) →
            0 <= (fun i => if decide (get Flag i = 0) then 1 else 0) i).
  { intros i _. simpl. destruct (decide _); lia. }
  pose proof (isum_nonneg _ _ Hnn) as Hfree0.
  assert (Hset : ∀ i, 0 <= i < N → get Flag i ≠ 0).
  { intros i Hi.
    pose proof (isum_zero_terms _ _ Hnn ltac:(lia) i ltac:(lia)) as Hz.
    simpl in Hz. destruct (decide (get Flag i = 0)); [done|done]. }
  split; [done|]. split.
  { apply (in_groups_intro N); [done|]. intros i Hi.
    destruct (Hcells i Hi) as [H0|[_ H1]]; [|done]. by destruct (Hset i Hi). }
  split; [done|]. split.
  - intros g Hg. destruct (Hsz g Hg) as (Hg1 & Hg2). split; [|done].
    rewrite Hg1. rewrite <- (tally_group_size g N p) by done.
    unfold tally. apply isum_ext. intros i Hi. unfold placed.
    destruct (decide (get Flag i = 0)) as [H0|_]; [|done].
    destruct (Hset i ltac:(lia) H0).
  - rewrite foldr_isum. unfold len in HSG.
    replace (length SG) with (Z.to_nat K) by lia. lia.
Qed.

Lemma RandomInitiaSol_spec fuel k p SizeG :
  len p N → len SizeG K →
  returns_only (fun out => sizes_ok N K LB UB out.1.1 out.1.2)
    (RandomInitiaSol N K LB UB rnd fuel k p SizeG).
Proof.
  intros Hp HSizeG. unfold RandomInitiaSol.
  rewrite (zero_fill K) by lia. rewrite bind_Ok.
  rewrite (zero_fill N) by lia. rewrite bind_Ok.
  rewrite lower_bounds_sum. rewrite bind_Ok.
  assert (Hlen : ∀ n, 0 <= n → len (replicate (Z.to_nat n) 0) n).
  { intros n Hn. unfold len. rewrite length_replicate. lia. }
  assert (Hinit : ris_inv N K (fun _ => 0) (get LB) 0
            (p, replicate (Z.to_nat N) 0, replicate (Z.to_nat K) 0, 0, k)).
  { split; [done|]. split; [apply Hlen; lia|]. split; [apply Hlen; lia|].
    split; [|split; [|split]].
    - intros i Hi. left. by apply get_zeros.
    - intros g Hg. rewrite get_zeros by done. split; [|specialize (HB g Hg); lia].
      rewrite (isum_ext _ _ (fun _ => 0)); [by rewrite isum_const; lia|].
      intros i Hi. unfold placed. rewrite get_zeros by lia.
      destruct (decide (0 = 0)); [|done]. by rewrite is_group_ne by lia.
    - rewrite (isum_ext _ _ (fun _ => 0)); [rewrite isum_const; lia|].
      intros g Hg. apply get_zeros. lia.
    - rewrite (isum_ext _ _ (fun _ => 1)); [rewrite isum_const; lia|].
      intros i Hi. rewrite get_zeros by lia. by destruct (decide (0 = 0)). }
  eapply returns_only_bind; [apply (lower_phase_spec _ fuel _ Hinit)|].
  intros [[[[p1 F1] SG1] tot1] k1] [Hinv1 Htot1]. simpl in Htot1.
  pose proof (phases_meet _ _ _ _ _ Hinv1 Htot1) as Hmid.
  eapply returns_only_bind; [apply (upper_phase_spec _ _ fuel _ Hmid)|].
  intros [[[[p2 F2] SG2] tot2] k2] [Hinv2 Htot2]. simpl in Htot2.
  pose proof (phases_end _ _ _ _ _ Hinv2 Htot2) as Hok.
  pose proof Hok as (_ & _ & HSG2 & _).
  rewrite (copy_into_ok K SG2 SizeG) by (done || lia). rewrite bind_Ok.
  done.
Qed.

(** X5.  [RandomInitiaSol] never reads or writes outside its arrays, and
    when it returns, [p] is a complete partition for which [SizeG] holds
    the group sizes, each within [LB[g], UB[g]], whatever [p] and [SizeG]
    held before.  The bounds are ordered and not negative, [N] and [K] are
    positive, and draws of [rand()] are not negative. *)
Theorem RandomInitiaSol_feasible fuel k p SizeG :
  len p N → len SizeG K →
  RandomInitiaSol N K LB UB rnd fuel k p SizeG ≠ Undef ∧
  ∀ p' SizeG' k',
    RandomInitiaSol N K LB UB rnd fuel k p SizeG = Ok (p', SizeG', k') →
    sizes_ok N K LB UB p' SizeG'.
Proof.
  intros Hp HSizeG. pose proof (RandomInitiaSol_spec fuel k p SizeG Hp HSizeG) as H.
  split.
  - intros E. by rewrite E in H.
  - intros p' SizeG' k' E. by rewrite E in H.
Qed.

(** The sizes of a feasible partition lie between the sums of the bounds. *)
Lemma sizes_ok_bounds P S :
  sizes_ok N K LB UB P S →
  isum (Z.to_nat K) (get LB) <= N <= isum (Z.to_nat K) (get UB).
Proof.
  intros (_ & _ & HS & Hsz & Hsum). rewrite foldr_isum in Hsum.
  unfold len in HS. replace (length S) with (Z.to_nat K) in Hsum by lia.
  rewrite <- Hsum. split; apply isum_le; intros g Hg; apply Hsz; lia.
Qed.

(** X6.  When the lower bounds add up to more than [N], or the upper
    bounds to less, [RandomInitiaSol] does not return: one of its two
    [while] loops runs for ever, whatever [rand()] draws. *)
Theorem RandomInitiaSol_hangs_when_infeasible fuel k p SizeG :
  len p N → len SizeG K →
  ¬ (isum (Z.to_nat K) (get LB) <= N <= isum (Z.to_nat K) (get UB)) →
  RandomInitiaSol N K LB UB rnd fuel k p SizeG = NoFuel.
Proof.
  intros Hp HSizeG Hinf.
  pose proof (RandomInitiaSol_spec fuel k p SizeG Hp HSizeG) as H.
  destruct (RandomInitiaSol N K LB UB rnd fuel k p SizeG) as [out| |];
    [|done|done].
  simpl in H. destruct Hinf. by apply (sizes_ok_bounds out.1.1 out.1.2).
Qed.

End InitialSolutionTheory.

(** X5 at the bounds of [Ex1], with draws 0, 1, 2, ... and arrays that hold
    other values on entry. *)
Lemma RandomInitiaSol_feasible_witness :
  RandomInitiaSol Ex1.N Ex1.K Ex1.LB Ex1.UB ExC.rnd 20 0 [7; 7; 7; 7] [9; 9]
    ≠ Undef ∧
  ∀ p' SizeG' k',
    RandomInitiaSol Ex1.N Ex1.K Ex1.LB Ex1.UB ExC.rnd 20 0 [7; 7; 7; 7] [9; 9]
      = Ok (p', SizeG', k') →
    sizes_ok Ex1.N Ex1.K Ex1.LB Ex1.UB p' SizeG'.
Proof.
  apply (RandomInitiaSol_feasible Ex1.N Ex1.K Ex1.LB Ex1.UB ExC.rnd);
    [by vm_compute|by vm_compute|reflexivity|reflexivity| |
     intros k; unfold ExC.rnd; lia|reflexivity|reflexivity].
  intros g Hg. unfold Ex1.K in Hg.
  assert (g = 0 ∨ g = 1) as [->| ->] by lia; by vm_compute.
Defined.

(** X6 on two elements and one group that wants three. *)
Lemma RandomInitiaSol_hangs_when_infeasible_witness :
  RandomInitiaSol 2 1 [3] [3] ExC.rnd 50 0 [0; 0] [0] = NoFuel.
Proof.
  apply (RandomInitiaSol_hangs_when_infeasible 2 1 [3] [3] ExC.rnd);
    [by vm_compute|by vm_compute|reflexivity|reflexivity| |
     intros k; unfold ExC.rnd; lia|reflexivity|reflexivity|].
  - intros g Hg. assert (g = 0) as -> by lia. by vm_compute.
  - vm_compute. intros [H _]. by apply H.
Defined.


(** * The population *)

Ltac unbind :=
  repeat match goal with
  | H : (?m ≫= _) = Ok _ |- _ =>
      let a := fresh "a" in let E := fresh "E" in
      apply bind_inv in H as (a & E & H)
  | H : (if decide ?P then _ else _) = Ok _ |- _ => destruct (decide P)
  | H : Ok _ = Ok _ |- _ => injection H as H
  end.

Section PopulationTheory.
Context (N K : Z) (D DT : list (list Qc)) (LB UB : list Z) (rnd : nat → Z).
Hypothesis HN : 0 < N.
Hypothesis HK : 0 < K.
Hypothesis HD : dims D N N.
Hypothesis Hsym : symmetric N D.
Hypothesis Hdiag : zero_diagonal N D.
Hypothesis HDT : is_double N D DT.
Hypothesis HLB : len LB K.
Hypothesis HUB : len UB K.
Hypothesis HB : ∀ g, 0 <= g < K → 0 <= get LB g <= get UB g.
Hypothesis Hrnd : ∀ k, 0 <= rnd k.

Lemma ls_inv_allocated s SG : ls_inv N K D (s, SG, 0) → allocated N K s.
Proof. intros (Hp & _ & [Hdm _] & _ & _ & Hdl). by split. Qed.

Lemma RandLS_settled fuel s partition SG s' partition' SG' cost :
  allocated N K s → sizes_ok N K LB UB partition SG →
  RandLS N K D DT LB UB fuel s partition SG = Ok (s', partition', SG', cost) →
  allocated N K s' ∧ settled N K D LB UB (Sol.mk partition' SG' cost) ∧
  (objective N D partition <= cost)%Qc.
Proof.
  intros Hal Hsz E. pose proof Hsz as (Hp & Hgr & HSG & _).
  destruct (RandLS_sound N K D DT LB UB ltac:(lia) ltac:(lia) HD Hsym Hdiag
    HDT HLB HUB fuel s partition SG s' partition' SG' cost Hal Hp Hgr HSG E)
    as (Hinv & Hpart & Hcost & Hopt & Hle).
  split; [by apply (ls_inv_allocated s' SG')|]. split; [|done].
  split; [|split; [|done]]; simpl.
  - apply (RandLS_sizes N K D DT LB UB ltac:(lia) ltac:(lia) HD Hsym Hdiag
      HDT HLB HUB fuel s partition SG s' partition' SG' cost Hal Hsz E).
  - destruct Hinv as (_ & _ & _ & Hf & _). simpl in Hf. by rewrite Hcost, Hpart.
Qed.

Lemma InitialSol_spec fuel k s S s' S' k' :
  allocated N K s → sol_allocated N K S →
  InitialSol N K D DT LB UB rnd fuel k s S = Ok (s', S', k') →
  allocated N K s' ∧ settled N K D LB UB S'.
Proof.
  intros Hal [Hp HS] E. unfold InitialSol in E.
  apply bind_inv in E as ([[p1 SG1] k1] & E1 & E).
  pose proof (RandomInitiaSol_spec N K LB UB rnd HN HK HLB HUB HB Hrnd
    fuel k (Sol.p S) (Sol.SizeG S) Hp HS) as H1.
  rewrite E1 in H1. simpl in H1.
  apply bind_inv in E as ([[[s2 p2] SG2] c2] & E2 & E).
  injection E as <- <- <-.
  destruct (RandLS_settled fuel s p1 SG1 s2 p2 SG2 c2 Hal H1 E2) as (? & ? & _).
  done.
Qed.


Lemma settled_allocated S : settled N K D LB UB S → sol_allocated N K S.
Proof. intros ((Hp & _ & HS & _) & _). by split. Qed.

Lemma copy_solution_ok src dst :
  sol_allocated N K src → sol_allocated N K dst →
  copy_solution N K src dst = Ok src.
Proof.
  intros [Hp HS] [Hp' HS']. unfold copy_solution.
  rewrite (copy_into_ok N (Sol.p src)) by (done || lia). rewrite bind_Ok.
  rewrite (copy_into_ok K (Sol.SizeG src)) by (done || lia). rewrite bind_Ok.
  by destruct src.
Qed.

Lemma record_best_spec S GS :
  sol_allocated N K S → sol_allocated N K GS →
  ∃ GS', record_best N K S GS = Ok GS' ∧
    ((GS' = GS ∧ (Sol.cost S <= Sol.cost GS)%Qc) ∨
     (GS' = S ∧ (Sol.cost GS < Sol.cost S)%Qc)).
Proof.
  intros HS HGS. unfold record_best.
  destruct (decide (Sol.cost GS < Sol.cost S)%Qc) as [Hlt|Hge].
  - rewrite copy_solution_ok by done. eexists; split; [done|]. by right.
  - eexists; split; [done|]. left. split; [done|]. by apply Qcnot_lt_le.
Qed.

Lemma population_step popSize i Pop GS S :
  0 <= i < popSize → population_inv N K D LB UB popSize i Pop GS →
  settled N K D LB UB S →
  ∃ GS', record_best N K S GS = Ok GS' ∧
    population_inv N K D LB UB popSize (i + 1) (upd Pop i S) GS' ∧
    (Sol.cost GS <= Sol.cost GS')%Qc ∧
    (GS' = GS ∨ GS' = get (upd Pop i S) i).
Proof.
  intros Hi (Hl & HGS & Hdone) HS.
  pose proof (settled_allocated S HS) as HSa.
  destruct (record_best_spec S GS HSa HGS) as (GS' & E & Hcase).
  exists GS'. split; [done|].
  assert (Hget : get (upd Pop i S) i = S) by (rewrite (get_upd_eq Pop popSize); done).
  assert (Hmono : (Sol.cost GS <= Sol.cost GS')%Qc ∧ (Sol.cost S <= Sol.cost GS')%Qc).
  { destruct Hcase as [[-> Hle]|[-> Hlt]]; split;
      try apply Qcle_refl; try done. by apply Qclt_le_weak. }
  split; [|split; [apply Hmono|]].
  - split; [by apply len_upd|]. split.
    { destruct Hcase as [[-> _]|[-> _]]; done. }
    intros j Hj. destruct (decide (j = i)) as [-> |Hne].
    + rewrite Hget. split; [done|apply Hmono].
    + rewrite get_upd_ne by lia. destruct (Hdone j ltac:(lia)) as [Hs Hc].
      split; [done|]. eapply Qcle_trans; [exact Hc|apply Hmono].
  - rewrite Hget. destruct Hcase as [[-> _]|[-> _]]; [by left|by right].
Qed.

Lemma initial_population_spec fuel popSize s Pop CS GS k s' Pop' CS' GS' k' :
  0 <= popSize → allocated N K s → len Pop popSize →
  (∀ i, 0 <= i < popSize → sol_allocated N K (get Pop i)) →
  sol_allocated N K CS → sol_allocated N K GS →
  initial_population N K D DT LB UB rnd fuel popSize (s, Pop, CS, GS, k)
    = Ok (s', Pop', CS', GS', k') →
  population_inv N K D LB UB popSize popSize Pop' GS' ∧
  ((∃ i, 0 <= i < popSize ∧ GS' = get Pop' i) ∨
   GS' = Sol.mk (Sol.p GS) (Sol.SizeG GS) (q (-9999999) 1)).
Proof.
  intros Hpop Hal HPop Hcells HCS HGS E. unfold initial_population in E.
  set (GS0 := Sol.mk (Sol.p GS) (Sol.SizeG GS) (q (-9999999) 1)) in *.
  apply (for_loop_inv_partial
    (fun i (st : search_state) =>
       let '(s, Pop, CS, GS, k) := st in
       allocated N K s ∧ sol_allocated N K CS ∧
       population_inv N K D LB UB popSize i Pop GS ∧
       (∀ j, i <= j < popSize → sol_allocated N K (get Pop j)) ∧
       ((∃ j, 0 <= j < i ∧ GS = get Pop j) ∨ GS = GS0))
    0 popSize _ (s, Pop, CS, GS0, k) (s', Pop', CS', GS', k')) in E.
  - destruct E as (_ & _ & Hinv & _ & Hbest). done.
  - done.
  - split; [done|]. split; [done|]. split; [|split; [|by right]].
    + split; [done|]. split; [done|]. intros j Hj. lia.
    + intros j Hj. apply Hcells. lia.
  - clear E. intros i [[[[s1 Pop1] CS1] GS1] k1] [[[[s2 Pop2] CS2] GS2] k2] Hi
      (Hal1 & HCS1 & Hinv1 & Hrest1 & Hbest1) E.
    pose proof Hinv1 as (HPop1 & HGS1 & _).
    apply bind_inv in E as ([[s3 CS3] k3] & E1 & E).
    destruct (InitialSol_spec fuel k1 s1 CS1 s3 CS3 k3 Hal1 HCS1 E1) as [Hal3 Hset3].
    rewrite (rd_ok Pop1 popSize i) in E by done. rewrite bind_Ok in E.
    rewrite copy_solution_ok in E
      by (try (by apply settled_allocated); apply Hrest1; lia).
    rewrite bind_Ok in E.
    rewrite (wr_ok Pop1 popSize i) in E by done. rewrite bind_Ok in E.
    destruct (population_step popSize i Pop1 GS1 CS3 Hi Hinv1 Hset3)
      as (GS3 & E3 & Hinv3 & _ & Hcase).
    rewrite E3 in E. rewrite bind_Ok in E. injection E as <- <- <- <- <-.
    split; [done|]. split; [by apply settled_allocated|]. split; [done|].
    split.
    + intros j Hj. rewrite get_upd_ne by lia. apply Hrest1. lia.
    + destruct Hcase as [-> | ->].
      * destruct Hbest1 as [(j & Hj & ->)| ->]; [|by right].
        left. exists j. split; [lia|]. by rewrite get_upd_ne by lia.
      * left. exists i. split; [lia|done].
Qed.


(** The light perturbation keeps the sizes of the arrays of the
    globals. *)
Lemma StrongPerturbation_body_Delta Neighbors st st' :
  StrongPerturbation_body N K D LB UB rnd Neighbors st = Ok st' →
  G.Delta st'.1.1.1 = G.Delta st.1.1.1.
Proof.
  destruct st as [[[s SG] count] k]. unfold StrongPerturbation_body.
  intros E. unbind; subst; done.
Qed.

Lemma StrongPerturbation_loop_Delta Neighbors theta fuel : ∀ st st',
  StrongPerturbation_loop N K D LB UB rnd fuel Neighbors theta st = Ok st' →
  G.Delta st'.1.1.1 = G.Delta st.1.1.1.
Proof.
  induction fuel as [|fuel IH]; intros st st'; simpl; [done|].
  intros E. apply bind_inv in E as (st1 & E1 & E).
  apply StrongPerturbation_body_Delta in E1.
  destruct (decide _).
  - rewrite (IH _ _ E). done.
  - by injection E as <-.
Qed.

Lemma StrongPerturbation_sizes
    fuel Neighbors k L s partition SizeGroup s' partition' SizeGroup' k' :
  catalogue_ok N K Neighbors → allocated N K s →
  sizes_ok N K LB UB partition SizeGroup →
  StrongPerturbation N K D LB UB rnd fuel Neighbors k L s partition SizeGroup
    = Ok (s', partition', SizeGroup', k') →
  allocated N K s' ∧ sizes_ok N K LB UB partition' SizeGroup'.
Proof.
  intros Hcat (Hp & Hdm & Hdl) Hsz E. unfold StrongPerturbation in E.
  pose proof Hsz as (Hpart & _).
  rewrite (copy_into_ok N partition (G.p s)) in E by (done || lia).
  rewrite bind_Ok in E.
  apply bind_inv in E as ([[[s2 SG2] count] k2] & Eloop & E).
  assert (Hinv0 : sp_inv N K LB UB (partition, SizeGroup)
                    (G.set_p s partition, SizeGroup, 0, k)).
  { split; [done|]. split; [done|]. split; [done|]. apply moves_none. }
  destruct (StrongPerturbation_loop_spec N K D LB UB rnd ltac:(lia) ltac:(lia)
              HD HLB HUB Hrnd Neighbors (partition, SizeGroup) L fuel
              _ _ Hcat Hinv0 Eloop) as ((Hsz2 & Hdm2 & _) & _).
  apply StrongPerturbation_loop_Delta in Eloop. simpl in Eloop.
  pose proof Hsz2 as (Hp2 & _).
  rewrite (copy_into_ok N (G.p s2) partition) in E by (done || lia).
  rewrite bind_Ok in E. injection E as <- <- <- <-.
  split; [|done]. split; [done|]. split; [done|]. by rewrite Eloop.
Qed.

Lemma perturb_population_spec
    fuel Neighbors L popSize s Pop GS k s' Pop' GS' k' :
  0 <= popSize → catalogue_ok N K Neighbors → allocated N K s →
  len Pop popSize →
  (∀ i, 0 <= i < popSize →
     sizes_ok N K LB UB (Sol.p (get Pop i)) (Sol.SizeG (get Pop i))) →
  sol_allocated N K GS →
  perturb_population N K D DT LB UB rnd fuel Neighbors L popSize (s, Pop, GS, k)
    = Ok (s', Pop', GS', k') →
  population_inv N K D LB UB popSize popSize Pop' GS' ∧
  (Sol.cost GS <= Sol.cost GS')%Qc ∧
  (GS' = GS ∨ ∃ i, 0 <= i < popSize ∧ GS' = get Pop' i).
Proof.
  intros Hpop Hcat Hal HPop Hcells HGS E. unfold perturb_population in E.
  apply (for_loop_inv_partial
    (fun i (st : G.t * list Sol.t * Sol.t * nat) =>
       let '(s, Pop1, GS1, k) := st in
       allocated N K s ∧ population_inv N K D LB UB popSize i Pop1 GS1 ∧
       (∀ j, i <= j < popSize → get Pop1 j = get Pop j) ∧
       (Sol.cost GS <= Sol.cost GS1)%Qc ∧
       (GS1 = GS ∨ ∃ j, 0 <= j < i ∧ GS1 = get Pop1 j))
    0 popSize _ (s, Pop, GS, k) (s', Pop', GS', k')) in E.
  - destruct E as (_ & Hinv & _ & Hmono & Hbest). done.
  - done.
  - split; [done|]. split; [|split; [done|split; [apply Qcle_refl|by left]]].
    split; [done|]. split; [done|]. intros j Hj. lia.
  - clear E. intros i [[[s1 Pop1] GS1] k1] [[[s2 Pop2] GS2] k2] Hi
      (Hal1 & Hinv1 & Hrest1 & Hmono1 & Hbest1) E.
    pose proof Hinv1 as (HPop1 & HGS1 & _).
    rewrite (rd_ok Pop1 popSize i) in E by done. rewrite bind_Ok in E.
    rewrite (Hrest1 i) in E by lia.
    apply bind_inv in E as ([[[s3 p3] SG3] k3] & E1 & E).
    destruct (StrongPerturbation_sizes fuel Neighbors k1 L s1 _ _ s3 p3 SG3 k3
      Hcat Hal1 (Hcells i Hi) E1) as [Hal3 Hsz3].
    apply bind_inv in E as ([[[s4 p4] SG4] c4] & E2 & E).
    destruct (RandLS_settled fuel s3 p3 SG3 s4 p4 SG4 c4 Hal3 Hsz3 E2)
      as (Hal4 & Hset4 & _).
    cbv zeta in E.
    rewrite (wr_ok Pop1 popSize i) in E by done. rewrite bind_Ok in E.
    destruct (population_step popSize i Pop1 GS1 _ Hi Hinv1 Hset4)
      as (GS3 & E3 & Hinv3 & Hmono3 & Hcase).
    rewrite E3 in E. rewrite bind_Ok in E. injection E as <- <- <- <-.
    split; [done|]. split; [done|]. split; [|split].
    + intros j Hj. rewrite get_upd_ne by lia. apply Hrest1. lia.
    + eapply Qcle_trans; [exact Hmono1|exact Hmono3].
    + destruct Hcase as [-> | ->].
      * destruct Hbest1 as [-> |(j & Hj & ->)]; [by left|].
        right. exists j. split; [lia|]. by rewrite get_upd_ne by lia.
      * right. exists i. split; [lia|done].
Qed.


End PopulationTheory.

(** * The choice of the second parent *)

Section Mate.
Context (rnd : nat → Z).
Hypothesis Hrnd : ∀ k, 0 <= rnd k.

(** X10.  For a population of more than one member the loop that chooses
    the second parent ends after one or two steps, on a member other than
    [i]. *)
Theorem pick_mate_other fuel popSize i k :
  1 < popSize → 0 <= i < popSize →
  ∃ pickS, pick_mate rnd (S (S fuel)) popSize i k = Ok (pickS, S k) ∧
           0 <= pickS < popSize ∧ pickS ≠ i.
Proof.
  intros Hpop Hi. unfold pick_mate, c_mod.
  destruct (decide (popSize = 0)); [lia|]. rewrite bind_Ok.
  pose proof (Z.rem_bound_pos (rnd k) popSize (Hrnd k) ltac:(lia)) as H0.
  set (p0 := Z.rem (rnd k) popSize) in *. simpl. unfold c_mod.
  destruct (decide (popSize = 0)); [lia|]. rewrite !bind_Ok.
  pose proof (Z.rem_bound_pos (p0 + 1) popSize ltac:(lia) ltac:(lia)) as H1.
  destruct (decide (Z.rem (p0 + 1) popSize = i)) as [E1|Hne1].
  - pose proof (Z.rem_bound_pos (i + 1) popSize ltac:(lia) ltac:(lia)) as H2.
    rewrite E1.
    assert (Hne2 : Z.rem (i + 1) popSize ≠ i).
    { destruct (decide (i + 1 < popSize)).
      - rewrite Z.rem_small by lia. lia.
      - replace (i + 1) with popSize by lia. rewrite Z.rem_same by lia. lia. }
    destruct (decide (Z.rem (i + 1) popSize = i)); [done|].
    rewrite bind_Ok. eexists; split; [done|]. done.
  - rewrite bind_Ok. eexists; split; [done|]. done.
Qed.

End Mate.

(** * The population on the instance [Ex1] *)

Lemma Ex1_bounds g : 0 <= g < Ex1.K → 0 <= get Ex1.LB g <= get Ex1.UB g.
Proof.
  intros Hg. unfold Ex1.K in Hg.
  assert (g = 0 ∨ g = 1) as [->| ->] by lia; by vm_compute.
Qed.

Lemma ExC_rnd_nonneg k : 0 <= ExC.rnd k.
Proof. unfold ExC.rnd. lia. Qed.

Lemma ExP_catalogue_ok : catalogue_ok Ex1.N Ex1.K ExP.Neighbors.
Proof.
  destruct (BuildNeighbors_ok 4 2 (replicate 14 (Nb.mk 0 0 0 0 0)))
    as (nbs & E & Hok); [lia|lia|reflexivity|].
  unfold ExP.Neighbors. by rewrite E.
Qed.

Lemma two_cases {P : Z → Prop} : P 0 → P 1 → ∀ i, 0 <= i < 2 → P i.
Proof. intros H0 H1 i Hi. assert (i = 0 ∨ i = 1) as [->| ->] by lia; done. Qed.




(** X10 for the second of three members. *)
Lemma pick_mate_other_witness :
  ∃ pickS, pick_mate ExC.rnd 2 3 1 0 = Ok (pickS, 1%nat) ∧
           0 <= pickS < 3 ∧ pickS ≠ 1.
Proof. apply (pick_mate_other ExC.rnd ExC_rnd_nonneg 0 3 1 0); lia. Defined.


(** * The acceptance test on all costs *)

Lemma Q_ratio_neg (a b : Q) : (b < 0)%Q → (a < b)%Q → (1 < a * / b)%Q.
Proof.
  intros Hb Hab.
  assert (E : (a * / b == (- a) / (- b))%Q) by (field; lra).
  rewrite E. apply Qlt_shift_div_l; lra.
Qed.

Lemma Q_ratio_pos (a b : Q) : (0 < b)%Q → (a < b)%Q → (a * / b < 1)%Q.
Proof.
  intros Hb Hab. change (a * / b)%Q with (a / b)%Q.
  apply Qlt_shift_div_r; lra.
Qed.

Lemma Qc_ratio_above_one (a b : Qc) : (b < 0)%Qc → (a < b)%Qc → (1 < a / b + 0)%Qc.
Proof.
  intros Hb Hab. pose proof (Q_ratio_neg (this a) (this b) Hb Hab) as H.
  unfold Qclt, Qcplus, Qcdiv, Qcmult, Qcinv, Q2Qc. simpl this.
  rewrite !Qred_correct. set (r := (this a * / this b)%Q) in *. clearbody r. lra.
Qed.

Lemma Qc_ratio_below_one (a b : Qc) : (0 < b)%Qc → (a < b)%Qc → ¬ (1 < a / b + 0)%Qc.
Proof.
  intros Hb Hab Hlt. pose proof (Q_ratio_pos (this a) (this b) Hb Hab) as H.
  unfold Qclt, Qcplus, Qcdiv, Qcmult, Qcinv, Q2Qc in Hlt. simpl this in Hlt.
  rewrite !Qred_correct in Hlt.
  set (r := (this a * / this b)%Q) in *. clearbody r. lra.
Qed.

(** X11.  For [N >= 1] the test that decides whether an offspring is
    copied over its parent depends on the two costs alone: the offspring
    replaces the parent exactly when it does not cost less, or when the
    cost of the parent is negative.  The partitions are read and never
    count. *)
Theorem offspring_replaces_by_cost N K Offs_p Pop_p Offs_cost Pop_cost :
  1 <= N → len Offs_p N → len Pop_p N →
  offspring_replaces N K Offs_p Pop_p Offs_cost Pop_cost
    = Ok (bool_decide ((Pop_cost <= Offs_cost)%Qc ∨ (Pop_cost < 0)%Qc)).
Proof.
  intros HN H1 H2. unfold offspring_replaces.
  destruct (decide (Pop_cost <= Offs_cost)%Qc) as [Hle|Hgt].
  { rewrite bool_decide_eq_true_2 by (by left). done. }
  apply Qcnot_le_lt in Hgt.
  rewrite (FitRadioAndDis_is_ratio N K HN) by done. rewrite bind_Ok. f_equal.
  unfold dbl_div. destruct (decide (Pop_cost = 0%Qc)) as [->|Hne].
  - destruct (decide (0 < Offs_cost)%Qc) as [Hpos|_].
    { exfalso. apply (Qclt_not_le _ _ Hpos). by apply Qclt_le_weak. }
    destruct (decide (Offs_cost < 0)%Qc); [|done]. simpl.
    symmetry. apply bool_decide_eq_false_2. intros [Hle|Hlt].
    + by apply Qcle_not_lt in Hle.
    + by apply Qclt_not_eq in Hlt.
  - simpl. destruct (decide (Pop_cost < 0)%Qc) as [Hneg|Hnn].
    + rewrite (bool_decide_eq_true_2 (_ ∨ _)) by (by right).
      apply bool_decide_eq_true_2. by apply Qc_ratio_above_one.
    + assert (Hpos : (0 < Pop_cost)%Qc).
      { apply Qcnot_le_lt. intros Hle. apply Hnn.
        apply Qcle_lt_or_eq in Hle as [Hlt|Heq]; [done|]. by destruct Hne. }
      rewrite (bool_decide_eq_false_2 (_ ∨ _)).
      * apply bool_decide_eq_false_2. by apply Qc_ratio_below_one.
      * intros [Hle|Hlt]; [by apply Qcle_not_lt in Hle|done].
Qed.

(** X11 at the child and the parent of [Ex5]. *)
Lemma offspring_replaces_by_cost_witness :
  offspring_replaces Ex5.N Ex5.K Ex5.child Ex5.parent Ex5.child_cost Ex5.parent_cost
    = Ok (bool_decide ((Ex5.parent_cost <= Ex5.child_cost)%Qc ∨
                       (Ex5.parent_cost < 0)%Qc)).
Proof.
  apply (offspring_replaces_by_cost Ex5.N Ex5.K Ex5.child Ex5.parent);
    [by vm_compute|reflexivity|reflexivity].
Defined.

(** * The selection of the heavy perturbation on whole numbers *)

Lemma trunc_of_Z z : trunc (Qc_of_Z z) = z.
Proof.
  unfold trunc, Qc_of_Z. simpl. by rewrite Z.quot_1_r.
Qed.

Section SelectTheory.
Context (N K : Z) (LB : list Z) (s : G.t).
Hypothesis HN : 0 <= N.
Hypothesis HK : 0 <= K.
Hypothesis HLB : len LB K.
Hypothesis Hp : len (G.p s) N.
Hypothesis Hdm : dims (G.Delta_Matrix s) N K.
Hypothesis Hint : ∀ i, 0 <= i < N → 0 <= get (G.p s) i < K →
  integral (get2 (G.Delta_Matrix s) i (get (G.p s) i)) ∧
  (get2 (G.Delta_Matrix s) i (get (G.p s) i) < Qc_of_Z 99999999)%Qc.

Lemma scan_step k i mm :
  0 <= k < K → 0 <= i < N → scan_inv N s k i mm →
  ∃ mm',
    (let '(Minsd, MinE) := mm in
     pi ← rd (G.p s) i;
     if decide (pi = k) then
       d ← rd2 (G.Delta_Matrix s) i k;
       if decide (d < Qc_of_Z Minsd)%Qc then Ok (trunc d, i) else Ok mm
     else Ok mm) = Ok mm' ∧ scan_inv N s k (i + 1) mm'.
Proof.
  intros Hk Hi Hinv. destruct mm as [Minsd MinE]. rds N.
  destruct (decide (get (G.p s) i = k)) as [Hmem|Hno].
  - rd2s N K. destruct (Hint i Hi ltac:(lia)) as [Hz Hb]. rewrite Hmem in Hz, Hb.
    destruct (decide _) as [Hlt|Hge].
    + eexists; split; [done|]. right. simpl. split; [lia|]. split; [done|].
      split; [done|]. intros i' Hi' Hm'.
      destruct (decide (i' = i)) as [->|Hne]; [apply Qcle_refl|].
      destruct Hinv as [[Hnone _]|(_ & _ & Heq & Hmin)].
      * destruct (Hnone i' ltac:(lia) Hm').
      * simpl in Heq, Hmin. apply Qclt_le_weak.
        eapply Qclt_le_trans; [exact Hlt|]. rewrite Heq. apply Hmin; [lia|done].
    + eexists; split; [done|]. right.
      destruct Hinv as [[Hnone [= -> ->]]|(Hr & Hme & Heq & Hmin)].
      { by destruct Hge. }
      simpl in *. split; [lia|]. split; [done|]. split; [done|].
      intros i' Hi' Hm'. destruct (decide (i' = i)) as [->|Hne].
      * rewrite <- Heq. by apply Qcnot_lt_le.
      * apply Hmin; [lia|done].
  - eexists; split; [done|].
    destruct Hinv as [[Hnone ->]|(Hr & Hme & Heq & Hmin)].
    + left. split; [|done]. intros i' Hi'.
      destruct (decide (i' = i)) as [->|Hne]; [done|]. apply Hnone. lia.
    + right. split; [lia|]. split; [done|]. split; [done|].
      intros i' Hi' Hm'. destruct (decide (i' = i)) as [->|Hne]; [done|].
      apply Hmin; [lia|done].
Qed.


End SelectTheory.

Lemma four_cases {P : Z → Prop} :
  P 0 → P 1 → P 2 → P 3 → ∀ i, 0 <= i < 4 → P i.
Proof.
  intros H0 H1 H2 H3 i Hi.
  assert (i = 0 ∨ i = 1 ∨ i = 2 ∨ i = 3) as [->|[->|[->| ->]]] by lia; done.
Qed.



(** * The table of gains and the group diversities *)

Lemma zsum_indicator n x (h : Z → Qc) :
  0 <= x < Z.of_nat n →
  zsum n (fun g => if decide (x = g) then h g else 0%Qc) = h x.
Proof.
  intros Hx. rewrite (zsum_change n (fun _ => 0%Qc) _ x); [|done|].
  - rewrite zsum_zero. destruct (decide (x = x)); [ring|done].
  - intros k _ Hne. destruct (decide (x = k)); [congruence|done].
Qed.

Section Tables.
Context (N K : Z) (D : list (list Qc)).
Hypothesis HN : 0 <= N.
Hypothesis HK : 0 <= K.
Hypothesis HD : dims D N N.
Hypothesis Hsym : symmetric N D.
Hypothesis Hdiag : zero_diagonal N D.

Lemma gain_loop (m : list (list Qc)) (P : list Z) (dl0 : list (list Qc)) :
  dims m N K → len P N → in_groups K P → dims dl0 N K →
  ∃ dl,
    for_loop 0 N (fun i dl =>
      for_loop 0 K (fun j dl =>
        a ← rd2 m i j;
        pi ← rd P i;
        b ← rd2 m i pi;
        wr2 dl i j (a - b)%Qc) dl) dl0 = Ok dl ∧
    dims dl N K ∧
    ∀ i j, 0 <= i < N → 0 <= j < K →
      get2 dl i j = (get2 m i j - get2 m i (get P i))%Qc.
Proof.
  intros Hm HP Hgr Hdl.
  destruct (for_loop2_inv
    (fun i j (dl : list (list Qc)) => dims dl N K ∧
       ∀ i' j', 0 <= i' < N → 0 <= j' < K → i' < i ∨ (i' = i ∧ j' < j) →
         get2 dl i' j' = (get2 m i' j' - get2 m i' (get P i'))%Qc)
    N (fun _ => 0) K
    (fun i j dl => a ← rd2 m i j; pi ← rd P i; b ← rd2 m i pi;
                   wr2 dl i j (a - b)%Qc) dl0)
    as (dl & E & Hd & Hv); [done|done|split; [done|lia]| | |].
  - intros i j dl Hi Hj [Hd Hv].
    pose proof (in_groups_get N K P i HP Hgr Hi) as Hpi.
    rd2s N K. rds N. rd2s N K. wr2s N K.
    eexists; split; [done|]. split; [by apply dims_upd2|].
    intros i' j' Hi' Hj' Hlt. rewrite (get2_upd2 _ N K) by (done || lia).
    destruct (decide (i = i' ∧ j = j')) as [[<- <-]|Hne]; [done|].
    apply Hv; [done|done|lia].
  - intros i dl Hi [Hd Hv]. split; [done|]. intros. apply Hv; lia.
  - exists dl. split; [exact E|]. split; [done|]. intros. apply Hv; lia.
Qed.

Lemma Build_Delta_Matrix_tables s s' :
  len (G.p s) N → in_groups K (G.p s) →
  dims (G.Delta_Matrix s) N K → dims (G.Delta s) N K →
  Build_Delta_Matrix N K D s = Ok s' →
  G.p s' = G.p s ∧
  is_delta_matrix N D K (G.p s) (G.Delta_Matrix s') ∧
  dims (G.Delta s') N K ∧
  ∀ i g, 0 <= i < N → 0 <= g < K →
    get2 (G.Delta s') i g
    = (get2 (G.Delta_Matrix s') i g
       - get2 (G.Delta_Matrix s') i (get (G.p s) i))%Qc.
Proof.
  intros Hp Hgr Hdm Hdl E. pose proof E as E0.
  destruct (Build_Delta_Matrix_ok N K D HN HK HD s Hp Hgr Hdm Hdl)
    as (m' & dl' & E' & Hdm' & Hdl').
  rewrite E' in E0. injection E0 as <-. simpl.
  split; [done|]. split; [done|]. split; [done|].
  unfold Build_Delta_Matrix in E.
  apply bind_inv in E as (s1 & E1 & E).
  destruct (Clear_Delta_Matrix_ok N K HN HK s Hdm) as (m0 & E1' & _).
  rewrite E1' in E1. injection E1 as <-.
  apply bind_inv in E as (m & E2 & E). cbv zeta in E.
  apply bind_inv in E as (dl & E3 & E).
  apply bind_inv in E as (f & E4 & E). injection E as -> -> Hf.
  destruct Hdm' as [Hd' Hv'].
  destruct (gain_loop m' (G.p s) (G.Delta s) Hd' Hp Hgr Hdl) as (dl1 & Eg & _ & Hg).
  assert (Ok dl' = Ok dl1) as [= ->] by (rewrite <- E3; exact Eg).
  done.
Qed.


(** For every member of a group the loop adds its group sum. *)
Lemma Build_GroupDiv_For_Crossover_sums P gDiv :
  len P N → in_groups K P → len gDiv K →
  ∃ gDiv',
    Build_GroupDiv_For_Crossover N K D P gDiv = Ok gDiv' ∧ len gDiv' K ∧
    ∀ g, 0 <= g < K →
      get gDiv' g
      = zsum (Z.to_nat N) (fun i =>
          if decide (get P i = g) then group_sum N D P i g else 0%Qc).
Proof.
  intros HP Hgr Hg. unfold Build_GroupDiv_For_Crossover.
  destruct (for_loop_inv
    (fun i (a : list Qc) => len a K ∧ ∀ g, 0 <= g < i → get a g = 0%Qc)
    0 K (fun i gDiv => wr gDiv i 0%Qc) gDiv) as (z & -> & Hz & Hzero);
    [done|split; [done|lia]| |].
  { intros i a Hi [Ha Hv]. wrs K. eexists; split; [done|].
    split; [by apply len_upd|]. intros g Hg'. rewrite (get_upd a K) by (done || lia).
    destruct (decide (i = g)); [done|]. apply Hv. lia. }
  rewrite bind_Ok.
  destruct (for_loop2_inv
    (fun i j (a : list Qc) => len a K ∧
       ∀ g, 0 <= g < K →
         get a g
         = (zsum (Z.to_nat i) (fun i' =>
              if decide (get P i' = g) then group_sum N D P i' g else 0)
            + if decide (get P i = g) then partial_sum D P j i g else 0)%Qc)
    N (fun _ => 0) N
    (fun i j gDiv =>
       pi ← rd P i; pj ← rd P j;
       if decide (pi = pj) then
         x ← rd gDiv pi; d ← rd2 D i j; wr gDiv pi (x + d)%Qc
       else Ok gDiv) z) as (a & -> & Ha & Hv); [done|done| | | |].
  - split; [done|]. intros g Hg'. rewrite Hzero by lia. simpl.
    unfold partial_sum. simpl. destruct (decide _); ring.
  - intros i j a Hi Hj [Ha Hv].
    pose proof (in_groups_get N K P i HP Hgr Hi) as Hpi.
    rds N. rds N. destruct (decide (get P i = get P j)) as [Heq|Hne].
    + rds K. rd2s N N. wrs K. eexists; split; [done|].
      split; [by apply len_upd|]. intros g Hg'.
      rewrite (get_upd a K) by (done || lia). rewrite partial_sum_step by lia.
      destruct (decide (get P i = g)) as [<-|Hng].
      * rewrite Hv by done. destruct (decide (get P i = get P i)); [|done].
        destruct (decide (get P j = get P i)); [ring|congruence].
      * rewrite Hv by done. destruct (decide (get P i = g)); [congruence|done].
    + eexists; split; [done|]. split; [done|]. intros g Hg'.
      rewrite Hv by done. rewrite partial_sum_step by lia.
      destruct (decide (get P i = g)) as [<-|Hng]; [|done].
      destruct (decide (get P j = get P i)); [congruence|ring].
  - intros i a Hi [Ha Hv]. split; [done|]. intros g Hg'. rewrite Hv by done.
    replace (Z.to_nat (i + 1)) with (S (Z.to_nat i)) by lia. simpl.
    rewrite Z2Nat.id by lia. unfold partial_sum at 2. simpl.
    unfold partial_sum, group_sum.
    destruct (decide (get P i = g)), (decide (get P (i + 1) = g)); ring.
  - exists a. split; [done|]. split; [done|]. intros g Hg'.
    rewrite Hv by done. unfold partial_sum. simpl.
    destruct (decide _); ring.
Qed.


End Tables.




(** * The exchange method: the store *)

Lemma list_ext_get {A} `{Inhabited A} (l l' : list A) n :
  len l n → len l' n → (∀ k, 0 <= k < n → get l k = get l' k) → l = l'.
Proof.
  unfold len. intros Hl Hl' E. apply list_eq_same_length with (length l);
    [lia|lia|].
  intros k x y Hk Hx Hy. specialize (E (Z.of_nat k) ltac:(lia)).
  unfold get in E. rewrite Nat2Z.id in E.
  rewrite (list_lookup_total_correct _ _ _ Hx) in E.
  rewrite (list_lookup_total_correct _ _ _ Hy) in E. done.
Qed.

Lemma upd_same {A} `{Inhabited A} (l : list A) n i :
  len l n → 0 <= i < n → upd l i (get l i) = l.
Proof.
  intros Hl Hi. apply (list_ext_get _ _ n); [by apply len_upd|done|].
  intros k Hk. rewrite (get_upd l n) by (done || lia).
  destruct (decide (i = k)) as [->|]; done.
Qed.

Lemma upd_upd {A} `{Inhabited A} (l : list A) i x y :
  upd (upd l i x) i y = upd l i y.
Proof. unfold upd. apply list_insert_insert_eq. Qed.

Lemma len_self {A} (l : list A) : len l (Z.of_nat (length l)).
Proof. reflexivity. Qed.

Section Store.
Context (P : list El.t) (Ns : list Nd.t).

Lemma data_of_ok a :
  0 <= a < Z.of_nat (length Ns) →
  data_of (mk_store P Ns) a = Ok (Nd.data (get Ns a)).
Proof.
  intros Ha. unfold data_of. simpl.
  by rewrite (rd_ok Ns _ a (len_self _) Ha).
Qed.

Lemma element_of_ok a :
  0 <= a < Z.of_nat (length Ns) →
  0 <= Nd.data (get Ns a) < Z.of_nat (length P) →
  element_of (mk_store P Ns) a = Ok (get P (Nd.data (get Ns a))).
Proof.
  intros Ha Hd. unfold element_of. rewrite data_of_ok by done. rewrite bind_Ok.
  simpl. by rewrite (rd_ok P _ _ (len_self _) Hd).
Qed.

Lemma update_element_ok a f :
  0 <= a < Z.of_nat (length Ns) →
  0 <= Nd.data (get Ns a) < Z.of_nat (length P) →
  update_element (mk_store P Ns) a f
  = Ok (mk_store (upd P (Nd.data (get Ns a)) (f (get P (Nd.data (get Ns a))))) Ns).
Proof.
  intros Ha Hd. unfold update_element. rewrite data_of_ok by done.
  rewrite bind_Ok. simpl. rewrite (rd_ok P _ _ (len_self _) Hd).
  rewrite bind_Ok. rewrite (wr_ok P _ _ _ (len_self _) Hd). done.
Qed.

Lemma update_data_ok a d :
  0 <= a < Z.of_nat (length Ns) →
  update_data (mk_store P Ns) a d
  = Ok (mk_store P (upd Ns a (Nd.set_data (get Ns a) d))).
Proof.
  intros Ha. unfold update_data. simpl.
  rewrite (rd_ok Ns _ a (len_self _) Ha). rewrite bind_Ok.
  rewrite (wr_ok Ns _ a _ (len_self _) Ha). done.
Qed.

End Store.

Lemma length_upd {A} (l : list A) i x : length (upd l i x) = length l.
Proof. unfold upd. apply length_insert. Qed.

Lemma set_ID_same e i : El.ID e = i → El.set_ID e i = e.
Proof. intros <-. by destruct e. Qed.

Lemma set_ID_twice e i j : El.set_ID (El.set_ID e j) i = El.set_ID e i.
Proof. done. Qed.

Lemma set_cluster_back e c : El.set_cluster (El.set_cluster e c) (El.cluster e) = e.
Proof. by destruct e. Qed.

Lemma set_data_back nd d : Nd.set_data (Nd.set_data nd d) (Nd.data nd) = nd.
Proof. by destruct nd. Qed.

Lemma swap_ok n M PTR_NODES i j :
  linked n M PTR_NODES → 0 <= i < n → 0 <= j < n →
  swap i j (M, PTR_NODES) = Ok (swapped M PTR_NODES i j).
Proof.
  intros [HPTR Hcells] Hi Hj. destruct M as [P Ns].
  destruct (Hcells i Hi) as (Ha & Hd & HID1).
  destruct (Hcells j Hj) as (Hb & He & HID2).
  unfold element_at in HID1, HID2. simpl in *.
  unfold swap. rds n. rds n.
  rewrite !(element_of_ok P Ns (get PTR_NODES i)) by done.
  rewrite !(element_of_ok P Ns (get PTR_NODES j)) by done.
  rewrite !bind_Ok. rewrite HID1, HID2.
  wrs n. assert (HPTR1 : len (upd PTR_NODES i (get PTR_NODES j)) n)
    by (by apply len_upd).
  wrs n.
  unfold swapped, label, element_at. simpl.
  set (one := get PTR_NODES i) in *. set (two := get PTR_NODES j) in *.
  set (d1 := Nd.data (get Ns one)) in *.
  set (d2 := Nd.data (get Ns two)) in *.
  rewrite update_element_ok by done. rewrite bind_Ok. fold d1.
  rewrite update_element_ok by (rewrite ?length_upd; done).
  rewrite bind_Ok. fold d1.
  rewrite (get_upd_eq P (Z.of_nat (length P))) by done. rewrite upd_upd.
  rewrite set_ID_twice, set_ID_same by done.
  rewrite (upd_same P (Z.of_nat (length P))) by done.
  rewrite update_element_ok by (rewrite ?length_upd; done). rewrite bind_Ok.
  rewrite update_element_ok by (rewrite ?length_upd; done). rewrite bind_Ok.
  rewrite (data_of_ok _ _ one) by (rewrite ?length_upd; done). rewrite bind_Ok.
  rewrite (data_of_ok _ _ two) by (rewrite ?length_upd; done). rewrite bind_Ok.
  rewrite (update_data_ok _ _ one) by (rewrite ?length_upd; done).
  rewrite bind_Ok.
  rewrite (update_data_ok _ _ two) by (rewrite ?length_upd; done).
  rewrite bind_Ok.
  done.
Qed.

Lemma next_upd_set_data (Ns : list Nd.t) a d x :
  Nd.next (get (upd Ns a (Nd.set_data (get Ns a) d)) x) = Nd.next (get Ns x).
Proof.
  unfold get, upd. destruct (decide (Z.to_nat a = Z.to_nat x)) as [E|E].
  - rewrite E. destruct (decide (Z.to_nat x < length Ns)%nat).
    + by rewrite list_lookup_total_insert_eq.
    + by rewrite list_insert_ge by lia.
  - by rewrite list_lookup_total_insert_ne.
Qed.

(** ** The state after an exchange *)

Section Swapped.
Context (n : Z) (M : store) (PTR_NODES : list Z) (i j : Z).
Hypothesis Hlinked : linked n M PTR_NODES.
Hypothesis Hi : 0 <= i < n.
Hypothesis Hj : 0 <= j < n.
Hypothesis Hij : i ≠ j.

Lemma linked_injective k k' :
  0 <= k < n → 0 <= k' < n → k ≠ k' →
  get PTR_NODES k ≠ get PTR_NODES k' ∧
  Nd.data (get (NODES M) (get PTR_NODES k))
    ≠ Nd.data (get (NODES M) (get PTR_NODES k')).
Proof.
  intros Hk Hk' Hne. destruct Hlinked as [_ Hc].
  destruct (Hc k Hk) as (_ & _ & HID). destruct (Hc k' Hk') as (_ & _ & HID').
  unfold element_at in *. split; intros E; rewrite E in HID; congruence.
Qed.

Lemma swapped_lengths :
  length (POINTS (swapped M PTR_NODES i j).1) = length (POINTS M) ∧
  length (NODES (swapped M PTR_NODES i j).1) = length (NODES M) ∧
  len (swapped M PTR_NODES i j).2 n.
Proof.
  unfold swapped. simpl. rewrite !length_upd. split; [done|]. split; [done|].
  apply len_upd, len_upd, Hlinked.
Qed.

Lemma swapped_PTR k :
  0 <= k < n →
  get (swapped M PTR_NODES i j).2 k = get PTR_NODES (transpose i j k).
Proof.
  intros Hk. destruct Hlinked as [HP _]. unfold swapped, transpose. simpl.
  rewrite (get_upd _ n) by (try apply len_upd; done || lia).
  rewrite (get_upd _ n) by (done || lia).
  destruct (decide (j = k)) as [->|]; destruct (decide (i = k)) as [->|];
    try done; repeat destruct (decide _); congruence.
Qed.

Lemma swapped_next x :
  Nd.next (get (NODES (swapped M PTR_NODES i j).1) x) = Nd.next (get (NODES M) x).
Proof. unfold swapped. simpl. by rewrite !next_upd_set_data. Qed.

Lemma swapped_data x :
  0 <= x < Z.of_nat (length (NODES M)) →
  Nd.data (get (NODES (swapped M PTR_NODES i j).1) x)
  = if decide (x = get PTR_NODES i)
    then Nd.data (get (NODES M) (get PTR_NODES j))
    else if decide (x = get PTR_NODES j)
         then Nd.data (get (NODES M) (get PTR_NODES i))
         else Nd.data (get (NODES M) x).
Proof.
  intros Hx. destruct Hlinked as [HP Hc].
  destruct (Hc i Hi) as (Ha & _). destruct (Hc j Hj) as (Hb & _).
  destruct (linked_injective i j Hi Hj Hij) as [Hab _].
  unfold swapped. simpl.
  set (a := get PTR_NODES i) in *. set (b := get PTR_NODES j) in *.
  set (NN := Z.of_nat (length (NODES M))) in *.
  assert (HlN : len (NODES M) NN) by reflexivity.
  assert (HlN1 : len (upd (NODES M) a
            (Nd.set_data (get (NODES M) a) (Nd.data (get (NODES M) b)))) NN)
    by (by apply len_upd).
  rewrite (get_upd _ NN) by (done || lia).
  destruct (decide (b = x)) as [<-|Hbx].
  - destruct (decide (b = a)); [congruence|].
    destruct (decide (b = b)); [done|done].
  - rewrite (get_upd _ NN) by (done || lia).
    destruct (decide (a = x)) as [<-|Hax].
    + destruct (decide (a = a)); [done|done].
    + destruct (decide (x = a)); [congruence|].
      destruct (decide (x = b)); [congruence|done].
Qed.

Lemma swapped_point y :
  0 <= y < Z.of_nat (length (POINTS M)) →
  get (POINTS (swapped M PTR_NODES i j).1) y
  = if decide (y = Nd.data (get (NODES M) (get PTR_NODES i)))
    then El.set_cluster (get (POINTS M) y) (label M PTR_NODES j)
    else if decide (y = Nd.data (get (NODES M) (get PTR_NODES j)))
         then El.set_cluster (get (POINTS M) y) (label M PTR_NODES i)
         else get (POINTS M) y.
Proof.
  intros Hy. destruct Hlinked as [HP Hc].
  destruct (Hc i Hi) as (_ & Hd & _). destruct (Hc j Hj) as (_ & He & _).
  destruct (linked_injective i j Hi Hj Hij) as [_ Hde].
  unfold swapped, label, element_at. simpl.
  set (d := Nd.data (get (NODES M) (get PTR_NODES i))) in *.
  set (e := Nd.data (get (NODES M) (get PTR_NODES j))) in *.
  set (NP := Z.of_nat (length (POINTS M))) in *.
  assert (HlP : len (POINTS M) NP) by reflexivity.
  assert (HlP1 : len (upd (POINTS M) d
            (El.set_cluster (get (POINTS M) d) (El.cluster (get (POINTS M) e)))) NP)
    by (by apply len_upd).
  rewrite (get_upd _ NP) by (done || lia).
  destruct (decide (e = y)) as [<-|Hey].
  - destruct (decide (e = d)); [congruence|].
    rewrite (get_upd _ NP) by (done || lia).
    destruct (decide (d = e)); [congruence|].
    destruct (decide (e = e)); [done|done].
  - rewrite (get_upd _ NP) by (done || lia).
    destruct (decide (d = y)) as [<-|Hdy].
    + destruct (decide (d = d)); [done|done].
    + destruct (decide (y = d)); [congruence|].
      destruct (decide (y = e)); [congruence|done].
Qed.

Lemma transpose_range k : 0 <= k < n → 0 <= transpose i j k < n.
Proof. intros Hk. unfold transpose. repeat destruct (decide _); lia. Qed.

Lemma swapped_element_at k :
  0 <= k < n →
  element_at (swapped M PTR_NODES i j).1 (swapped M PTR_NODES i j).2 k
  = El.set_cluster (element_at M PTR_NODES k)
      (label M PTR_NODES (transpose i j k)).
Proof.
  intros Hk. unfold element_at at 1. rewrite swapped_PTR by done.
  pose proof (transpose_range k Hk) as Ht.
  destruct Hlinked as [HP Hc].
  destruct (Hc _ Ht) as (Hx & _).
  rewrite swapped_data by done.
  destruct (Hc i Hi) as (Ha & Hd & _). destruct (Hc j Hj) as (Hb & He & _).
  destruct (Hc k Hk) as (_ & Hy & _).
  destruct (linked_injective i j Hi Hj Hij) as [Hab Hde].
  unfold transpose in *. destruct (decide (k = i)) as [->|Hki].
  - destruct (decide (get PTR_NODES j = get PTR_NODES i)); [congruence|].
    destruct (decide (get PTR_NODES j = get PTR_NODES j)); [|done].
    rewrite swapped_point by done.
    destruct (decide _); [|done]. done.
  - destruct (decide (k = j)) as [->|Hkj].
    + destruct (decide (get PTR_NODES i = get PTR_NODES i)); [|done].
      rewrite swapped_point by done.
      destruct (decide _); [congruence|].
      destruct (decide _); [|done]. done.
    + destruct (linked_injective k i Hk Hi Hki) as [Hxa Hyd].
      destruct (linked_injective k j Hk Hj Hkj) as [Hxb Hye].
      destruct (decide _); [congruence|]. destruct (decide _); [congruence|].
      rewrite swapped_point by done.
      destruct (decide _); [congruence|]. destruct (decide _); [congruence|].
      unfold label, element_at. by destruct (get (POINTS M) _).
Qed.

Lemma swapped_label k :
  0 <= k < n →
  label (swapped M PTR_NODES i j).1 (swapped M PTR_NODES i j).2 k
  = label M PTR_NODES (transpose i j k).
Proof. intros Hk. unfold label at 1. by rewrite swapped_element_at. Qed.

Lemma swapped_linked :
  linked n (swapped M PTR_NODES i j).1 (swapped M PTR_NODES i j).2.
Proof.
  destruct swapped_lengths as (HlP & HlN & HlT). split; [done|].
  intros k Hk. pose proof (swapped_element_at k Hk) as Hel.
  rewrite swapped_PTR by done. rewrite HlP, HlN.
  pose proof (transpose_range k Hk) as Ht.
  destruct Hlinked as [HP Hc]. destruct (Hc _ Ht) as (Hx & _).
  destruct (Hc k Hk) as (_ & Hy & HID).
  split; [done|]. split.
  - rewrite swapped_data by done.
    destruct (Hc i Hi) as (_ & Hd & _). destruct (Hc j Hj) as (_ & He & _).
    repeat destruct (decide _); try done.
    destruct (Hc _ Ht) as (_ & Hz & _). done.
  - rewrite Hel. simpl. done.
Qed.

Lemma transpose_involutive k : transpose i j (transpose i j k) = k.
Proof. unfold transpose. repeat destruct (decide _); congruence. Qed.

Lemma isum_transpose (h : Z → Z) :
  isum (Z.to_nat n) (fun k => h (transpose i j k)) = isum (Z.to_nat n) h.
Proof.
  rewrite (isum_change _ (fun k => if decide (k = i) then h j else h k) _ j).
  - rewrite (isum_change _ h _ i).
    + unfold transpose. simpl. destruct (decide (i = i)); [|done].
      destruct (decide (j = i)); [congruence|].
      destruct (decide (j = j)); [|done]. lia.
    + lia.
    + intros k _ Hne. by destruct (decide (k = i)).
  - lia.
  - intros k _ Hne. unfold transpose. destruct (decide (k = i)); [done|].
    destruct (decide (k = j)); [done|done].
Qed.

Lemma swapped_cluster_size c :
  cluster_size n (swapped M PTR_NODES i j).1 (swapped M PTR_NODES i j).2 c
  = cluster_size n M PTR_NODES c.
Proof.
  unfold cluster_size.
  rewrite <- (isum_transpose
    (fun k => if is_group c (label M PTR_NODES k) then 1 else 0)).
  apply isum_ext. intros k Hk. by rewrite swapped_label by lia.
Qed.

End Swapped.

Lemma set_cluster_same e : El.set_cluster e (El.cluster e) = e.
Proof. by destruct e. Qed.

Lemma set_cluster_twice e c c' :
  El.set_cluster (El.set_cluster e c) c' = El.set_cluster e c'.
Proof. done. Qed.

Lemma set_data_same nd : Nd.set_data nd (Nd.data nd) = nd.
Proof. by destruct nd. Qed.

Lemma node_ext (a b : Nd.t) : Nd.data a = Nd.data b → Nd.next a = Nd.next b → a = b.
Proof. destruct a, b. simpl. by intros -> ->. Qed.

(** Exchanging an element with itself changes nothing. *)
Lemma swapped_same n M PTR_NODES i :
  linked n M PTR_NODES → 0 <= i < n → swapped M PTR_NODES i i = (M, PTR_NODES).
Proof.
  intros [HP Hc] Hi. destruct (Hc i Hi) as (Ha & Hd & _).
  unfold swapped, label, element_at. destruct M as [P Ns]. simpl in *.
  rewrite set_cluster_same. rewrite (upd_same P _ _ (len_self P)) by done.
  rewrite set_cluster_same. rewrite (upd_same P _ _ (len_self P)) by done.
  rewrite set_data_same. rewrite (upd_same Ns _ _ (len_self Ns)) by done.
  rewrite set_data_same. rewrite (upd_same Ns _ _ (len_self Ns)) by done.
  rewrite (upd_same PTR_NODES n) by done.
  rewrite (upd_same PTR_NODES n) by done. done.
Qed.

(** Exchanging twice restores the store and the array of pointers. *)
Lemma swapped_twice n M PTR_NODES i j :
  linked n M PTR_NODES → 0 <= i < n → 0 <= j < n →
  swapped (swapped M PTR_NODES i j).1 (swapped M PTR_NODES i j).2 i j
  = (M, PTR_NODES).
Proof.
  intros Hl Hi Hj. destruct (decide (i = j)) as [->|Hij].
  { rewrite (swapped_same n M PTR_NODES j) by done. simpl.
    by apply (swapped_same n). }
  pose proof (swapped_linked n M PTR_NODES i j Hl Hi Hj Hij) as Hl'.
  destruct (swapped_lengths n M PTR_NODES i j Hl) as (HlP & HlN & HlT).
  set (M' := (swapped M PTR_NODES i j).1) in *.
  set (T' := (swapped M PTR_NODES i j).2) in *.
  destruct (swapped_lengths n M' T' i j Hl') as (HlP' & HlN' & HlT').
  pose proof Hl as [HP Hc].
  destruct (Hc i Hi) as (Ha & Hd & _). destruct (Hc j Hj) as (Hb & He & _).
  destruct (linked_injective n M PTR_NODES Hl i j Hi Hj Hij) as [Hab Hde].
  assert (HTi : get T' i = get PTR_NODES j).
  { unfold T'. rewrite (swapped_PTR n) by done. unfold transpose.
    by destruct (decide (i = i)). }
  assert (HTj : get T' j = get PTR_NODES i).
  { unfold T'. rewrite (swapped_PTR n) by done. unfold transpose.
    destruct (decide (j = i)); [congruence|]. by destruct (decide (j = j)). }
  assert (Hdi : Nd.data (get (NODES M') (get T' i))
                = Nd.data (get (NODES M) (get PTR_NODES i))).
  { rewrite HTi. unfold M'. rewrite (swapped_data n) by done.
    destruct (decide _); [congruence|]. by destruct (decide _). }
  assert (Hdj : Nd.data (get (NODES M') (get T' j))
                = Nd.data (get (NODES M) (get PTR_NODES j))).
  { rewrite HTj. unfold M'. rewrite (swapped_data n) by done.
    by destruct (decide _). }
  assert (E : (swapped M' T' i j).1 = M ∧ (swapped M' T' i j).2 = PTR_NODES).
  { split.
    - assert (EP : POINTS (swapped M' T' i j).1 = POINTS M).
      { apply (list_ext_get _ _ (Z.of_nat (length (POINTS M))));
          [unfold len; lia|reflexivity|].
        intros y Hy. rewrite (swapped_point n) by (done || lia).
        rewrite Hdi, Hdj. unfold M' at 1 2 3.
        rewrite !(swapped_point n M PTR_NODES i j) by done.
        rewrite !(swapped_label n M PTR_NODES i j) by done.
        unfold transpose.
        destruct (decide (i = i)); [|done]. destruct (decide (j = i)); [congruence|].
        destruct (decide (j = j)); [|done].
        destruct (decide (y = _)) as [->|Hyd].
        + rewrite set_cluster_twice. unfold label, element_at.
          apply set_cluster_same.
        + destruct (decide (y = _)) as [->|Hye]; [|done].
          rewrite set_cluster_twice. unfold label, element_at.
          apply set_cluster_same. }
      assert (EN : NODES (swapped M' T' i j).1 = NODES M).
      { apply (list_ext_get _ _ (Z.of_nat (length (NODES M))));
          [unfold len; lia|reflexivity|].
        intros x Hx. apply node_ext.
        - rewrite (swapped_data n) by (done || lia).
          rewrite HTi, HTj. unfold M'.
          rewrite !(swapped_data n M PTR_NODES i j) by done.
          destruct (decide (get PTR_NODES j = get PTR_NODES i)); [congruence|].
          destruct (decide (get PTR_NODES j = get PTR_NODES j)); [|done].
          destruct (decide (get PTR_NODES i = get PTR_NODES i)); [|done].
          destruct (decide (x = get PTR_NODES j)) as [->|Hxb]; [done|].
          destruct (decide (x = get PTR_NODES i)) as [->|Hxa]; [done|]. done.
        - rewrite swapped_next. unfold M'. by rewrite swapped_next. }
      destruct (swapped M' T' i j).1 as [P2 N2], M as [P0 N0]. simpl in *.
      by rewrite EP, EN.
    - apply (list_ext_get _ _ n); [done|done|].
      intros k Hk. rewrite (swapped_PTR n) by done. unfold T'.
      rewrite (swapped_PTR n) by (done || by apply transpose_range).
      by rewrite transpose_involutive. }
  destruct E as [E1 E2]. destruct (swapped M' T' i j). simpl in *. by subst.
Qed.

(** * Exchanges *)

Lemma swap_inv n M PTR_NODES i j s' :
  linked n M PTR_NODES → swap i j (M, PTR_NODES) = Ok s' →
  0 <= i < n ∧ 0 <= j < n.
Proof.
  intros [HP _] E. unfold swap in E.
  apply bind_inv in E as (one & E1 & E). apply rd_inv in E1 as [Hi _].
  apply bind_inv in E as (two & E2 & E). apply rd_inv in E2 as [Hj _].
  unfold len in HP. lia.
Qed.

Lemma swapped_facts n M PTR_NODES i j :
  linked n M PTR_NODES → 0 <= i < n → 0 <= j < n →
  linked n (swapped M PTR_NODES i j).1 (swapped M PTR_NODES i j).2 ∧
  (∀ k, 0 <= k < n →
     element_at (swapped M PTR_NODES i j).1 (swapped M PTR_NODES i j).2 k
     = El.set_cluster (element_at M PTR_NODES k)
         (label M PTR_NODES (transpose i j k))) ∧
  (∀ c, cluster_size n (swapped M PTR_NODES i j).1 (swapped M PTR_NODES i j).2 c
        = cluster_size n M PTR_NODES c).
Proof.
  intros Hl Hi Hj. destruct (decide (i = j)) as [->|Hij].
  - rewrite (swapped_same n) by done. simpl. split; [done|]. split; [|done].
    intros k Hk. unfold transpose. unfold label.
    destruct (decide (k = j)) as [->|]; by rewrite set_cluster_same.
  - split; [by apply swapped_linked|]. split.
    + intros k Hk. by apply (swapped_element_at n).
    + intros c. by apply swapped_cluster_size.
Qed.

(** X15.  On an array [PTR_NODES] whose [i]-th node holds the element with
    [ID] [i], [swap] exchanges the clusters of the elements [i] and [j] and
    nothing else: every element keeps its [ID] and its values, every node
    keeps its successor and the cluster of the element it holds, and a
    second call restores the store and the array. *)
Theorem swap_exchanges_clusters n M PTR_NODES i j :
  linked n M PTR_NODES → 0 <= i < n → 0 <= j < n →
  ∃ M' PTR_NODES',
    swap i j (M, PTR_NODES) = Ok (M', PTR_NODES') ∧
    linked n M' PTR_NODES' ∧
    (∀ k, 0 <= k < n →
       label M' PTR_NODES' k = label M PTR_NODES (transpose i j k) ∧
       El.values (element_at M' PTR_NODES' k)
         = El.values (element_at M PTR_NODES k) ∧
       El.cluster (get (POINTS M') (Nd.data (get (NODES M') (get PTR_NODES k))))
         = label M PTR_NODES k) ∧
    (∀ x, Nd.next (get (NODES M') x) = Nd.next (get (NODES M) x)) ∧
    swap i j (M', PTR_NODES') = Ok (M, PTR_NODES).
Proof.
  intros Hl Hi Hj.
  destruct (swapped_facts n M PTR_NODES i j Hl Hi Hj) as (Hl' & Hel & _).
  pose proof (swap_ok n M PTR_NODES i j Hl Hi Hj) as E.
  destruct (swapped M PTR_NODES i j) as [M' T'] eqn:Es. simpl in Hl', Hel.
  exists M', T'. split; [done|]. split; [done|]. split; [|split].
  - intros k Hk. split; [|split].
    + unfold label at 1. by rewrite Hel.
    + by rewrite Hel.
    + assert (Ht : 0 <= transpose i j k < n).
      { unfold transpose. repeat destruct (decide _); lia. }
      assert (EP : get PTR_NODES k = get T' (transpose i j k)).
      { replace T' with (swapped M PTR_NODES i j).2 by (by rewrite Es).
        destruct (decide (i = j)) as [->|Hij].
        - rewrite (swapped_same n) by done. simpl. unfold transpose.
          destruct (decide (k = j)) as [->|]; done.
        - rewrite (swapped_PTR n) by done.
          unfold transpose. repeat destruct (decide _); congruence. }
      rewrite EP. change (label M' T' (transpose i j k) = label M PTR_NODES k).
      unfold label at 1. rewrite Hel by done. simpl. f_equal.
      unfold transpose. repeat destruct (decide _); congruence.
  - intros x. replace M' with (swapped M PTR_NODES i j).1 by (by rewrite Es).
    unfold swapped. simpl. by rewrite !next_upd_set_data.
  - rewrite (swap_ok n M' T' i j Hl' Hi Hj).
    replace M' with (swapped M PTR_NODES i j).1 by (by rewrite Es).
    replace T' with (swapped M PTR_NODES i j).2 by (by rewrite Es).
    by rewrite (swapped_twice n).
Qed.


(** * The exchange method: the loops *)

Lemma bind_ex {A B} (m : res A) (k : A → res B) a (Q : B → Prop) :
  m = Ok a → (∃ r, k a = Ok r ∧ Q r) → ∃ r, (m ≫= k) = Ok r ∧ Q r.
Proof. intros -> H. by rewrite bind_Ok. Qed.

Ltac step_with E := eapply bind_ex; [exact E|]; cbv beta iota.
Ltac step_by tac := eapply bind_ex; [tac|]; cbv beta iota.

Lemma matrix_ext_gen {A} `{Inhabited A} (m m' : list (list A)) r c :
  dims m r c → dims m' r c →
  (∀ i j, 0 <= i < r → 0 <= j < c → get2 m i j = get2 m' i j) → m = m'.
Proof.
  intros [Hl Hf] [Hl' Hf'] E. unfold len in *.
  apply list_eq_same_length with (length m); [lia|lia|].
  intros i row row' Hi Hr Hr'.
  pose proof (Forall_lookup_1 _ _ _ _ Hf Hr) as Hlr.
  pose proof (Forall_lookup_1 _ _ _ _ Hf' Hr') as Hlr'. unfold len in *.
  apply list_eq_same_length with (length row); [lia|lia|].
  intros j x x' Hj Hx Hx'.
  specialize (E (Z.of_nat i) (Z.of_nat j) ltac:(lia) ltac:(lia)).
  unfold get2, get in E. rewrite !Nat2Z.id in E.
  rewrite (list_lookup_total_correct _ _ _ Hr) in E.
  rewrite (list_lookup_total_correct _ _ _ Hr') in E.
  rewrite (list_lookup_total_correct _ _ _ Hx) in E.
  rewrite (list_lookup_total_correct _ _ _ Hx') in E. done.
Qed.

Lemma copy_array_ok n origin target :
  0 <= n → len origin n → len target n → copy_array n origin target = Ok origin.
Proof. intros Hn Ho Ht. exact (copy_into_ok n origin target Hn Ho Ht). Qed.

Lemma copy_matrix_ok n m origin target :
  0 <= n → 0 <= m → dims origin n m → dims target n m →
  copy_matrix n m origin target = Ok origin.
Proof.
  intros Hn Hm Ho Ht. unfold copy_matrix.
  destruct (for_loop2_inv
    (fun i j (t : list (list dbl)) => dims t n m ∧
       ∀ i' j', 0 <= i' < n → 0 <= j' < m → i' < i ∨ (i' = i ∧ j' < j) →
         get2 t i' j' = get2 origin i' j')
    n (fun _ => 0) m
    (fun i j target => x ← rd2 origin i j; wr2 target i j x) target)
    as (t & -> & Hd & Hv); [done|done|split; [done|lia]| | |].
  - intros i j t Hi Hj [Hd Hv]. rd2s n m. wr2s n m.
    eexists; split; [done|]. split; [by apply dims_upd2|].
    intros i' j' Hi' Hj' Hlt. rewrite (get2_upd2 _ n m) by (done || lia).
    destruct (decide (i = i' ∧ j = j')) as [[<- <-]|Hne]; [done|].
    apply Hv; [done|done|lia].
  - intros i t Hi [Hd Hv]. split; [done|]. intros. apply Hv; lia.
  - f_equal. apply (matrix_ext_gen _ _ n m); [done|done|].
    intros. apply Hv; lia.
Qed.

Lemma array_sum_ok k ARRAY :
  0 <= k → len ARRAY k → ∃ v, array_sum k ARRAY = Ok v.
Proof.
  intros Hk Hl. unfold array_sum.
  destruct (for_loop_inv (fun _ (_ : dbl) => True) 0 k
    (fun i sum => x ← rd ARRAY i; Ok (fadd sum x)) (Fin 0%Qc))
    as (v & E & _); [done|done| |eauto].
  intros i s Hi _. rds k. eauto.
Qed.

Lemma euclidean_squared_ok x y m :
  0 <= m → len x m → len y m → ∃ v, euclidean_squared x y m = Ok v.
Proof.
  intros Hm Hx Hy. unfold euclidean_squared.
  destruct (for_loop_inv (fun _ (_ : dbl) => True) 0 m
    (fun i sum => a ← rd x i; b ← rd y i; Ok (fadd sum (fsq (fsub a b))))
    (Fin 0%Qc)) as (v & E & _); [done|done| |eauto].
  intros i s Hi _. rds m. rds m. eauto.
Qed.

Lemma element_of_linked n M PTR_NODES i :
  linked n M PTR_NODES → 0 <= i < n →
  element_of M (get PTR_NODES i) = Ok (element_at M PTR_NODES i).
Proof.
  intros [_ Hc] Hi. destruct (Hc i Hi) as (Ha & Hd & _).
  destruct M as [P Ns]. by apply element_of_ok.
Qed.

Lemma node_of_linked n M PTR_NODES i :
  linked n M PTR_NODES → 0 <= i < n →
  rd (NODES M) (get PTR_NODES i) = Ok (get (NODES M) (get PTR_NODES i)).
Proof.
  intros [_ Hc] Hi. destruct (Hc i Hi) as (Ha & _).
  by apply (rd_ok _ _ _ (len_self _)).
Qed.

Lemma four_updates (C1 : list (list dbl)) k m cl1 cl2 u ch1 ch2 c u' :
  dims C1 k m → 0 <= cl1 < k → 0 <= cl2 < k → 0 <= u < m →
  0 <= c < k → 0 <= u' < m →
  ∀ C2 C3 C4 C5,
    C2 = upd2 C1 cl1 u (fadd (get2 C1 cl1 u) ch2) →
    C3 = upd2 C2 cl1 u (fsub (get2 C2 cl1 u) ch1) →
    C4 = upd2 C3 cl2 u (fsub (get2 C3 cl2 u) ch2) →
    C5 = upd2 C4 cl2 u (fadd (get2 C4 cl2 u) ch1) →
    dims C5 k m ∧
    get2 C5 c u'
    = if decide (u' = u)
      then (let x := get2 C1 c u in
            let x := if decide (c = cl1) then fsub (fadd x ch2) ch1 else x in
            if decide (c = cl2) then fadd (fsub x ch2) ch1 else x)
      else get2 C1 c u'.
Proof.
  intros Hd Hc1 Hc2 Hu Hc Hu' C2 C3 C4 C5 E2 E3 E4 E5.
  assert (Hd2 : dims C2 k m) by (subst C2; by apply dims_upd2).
  assert (Hd3 : dims C3 k m) by (subst C3; by apply dims_upd2).
  assert (Hd4 : dims C4 k m) by (subst C4; by apply dims_upd2).
  assert (Hd5 : dims C5 k m) by (subst C5; by apply dims_upd2).
  split; [done|].
  assert (G2 : ∀ c u', 0 <= c → 0 <= u' → get2 C2 c u'
            = if decide (cl1 = c ∧ u = u') then fadd (get2 C1 cl1 u) ch2
              else get2 C1 c u').
  { intros. rewrite E2. by apply (get2_upd2 _ k m). }
  assert (G3 : ∀ c u', 0 <= c → 0 <= u' → get2 C3 c u'
            = if decide (cl1 = c ∧ u = u') then fsub (get2 C2 cl1 u) ch1
              else get2 C2 c u').
  { intros. rewrite E3. by apply (get2_upd2 _ k m). }
  assert (G4 : ∀ c u', 0 <= c → 0 <= u' → get2 C4 c u'
            = if decide (cl2 = c ∧ u = u') then fsub (get2 C3 cl2 u) ch2
              else get2 C3 c u').
  { intros. rewrite E4. by apply (get2_upd2 _ k m). }
  assert (G5 : ∀ c u', 0 <= c → 0 <= u' → get2 C5 c u'
            = if decide (cl2 = c ∧ u = u') then fadd (get2 C4 cl2 u) ch1
              else get2 C4 c u').
  { intros. rewrite E5. by apply (get2_upd2 _ k m). }
  rewrite G5, G4 by lia. rewrite (G4 c u'), !G3, !G2 by lia.
  cbv zeta.
  repeat (destruct (decide _)); try done; try (exfalso; intuition congruence);
    try (exfalso; intuition lia); try (destruct_and?; by subst).
Qed.

Section Shape.
Context (fuel : nat) (n m k : Z) (HEADS frequencies : list Z).
Hypothesis Hn : 0 <= n.
Hypothesis Hm : 0 <= m.
Hypothesis Hk : 0 <= k.
Hypothesis HH : len HEADS k.
Hypothesis HF : len frequencies k.

Lemma cluster_var_from_ok M PTR_NODES center :
  linked n M PTR_NODES →
  (∀ i, 0 <= i < n → len (El.values (element_at M PTR_NODES i)) m) →
  len center m →
  ∀ f x sum, chain n M PTR_NODES f x →
    ∃ v, cluster_var_from f M m center x sum = Ok v.
Proof.
  intros Hl Hv Hc. induction f as [|f IH]; intros x sum Hch; simpl.
  - destruct Hch as [->|[]]. destruct (decide (NULL ≠ NULL)); [done|eauto].
  - destruct (decide (x ≠ NULL)) as [Hx|Hx]; [|eauto].
    destruct Hch as [->|[(i & Hi & ->) Hch]]; [done|].
    rewrite (element_of_linked n) by done. rewrite bind_Ok.
    destruct (euclidean_squared_ok center
      (El.values (element_at M PTR_NODES i)) m Hm Hc (Hv i Hi)) as (d & ->).
    rewrite bind_Ok. rewrite (node_of_linked n) by done. rewrite bind_Ok.
    by apply IH.
Qed.

Lemma cluster_var_ok M PTR_NODES c center :
  shape fuel n m k HEADS M PTR_NODES → 0 <= c < k → len center m →
  ∃ v, cluster_var fuel M m (get HEADS c) center = Ok v.
Proof.
  intros (Hl & Hel & Hh) Hc Hcen. destruct (Hh c Hc) as [Hhd Hch].
  unfold cluster_var. rewrite (rd_ok _ _ _ (len_self _)) by done.
  rewrite bind_Ok.
  apply (cluster_var_from_ok M PTR_NODES); [done| |done|done].
  intros i Hi. by apply Hel.
Qed.

Lemma chain_swapped M PTR_NODES i j :
  linked n M PTR_NODES → 0 <= i < n → 0 <= j < n →
  ∀ f x, chain n M PTR_NODES f x →
    chain n (swapped M PTR_NODES i j).1 (swapped M PTR_NODES i j).2 f x.
Proof.
  intros Hl Hi Hj. induction f as [|f IH]; intros x Hch;
    cbn [chain] in Hch |- *; [done|].
  destruct Hch as [->|[(u & Hu & ->) Hch]]; [by left|]. right. split.
  - destruct (decide (i = j)) as [->|Hij].
    + rewrite (swapped_same n) by done. eauto.
    + exists (transpose i j u). split.
      * unfold transpose. repeat destruct (decide _); lia.
      * rewrite (swapped_PTR n) by (done || by apply transpose_range).
        by rewrite transpose_involutive.
  - assert (E : Nd.next (get (NODES (swapped M PTR_NODES i j).1) (get PTR_NODES u))
                = Nd.next (get (NODES M) (get PTR_NODES u))).
    { unfold swapped. simpl. by rewrite !next_upd_set_data. }
    rewrite E. by apply IH.
Qed.

Lemma shape_swapped M PTR_NODES i j :
  shape fuel n m k HEADS M PTR_NODES → 0 <= i < n → 0 <= j < n →
  shape fuel n m k HEADS (swapped M PTR_NODES i j).1 (swapped M PTR_NODES i j).2.
Proof.
  intros (Hl & Hel & Hh) Hi Hj.
  destruct (swapped_facts n M PTR_NODES i j Hl Hi Hj) as (Hl' & He' & _).
  split; [done|]. split.
  - intros u Hu. unfold label. rewrite He' by done. simpl.
    assert (Ht : 0 <= transpose i j u < n).
    { unfold transpose. repeat destruct (decide _); lia. }
    split; [apply Hel; done|apply Hel; done].
  - intros c Hc. destruct (Hh c Hc) as [Hhd Hch].
    assert (EN : length (NODES (swapped M PTR_NODES i j).1) = length (NODES M)).
    { unfold swapped. simpl. by rewrite !length_upd. }
    rewrite EN. split; [done|].
    assert (E : Nd.next (get (NODES (swapped M PTR_NODES i j).1) (get HEADS c))
                = Nd.next (get (NODES M) (get HEADS c))).
    { unfold swapped. simpl. by rewrite !next_upd_set_data. }
    rewrite E. by apply chain_swapped.
Qed.

Lemma update_centers_ok M PTR_NODES C i j :
  shape fuel n m k HEADS M PTR_NODES → dims C k m → 0 <= i < n → 0 <= j < n →
  ∃ C',
    update_centers M m C (get PTR_NODES i) (get PTR_NODES j) frequencies = Ok C' ∧
    dims C' k m ∧
    ∀ c u, 0 <= c < k → 0 <= u < m →
      get2 C' c u
      = updated_center C frequencies
          (label M PTR_NODES i) (label M PTR_NODES j)
          (El.values (element_at M PTR_NODES i))
          (El.values (element_at M PTR_NODES j)) c u.
Proof.
  intros (Hl & Hel & _) HC Hi Hj.
  destruct (Hel i Hi) as [Hc1 Hv1]. destruct (Hel j Hj) as [Hc2 Hv2].
  unfold update_centers.
  rewrite !(element_of_linked n M PTR_NODES i) by done. rewrite bind_Ok.
  rewrite !(element_of_linked n M PTR_NODES j) by done. rewrite bind_Ok.
  fold (label M PTR_NODES i). fold (label M PTR_NODES j).
  set (cl1 := label M PTR_NODES i) in *. set (cl2 := label M PTR_NODES j) in *.
  set (v1 := El.values (element_at M PTR_NODES i)) in *.
  set (v2 := El.values (element_at M PTR_NODES j)) in *.
  match goal with |- context [for_loop 0 m ?body C] =>
    destruct (for_loop_inv
      (fun u (C' : list (list dbl)) => dims C' k m ∧
         ∀ c u', 0 <= c < k → 0 <= u' < m →
           get2 C' c u'
           = if decide (u' < u)
             then updated_center C frequencies cl1 cl2 v1 v2 c u'
             else get2 C c u')
      0 m body C) as (C' & E & Hd & Hv)
  end; [done| | |].
  - split; [done|]. intros c u' Hc Hu'. by destruct (decide (u' < 0)); [lia|].
  - intros u C1 Hu [Hd Hv]. rewrite !bind_Ok. fold v1. fold v2.
    repeat first [rds m | rds k].
    set (ch1 := fdiv (get v1 u) (get frequencies cl1)).
    set (ch2 := fdiv (get v2 u) (get frequencies cl2)).
    rd2s k m. wr2s k m.
    set (C2 := upd2 C1 cl1 u (fadd (get2 C1 cl1 u) ch2)).
    assert (Hd2 : dims C2 k m) by (by apply dims_upd2).
    rd2s k m. wr2s k m.
    set (C3 := upd2 C2 cl1 u (fsub (get2 C2 cl1 u) ch1)).
    assert (Hd3 : dims C3 k m) by (by apply dims_upd2).
    rd2s k m. wr2s k m.
    set (C4 := upd2 C3 cl2 u (fsub (get2 C3 cl2 u) ch2)).
    assert (Hd4 : dims C4 k m) by (by apply dims_upd2).
    rd2s k m. wr2s k m.
    eexists; split; [done|]. split; [by apply dims_upd2|].
    intros c u' Hc Hu'.
    destruct (four_updates C1 k m cl1 cl2 u ch1 ch2 c u' Hd Hc1 Hc2 Hu Hc Hu'
      C2 C3 C4 _ eq_refl eq_refl eq_refl eq_refl) as [_ E5].
    refine (eq_trans E5 _). clear E5.
    cbv zeta. rewrite !Hv by done.
    destruct (decide (u < u)); [lia|]. unfold updated_center. cbv zeta.
    fold ch1. fold ch2.
    destruct (decide (u' = u)) as [->|Hne].
    + destruct (decide (u < u + 1)); [done|lia].
    + destruct (decide (u' < u + 1)), (decide (u' < u)); try lia; done.
  - exists C'. split; [exact E|]. split; [done|]. intros c u Hc Hu.
    rewrite Hv by done. destruct (decide (u < m)); [done|lia].
Qed.

End Shape.

Lemma fgt_above (a b : dbl) :
  fgt a b = true → fgt (Fin 0%Qc) b = false → fgt (Fin 0%Qc) a = false.
Proof.
  destruct a as [x| | |], b as [y| | |]; simpl; try done.
  intros Hxy Hy. apply bool_decide_eq_true_1 in Hxy.
  apply bool_decide_eq_false_1 in Hy. apply bool_decide_eq_false_2.
  intros Hx. apply Hy. by eapply Qclt_trans.
Qed.

Lemma fgt_trans (a b c : dbl) :
  fgt a b = true → fgt b c = true → fgt a c = true.
Proof.
  destruct a as [x| | |], b as [y| | |], c as [z| | |]; simpl; try done.
  intros Hxy Hyz. apply bool_decide_eq_true_1 in Hxy.
  apply bool_decide_eq_true_1 in Hyz. apply bool_decide_eq_true_2.
  by eapply Qclt_trans.
Qed.

Section Loops.
Context (fuel : nat) (n m k : Z) (HEADS frequencies : list Z).

Ltac ok_step tac := eapply bind_ex; [tac|]; cbv beta iota zeta.

Lemma exchange_try_ok st0 i cl1 j st :
  ready fuel n m k HEADS frequencies st0 → try_inv n m k st0 st →
  0 <= i < n → 0 <= j < n → 0 <= cl1 < k →
  ∃ st', exchange_try fuel m k HEADS frequencies i cl1 j st = Ok st' ∧
         try_inv n m k st0 st'.
Proof.
  intros (Hn & Hm & Hk & Hsh & HH & HF & HC & _ & _ & HO & _ & _ & _)
    (EM & ET & EC & EO & ES & Htc & Hbc & Hto & Hbo & Hbest) Hi Hj Hcl1.
  pose proof Hsh as (Hl & Hel & Hh). pose proof Hl as [HT _].
  destruct (Hel j Hj) as [Hcl2 _].
  unfold exchange_try. rewrite EM, ET, EC, EO.
  set (M0 := XS.M st0) in *. set (T0 := XS.PTR_NODES st0) in *.
  ok_step ltac:(by apply (rd_ok T0 n)).
  ok_step ltac:(by apply (element_of_linked n)).
  fold (label M0 T0 j). set (cl2 := label M0 T0 j) in *.
  destruct (decide (cl1 = cl2)) as [Heq|Hne].
  { eexists; split; [done|].
    exact (conj EM (conj ET (conj EC (conj EO (conj ES (conj Htc (conj Hbc
      (conj Hto (conj Hbo Hbest))))))))). }
  ok_step ltac:(by apply copy_matrix_ok).
  ok_step ltac:(by apply copy_array_ok).
  ok_step ltac:(by apply (rd_ok T0 n)).
  ok_step ltac:(by apply (rd_ok T0 n)).
  destruct (update_centers_ok fuel n m k HEADS frequencies Hm HF M0 T0
    (XS.CENTERS st0) i j Hsh HC Hi Hj) as (C' & EU & HC' & _).
  ok_step ltac:(exact EU).
  ok_step ltac:(by apply (swap_ok n)).
  pose proof (shape_swapped fuel n m k HEADS M0 T0 i j Hsh Hi Hj) as Hsh1.
  pose proof (swapped_twice n M0 T0 i j Hl Hi Hj) as Etw.
  destruct (swapped M0 T0 i j) as [M1 T1]. simpl in Hsh1, Etw.
  pose proof Hsh1 as (Hl1 & _).
  ok_step ltac:(by apply (rd_ok HEADS k)).
  ok_step ltac:(apply (rd_ok C' k); [apply HC'|done]).
  destruct (cluster_var_ok fuel n m k HEADS Hm M1 T1 cl1 (get C' cl1) Hsh1 Hcl1)
    as (v1 & Ev1); [by apply (dims_row C' k m)|].
  ok_step ltac:(exact Ev1).
  ok_step ltac:(by apply (wr_ok _ k)).
  assert (Hto1 : len (upd (XS.OBJ_BY_CLUSTER st0) cl1 v1) k) by (by apply len_upd).
  ok_step ltac:(by apply (rd_ok HEADS k)).
  ok_step ltac:(apply (rd_ok C' k); [apply HC'|done]).
  destruct (cluster_var_ok fuel n m k HEADS Hm M1 T1 cl2 (get C' cl2) Hsh1 Hcl2)
    as (v2 & Ev2); [by apply (dims_row C' k m)|].
  ok_step ltac:(exact Ev2).
  ok_step ltac:(by apply (wr_ok _ k)).
  assert (Hto2 : len (upd (upd (XS.OBJ_BY_CLUSTER st0) cl1 v1) cl2 v2) k)
    by (by apply len_upd).
  destruct (array_sum_ok k _ Hk Hto2) as (tot & Etot).
  ok_step ltac:(exact Etot).
  destruct (fgt tot (XS.best_obj st)).
  - ok_step ltac:(rewrite (copy_matrix_ok k m C') by done;
                  rewrite bind_Ok;
                  rewrite (copy_array_ok k _ (XS.best_objs st)) by done;
                  rewrite bind_Ok; reflexivity).
    ok_step ltac:(rewrite (swap_ok n M1 T1 i j) by done; by rewrite Etw).
    eexists; split; [done|]. unfold try_inv. simpl.
    split; [done|]. split; [done|]. split; [done|]. split; [done|].
    split; [done|]. split; [done|]. split; [done|]. split; [done|].
    split; [done|]. right. lia.
  - ok_step ltac:(reflexivity).
    ok_step ltac:(rewrite (swap_ok n M1 T1 i j) by done; by rewrite Etw).
    eexists; split; [done|]. unfold try_inv. simpl.
    split; [done|]. split; [done|]. split; [done|]. split; [done|].
    split; [done|]. split; [done|]. split; [done|]. split; [done|].
    split; [done|]. done.
Qed.

Lemma exchange_step_ok st i :
  ready fuel n m k HEADS frequencies st → 0 <= i < n →
  ∃ st', exchange_step fuel n m k HEADS frequencies i st = Ok st' ∧
    ready fuel n m k HEADS frequencies st' ∧
    (∀ c, cluster_size n (XS.M st') (XS.PTR_NODES st') c
          = cluster_size n (XS.M st) (XS.PTR_NODES st) c) ∧
    ((XS.M st' = XS.M st ∧ XS.PTR_NODES st' = XS.PTR_NODES st ∧
      XS.SUM_VAR_OBJECTIVE st' = XS.SUM_VAR_OBJECTIVE st) ∨
     fgt (XS.SUM_VAR_OBJECTIVE st') (XS.SUM_VAR_OBJECTIVE st) = true).
Proof.
  intros Hr Hi. pose proof Hr as
    (Hn & Hm & Hk & Hsh & HH & HF & HC & Htc & Hbc & HO & Hto & Hbo & HS).
  pose proof Hsh as (Hl & Hel & Hh). pose proof Hl as [HT _].
  destruct (Hel i Hi) as [Hcl1 _].
  unfold exchange_step.
  ok_step ltac:(by apply (rd_ok _ n)).
  ok_step ltac:(by apply (element_of_linked n)).
  fold (label (XS.M st) (XS.PTR_NODES st) i).
  ok_step ltac:(by apply copy_matrix_ok).
  ok_step ltac:(by apply copy_array_ok).
  match goal with |- context [for_loop 0 n ?body ?init] =>
    destruct (for_loop_inv (fun _ s => try_inv n m k st s) 0 n body init)
      as (st2 & E2 & Hinv2)
  end; [done| | |].
  { unfold try_inv. simpl.
    split; [done|]. split; [done|]. split; [done|]. split; [done|].
    split; [done|]. split; [done|]. split; [done|]. split; [done|].
    split; [done|]. by left. }
  { intros j s Hj Hinv. by apply (exchange_try_ok st). }
  ok_step ltac:(exact E2).
  destruct Hinv2 as (EM & ET & EC & EO & ES & Htc2 & Hbc2 & Hto2 & Hbo2 & Hbest).
  destruct (fgt (XS.best_obj st2) (XS.SUM_VAR_OBJECTIVE st2)) eqn:Hgt.
  - assert (Hbp : 0 <= XS.best_partner st2 < n).
    { destruct Hbest as [E0|Hbp]; [|done].
      rewrite E0, ES in Hgt. congruence. }
    rewrite EM, ET, EC, EO.
    ok_step ltac:(by apply (swap_ok n)).
    pose proof (shape_swapped fuel n m k HEADS _ _ i (XS.best_partner st2)
      Hsh Hi Hbp) as Hsh1.
    destruct (swapped_facts n _ _ i (XS.best_partner st2) Hl Hi Hbp)
      as (_ & _ & Hsz).
    destruct (swapped (XS.M st) (XS.PTR_NODES st) i (XS.best_partner st2))
      as [M1 T1]. simpl in Hsh1, Hsz.
    ok_step ltac:(by apply copy_matrix_ok).
    ok_step ltac:(by apply copy_array_ok).
    eexists; split; [done|]. split; [|split; [done|]].
    + unfold ready. simpl.
      split; [done|]. split; [done|]. split; [done|]. split; [done|].
      split; [done|]. split; [done|]. split; [done|]. split; [done|].
      split; [done|]. split; [done|]. split; [done|]. split; [done|].
      rewrite ES in Hgt. by apply (fgt_above _ (XS.SUM_VAR_OBJECTIVE st)).
    + right. simpl. by rewrite <- ES.
  - eexists; split; [done|]. split; [|split; [by rewrite EM, ET|by left]].
    unfold ready. rewrite EM, ET, EC, EO, ES.
    split; [done|]. split; [done|]. split; [done|]. split; [done|].
    split; [done|]. split; [done|]. split; [done|]. split; [done|].
    split; [done|]. split; [done|]. split; [done|]. split; [done|]. done.
Qed.

(** The loop that writes the output. *)
Lemma write_clusters_ok M PTR_NODES clusters :
  0 <= n → linked n M PTR_NODES → len clusters n →
  ∃ clusters',
    for_loop 0 n (fun i clusters =>
        node ← rd PTR_NODES i;
        e ← element_of M node;
        wr clusters i (El.cluster e)) clusters = Ok clusters' ∧
    len clusters' n ∧
    ∀ u, 0 <= u < n → get clusters' u = label M PTR_NODES u.
Proof.
  intros Hn Hl Hcl. pose proof Hl as [HT _].
  match goal with |- context [for_loop 0 n ?body clusters] =>
    destruct (for_loop_inv
      (fun i (cl : list Z) => len cl n ∧
         ∀ u, 0 <= u < i → get cl u = label M PTR_NODES u)
      0 n body clusters) as (cl' & E' & Hlen' & Hv')
  end; [done|split; [done|lia]| |].
  { intros i cl Hi [Hlen Hv].
    ok_step ltac:(by apply (rd_ok _ n)).
    ok_step ltac:(by apply (element_of_linked n)).
    rewrite (wr_ok cl n) by done. eexists; split; [done|].
    split; [by apply len_upd|]. intros u Hu.
    rewrite (get_upd cl n) by (done || lia).
    destruct (decide (i = u)) as [->|]; [done|]. apply Hv. lia. }
  by exists cl'.
Qed.

(** X16.  From a state in which the store has its shape, the arrays have
    their sizes and the objective is not negative, the exchange loop of
    [c_anticlustering] returns, every step of it stays inside the arrays,
    and the clusters it writes into [clusters] have the sizes of the
    clusters on entry: [clusters] is a rearrangement of the initial
    assignment. *)
Theorem exchange_keeps_cluster_sizes st clusters :
  ready fuel n m k HEADS frequencies st → len clusters n →
  ∃ st' clusters',
    exchange fuel n m k HEADS frequencies st clusters = Ok (st', clusters') ∧
    len clusters' n ∧
    (∀ i, 0 <= i < n →
       get clusters' i = label (XS.M st') (XS.PTR_NODES st') i) ∧
    ∀ c, tally (is_group c) n clusters'
         = cluster_size n (XS.M st) (XS.PTR_NODES st) c.
Proof.
  intros Hr Hcl. pose proof Hr as (Hn & _). unfold exchange.
  destruct (for_loop_inv
    (fun _ s => ready fuel n m k HEADS frequencies s ∧
       ∀ c, cluster_size n (XS.M s) (XS.PTR_NODES s) c
            = cluster_size n (XS.M st) (XS.PTR_NODES st) c)
    0 n (exchange_step fuel n m k HEADS frequencies) st)
    as (st' & E & Hr' & Hsz); [done|done| |].
  { intros i s Hi [Hrs Hss].
    destruct (exchange_step_ok s i Hrs Hi) as (s' & Es & Hrs' & Hss' & _).
    exists s'. split; [done|]. split; [done|]. intros c.
    by rewrite Hss'. }
  rewrite E, bind_Ok.
  destruct Hr' as (_ & _ & _ & (Hl' & _) & _).
  destruct (write_clusters_ok (XS.M st') (XS.PTR_NODES st') clusters Hn Hl' Hcl)
    as (cl' & E' & Hlen' & Hv').
  rewrite E', bind_Ok.
  exists st', cl'. split; [done|]. split; [done|]. split; [done|].
  intros c. rewrite <- Hsz. unfold tally, cluster_size.
  apply isum_ext. intros u Hu. by rewrite Hv' by lia.
Qed.

(** X22.  The objective that the exchange loop of [c_anticlustering] keeps
    in [SUM_VAR_OBJECTIVE] never gets smaller, and an exchange is kept only
    when it makes it larger: either the loop ends with a larger objective,
    or it ends with the objective and the assignment it started from. *)
Theorem exchange_never_lowers_objective st clusters :
  ready fuel n m k HEADS frequencies st → len clusters n →
  ∃ st' clusters',
    exchange fuel n m k HEADS frequencies st clusters = Ok (st', clusters') ∧
    (fgt (XS.SUM_VAR_OBJECTIVE st') (XS.SUM_VAR_OBJECTIVE st) = true ∨
     (XS.SUM_VAR_OBJECTIVE st' = XS.SUM_VAR_OBJECTIVE st ∧
      ∀ i, 0 <= i < n →
        get clusters' i = label (XS.M st) (XS.PTR_NODES st) i)).
Proof.
  intros Hr Hcl. pose proof Hr as (Hn & _). unfold exchange.
  destruct (for_loop_inv
    (fun _ s => ready fuel n m k HEADS frequencies s ∧
       ((XS.M s = XS.M st ∧ XS.PTR_NODES s = XS.PTR_NODES st ∧
         XS.SUM_VAR_OBJECTIVE s = XS.SUM_VAR_OBJECTIVE st) ∨
        fgt (XS.SUM_VAR_OBJECTIVE s) (XS.SUM_VAR_OBJECTIVE st) = true))
    0 n (exchange_step fuel n m k HEADS frequencies) st)
    as (st' & E & Hr' & Hobj); [done|split; [done|by left]| |].
  { intros i s Hi [Hrs Hs].
    destruct (exchange_step_ok s i Hrs Hi) as (s' & Es & Hrs' & _ & Hs').
    exists s'. split; [done|]. split; [done|].
    destruct Hs' as [(EM & ET & ES)|Hup].
    - rewrite EM, ET, ES. exact Hs.
    - right. destruct Hs as [(_ & _ & ES)|Hup0].
      + by rewrite <- ES.
      + by apply (fgt_trans _ (XS.SUM_VAR_OBJECTIVE s)). }
  rewrite E, bind_Ok.
  destruct Hr' as (_ & _ & _ & (Hl' & _) & _).
  destruct (write_clusters_ok (XS.M st') (XS.PTR_NODES st') clusters Hn Hl' Hcl)
    as (cl' & E' & Hlen' & Hv').
  rewrite E', bind_Ok.
  exists st', cl'. split; [done|].
  destruct Hobj as [(EM & ET & ES)|Hup]; [right|by left].
  split; [done|]. intros i Hi. rewrite Hv' by done. by rewrite EM, ET.
Qed.

End Loops.

(** * The exchange method on four points *)

Lemma ExX_linked : linked 4 ExX.M ExX.PTR_NODES.
Proof.
  split; [reflexivity|].
  apply (four_cases (P := fun i => _ ∧ _ ∧ _)); by vm_compute.
Qed.

Lemma ExX_shape : shape 4 4 1 2 ExX.HEADS ExX.M ExX.PTR_NODES.
Proof.
  split; [exact ExX_linked|]. split.
  - apply (four_cases (P := fun i => _ ∧ _)); by vm_compute.
  - apply (two_cases (P := fun c => _ ∧ _)).
    + split; [by vm_compute|]. change (chain 4 ExX.M ExX.PTR_NODES 4 3).
      right. split; [exists 1; by vm_compute|].
      change (chain 4 ExX.M ExX.PTR_NODES 3 2).
      right. split; [exists 0; by vm_compute|]. by left.
    + split; [by vm_compute|]. change (chain 4 ExX.M ExX.PTR_NODES 4 5).
      right. split; [exists 3; by vm_compute|].
      change (chain 4 ExX.M ExX.PTR_NODES 3 4).
      right. split; [exists 2; by vm_compute|]. by left.
Qed.

Lemma ExX_ready : ready 4 4 1 2 ExX.HEADS ExX.frequencies ExX.st.
Proof.
  split; [lia|]. split; [lia|]. split; [lia|]. split; [exact ExX_shape|].
  split; [reflexivity|]. split; [reflexivity|].
  assert (Hd : ∀ C : list (list dbl), length C = 2%nat →
            Forall (fun row => len row 1) C → dims C 2 1).
  { intros C HC Hf. split; [unfold len; lia|done]. }
  split; [apply Hd; [done|by repeat constructor]|].
  split; [apply Hd; [done|by repeat constructor]|].
  split; [apply Hd; [done|by repeat constructor]|].
  split; [reflexivity|]. split; [reflexivity|]. split; [reflexivity|].
  reflexivity.
Qed.

(** X15 for the first and the third of the four points. *)
Lemma swap_exchanges_clusters_witness :
  ∃ M' PTR_NODES',
    swap 0 2 (ExX.M, ExX.PTR_NODES) = Ok (M', PTR_NODES') ∧
    linked 4 M' PTR_NODES' ∧
    (∀ k, 0 <= k < 4 →
       label M' PTR_NODES' k = label ExX.M ExX.PTR_NODES (transpose 0 2 k) ∧
       El.values (element_at M' PTR_NODES' k)
         = El.values (element_at ExX.M ExX.PTR_NODES k) ∧
       El.cluster (get (POINTS M') (Nd.data (get (NODES M') (get ExX.PTR_NODES k))))
         = label ExX.M ExX.PTR_NODES k) ∧
    (∀ x, Nd.next (get (NODES M') x) = Nd.next (get (NODES ExX.M) x)) ∧
    swap 0 2 (M', PTR_NODES') = Ok (ExX.M, ExX.PTR_NODES).
Proof.
  apply (swap_exchanges_clusters 4 ExX.M ExX.PTR_NODES 0 2 ExX_linked); lia.
Defined.

(** X16 on the four points. *)
Lemma exchange_keeps_cluster_sizes_witness :
  ∃ st' clusters',
    exchange 4 4 1 2 ExX.HEADS ExX.frequencies ExX.st [9; 9; 9; 9]
      = Ok (st', clusters') ∧
    len clusters' 4 ∧
    (∀ i, 0 <= i < 4 →
       get clusters' i = label (XS.M st') (XS.PTR_NODES st') i) ∧
    ∀ c, tally (is_group c) 4 clusters'
         = cluster_size 4 (XS.M ExX.st) (XS.PTR_NODES ExX.st) c.
Proof.
  apply (exchange_keeps_cluster_sizes 4 4 1 2 ExX.HEADS ExX.frequencies ExX.st
    [9; 9; 9; 9] ExX_ready). reflexivity.
Defined.

(** X22 on the four points. *)
Lemma exchange_never_lowers_objective_witness :
  ∃ st' clusters',
    exchange 4 4 1 2 ExX.HEADS ExX.frequencies ExX.st [9; 9; 9; 9]
      = Ok (st', clusters') ∧
    (fgt (XS.SUM_VAR_OBJECTIVE st') (XS.SUM_VAR_OBJECTIVE ExX.st) = true ∨
     (XS.SUM_VAR_OBJECTIVE st' = XS.SUM_VAR_OBJECTIVE ExX.st ∧
      ∀ i, 0 <= i < 4 →
        get clusters' i = label (XS.M ExX.st) (XS.PTR_NODES ExX.st) i)).
Proof.
  apply (exchange_never_lowers_objective 4 4 1 2 ExX.HEADS ExX.frequencies
           ExX.st [9; 9; 9; 9] ExX_ready). reflexivity.
Defined.


(** * The squared distance *)

Lemma for_loop_ext {St} lo hi (body body' : Z → St → res St) s :
  (∀ i s, lo <= i < hi → body i s = body' i s) →
  for_loop lo hi body s = for_loop lo hi body' s.
Proof.
  unfold for_loop. intros E.
  remember (Z.to_nat (hi - lo)) as cnt eqn:Ec.
  assert (Hb : lo + Z.of_nat cnt <= hi ∨ cnt = 0%nat) by lia. clear Ec.
  revert lo s E Hb. induction cnt as [|cnt IH]; intros lo s E Hb; simpl; [done|].
  rewrite E by lia. destruct (body' lo s); simpl; try done.
  apply IH; [intros; apply E; lia|lia].
Qed.

Lemma fsq_fsub_sym a b : fsq (fsub a b) = fsq (fsub b a).
Proof.
  destruct a, b; simpl; try done. f_equal. ring.
Qed.

Lemma Q_square_nonneg (a : Q) : (0 <= a * a)%Q.
Proof.
  destruct (Qlt_le_dec a 0) as [Hneg|Hpos].
  - assert (E : (a * a == (- a) * (- a))%Q) by ring. rewrite E.
    apply Qmult_le_0_compat; lra.
  - apply Qmult_le_0_compat; lra.
Qed.

Lemma Qc_square_nonneg (a : Qc) : (0 <= a * a)%Qc.
Proof.
  change (0 <= Qred (this a * this a))%Q. rewrite Qred_correct.
  apply Q_square_nonneg.
Qed.

Lemma Qc_square_zero (a : Qc) : (a * a = 0)%Qc → a = 0%Qc.
Proof. intros E. by destruct (Qcmult_integral _ _ E). Qed.

Lemma Qc_minus_zero (a b : Qc) : (a - b = 0)%Qc → a = b.
Proof.
  intros E. replace a with ((a - b) + b)%Qc by ring. rewrite E. ring.
Qed.

Lemma zsum_zero_terms n h :
  (∀ k, 0 <= k < Z.of_nat n → (0 <= h k)%Qc) → zsum n h = 0%Qc →
  ∀ k, 0 <= k < Z.of_nat n → h k = 0%Qc.
Proof.
  induction n as [|n IH]; intros Hnn Hs k Hk; [lia|]. simpl in Hs.
  assert (H1 : (0 <= zsum n h)%Qc) by (apply zsum_nonneg; intros; apply Hnn; lia).
  pose proof (Hnn (Z.of_nat n) ltac:(lia)) as H2.
  assert (E1 : zsum n h = 0%Qc ∧ h (Z.of_nat n) = 0%Qc).
  { split; apply Qcle_antisym; try done.
    - rewrite <- Hs. rewrite <- (Qcplus_0_r (zsum n h)) at 1.
      by apply Qcplus_le_compat; [apply Qcle_refl|].
    - rewrite <- Hs. rewrite <- (Qcplus_0_l (h (Z.of_nat n))) at 1.
      by apply Qcplus_le_compat; [|apply Qcle_refl]. }
  destruct E1 as [E1 E2].
  destruct (decide (k = Z.of_nat n)) as [->|Hne]; [done|].
  apply IH; [intros; apply Hnn; lia|done|lia].
Qed.

Lemma euclidean_squared_value x y m :
  0 <= m → len x m → len y m → finite m x → finite m y →
  euclidean_squared x y m
  = Ok (Fin (zsum (Z.to_nat m) (fun i =>
               (fin_part (get x i) - fin_part (get y i))
               * (fin_part (get x i) - fin_part (get y i)))%Qc)).
Proof.
  intros Hm Hx Hy Fx Fy.
  set (h := fun i => ((fin_part (get x i) - fin_part (get y i))
                      * (fin_part (get x i) - fin_part (get y i)))%Qc).
  unfold euclidean_squared.
  destruct (for_loop_inv (fun i s => s = Fin (zsum (Z.to_nat i) h)) 0 m
    (fun i sum => a ← rd x i; b ← rd y i; Ok (fadd sum (fsq (fsub a b))))
    (Fin 0%Qc)) as (s & -> & ->); [done|done| |done].
  intros i s Hi ->. rds m. rds m. eexists; split; [done|].
  rewrite (Fx i Hi), (Fy i Hi). simpl.
  replace (Z.to_nat (i + 1)) with (S (Z.to_nat i)) by lia. simpl.
  rewrite Z2Nat.id by lia. unfold h. done.
Qed.


(** * The incremental cluster centers *)

Lemma Qc_of_Z_nonzero f : f ≠ 0 → Qc_of_Z f ≠ 0%Qc.
Proof.
  intros Hf E. apply Hf. apply (f_equal (fun q => Qnum (this q))) in E.
  exact E.
Qed.

Lemma fdiv_fin x f : f ≠ 0 → fdiv (Fin x) f = Fin (x / Qc_of_Z f)%Qc.
Proof.
  intros Hf. simpl. unfold dbl_div.
  destruct (decide (Qc_of_Z f = 0%Qc)) as [E|_]; [|done].
  by destruct (Qc_of_Z_nonzero f Hf).
Qed.

Section Centers.
Context (fuel : nat) (n m k : Z) (HEADS frequencies : list Z).
Context (M : store) (PTR_NODES : list Z) (i j : Z).
Hypothesis Hm : 0 <= m.
Hypothesis HF : len frequencies k.
Hypothesis Hshape : shape fuel n m k HEADS M PTR_NODES.
Hypothesis Hi : 0 <= i < n.
Hypothesis Hj : 0 <= j < n.
Hypothesis Hfin : ∀ x, 0 <= x < n → finite m (El.values (element_at M PTR_NODES x)).
Hypothesis Hclusters : label M PTR_NODES i ≠ label M PTR_NODES j.

Lemma value_at_swapped x u :
  0 <= x < n →
  value_at (swapped M PTR_NODES i j).1 (swapped M PTR_NODES i j).2 x u
  = value_at M PTR_NODES x u.
Proof.
  intros Hx. destruct Hshape as (Hl & _).
  destruct (swapped_facts n M PTR_NODES i j Hl Hi Hj) as (_ & He & _).
  unfold value_at. by rewrite He.
Qed.

Lemma cluster_mean_swapped f u :
  0 <= u < m →
  cluster_mean n (swapped M PTR_NODES i j).1 (swapped M PTR_NODES i j).2
    f (label M PTR_NODES i) u
  = (cluster_mean n M PTR_NODES f (label M PTR_NODES i) u
     + (value_at M PTR_NODES j u - value_at M PTR_NODES i u) / Qc_of_Z f)%Qc ∧
  cluster_mean n (swapped M PTR_NODES i j).1 (swapped M PTR_NODES i j).2
    f (label M PTR_NODES j) u
  = (cluster_mean n M PTR_NODES f (label M PTR_NODES j) u
     + (value_at M PTR_NODES i u - value_at M PTR_NODES j u) / Qc_of_Z f)%Qc.
Proof.
  intros Hu. destruct Hshape as (Hl & _).
  assert (Hij : i ≠ j) by (intros ->; by destruct Hclusters).
  assert (Hsum : ∀ c,
    zsum (Z.to_nat n) (fun x =>
      if decide (label (swapped M PTR_NODES i j).1 (swapped M PTR_NODES i j).2 x = c)
      then value_at (swapped M PTR_NODES i j).1 (swapped M PTR_NODES i j).2 x u
      else 0%Qc)
    = (zsum (Z.to_nat n) (fun x =>
         if decide (label M PTR_NODES x = c) then value_at M PTR_NODES x u else 0%Qc)
       + ((if decide (label M PTR_NODES j = c) then value_at M PTR_NODES i u else 0)
          - (if decide (label M PTR_NODES i = c) then value_at M PTR_NODES i u else 0))
       + ((if decide (label M PTR_NODES i = c) then value_at M PTR_NODES j u else 0)
          - (if decide (label M PTR_NODES j = c) then value_at M PTR_NODES j u else 0)))%Qc).
  { intros c.
    rewrite (zsum_ext _ _ (fun x =>
      if decide (label M PTR_NODES (transpose i j x) = c)
      then value_at M PTR_NODES x u else 0%Qc)).
    2:{ intros x Hx. rewrite (swapped_label n) by (done || lia).
        by rewrite value_at_swapped by lia. }
    rewrite (zsum_change _ (fun x =>
      if decide (x = i)
      then (if decide (label M PTR_NODES j = c) then value_at M PTR_NODES i u else 0%Qc)
      else if decide (label M PTR_NODES x = c) then value_at M PTR_NODES x u
           else 0%Qc) _ j); [|lia|].
    2:{ intros x Hx Hne. unfold transpose.
        destruct (decide (x = i)) as [->|]; [done|].
        destruct (decide (x = j)); [done|done]. }
    rewrite (zsum_change _ (fun x =>
      if decide (label M PTR_NODES x = c) then value_at M PTR_NODES x u
      else 0%Qc) _ i); [|lia|].
    2:{ intros x Hx Hne. by destruct (decide (x = i)). }
    simpl. unfold transpose.
    destruct (decide (i = i)); [|done]. destruct (decide (j = i)); [congruence|].
    destruct (decide (j = j)); [|done]. ring. }
  unfold cluster_mean. rewrite !Hsum.
  destruct (decide (label M PTR_NODES i = label M PTR_NODES i)); [|done].
  destruct (decide (label M PTR_NODES j = label M PTR_NODES j)); [|done].
  destruct (decide (label M PTR_NODES j = label M PTR_NODES i)); [congruence|].
  destruct (decide (label M PTR_NODES i = label M PTR_NODES j)); [congruence|].
  unfold Qcdiv. split; ring.
Qed.


End Centers.


Lemma one_case {P : Z → Prop} : P 0 → ∀ i, 0 <= i < 1 → P i.
Proof. intros H0 i Hi. by assert (i = 0) as -> by lia. Qed.



(** * Reading the data *)

Lemma offsets_fill n m :
  0 <= m →
  ∃ m_ptr,
    for_loop 0 m (fun i m_ptr => wr m_ptr i (i * n)) (replicate (Z.to_nat m) 0)
      = Ok m_ptr ∧
    len m_ptr m ∧ ∀ j, 0 <= j < m → get m_ptr j = j * n.
Proof.
  intros Hm.
  destruct (for_loop_inv
    (fun i (a : list Z) => len a m ∧ ∀ j, 0 <= j < i → get a j = j * n) 0 m
    (fun i m_ptr => wr m_ptr i (i * n)) (replicate (Z.to_nat m) 0))
    as (a & E & Hl & Ha); [done| | |by exists a].
  - split; [|lia]. unfold len. rewrite length_replicate. lia.
  - intros i a Hi [Hl Ha]. wrs m. eexists; split; [done|].
    split; [by apply len_upd|]. intros j Hj.
    rewrite (get_upd _ m) by (done || lia).
    destruct (decide (i = j)) as [->|]; [done|]. apply Ha. lia.
Qed.

Lemma len_zeros m : 0 <= m → len (replicate (Z.to_nat m) (Fin 0%Qc)) m.
Proof. intros Hm. unfold len. rewrite length_replicate. lia. Qed.

Section Layout.
Context (fails : Z → bool) (data : list dbl) (n m : Z).
Context (clusters : list Z) (USE_CATS : Z) (categories : list Z).
Hypothesis Hn : 0 <= n.
Hypothesis Hm : 0 <= m.
Hypothesis Hdata : len data (m * n).
Hypothesis Hclusters : len clusters n.
Hypothesis Hcategories : USE_CATS ≠ 0 → len categories n.

Lemma cell_in_range i j : 0 <= i < n → 0 <= j < m → 0 <= j * n + i < m * n.
Proof. intros Hi Hj. nia. Qed.

(** The loop that copies the values of data point [i]. *)
Lemma fill_values i m_ptr P :
  0 <= i < n → len m_ptr m → (∀ j, 0 <= j < m → get m_ptr j = j * n + i) →
  len P n → len (El.values (get P i)) m →
  ∃ m_ptr' P',
    for_loop 0 m (fun j '(m_ptr, POINTS) =>
        o ← rd m_ptr j;
        m_ptr ← wr m_ptr j (o + 1);
        x ← rd data o;
        e ← rd POINTS i;
        v ← wr (El.values e) j x;
        POINTS ← wr POINTS i (El.set_values e v);
        Ok (m_ptr, POINTS)) (m_ptr, P) = Ok (m_ptr', P') ∧
    len m_ptr' m ∧ (∀ j, 0 <= j < m → get m_ptr' j = j * n + (i + 1)) ∧
    len P' n ∧ (∀ x, 0 <= x < n → x ≠ i → get P' x = get P x) ∧
    El.cluster (get P' i) = El.cluster (get P i) ∧
    El.category (get P' i) = El.category (get P i) ∧
    El.ID (get P' i) = El.ID (get P i) ∧
    len (El.values (get P' i)) m ∧
    ∀ j, 0 <= j < m → get (El.values (get P' i)) j = get data (j * n + i).
Proof.
  intros Hi Hl Hp HP Hv.
  destruct (for_loop_inv
    (fun j (st : list Z * list El.t) =>
       len st.1 m ∧
       (∀ x, 0 <= x < m →
          get st.1 x = x * n + i + (if decide (x < j) then 1 else 0)) ∧
       len st.2 n ∧ (∀ x, 0 <= x < n → x ≠ i → get st.2 x = get P x) ∧
       El.cluster (get st.2 i) = El.cluster (get P i) ∧
       El.category (get st.2 i) = El.category (get P i) ∧
       El.ID (get st.2 i) = El.ID (get P i) ∧
       len (El.values (get st.2 i)) m ∧
       ∀ x, 0 <= x < j → get (El.values (get st.2 i)) x = get data (x * n + i))
    0 m
    (fun j '(m_ptr, POINTS) =>
        o ← rd m_ptr j;
        m_ptr ← wr m_ptr j (o + 1);
        x ← rd data o;
        e ← rd POINTS i;
        v ← wr (El.values e) j x;
        POINTS ← wr POINTS i (El.set_values e v);
        Ok (m_ptr, POINTS)) (m_ptr, P))
    as ([mp' P'] & E & Hl' & Hp' & HP' & Ho & Hc & Hg & Hid & Hv' & Hd).
  - done.
  - simpl. split; [done|]. split.
    { intros x Hx. rewrite Hp by done. destruct (decide (x < 0)); lia. }
    split; [done|]. split; [done|]. repeat split; try done. intros; lia.
  - intros j [mp Q] Hj (Hl1 & Hp1 & HQ & Ho & Hc & Hg & Hid & Hv1 & Hd).
    simpl in Hl1, Hp1, HQ, Ho, Hc, Hg, Hid, Hv1, Hd.
    pose proof (cell_in_range i j Hi Hj) as Hcell.
    assert (Eo : get mp j = j * n + i).
    { rewrite Hp1 by done. destruct (decide (j < j)); lia. }
    rewrite (rd_ok mp m) by done. rewrite bind_Ok.
    rewrite (wr_ok mp m) by done. rewrite bind_Ok.
    rewrite Eo. rewrite (rd_ok data (m * n)) by done. rewrite bind_Ok.
    rewrite (rd_ok Q n) by done. rewrite bind_Ok.
    rewrite (wr_ok _ m) by done. rewrite bind_Ok.
    rewrite (wr_ok Q n) by done. rewrite bind_Ok.
    eexists; split; [done|]. simpl.
    split; [by apply len_upd|]. split.
    { intros x Hx. rewrite (get_upd _ m) by (done || lia).
      destruct (decide (j = x)) as [->|].
      - destruct (decide (x < x + 1)); lia.
      - rewrite Hp1 by done.
        destruct (decide (x < j)), (decide (x < j + 1)); lia. }
    split; [by apply len_upd|]. split.
    { intros x Hx Hne. rewrite get_upd_ne by lia. by apply Ho. }
    rewrite (get_upd_eq _ n) by done. simpl.
    split; [done|]. split; [done|]. split; [done|].
    split; [by apply len_upd|].
    intros x Hx. rewrite (get_upd _ m) by (done || lia).
    destruct (decide (j = x)) as [->|]; [done|]. apply Hd. lia.
  - simpl in Hl', Hp', HP', Ho, Hc, Hg, Hid, Hv', Hd.
    exists mp', P'. split; [done|]. split; [done|]. split.
    { intros j Hj. rewrite Hp' by done. destruct (decide (j < m)); lia. }
    split; [done|]. split; [done|]. split; [done|]. split; [done|].
    split; [done|]. split; [done|]. done.
Qed.

Lemma fill_points_from_spec cnt :
  ∀ i m_ptr P,
    0 <= i → i + Z.of_nat cnt = n →
    len m_ptr m → (∀ j, 0 <= j < m → get m_ptr j = j * n + i) →
    len P n →
    (∀ x, 0 <= x < i → filled data n m clusters USE_CATS categories x (get P x)) →
    ∃ r P',
      fill_points_from fails data m clusters USE_CATS categories cnt i m_ptr P
        = Ok (r, P') ∧
      (r = 0 ∨ r = 1) ∧
      (r = 1 ↔ ∃ x, i <= x < n ∧ fails x = true) ∧
      (r = 0 →
       len P' n ∧
       ∀ x, 0 <= x < n → filled data n m clusters USE_CATS categories x (get P' x)).
Proof.
  induction cnt as [|cnt IH]; intros i m_ptr P Hi Hc Hl Hp HP Hf.
  - simpl. exists 0, P. split; [done|]. split; [by left|]. split.
    + split; [done|]. intros (x & Hx & _). lia.
    + intros _. split; [done|]. intros x Hx. apply Hf. lia.
  - simpl.
    rewrite (rd_ok clusters n) by (done || lia). rewrite bind_Ok.
    rewrite (rd_ok P n) by (done || lia). rewrite bind_Ok.
    rewrite (wr_ok P n) by (done || lia). rewrite bind_Ok.
    set (P1 := upd P i (El.set_cluster (get P i) (get clusters i))).
    assert (HP1 : len P1 n) by (by apply len_upd).
    assert (G1 : get P1 i = El.set_cluster (get P i) (get clusters i))
      by (apply (get_upd_eq _ n); done || lia).
    set (cat := if decide (USE_CATS ≠ 0) then get categories i else 0).
    set (P2 := upd P1 i (El.set_category (get P1 i) cat)).
    assert (E2 : (if decide (USE_CATS ≠ 0) then
                    c ← rd categories i; e ← rd P1 i;
                    wr P1 i (El.set_category e c)
                  else e ← rd P1 i; wr P1 i (El.set_category e 0)) = Ok P2).
    { unfold P2, cat. destruct (decide (USE_CATS ≠ 0)) as [Hu|Hu].
      - rewrite (rd_ok categories n) by (auto || lia). rewrite bind_Ok.
        rewrite (rd_ok P1 n) by (done || lia). rewrite bind_Ok.
        by rewrite (wr_ok P1 n) by (done || lia).
      - rewrite (rd_ok P1 n) by (done || lia). rewrite bind_Ok.
        by rewrite (wr_ok P1 n) by (done || lia). }
    rewrite E2, bind_Ok.
    assert (HP2 : len P2 n) by (by apply len_upd).
    assert (G2 : get P2 i = El.set_category (get P1 i) cat)
      by (apply (get_upd_eq _ n); done || lia).
    rewrite (rd_ok P2 n) by (done || lia). rewrite bind_Ok.
    rewrite (wr_ok P2 n) by (done || lia). rewrite bind_Ok.
    set (P3 := upd P2 i (El.set_ID (get P2 i) i)).
    assert (HP3 : len P3 n) by (by apply len_upd).
    assert (G3 : get P3 i = El.set_ID (get P2 i) i)
      by (apply (get_upd_eq _ n); done || lia).
    destruct (fails i) eqn:Ef.
    { exists 1, P3. split; [done|]. split; [by right|]. split; [|done].
      split; [|done]. intros _. exists i. split; [lia|done]. }
    rewrite (rd_ok P3 n) by (done || lia). rewrite bind_Ok.
    rewrite (wr_ok P3 n) by (done || lia). rewrite bind_Ok.
    set (P4 := upd P3 i
                 (El.set_values (get P3 i) (replicate (Z.to_nat m) (Fin 0%Qc)))).
    assert (HP4 : len P4 n) by (by apply len_upd).
    assert (G4 : get P4 i
                 = El.set_values (get P3 i) (replicate (Z.to_nat m) (Fin 0%Qc)))
      by (apply (get_upd_eq _ n); done || lia).
    destruct (fill_values i m_ptr P4) as
      (mp' & P' & E & Hl' & Hp' & HP' & Ho & Hcl & Hcat & Hid & Hv & Hd);
      [lia|done|done|done| |].
    { rewrite G4. simpl. by apply len_zeros. }
    rewrite E, bind_Ok.
    destruct (IH (i + 1) mp' P') as (r & P'' & E' & Hr & Hiff & Hall);
      [lia|lia|done|done|done| |].
    { intros x Hx. destruct (decide (x = i)) as [->|Hne].
      - unfold filled. rewrite Hcl, Hcat, Hid, G4. simpl. rewrite G3. simpl.
        rewrite G2. simpl. rewrite G1. simpl. done.
      - rewrite Ho by lia. unfold P4, P3, P2, P1.
        rewrite !get_upd_ne by lia. apply Hf. lia. }
    exists r, P''. split; [done|]. split; [done|]. split; [|done].
    rewrite Hiff. split.
    + intros (x & Hx & Hfx). exists x. split; [lia|done].
    + intros (x & Hx & Hfx). exists x. split; [|done].
      destruct (decide (x = i)) as [->|]; [congruence|lia].
Qed.

(** X19.  [fill_data_points] returns 0 or 1, and 1 exactly when one of
    the [n] allocations fails.  When it returns 0, data point [i] has
    cluster [clusters[i]], category [categories[i]] (0 when [USE_CATS] is
    0), ID [i] and the [m] values [data[j * n + i]]. *)
Theorem fill_data_points_layout POINTS :
  len POINTS n →
  ∃ r P',
    fill_data_points fails data n m POINTS clusters USE_CATS categories
      = Ok (r, P') ∧
    (r = 0 ∨ r = 1) ∧
    (r = 1 ↔ ∃ x, 0 <= x < n ∧ fails x = true) ∧
    (r = 0 →
     len P' n ∧
     ∀ x, 0 <= x < n → filled data n m clusters USE_CATS categories x (get P' x)).
Proof.
  intros HP. unfold fill_data_points.
  destruct (offsets_fill n m Hm) as (m_ptr & E & Hl & Hp).
  rewrite E, bind_Ok.
  apply fill_points_from_spec; try done; try lia.
  intros j Hj. rewrite Hp by done. lia.
Qed.

End Layout.

(** X19 on two data points of two values, all allocations succeeding. *)
Lemma fill_data_points_layout_witness :
  ∃ r P',
    fill_data_points (fun _ => false)
      [Fin (q 1 1); Fin (q 2 1); Fin (q 3 1); Fin (q 4 1)] 2 2
      [El.mk 0 0 0 []; El.mk 0 0 0 []] [0; 1] 0 [] = Ok (r, P') ∧
    (r = 0 ∨ r = 1) ∧
    (r = 1 ↔ ∃ x, 0 <= x < 2 ∧ (fun _ : Z => false) x = true) ∧
    (r = 0 →
     len P' 2 ∧
     ∀ x, 0 <= x < 2 →
       filled [Fin (q 1 1); Fin (q 2 1); Fin (q 3 1); Fin (q 4 1)] 2 2
         [0; 1] 0 [] x (get P' x)).
Proof.
  apply (fill_data_points_layout (fun _ => false)
           [Fin (q 1 1); Fin (q 2 1); Fin (q 3 1); Fin (q 4 1)] 2 2 [0; 1] 0 []).
  - lia.
  - lia.
  - reflexivity.
  - reflexivity.
  - intros Hu. by destruct Hu.
  - reflexivity.
Defined.


(** * Centers and variances of the cluster lists *)

Lemma qsum_nonneg l : Forall (fun x => (0 <= x)%Qc) l → (0 <= qsum l)%Qc.
Proof.
  induction 1 as [|x l Hx _ IH]; simpl; [apply Qcle_refl|].
  rewrite <- (Qcplus_0_l 0%Qc). by apply Qcplus_le_compat.
Qed.

Section Lists.
Context (fuel : nat) (n m k : Z) (HEADS : list Z).
Context (M : store) (PTR_NODES : list Z).
Hypothesis Hm : 0 <= m.
Hypothesis Hshape : shape fuel n m k HEADS M PTR_NODES.
Hypothesis Hfin :
  ∀ x, 0 <= x < n → finite m (El.values (element_at M PTR_NODES x)).

(** One data point is added to the sums. *)
Lemma add_point i center :
  0 <= i < n → len center m → finite m center →
  ∃ center',
    for_loop 0 m (fun u center =>
        c ← rd center u;
        e ← element_of M (get PTR_NODES i);
        v ← rd (El.values e) u;
        wr center u (fadd c v)) center = Ok center' ∧
    len center' m ∧
    ∀ u, 0 <= u < m →
      get center' u
      = Fin (fin_part (get center u) + value u (element_at M PTR_NODES i)).
Proof.
  intros Hi Hl Hf. destruct Hshape as (Hlk & Hel & _).
  destruct (Hel i Hi) as [_ Hv].
  destruct (for_loop_inv
    (fun j (c : list dbl) =>
       len c m ∧
       ∀ u, 0 <= u < m →
         get c u = if decide (u < j)
                   then Fin (fin_part (get center u)
                             + value u (element_at M PTR_NODES i))
                   else get center u) 0 m
    (fun u center =>
        c ← rd center u;
        e ← element_of M (get PTR_NODES i);
        v ← rd (El.values e) u;
        wr center u (fadd c v)) center) as (c' & E & Hl' & Hc'); [done| | |].
  - split; [done|]. intros u Hu. destruct (decide (u < 0)); [lia|done].
  - intros j c Hj [Hlc Hc].
    rewrite (rd_ok c m) by done. rewrite bind_Ok.
    rewrite (element_of_linked n) by done. rewrite bind_Ok.
    rewrite (rd_ok _ m) by done. rewrite bind_Ok.
    rewrite (wr_ok c m) by done.
    eexists; split; [done|]. split; [by apply len_upd|].
    intros u Hu. rewrite (get_upd _ m) by (done || lia).
    destruct (decide (j = u)) as [->|Hne].
    + destruct (decide (u < u + 1)); [|lia].
      rewrite Hc by done. destruct (decide (u < u)); [lia|].
      rewrite (Hf u Hu). rewrite (Hfin i Hi u Hu). done.
    + rewrite Hc by done.
      destruct (decide (u < j)), (decide (u < j + 1)); done || lia.
  - exists c'. split; [done|]. split; [done|]. intros u Hu.
    rewrite Hc' by done. destruct (decide (u < m)); [done|lia].
Qed.

Lemma compute_center_from_sums f :
  ∀ x center,
    chain n M PTR_NODES f x → len center m → finite m center →
    ∃ center',
      compute_center_from f M m x center = Ok center' ∧
      len center' m ∧
      ∀ u, 0 <= u < m →
        get center' u
        = Fin (fin_part (get center u) + qsum (map (value u) (members f M x))).
Proof.
  induction f as [|f IH]; intros x center Hch Hl Hf; simpl.
  - destruct Hch as [->|[]].
    destruct (decide (NULL ≠ NULL)); [done|].
    destruct (decide (NULL = NULL)); [|done].
    exists center. split; [done|]. split; [done|]. intros u Hu. simpl.
    rewrite Qcplus_0_r. by apply Hf.
  - destruct (decide (x ≠ NULL)) as [Hx|Hx].
    + destruct (decide (x = NULL)); [done|].
      destruct Hch as [->|[(i & Hi & ->) Hch]]; [done|].
      destruct (add_point i center Hi Hl Hf) as (c1 & E1 & Hl1 & Hc1).
      rewrite E1, bind_Ok.
      destruct Hshape as (Hlk & _).
      rewrite (node_of_linked n) by done. rewrite bind_Ok.
      destruct (IH (Nd.next (get (NODES M) (get PTR_NODES i))) c1)
        as (c2 & E2 & Hl2 & Hc2); [done|done| |].
      { intros u Hu. by rewrite Hc1. }
      exists c2. split; [done|]. split; [done|]. intros u Hu.
      rewrite Hc2, Hc1 by done. simpl. f_equal.
      change (get (POINTS M) (Nd.data (get (NODES M) (get PTR_NODES i))))
        with (element_at M PTR_NODES i). ring.
    + destruct (decide (x = NULL)) as [->|]; [|by destruct Hx].
      exists center. split; [done|]. split; [done|]. intros u Hu. simpl.
      rewrite Qcplus_0_r. by apply Hf.
Qed.

Lemma cluster_var_from_sums center f :
  len center m → finite m center →
  ∀ x s,
    chain n M PTR_NODES f x →
    cluster_var_from f M m center x (Fin s)
    = Ok (Fin (s + qsum (map (sq_dist m center) (members f M x)))).
Proof.
  intros Hl Hf. destruct Hshape as (Hlk & Hel & _).
  induction f as [|f IH]; intros x s Hch; simpl.
  - destruct Hch as [->|[]].
    destruct (decide (NULL ≠ NULL)); [done|].
    destruct (decide (NULL = NULL)); [|done]. simpl. by rewrite Qcplus_0_r.
  - destruct (decide (x ≠ NULL)) as [Hx|Hx].
    + destruct (decide (x = NULL)); [done|].
      destruct Hch as [->|[(i & Hi & ->) Hch]]; [done|].
      rewrite (element_of_linked n) by done. rewrite bind_Ok.
      destruct (Hel i Hi) as [_ Hv].
      rewrite (euclidean_squared_value center
                 (El.values (element_at M PTR_NODES i)) m Hm Hl Hv Hf (Hfin i Hi)).
      rewrite bind_Ok. rewrite (node_of_linked n) by done. rewrite bind_Ok.
      simpl. rewrite IH by done. do 2 f_equal. unfold sq_dist at 2.
      change (get (POINTS M) (Nd.data (get (NODES M) (get PTR_NODES i))))
        with (element_at M PTR_NODES i). ring.
    + destruct (decide (x = NULL)) as [->|]; [|by destruct Hx].
      simpl. by rewrite Qcplus_0_r.
Qed.



End Lists.

Lemma ExX_finite :
  ∀ x, 0 <= x < 4 → finite 1 (El.values (element_at ExX.M ExX.PTR_NODES x)).
Proof.
  apply (four_cases (P := fun x => finite 1 _)); unfold finite;
    apply one_case; reflexivity.
Qed.


